(** * Tsuro rule engine: geometry, tiles, board and rule checker

    A shallow embedding of the JavaScript sources of the Tsuro referee:
    - the class [Coords] (grid coordinates),
    - the class [Position] ([Tsuro/Common/position.js]),
    - the class [Tile] (paths, rotation and equality),
    - the class [RuleChecker],
    - the actions ([Tsuro/Common/action.js]) and the constants
      ([Tsuro/Common/utils/constants.js]),
    followed by the properties of the design document that concern them.

    The sources are modelled twice.  The first model works on values: an
    object is the record of its fields, a method that mutates [this]
    returns the object after the call, and a thrown exception is the
    [Throw] case of [result].  The second model ([Store]) keeps the shared
    objects in a store of references and runs the same methods as
    computations that read, write and allocate; it is shown to compute
    what the first model computes.

    JavaScript numbers are integers here ([Z]) and strings are [string]. *)

From Stdlib Require Import ZArith Bool List Lia Ascii String DecimalString.
From stdpp Require Import base option list strings gmap.

Open Scope string_scope.
Open Scope Z_scope.

(** ** JavaScript values and exceptions *)

(** A field that holds a string or [undefined] (an array read out of range). *)
Inductive jsstring : Type :=
| Str (s : string)
| Undefined.

#[global] Instance jsstring_eq_dec : EqDecision jsstring.
Proof. solve_decision. Defined.

(** Strict equality [===] on such values. *)
Definition jsstring_eqb (a b : jsstring) : bool := bool_decide (a = b).

(** The outcome of a call: a returned value or a thrown exception. *)
Inductive result (A : Type) : Type :=
| Ok (a : A)
| Throw (e : string).
Arguments Ok {A} a.
Arguments Throw {A} e.

Definition bind {A B : Type} (m : result A) (f : A -> result B) : result B :=
  match m with
  | Ok a => f a
  | Throw e => Throw e
  end.

Declare Scope result_scope.
Delimit Scope result_scope with result.
Notation "'let*' x ':=' m 'in' k" := (bind m (fun x => k))
  (at level 10, x name, m at level 100, k at level 200) : result_scope.

(** [try { ... } catch (e) { return d; }] *)
Definition try_catch {A : Type} (m : result A) (d : A) : A :=
  match m with
  | Ok a => a
  | Throw _ => d
  end.

(** [Array.prototype.some] over a callback that may throw: the elements are
    visited in order, the first [true] ends the scan, an exception escapes. *)
Fixpoint some_r {A : Type} (f : A -> result bool) (l : list A) : result bool :=
  match l with
  | [] => Ok false
  | a :: l' =>
      match f a with
      | Ok true => Ok true
      | Ok false => some_r f l'
      | Throw e => Throw e
      end
  end.

(** ** constants.js *)

Definition BOARD_SIZE : Z := 10.

Module DIRECTIONS.
Definition NORTH : jsstring := Str "north".
Definition EAST : jsstring := Str "east".
Definition SOUTH : jsstring := Str "south".
Definition WEST : jsstring := Str "west".
End DIRECTIONS.

Definition DIRECTIONS_CLOCKWISE : list jsstring :=
  [DIRECTIONS.NORTH; DIRECTIONS.EAST; DIRECTIONS.SOUTH; DIRECTIONS.WEST].

Module PORTS.
Definition ZERO : Z := 0.
Definition ONE : Z := 1.
End PORTS.

(** [Array.prototype.indexOf]: the first index holding the value, [-1] if none. *)
Fixpoint indexOf (l : list jsstring) (v : jsstring) : Z :=
  match l with
  | [] => -1
  | a :: l' =>
      if jsstring_eqb a v then 0
      else let i := indexOf l' v in if i <? 0 then -1 else i + 1
  end.

(** An array read [arr[i]]: [undefined] outside [0 .. length-1]. *)
Definition array_get (l : list jsstring) (i : Z) : jsstring :=
  if i <? 0 then Undefined
  else match l !! Z.to_nat i with
       | Some v => v
       | None => Undefined
       end.

(** Modelled from the spec: [utils/incrementIndex.js] is not among the
    sources.  Position.rotate calls [incrementIndex(idx, arr, n)] to obtain
    the index of the side reached after [n] quarter turns; the design
    document describes rotation as the cyclic relabeling of the side under
    a 90-degree clockwise turn, so the index advances by [n] modulo the
    length of the array (JavaScript's remainder, [Z.rem]). *)
Definition incrementIndex (idx : Z) (arr : list jsstring) (n : Z) : Z :=
  Z.rem (idx + n) (Z.of_nat (length arr)).

(** ** The class Coords *)

Module Coords.

Record t : Type := mk { x : Z; y : Z }.

#[global] Instance eq_dec : EqDecision t.
Proof. solve_decision. Defined.

Definition copy (c : t) : t := mk (x c) (y c).

Definition _isValidCoordinate (value : Z) : bool :=
  (0 <=? value) && (value <? BOARD_SIZE).

(** The method mutates [this]; the returned record is the object after
    the call.  A throw leaves the object as it was. *)
Definition _moveAlongAxis (c : t) (value : Z) (isHorizontalMove isPositive : bool)
  : result t :=
  let multiplier := if isPositive then 1 else -1 in
  let newVal := (if isHorizontalMove then x c else y c) + multiplier * value in
  if negb (_isValidCoordinate newVal) then Throw "Cannot move this way"
  else Ok (if isHorizontalMove then mk newVal (y c) else mk (x c) newVal).

Definition move (c : t) (direction : jsstring) (value : Z) : result t :=
  if value <? 0 then Throw "Value must be positive"
  else if 0 <? value then
    if jsstring_eqb direction DIRECTIONS.NORTH || jsstring_eqb direction DIRECTIONS.SOUTH
    then _moveAlongAxis c value false (jsstring_eqb direction DIRECTIONS.SOUTH)
    else if jsstring_eqb direction DIRECTIONS.EAST || jsstring_eqb direction DIRECTIONS.WEST
    then _moveAlongAxis c value true (jsstring_eqb direction DIRECTIONS.EAST)
    else Throw "Invalid direction"
  else Ok c.

Definition moveOne (c : t) (direction : jsstring) : result t := move c direction 1.

Definition isEqualTo (c coords : t) : bool :=
  (x c =? x coords) && (y c =? y coords).

End Coords.

(** ** The class Position (position.js) *)

Module Position.

Record t : Type := mk { direction : jsstring; port : Z }.

#[global] Instance eq_dec : EqDecision t.
Proof. solve_decision. Defined.

Definition copy (p : t) : t := mk (direction p) (port p).

(** The position after [reflect()] has run on it. *)
Definition reflect (p : t) : t :=
  let d :=
    if jsstring_eqb (direction p) DIRECTIONS.NORTH then DIRECTIONS.SOUTH
    else if jsstring_eqb (direction p) DIRECTIONS.EAST then DIRECTIONS.WEST
    else if jsstring_eqb (direction p) DIRECTIONS.SOUTH then DIRECTIONS.NORTH
    else if jsstring_eqb (direction p) DIRECTIONS.WEST then DIRECTIONS.EAST
    else direction p in
  mk d (if port p =? PORTS.ZERO then PORTS.ONE else PORTS.ZERO).

Definition isEqualTo (p position : t) : bool :=
  jsstring_eqb (direction p) (direction position) && (port p =? port position).

(** The position after [rotate(rotations)] has run on it. *)
Definition rotate (p : t) (rotations : Z) : t :=
  let idx := indexOf DIRECTIONS_CLOCKWISE (direction p) in
  let newIdx := incrementIndex idx DIRECTIONS_CLOCKWISE rotations in
  mk (array_get DIRECTIONS_CLOCKWISE newIdx) (port p).

End Position.

(** ** The class Path *)

Module Path.

(** Modelled from the spec: the class [Path] is not among the sources.  A
    path segment is a pair of edge positions, [start] and [end] (the two
    fields Tile.render reads; [end] is a keyword here, hence [end_]).  Tile
    calls four of its methods, modelled after the design document: [copy]
    (an independent segment), [rotate] (rotates both endpoints),
    [isEqualTo] (symmetric in the two endpoints) and [getEndingPosition]
    (the other endpoint of the segment when the given position is one of
    its endpoints, nothing otherwise). *)
Record t : Type := mk { start : Position.t; end_ : Position.t }.

#[global] Instance eq_dec : EqDecision t.
Proof. solve_decision. Defined.

Definition copy (p : t) : t := mk (Position.copy (start p)) (Position.copy (end_ p)).

Definition rotate (p : t) (rotations : Z) : t :=
  mk (Position.rotate (start p) rotations) (Position.rotate (end_ p) rotations).

Definition isEqualTo (p path : t) : bool :=
  (Position.isEqualTo (start p) (start path) && Position.isEqualTo (end_ p) (end_ path))
  || (Position.isEqualTo (start p) (end_ path) && Position.isEqualTo (end_ p) (start path)).

Definition getEndingPosition (p : t) (position : Position.t) : option Position.t :=
  if Position.isEqualTo (start p) position then Some (end_ p)
  else if Position.isEqualTo (end_ p) position then Some (start p)
  else None.

End Path.

(** Modelled from the spec: [utils/polyfills.js] is not among the sources.
    [Array.prototype.first(fn)] yields the first truthy value that [fn]
    returns over the array; Tile.getEndingPosition relies on it, and the
    design document has that lookup fail with [NotFound] when no segment
    holds the position. *)
Fixpoint first {A B : Type} (fn : A -> option B) (l : list A) : result B :=
  match l with
  | [] => Throw "NotFound"
  | a :: l' =>
      match fn a with
      | Some b => Ok b
      | None => first fn l'
      end
  end.

(** ** The class Tile (the rendering methods left out) *)

Module Tile.

Record t : Type := mk { paths : list Path.t }.

#[global] Instance eq_dec : EqDecision t.
Proof. solve_decision. Defined.

(** The tile after [rotate(rotations)] has run on it: every path object of
    the tile is rotated in place. *)
Definition rotate (this : t) (rotations : Z) : t :=
  let actualRotations := Z.rem rotations (Z.of_nat (length DIRECTIONS_CLOCKWISE)) in
  if 0 <? actualRotations
  then mk (map (fun path => Path.rotate path actualRotations) (paths this))
  else this.

Definition copy (this : t) (rotations : Z) : t :=
  let tileCopy := mk (map (fun path => Path.copy path) (paths this)) in
  if 0 <? rotations then rotate tileCopy rotations else tileCopy.

Definition getEndingPosition (this : t) (position : Position.t) : result Position.t :=
  first (fun path => Path.getEndingPosition path position) (paths this).

Definition isEqualTo (this tile : t) : bool :=
  forallb (fun path => existsb (fun otherPath => Path.isEqualTo otherPath path) (paths tile))
          (paths this).

Definition isEqualToRotated (this tile : t) : bool :=
  isEqualTo this tile
  || isEqualTo this (copy tile 1)
  || isEqualTo this (copy tile 2)
  || isEqualTo this (copy tile 3).

End Tile.

(** ** The actions (action.js), and the records the rule checker reads *)

(** [Action]: the tile to place and where. *)
Module TilePlacement.
Record t : Type := mk { tile : Tile.t; coords : Coords.t }.
End TilePlacement.

(** Modelled from the spec: the class [Player] is not among the sources.  The rule
    checker reads two fields of a player, [id] and [hand] (an ordered
    sequence of tiles). *)
Module Player.
Record t : Type := mk { id : string; hand : list Tile.t }.
End Player.

(** Modelled from the spec: the class [Avatar] is not among the sources.  The rule
    checker reads two fields of an avatar: [coords], the cell it stands on,
    and [position], the port it occupies and faces. *)
Module Avatar.
Record t : Type := mk { coords : Coords.t; position : Position.t }.

#[global] Instance eq_dec : EqDecision t.
Proof. solve_decision. Defined.
End Avatar.

(** ** The board, as the rule checker sees it *)

(** The classes [Board] and [BoardState] are not among the sources.  The
    rule checker is written against this interface, and what is proved of
    it holds for every board that implements the interface; [SpecBoard]
    below is one such board, modelled from the design document.

    A [Board] wraps the [BoardState] it is built from, and its [getAvatar]
    is taken to be the lookup of that state.  A board state is a value
    here, so [boardState.copy()] followed by [new Board(...)] is the value
    itself; the model over a store further down makes the copy an
    allocation. *)
Class BoardAPI : Type := {
  BoardState : Type;
  (** [getAvatar(id)]: the avatar of the player, or nothing. *)
  getAvatar : BoardState -> string -> option Avatar.t;
  (** [getTile(coords)]: the tile placed on the cell, or nothing. *)
  getTile : BoardState -> Coords.t -> option Tile.t;
  (** [hasNeighboringTiles(coords)] *)
  hasNeighboringTiles : BoardState -> Coords.t -> bool;
  (** [placeTile(tile, coords)]: the state after the call, or the exception. *)
  placeTile : BoardState -> Tile.t -> Coords.t -> result BoardState;
  (** the static [Board.isAvatarOnOutsidePosition(coords, position)] *)
  isAvatarOnOutsidePosition : Coords.t -> Position.t -> bool;
}.

(** ** The class RuleChecker *)

(** Truthiness of an object reference that may be absent. *)
Definition present {A : Type} (o : option A) : bool :=
  match o with
  | Some _ => true
  | None => false
  end.

(** The value of an [a && b && ...] chain whose first operand is an object
    reference: the absent reference itself when there is none, a boolean
    otherwise. *)
Inductive jsvalue : Type :=
| JSAbsent
| JSBool (b : bool).

Definition truthy (v : jsvalue) : bool :=
  match v with
  | JSAbsent => false
  | JSBool b => b
  end.

Module RuleChecker.
Section WithBoard.
Context {board : BoardAPI}.
Local Open Scope result_scope.

Definition _checkPlayerAdjacency (avatar : option Avatar.t) (tilePlacement : TilePlacement.t)
  : bool :=
  match avatar with
  | None => false
  | Some av =>
      try_catch
        (let* newCoords := Coords.moveOne (Coords.copy (Avatar.coords av))
                             (Position.direction (Avatar.position av)) in
         Ok (Coords.isEqualTo newCoords (TilePlacement.coords tilePlacement)))
        false
  end.

Definition checkPlacementLegality (boardState : BoardState)
    (tilePlacement : TilePlacement.t) (player : Player.t) : jsvalue :=
  let avatar := getAvatar boardState (Player.id player) in
  match avatar with
  | None => JSAbsent
  | Some _ =>
      JSBool
        (negb (present (getTile boardState (TilePlacement.coords tilePlacement)))
         && _checkPlayerAdjacency avatar tilePlacement
         && existsb (fun tile => Tile.isEqualToRotated tile (TilePlacement.tile tilePlacement))
              (Player.hand player))
  end.

(** Reading [avatarCopy.coords] when the player has no avatar on the copy
    is a TypeError. *)
Definition checkPlacementValidity (boardState : BoardState)
    (tilePlacement : TilePlacement.t) (player : Player.t) : result bool :=
  let* boardCopy := placeTile boardState (TilePlacement.tile tilePlacement)
                      (TilePlacement.coords tilePlacement) in
  match getAvatar boardCopy (Player.id player) with
  | None => Throw "TypeError"
  | Some avatarCopy =>
      Ok (negb (isAvatarOnOutsidePosition (Avatar.coords avatarCopy)
                  (Avatar.position avatarCopy)))
  end.

(** The body of the loop [for (let j = 0; j < 4; j++)] of
    [_doesPlayerHaveValidMove], from [j] on, [n] rounds left. *)
Fixpoint rotationsFrom (boardState : BoardState) (coords : Coords.t) (id : string)
    (tile : Tile.t) (j : Z) (n : nat) : result bool :=
  match n with
  | O => Ok false
  | S n' =>
      let tileCopy := Tile.copy tile j in
      let* boardCopy := placeTile boardState tileCopy coords in
      match getAvatar boardCopy id with
      | None => Throw "TypeError"
      | Some avatarCopy =>
          if negb (isAvatarOnOutsidePosition (Avatar.coords avatarCopy)
                     (Avatar.position avatarCopy))
          then Ok true
          else rotationsFrom boardState coords id tile (j + 1) n'
      end
  end.

Definition _doesPlayerHaveValidMove (boardState : BoardState) (coords : Coords.t)
    (player : Player.t) : result bool :=
  some_r (fun tile => rotationsFrom boardState coords (Player.id player) tile 0 4)
         (Player.hand player).

Definition checkHandValidity (boardState : BoardState)
    (tilePlacement : TilePlacement.t) (player : Player.t) : result bool :=
  let* valid := checkPlacementValidity boardState tilePlacement player in
  if valid then Ok true
  else _doesPlayerHaveValidMove boardState (TilePlacement.coords tilePlacement) player.

Definition canTakeAction (boardState : BoardState)
    (tilePlacement : TilePlacement.t) (player : Player.t) : result bool :=
  if truthy (checkPlacementLegality boardState tilePlacement player)
  then checkHandValidity boardState tilePlacement player
  else Ok false.

Definition checkIsMoveOnBoard (coords : Coords.t) (tile : Tile.t) (position : Position.t)
  : result bool :=
  let coordsCopy := Coords.copy coords in
  let* ending := Tile.getEndingPosition tile position in
  Ok (try_catch
        (let* _moved := Coords.moveOne coordsCopy (Position.direction ending) in Ok true)
        false).

Definition canPlaceAvatar (boardState : BoardState) (playerId : string)
    (coords : Coords.t) (tile : Tile.t) (position : Position.t) : result bool :=
  if isAvatarOnOutsidePosition coords position
     && negb (present (getAvatar boardState playerId))
     && negb (present (getTile boardState coords))
     && negb (hasNeighboringTiles boardState coords)
  then checkIsMoveOnBoard coords tile position
  else Ok false.

End WithBoard.
End RuleChecker.

(** ** A board modelled from the design document *)

Module SpecBoard.

(** Modelled from the spec: the class [BoardState] is not among the
    sources.  A board state is a sparse mapping from coordinates to placed
    tiles and a mapping from player identifiers to avatars (kept in
    insertion order). *)
Record state : Type := mk {
  tiles : gmap (Z * Z) Tile.t;
  avatars : list (string * Avatar.t);
}.

(** Coordinates index the tile mapping by value. *)
Definition key (c : Coords.t) : Z * Z := (Coords.x c, Coords.y c).

(** The lookup of an identifier in the avatar mapping. *)
Fixpoint assoc (id : string) (l : list (string * Avatar.t)) : option Avatar.t :=
  match l with
  | [] => None
  | (k, v) :: l' => if String.eqb k id then Some v else assoc id l'
  end.

(** Modelled from the spec: the lookups of [BoardState], which return an
    absent result rather than failing. *)
Definition getAvatar (s : state) (id : string) : option Avatar.t := assoc id (avatars s).

Definition getTile (s : state) (c : Coords.t) : option Tile.t := tiles s !! key c.

(** Modelled from the spec: [hasNeighboringTiles] of [BoardState], true
    when one of the four orthogonal neighbor coordinates holds a tile. *)
Definition hasNeighboringTiles (s : state) (c : Coords.t) : bool :=
  present (tiles s !! (Coords.x c, Coords.y c - 1))
  || present (tiles s !! (Coords.x c + 1, Coords.y c))
  || present (tiles s !! (Coords.x c, Coords.y c + 1))
  || present (tiles s !! (Coords.x c - 1, Coords.y c)).

(** Modelled from the spec: the static [isAvatarOnOutsidePosition] of
    [Board], true when the exit of the position leaves the grid: the cell
    lies on an outer row or column and the position is on the side that
    faces outwards. *)
Definition isAvatarOnOutsidePosition (c : Coords.t) (p : Position.t) : bool :=
  ((Coords.y c =? 0) && jsstring_eqb (Position.direction p) DIRECTIONS.NORTH)
  || ((Coords.x c =? BOARD_SIZE - 1) && jsstring_eqb (Position.direction p) DIRECTIONS.EAST)
  || ((Coords.y c =? BOARD_SIZE - 1) && jsstring_eqb (Position.direction p) DIRECTIONS.SOUTH)
  || ((Coords.x c =? 0) && jsstring_eqb (Position.direction p) DIRECTIONS.WEST).

(** Modelled from the spec: the movement simulation of [Board], one hop
    at a time.  The convention for where an avatar stands is the one the
    rule checker of the sources fixes in [_checkPlayerAdjacency]: [coords]
    is the cell of the tile the avatar is on and [position] the port it
    faces, so that the cell ahead is one step from [coords] in the
    direction of [position].  A hop moves to the cell ahead when it holds a
    tile, enters it through the reflection of the port and leaves it
    through the other end of that segment.  When the step ahead leaves the
    grid the avatar is eliminated: the result is no avatar, and
    [moveAvatars] removes it from the mapping.  When the cell ahead is
    empty the avatar rests.  The number of hops is bounded; exceeding the
    bound is [InfiniteLoopDetected]. *)
Fixpoint hops (placed : gmap (Z * Z) Tile.t) (fuel : nat) (av : Avatar.t)
  : result (option Avatar.t) :=
  match Coords.moveOne (Coords.copy (Avatar.coords av))
          (Position.direction (Avatar.position av)) with
  | Throw _ => Ok None
  | Ok ahead =>
      match placed !! key ahead with
      | None => Ok (Some av)
      | Some tile =>
          match fuel with
          | O => Throw "InfiniteLoopDetected"
          | S fuel' =>
              bind (Tile.getEndingPosition tile
                      (Position.reflect (Position.copy (Avatar.position av))))
                   (fun exit => hops placed fuel' (Avatar.mk ahead exit))
          end
      end
  end.

(** Modelled from the spec: the avatars that move are those that now have
    the freshly placed tile ahead of them. *)
Definition faces (av : Avatar.t) (c : Coords.t) : bool :=
  match Coords.moveOne (Coords.copy (Avatar.coords av))
          (Position.direction (Avatar.position av)) with
  | Ok ahead => Coords.isEqualTo ahead c
  | Throw _ => false
  end.

(** Modelled from the spec: the simulation runs for every avatar that
    faces the new tile, in the order of the mapping; an avatar that is
    eliminated leaves the mapping, the others keep their place in it. *)
Fixpoint moveAvatars (placed : gmap (Z * Z) Tile.t) (c : Coords.t) (fuel : nat)
    (l : list (string * Avatar.t)) : result (list (string * Avatar.t)) :=
  match l with
  | [] => Ok []
  | (id, av) :: l' =>
      bind (if faces av c then hops placed fuel av else Ok (Some av)) (fun moved =>
      bind (moveAvatars placed c fuel l') (fun rest =>
      Ok (match moved with
          | Some av' => (id, av') :: rest
          | None => rest
          end)))
  end.

(** Modelled from the spec: [placeTile] of [Board]; it fails with
    [OccupiedCoordinate] when the cell holds a tile, and otherwise records
    the tile and moves the avatars.  Every hop enters a placed tile through
    one of its eight ports, which bounds the hops by eight per tile. *)
Definition placeTile (s : state) (tile : Tile.t) (c : Coords.t) : result state :=
  if present (getTile s c) then Throw "OccupiedCoordinate"
  else
    let placed := <[key c := tile]> (tiles s) in
    bind (moveAvatars placed c (8 * size placed)%nat (avatars s))
         (fun moved => Ok (mk placed moved)).

End SpecBoard.

#[global] Instance SpecBoard_api : BoardAPI := {|
  BoardState := SpecBoard.state;
  getAvatar := SpecBoard.getAvatar;
  getTile := SpecBoard.getTile;
  hasNeighboringTiles := SpecBoard.hasNeighboringTiles;
  placeTile := SpecBoard.placeTile;
  isAvatarOnOutsidePosition := SpecBoard.isAvatarOnOutsidePosition;
|}.

(** ** The rule checker over a store of objects *)

(** The model above works on values.  This one keeps the objects that the
    JavaScript code shares and mutates in a store, so that the effect of a
    call on the objects it was given can be stated: [Coords.move] writes the
    fields of [this], [Tile.rotate] turns the path objects of the tile in
    place, [placeTile] changes the board state it is called on and moves
    the avatar objects of that state, and the [copy] methods allocate. *)
Module Store.
Section WithBoard.
Context {board : BoardAPI}.

(** A reference to an object is its index in the store. *)
Abbreviation loc := nat (only parsing).

(** The objects of the store.  A Coords object holds its two fields and a
    Position object its two; a Path object holds its two Position objects,
    which no other object shares; a Tile object holds the array of
    references to its Path objects; an Avatar object holds the references
    to its Coords object and to its Position object; a BoardState object
    holds the state of the board behind the interface, with its tile
    mapping, and its avatar mapping: the identifiers of the players with
    the references to their Avatar objects, in the order of the mapping. *)
Inductive obj : Type :=
| OCoords (c : Coords.t)
| OPosition (p : Position.t)
| OPath (p : Path.t)
| OTile (paths : list loc)
| OAvatar (coords : loc) (position : loc)
| OBoardState (s : BoardState) (avatars : list (string * loc)).

(** The store: the object of reference [l] is the element of index [l]; a
    new object goes to the end. *)
Abbreviation heap := (list obj) (only parsing).

(** A computation reads and writes the store and returns or throws; what it
    wrote before a throw stays written. *)
Definition M (A : Type) : Type := heap -> result A * heap.

Definition ret {A : Type} (a : A) : M A := fun h => (Ok a, h).

Definition throw {A : Type} (e : string) : M A := fun h => (Throw e, h).

Definition lift {A : Type} (r : result A) : M A := fun h => (r, h).

Definition bind {A B : Type} (m : M A) (f : A -> M B) : M B :=
  fun h =>
    match m h with
    | (Ok a, h') => f a h'
    | (Throw e, h') => (Throw e, h')
    end.

Notation "'let!' x ':=' m 'in' k" := (bind m (fun x => k))
  (at level 10, x name, m at level 100, k at level 200).

(** [try { ... } catch (e) { return d; }] *)
Definition try_catch {A : Type} (m : M A) (d : A) : M A :=
  fun h =>
    match m h with
    | (Ok a, h') => (Ok a, h')
    | (Throw _, h') => (Ok d, h')
    end.

Definition alloc (o : obj) : M loc := fun h => (Ok (length h), (h ++ [o])%list).

Definition load (l : loc) : M obj :=
  fun h =>
    match h !! l with
    | Some o => (Ok o, h)
    | None => (Throw "TypeError", h)
    end.

Definition store (l : loc) (o : obj) : M unit := fun h => (Ok tt, <[l := o]> h).

Definition load_coords (l : loc) : M Coords.t :=
  let! o := load l in
  match o with OCoords c => ret c | _ => throw "TypeError" end.

Definition load_path (l : loc) : M Path.t :=
  let! o := load l in
  match o with OPath p => ret p | _ => throw "TypeError" end.

Definition load_tile (l : loc) : M (list loc) :=
  let! o := load l in
  match o with OTile paths => ret paths | _ => throw "TypeError" end.

Definition load_position (l : loc) : M Position.t :=
  let! o := load l in
  match o with OPosition p => ret p | _ => throw "TypeError" end.

(** The two fields of an Avatar object: [coords] and [position]. *)
Definition load_avatar (l : loc) : M (loc * loc) :=
  let! o := load l in
  match o with OAvatar c p => ret (c, p) | _ => throw "TypeError" end.

Definition load_board (l : loc) : M (BoardState * list (string * loc)) :=
  let! o := load l in
  match o with OBoardState s avatars => ret (s, avatars) | _ => throw "TypeError" end.

(** [Array.prototype.map] with a callback that runs in the store. *)
Fixpoint mapM {A B : Type} (f : A -> M B) (l : list A) : M (list B) :=
  match l with
  | [] => ret []
  | a :: l' =>
      let! b := f a in
      let! bs := mapM f l' in
      ret (b :: bs)
  end.

(** [Array.prototype.some] with a callback that runs in the store. *)
Fixpoint someM {A : Type} (f : A -> M bool) (l : list A) : M bool :=
  match l with
  | [] => ret false
  | a :: l' =>
      let! found := f a in
      if found then ret true else someM f l'
  end.

(** *** The class Coords *)

Definition Coords_copy (this : loc) : M loc :=
  let! c := load_coords this in
  alloc (OCoords (Coords.copy c)).

(** [moveOne] writes the fields of [this] and returns [this]. *)
Definition Coords_moveOne (this : loc) (direction : jsstring) : M loc :=
  let! c := load_coords this in
  let! moved := lift (Coords.moveOne c direction) in
  let! _ := store this (OCoords moved) in
  ret this.

Definition Coords_isEqualTo (this coords : loc) : M bool :=
  let! c := load_coords this in
  let! d := load_coords coords in
  ret (Coords.isEqualTo c d).

(** *** The class Position *)

Definition Position_copy (this : loc) : M loc :=
  let! p := load_position this in
  alloc (OPosition (Position.copy p)).

(** *** The class Path (modelled from the design document, as [Path] above) *)

Definition Path_copy (this : loc) : M loc :=
  let! p := load_path this in
  alloc (OPath (Path.copy p)).

Definition Path_rotate (this : loc) (rotations : Z) : M unit :=
  let! p := load_path this in
  store this (OPath (Path.rotate p rotations)).

(** *** The class Tile *)

(** [this.paths = this.paths.map(path => { path.rotate(n); return path; })] *)
Definition Tile_rotate (this : loc) (rotations : Z) : M unit :=
  let actualRotations := Z.rem rotations (Z.of_nat (length DIRECTIONS_CLOCKWISE)) in
  if 0 <? actualRotations then
    let! paths := load_tile this in
    let! rotated := mapM (fun path => let! _ := Path_rotate path actualRotations in ret path)
                      paths in
    store this (OTile rotated)
  else ret tt.

Definition Tile_copy (this : loc) (rotations : Z) : M loc :=
  let! paths := load_tile this in
  let! copies := mapM Path_copy paths in
  let! tileCopy := alloc (OTile copies) in
  if 0 <? rotations then
    let! _ := Tile_rotate tileCopy rotations in ret tileCopy
  else ret tileCopy.

(** The value of a tile: what its path objects hold at the moment. *)
Definition Tile_read (this : loc) : M Tile.t :=
  let! paths := load_tile this in
  let! ps := mapM load_path paths in
  ret (Tile.mk ps).

Definition Tile_getEndingPosition (this position : loc) : M Position.t :=
  let! t := Tile_read this in
  let! p := load_position position in
  lift (Tile.getEndingPosition t p).

Definition Tile_isEqualTo (this tile : loc) : M bool :=
  let! a := Tile_read this in
  let! b := Tile_read tile in
  ret (Tile.isEqualTo a b).

(** The operands of [||] run from left to right, up to the first true one. *)
Definition Tile_isEqualToRotated (this tile : loc) : M bool :=
  let! e0 := Tile_isEqualTo this tile in
  if e0 then ret true else
  let! c1 := Tile_copy tile 1 in
  let! e1 := Tile_isEqualTo this c1 in
  if e1 then ret true else
  let! c2 := Tile_copy tile 2 in
  let! e2 := Tile_isEqualTo this c2 in
  if e2 then ret true else
  let! c3 := Tile_copy tile 3 in
  Tile_isEqualTo this c3.

(** *** The board (behind [BoardAPI]) *)

(** The lookup of an identifier in the avatar mapping of a BoardState
    object. *)
Fixpoint assoc (id : string) (l : list (string * loc)) : option loc :=
  match l with
  | [] => None
  | (k, v) :: l' => if String.eqb k id then Some v else assoc id l'
  end.

(** Modelled from the spec: the deep clone of an avatar is a new Avatar
    object with a new Coords object and a new Position object. *)
Definition Avatar_copy (this : loc) : M loc :=
  let! a := load_avatar this in
  let! coordsCopy := Coords_copy (fst a) in
  let! positionCopy := Position_copy (snd a) in
  alloc (OAvatar coordsCopy positionCopy).

(** Modelled from the spec: [boardState.copy()] is a deep clone, a new
    object with new Avatar objects that shares nothing that can change
    with the original. *)
Definition BoardState_copy (this : loc) : M loc :=
  let! b := load_board this in
  let! copies := mapM (fun entry => let! a := Avatar_copy (snd entry) in ret (fst entry, a))
                   (snd b) in
  alloc (OBoardState (fst b) copies).

(** Modelled from the spec: the movement of [placeTile] writes the avatar
    objects of the board state it runs on.  The Coords object and the
    Position object of an avatar that stays on the board get the fields
    the movement gives them; an avatar that is eliminated leaves the
    mapping. *)
Definition Board_moveAvatar (moved : BoardState) (entry : string * loc)
  : M (option (string * loc)) :=
  match getAvatar moved (fst entry) with
  | None => ret None
  | Some av =>
      let! a := load_avatar (snd entry) in
      let! _ := load_coords (fst a) in
      let! _ := store (fst a) (OCoords (Avatar.coords av)) in
      let! _ := load_position (snd a) in
      let! _ := store (snd a) (OPosition (Avatar.position av)) in
      ret (Some entry)
  end.

(** [new Board(state)] wraps the state object; the board is identified with
    it.  [placeTile] changes that state object and the avatar objects of
    its mapping. *)
Definition Board_placeTile (this tile coords : loc) : M unit :=
  let! b := load_board this in
  let! t := Tile_read tile in
  let! c := load_coords coords in
  let! s' := lift (placeTile (fst b) t c) in
  let! moved := mapM (Board_moveAvatar s') (snd b) in
  store this (OBoardState s' (omap (fun entry => entry) moved)).

(** [getAvatar] returns the Avatar object of the mapping itself. *)
Definition Board_getAvatar (this : loc) (id : string) : M (option loc) :=
  let! b := load_board this in
  ret (assoc id (snd b)).

Definition BoardState_getTile (this coords : loc) : M (option Tile.t) :=
  let! b := load_board this in
  let! c := load_coords coords in
  ret (getTile (fst b) c).

Definition BoardState_hasNeighboringTiles (this coords : loc) : M bool :=
  let! b := load_board this in
  let! c := load_coords coords in
  ret (hasNeighboringTiles (fst b) c).

Definition Board_isAvatarOnOutsidePosition (coords position : loc) : M bool :=
  let! c := load_coords coords in
  let! p := load_position position in
  ret (isAvatarOnOutsidePosition c p).

(** *** The class RuleChecker *)

(** The action and the player hold references. *)
Record placement : Type := mkPlacement { tile : loc; coords : loc }.

Record player : Type := mkPlayer { id : string; hand : list loc }.

(** [const { coords, position } = avatar] reads the two fields of the
    Avatar object; [coords.copy().moveOne(position.direction)] allocates the
    copy, reads the direction and moves the copy. *)
Definition _checkPlayerAdjacency (avatar : option loc) (tilePlacement : placement)
  : M bool :=
  match avatar with
  | None => ret false
  | Some av =>
      let! a := load_avatar av in
      try_catch
        (let! coordsCopy := Coords_copy (fst a) in
         let! position := load_position (snd a) in
         let! newCoords := Coords_moveOne coordsCopy (Position.direction position) in
         Coords_isEqualTo newCoords (coords tilePlacement))
        false
  end.

Definition checkPlacementLegality (boardState : loc) (tilePlacement : placement)
    (p : player) : M jsvalue :=
  let! avatar := Board_getAvatar boardState (id p) in
  match avatar with
  | None => ret JSAbsent
  | Some _ =>
      let! placed := BoardState_getTile boardState (coords tilePlacement) in
      if present placed then ret (JSBool false) else
      let! adjacent := _checkPlayerAdjacency avatar tilePlacement in
      if negb adjacent then ret (JSBool false) else
      let! inHand := someM (fun t => Tile_isEqualToRotated t (tile tilePlacement)) (hand p) in
      ret (JSBool inHand)
  end.

(** [!Board.isAvatarOnOutsidePosition(avatarCopy.coords, avatarCopy.position)];
    reading the fields of an absent avatar is a TypeError. *)
Definition isAvatarAlive (avatarCopy : option loc) : M bool :=
  match avatarCopy with
  | None => throw "TypeError"
  | Some av =>
      let! a := load_avatar av in
      let! outside := Board_isAvatarOnOutsidePosition (fst a) (snd a) in
      ret (negb outside)
  end.

Definition checkPlacementValidity (boardState : loc) (tilePlacement : placement)
    (p : player) : M bool :=
  let! boardCopy := BoardState_copy boardState in
  let! _ := Board_placeTile boardCopy (tile tilePlacement) (coords tilePlacement) in
  let! avatarCopy := Board_getAvatar boardCopy (id p) in
  isAvatarAlive avatarCopy.

Fixpoint rotationsFrom (boardState coordsToPlace : loc) (playerId : string)
    (t : loc) (j : Z) (n : nat) : M bool :=
  match n with
  | O => ret false
  | S n' =>
      let! boardCopy := BoardState_copy boardState in
      let! tileCopy := Tile_copy t j in
      let! _ := Board_placeTile boardCopy tileCopy coordsToPlace in
      let! avatarCopy := Board_getAvatar boardCopy playerId in
      let! alive := isAvatarAlive avatarCopy in
      if alive then ret true
      else rotationsFrom boardState coordsToPlace playerId t (j + 1) n'
  end.

Definition _doesPlayerHaveValidMove (boardState coordsToPlace : loc) (p : player) : M bool :=
  someM (fun t => rotationsFrom boardState coordsToPlace (id p) t 0 4) (hand p).

Definition checkHandValidity (boardState : loc) (tilePlacement : placement) (p : player)
  : M bool :=
  let! valid := checkPlacementValidity boardState tilePlacement p in
  if valid then ret true
  else _doesPlayerHaveValidMove boardState (coords tilePlacement) p.

Definition canTakeAction (boardState : loc) (tilePlacement : placement) (p : player)
  : M bool :=
  let! legal := checkPlacementLegality boardState tilePlacement p in
  if truthy legal then checkHandValidity boardState tilePlacement p
  else ret false.

Definition checkIsMoveOnBoard (coordsToPlace t position : loc) : M bool :=
  let! coordsCopy := Coords_copy coordsToPlace in
  let! ending := Tile_getEndingPosition t position in
  try_catch
    (let! _ := Coords_moveOne coordsCopy (Position.direction ending) in ret true)
    false.

Definition canPlaceAvatar (boardState : loc) (playerId : string)
    (coordsToPlace t position : loc) : M bool :=
  let! outside := Board_isAvatarOnOutsidePosition coordsToPlace position in
  if negb outside then ret false else
  let! avatar := Board_getAvatar boardState playerId in
  if present avatar then ret false else
  let! placed := BoardState_getTile boardState coordsToPlace in
  if present placed then ret false else
  let! neighbors := BoardState_hasNeighboringTiles boardState coordsToPlace in
  if neighbors then ret false else
  checkIsMoveOnBoard coordsToPlace t position.

(** The store [h'] holds every object of [h] unchanged, and new objects
    after them. *)
Definition extends (h h' : heap) : Prop := exists fresh, h' = (h ++ fresh)%list.

(** The objects of the store [h] that stand for the values of the first
    model: a reference stands for the value its object holds. *)
Definition holds_coords (h : heap) (l : loc) (c : Coords.t) : Prop :=
  h !! l = Some (OCoords c).

Definition holds_path (h : heap) (l : loc) (p : Path.t) : Prop :=
  h !! l = Some (OPath p).

Definition holds_tile (h : heap) (l : loc) (t : Tile.t) : Prop :=
  exists paths, h !! l = Some (OTile paths) /\ Forall2 (holds_path h) paths (Tile.paths t).

Definition holds_position (h : heap) (l : loc) (p : Position.t) : Prop :=
  h !! l = Some (OPosition p).

Definition holds_avatar (h : heap) (l : loc) (av : Avatar.t) : Prop :=
  exists lc lp, h !! l = Some (OAvatar lc lp)
                /\ holds_coords h lc (Avatar.coords av)
                /\ holds_position h lp (Avatar.position av).

(** The avatar mapping of a BoardState object stands for the avatars of the
    state: each identifier of the mapping has the Avatar object of its
    avatar, and the mapping has no other identifier. *)
Definition holds_avatars (h : heap) (avatars : list (string * loc)) (s : BoardState)
  : Prop :=
  forall id, match assoc id avatars with
             | Some l => exists av, getAvatar s id = Some av /\ holds_avatar h l av
             | None => getAvatar s id = None
             end.

(** The Coords and Position objects of the avatars of a mapping. *)
Definition avatar_fields (h : heap) (avatars : list (string * loc)) : list loc :=
  flat_map (fun entry => match h !! snd entry with
                         | Some (OAvatar lc lp) => [lc; lp]
                         | _ => []
                         end) avatars.

(** A BoardState object stands for a state: it holds the state, its avatar
    mapping stands for the avatars of the state, no identifier occurs
    twice, and no two avatars share a Coords or a Position object. *)
Definition holds_board (h : heap) (l : loc) (s : BoardState) : Prop :=
  exists avatars, h !! l = Some (OBoardState s avatars)
                  /\ holds_avatars h avatars s
                  /\ List.NoDup (map fst avatars)
                  /\ List.NoDup (avatar_fields h avatars).

Definition holds_placement (h : heap) (tp : placement) (v : TilePlacement.t) : Prop :=
  holds_tile h (tile tp) (TilePlacement.tile v)
  /\ holds_coords h (coords tp) (TilePlacement.coords v).

Definition holds_player (h : heap) (p : player) (v : Player.t) : Prop :=
  id p = Player.id v /\ Forall2 (holds_tile h) (hand p) (Player.hand v).

(** The avatars of a mapping are Avatar objects with a Coords object and a
    Position object each, at the references from [n] on. *)
Definition avatars_above (n : nat) (h : heap) (avatars : list (string * loc)) : Prop :=
  Forall (fun entry => exists lc lp c p,
            h !! snd entry = Some (OAvatar lc lp)
            /\ h !! lc = Some (OCoords c) /\ h !! lp = Some (OPosition p)
            /\ (n <= lc)%nat /\ (n <= lp)%nat) avatars.

(** A copy of the board: the object of reference [l] stands for the state
    [s] and its avatars are objects of their own, at the references from
    [n] on. *)
Definition holds_copy (n : nat) (h : heap) (l : loc) (s : BoardState) : Prop :=
  exists copies,
    (n <= l)%nat
    /\ h !! l = Some (OBoardState s copies)
    /\ holds_avatars h copies s
    /\ List.NoDup (map fst copies)
    /\ avatars_above n h copies
    /\ List.NoDup (avatar_fields h copies).

(** An object that refers to no object of [h0]: the objects referred to
    are those that a method writes through the object that holds them, the
    paths of a tile in [Tile.rotate], the avatars of a board state and
    their Coords and Position objects in [placeTile]. *)
Definition fresh_obj (h0 : heap) (o : obj) : Prop :=
  match o with
  | OTile paths => Forall (fun path => (length h0 <= path)%nat) paths
  | OAvatar lc lp => (length h0 <= lc)%nat /\ (length h0 <= lp)%nat
  | OBoardState _ avatars => Forall (fun entry => (length h0 <= snd entry)%nat) avatars
  | _ => True
  end.

(** The stores a call goes through when it starts in [h0]: the objects of
    [h0] are unchanged and the objects allocated since refer to objects
    allocated since. *)
Definition fresh_above (h0 h : heap) : Prop :=
  exists fresh, h = (h0 ++ fresh)%list /\ Forall (fresh_obj h0) fresh.

(** The computation [m] keeps the stores within [fresh_above h0], and what
    it returns satisfies [R]. *)
Definition framed {A : Type} (h0 : heap) (m : M A) (R : A -> Prop) : Prop :=
  forall h, fresh_above h0 h ->
    fresh_above h0 (snd (m h)) /\ forall a, fst (m h) = Ok a -> R a.

End WithBoard.
End Store.

(** ** Vocabulary of the design document *)

(** A coordinate of the 10x10 grid. *)
Definition on_grid (c : Coords.t) : Prop :=
  0 <= Coords.x c < BOARD_SIZE /\ 0 <= Coords.y c < BOARD_SIZE.

Definition valid_direction (d : jsstring) : Prop :=
  d = DIRECTIONS.NORTH \/ d = DIRECTIONS.EAST \/ d = DIRECTIONS.SOUTH \/ d = DIRECTIONS.WEST.

(** The one-step translation of a coordinate: rows grow southwards, columns
    eastwards. *)
Definition translate (c : Coords.t) (d : jsstring) : Coords.t :=
  if jsstring_eqb d DIRECTIONS.NORTH then Coords.mk (Coords.x c) (Coords.y c - 1)
  else if jsstring_eqb d DIRECTIONS.EAST then Coords.mk (Coords.x c + 1) (Coords.y c)
  else if jsstring_eqb d DIRECTIONS.SOUTH then Coords.mk (Coords.x c) (Coords.y c + 1)
  else if jsstring_eqb d DIRECTIONS.WEST then Coords.mk (Coords.x c - 1) (Coords.y c)
  else c.

(** The coordinate that changes in a step towards [d], after the step. *)
Definition moved_coordinate (c : Coords.t) (d : jsstring) : Z :=
  if jsstring_eqb d DIRECTIONS.NORTH || jsstring_eqb d DIRECTIONS.SOUTH
  then Coords.y (translate c d)
  else Coords.x (translate c d).

(** A step from [c] towards [d] that stays on the grid: [d] is one of the
    four directions and the coordinate that moves stays within the board. *)
Definition step_on_grid (c : Coords.t) (d : jsstring) : Prop :=
  valid_direction d /\ 0 <= moved_coordinate c d < BOARD_SIZE.

(** The placement [_doesPlayerHaveValidMove] simulates for a tile of the
    hand and a rotation count [j]: the copy [tile.copy(j)] at the coordinate
    of the submission. *)
Definition rotated_placement (tile : Tile.t) (j : Z) (coords : Coords.t) : TilePlacement.t :=
  TilePlacement.mk (Tile.copy tile j) coords.

(** The eight ports of a tile, two on each side. *)
Definition all_ports : list Position.t :=
  [Position.mk DIRECTIONS.NORTH 0; Position.mk DIRECTIONS.NORTH 1;
   Position.mk DIRECTIONS.EAST 0; Position.mk DIRECTIONS.EAST 1;
   Position.mk DIRECTIONS.SOUTH 0; Position.mk DIRECTIONS.SOUTH 1;
   Position.mk DIRECTIONS.WEST 0; Position.mk DIRECTIONS.WEST 1].

Definition endpoints (t : Tile.t) : list Position.t :=
  flat_map (fun p => [Path.start p; Path.end_ p]) (Tile.paths t).

(** The tile invariant: four segments, and each of the eight ports is an
    endpoint of exactly one of them. *)
Definition tile_invariant (t : Tile.t) : bool :=
  (length (Tile.paths t) =? 4)%nat
  && forallb (fun q => (count_occ Position.eq_dec (endpoints t) q =? 1)%nat) all_ports.

(** Two segments are the same unordered pair of ports. *)
Definition same_segment (p q : Path.t) : Prop :=
  (Path.start p = Path.start q /\ Path.end_ p = Path.end_ q)
  \/ (Path.start p = Path.end_ q /\ Path.end_ p = Path.start q).

(** The segment [p] belongs to the segment set of [t]. *)
Definition has_segment (t : Tile.t) (p : Path.t) : Prop :=
  exists q, In q (Tile.paths t) /\ same_segment q p.

(** The segment sets of two tiles match exactly, as unordered sets. *)
Definition same_segments (a b : Tile.t) : Prop :=
  forall p, has_segment a p <-> has_segment b p.

(** ** Concrete tiles and boards used in the examples *)

Module Examples.
Import DIRECTIONS.

(** The tile whose four segments run straight across: N0-S1, N1-S0,
    E0-W1, E1-W0.  Every rotation of it is straight again. *)
Definition straight : Tile.t :=
  Tile.mk
    [Path.mk (Position.mk NORTH 0) (Position.mk SOUTH 1);
     Path.mk (Position.mk NORTH 1) (Position.mk SOUTH 0);
     Path.mk (Position.mk EAST 0) (Position.mk WEST 1);
     Path.mk (Position.mk EAST 1) (Position.mk WEST 0)].

(** The tile whose segments are the four U-turns: each port is joined to
    the other port of its side. *)
Definition uturns : Tile.t :=
  Tile.mk
    [Path.mk (Position.mk NORTH 0) (Position.mk NORTH 1);
     Path.mk (Position.mk EAST 0) (Position.mk EAST 1);
     Path.mk (Position.mk SOUTH 0) (Position.mk SOUTH 1);
     Path.mk (Position.mk WEST 0) (Position.mk WEST 1)].

(** A board with one tile, at (1,0), and the avatar of "red" on it, on
    port 0 of its west side: the avatar faces the corner cell (0,0). *)
Definition corner_board : SpecBoard.state :=
  SpecBoard.mk (<[(1, 0) := straight]> ∅)
    [("red", Avatar.mk (Coords.mk 1 0) (Position.mk WEST 0))].

(** The empty board. *)
Definition empty_board : SpecBoard.state := SpecBoard.mk ∅ [].

(** A board with one tile, at the corner cell (0,0), and the avatar of
    "red" on it at the starting position west/0, which is on the outer edge
    of the board ([canPlaceAvatar] accepts this start on the empty board):
    the avatar faces no cell of the grid. *)
Definition start_board : SpecBoard.state :=
  SpecBoard.mk (<[(0, 0) := straight]> ∅)
    [("red", Avatar.mk (Coords.mk 0 0) (Position.mk WEST 0))].

(** "red" holding the straight tile only, and holding both tiles. *)
Definition red_forced : Player.t := Player.mk "red" [straight].
Definition red_choice : Player.t := Player.mk "red" [straight; uturns].

(** The straight tile submitted for the corner cell and for the cell (1,0),
    which holds a tile on [corner_board]. *)
Definition straight_at_corner : TilePlacement.t := TilePlacement.mk straight (Coords.mk 0 0).
Definition straight_at_occupied : TilePlacement.t := TilePlacement.mk straight (Coords.mk 1 0).

(** The straight tile submitted for the cell (1,0), which is empty on
    [start_board]. *)
Definition straight_at_next : TilePlacement.t := TilePlacement.mk straight (Coords.mk 1 0).

(** A store that holds the coordinates (0,0) at reference 0, the four paths
    of the straight tile at references 1 to 4 and the tile itself at 5, the
    four paths of the tile of U-turns at 6 to 9 and the tile at 10, the
    avatar of "red" at 13 with its coordinates at 11 and its position at
    12, and at 14 the state of [corner_board] with that avatar in its
    mapping; "red" holds the two tiles, and submits one or the other for
    the corner cell. *)
Definition corner_store : list Store.obj :=
  [Store.OCoords (Coords.mk 0 0);
   Store.OPath (Path.mk (Position.mk NORTH 0) (Position.mk SOUTH 1));
   Store.OPath (Path.mk (Position.mk NORTH 1) (Position.mk SOUTH 0));
   Store.OPath (Path.mk (Position.mk EAST 0) (Position.mk WEST 1));
   Store.OPath (Path.mk (Position.mk EAST 1) (Position.mk WEST 0));
   Store.OTile [1; 2; 3; 4]%nat;
   Store.OPath (Path.mk (Position.mk NORTH 0) (Position.mk NORTH 1));
   Store.OPath (Path.mk (Position.mk EAST 0) (Position.mk EAST 1));
   Store.OPath (Path.mk (Position.mk SOUTH 0) (Position.mk SOUTH 1));
   Store.OPath (Path.mk (Position.mk WEST 0) (Position.mk WEST 1));
   Store.OTile [6; 7; 8; 9]%nat;
   Store.OCoords (Coords.mk 1 0);
   Store.OPosition (Position.mk WEST 0);
   Store.OAvatar 11%nat 12%nat;
   Store.OBoardState corner_board [("red", 13%nat)]].

Definition red_in_store : Store.player := Store.mkPlayer "red" [5%nat; 10%nat].

Definition corner_in_store : Store.placement := Store.mkPlacement 5%nat 0%nat.

Definition uturns_in_store : Store.placement := Store.mkPlacement 10%nat 0%nat.

End Examples.

(** ** More vocabulary: moves by several cells, opposite sides *)

(** The translation of a coordinate by [v] cells towards [d]. *)
Definition translate_by (c : Coords.t) (d : jsstring) (v : Z) : Coords.t :=
  if jsstring_eqb d DIRECTIONS.NORTH then Coords.mk (Coords.x c) (Coords.y c - v)
  else if jsstring_eqb d DIRECTIONS.EAST then Coords.mk (Coords.x c + v) (Coords.y c)
  else if jsstring_eqb d DIRECTIONS.SOUTH then Coords.mk (Coords.x c) (Coords.y c + v)
  else if jsstring_eqb d DIRECTIONS.WEST then Coords.mk (Coords.x c - v) (Coords.y c)
  else c.

(** The side across: the direction [Position.reflect] turns [d] into. *)
Definition opposite (d : jsstring) : jsstring :=
  Position.direction (Position.reflect (Position.mk d PORTS.ZERO)).

(** ** Coords and Position with their cached hash, and their JSON form *)

(** The models above leave out the field [_hash] that the two classes
    recompute in [_updateHash]; these two keep it, so that what the methods
    do to the hash can be stated.  A method that may throw returns the
    outcome and the object after the call. *)

(** A number inside a template literal: the decimal digits of the integer,
    after a minus sign when it is negative. *)
Definition number_to_string (n : Z) : string := NilZero.string_of_int (Z.to_int n).

(** A string or [undefined] inside a template literal. *)
Definition jsstring_to_string (v : jsstring) : string :=
  match v with
  | Str s => s
  | Undefined => "undefined"
  end.

Module CoordsObject.

Record t : Type := mk { x : Z; y : Z; _hash : string }.

(** The object [toJson] returns: the two fields [x] and [y]. *)
Record json : Type := mkJson { json_x : Z; json_y : Z }.

Definition _updateHash (this : t) : t :=
  mk (x this) (y this) (number_to_string (x this) ++ number_to_string (y this)).

(** [new Coords(x, y)]: the fields are set, then the hash. *)
Definition constructor (x0 y0 : Z) : t := _updateHash (mk x0 y0 "").

Definition copy (this : t) : t := constructor (x this) (y this).

Definition getHash (this : t) : string := _hash this.

(** The field is written after the test, so a throw leaves the object as it
    was; the hash is not touched here. *)
Definition _moveAlongAxis (this : t) (value : Z) (isHorizontalMove isPositive : bool)
  : result unit * t :=
  let multiplier := if isPositive then 1 else -1 in
  let newVal := (if isHorizontalMove then x this else y this) + multiplier * value in
  if negb (Coords._isValidCoordinate newVal) then (Throw "Cannot move this way", this)
  else (Ok tt, if isHorizontalMove then mk newVal (y this) (_hash this)
               else mk (x this) newVal (_hash this)).

(** [_updateHash] runs when no statement before it has thrown. *)
Definition move (this : t) (direction : jsstring) (value : Z) : result unit * t :=
  if value <? 0 then (Throw "Value must be positive", this)
  else if 0 <? value then
    if jsstring_eqb direction DIRECTIONS.NORTH || jsstring_eqb direction DIRECTIONS.SOUTH
    then match _moveAlongAxis this value false (jsstring_eqb direction DIRECTIONS.SOUTH) with
         | (Ok _, this') => (Ok tt, _updateHash this')
         | (Throw e, this') => (Throw e, this')
         end
    else if jsstring_eqb direction DIRECTIONS.EAST || jsstring_eqb direction DIRECTIONS.WEST
    then match _moveAlongAxis this value true (jsstring_eqb direction DIRECTIONS.EAST) with
         | (Ok _, this') => (Ok tt, _updateHash this')
         | (Throw e, this') => (Throw e, this')
         end
    else (Throw "Invalid direction", this)
  else (Ok tt, _updateHash this).

Definition moveOne (this : t) (direction : jsstring) : result unit * t :=
  move this direction 1.

Definition isEqualTo (this coords : t) : bool :=
  (x this =? x coords) && (y this =? y coords).

Definition toJson (this : t) : json := mkJson (x this) (y this).

Definition fromJson (j : json) : t := constructor (json_x j) (json_y j).

(** The coordinate of the value model that the object stands for. *)
Definition value (this : t) : Coords.t := Coords.mk (x this) (y this).

(** The cached hash is the one [_updateHash] would compute now. *)
Definition fresh (this : t) : Prop := _updateHash this = this.

End CoordsObject.

Module PositionObject.

Record t : Type := mk { direction : jsstring; port : Z; _hash : string }.

(** The object [toJson] returns: the two fields [direction] and [port]. *)
Record json : Type := mkJson { json_direction : jsstring; json_port : Z }.

Definition _updateHash (this : t) : t :=
  mk (direction this) (port this)
     (jsstring_to_string (direction this) ++ number_to_string (port this)).

Definition constructor (direction0 : jsstring) (port0 : Z) : t :=
  _updateHash (mk direction0 port0 "").

Definition copy (this : t) : t := constructor (direction this) (port this).

Definition getHash (this : t) : string := _hash this.

Definition reflect (this : t) : t :=
  let d :=
    if jsstring_eqb (direction this) DIRECTIONS.NORTH then DIRECTIONS.SOUTH
    else if jsstring_eqb (direction this) DIRECTIONS.EAST then DIRECTIONS.WEST
    else if jsstring_eqb (direction this) DIRECTIONS.SOUTH then DIRECTIONS.NORTH
    else if jsstring_eqb (direction this) DIRECTIONS.WEST then DIRECTIONS.EAST
    else direction this in
  _updateHash (mk d (if port this =? PORTS.ZERO then PORTS.ONE else PORTS.ZERO)
                 (_hash this)).

Definition isEqualTo (this position : t) : bool :=
  jsstring_eqb (direction this) (direction position) && (port this =? port position).

Definition rotate (this : t) (rotations : Z) : t :=
  let idx := indexOf DIRECTIONS_CLOCKWISE (direction this) in
  let newIdx := incrementIndex idx DIRECTIONS_CLOCKWISE rotations in
  _updateHash (mk (array_get DIRECTIONS_CLOCKWISE newIdx) (port this) (_hash this)).

Definition toJson (this : t) : json := mkJson (direction this) (port this).

Definition fromJson (j : json) : t := constructor (json_direction j) (json_port j).

(** The position of the value model that the object stands for. *)
Definition value (this : t) : Position.t := Position.mk (direction this) (port this).

Definition fresh (this : t) : Prop := _updateHash this = this.

End PositionObject.

(** ** constants.js: the letters and their indices *)

(** ['ABCDEFGH'.split('')]: the characters of the string, one string each. *)
Definition split_chars (s : string) : list string :=
  map (fun c => String c EmptyString) (list_ascii_of_string s).

Definition LETTERS : list string := split_chars "ABCDEFGH".

(** [Object.assign(acc, {[letter]: i})] on a plain object, of which the map
    holds the own properties: the assignment creates or overwrites the
    property [letter], except for the key [__proto__], which reaches the
    setter of [Object.prototype]; that setter ignores a number and the
    object gets no property. *)
Definition assign_index (acc : gmap string Z) (letter : string) (i : Z) : gmap string Z :=
  if String.eqb letter "__proto__" then acc else <[letter := i]> acc.

(** [letters.reduce((acc, letter, i) => Object.assign(acc, {[letter]: i}), acc)],
    from the index [i] on. *)
Fixpoint reduce_letters (letters : list string) (i : Z) (acc : gmap string Z)
  : gmap string Z :=
  match letters with
  | [] => acc
  | letter :: rest => reduce_letters rest (i + 1) (assign_index acc letter i)
  end.

Definition LETTERS_MAP : gmap string Z := reduce_letters LETTERS 0 ∅.

(** ** The labyrinth server: nodes, edges and tokens *)

(** [Array.prototype.indexOf] with the equality test given: the first index
    holding the value, [-1] if none. *)
Fixpoint index_of {A : Type} (same : A -> A -> bool) (l : list A) (v : A) : Z :=
  match l with
  | [] => -1
  | a :: l' =>
      if same a v then 0
      else let i := index_of same l' v in if i <? 0 then -1 else i + 1
  end.

(** [arr.splice(index, 1)], as the array it leaves: a negative index counts
    from the end, an index past the end removes nothing. *)
Definition splice {A : Type} (l : list A) (index : Z) : list A :=
  let len := Z.of_nat (length l) in
  let start := if index <? 0 then Z.max (len + index) 0 else Z.min index len in
  (take (Z.to_nat start) l ++ drop (S (Z.to_nat start)) l)%list.

(** [arr.includes(v)] on object references. *)
Definition includes (l : list nat) (v : nat) : bool := existsb (Nat.eqb v) l.

(** An [Edge] object.  Its fields are never assigned after the constructor,
    so the model carries them by value together with the address [ref] of
    the object, which is what [===] and [indexOf] compare.  A node is
    referred to by its address in the heap of the labyrinth. *)
Module Edge.
Record t : Type := mk { ref : nat; node1 : nat; node2 : nat }.
Definition same (a b : t) : bool := Nat.eqb (ref a) (ref b).
End Edge.

(** A [Token] object, in the same way. *)
Module Token.
Record t : Type := mk { ref : nat; color : string; node : nat }.
Definition same (a b : t) : bool := Nat.eqb (ref a) (ref b).
End Token.

(** A [Node] object: its two arrays are mutated in place. *)
Module Node.
Record t : Type := mk { id : string; tokens : list Token.t; edges : list Edge.t }.
Definition push_edge (e : Edge.t) (n : t) : t :=
  mk (id n) (tokens n) (edges n ++ [e])%list.
Definition push_token (k : Token.t) (n : t) : t :=
  mk (id n) (tokens n ++ [k])%list (edges n).
Definition splice_edges (index : Z) (n : t) : t :=
  mk (id n) (tokens n) (splice (edges n) index).
Definition splice_tokens (index : Z) (n : t) : t :=
  mk (id n) (splice (tokens n) index) (edges n).
End Node.

Module Labyrinth.

(** The labyrinth with the [Node] objects it has created: [heap] holds every
    node object by address, [next_ref] is the address of the next edge or
    token object, the other three fields are the arrays of the class. *)
Record t : Type := mk {
  heap : list Node.t;
  next_ref : nat;
  nodes : list nat;
  edges : list Edge.t;
  tokens : list Token.t
}.

Definition constructor : t := mk [] 0 [] [] [].

(** The node object at an address.  Every address the methods follow was
    allocated before (see [valid]); at any other one the model reads a node
    without tokens and edges. *)
Definition deref (s : t) (r : nat) : Node.t :=
  default (Node.mk "" [] []) (heap s !! r).

(** An in-place update of the node object at an address. *)
Definition update (s : t) (r : nat) (f : Node.t -> Node.t) : t :=
  mk (alter f r (heap s)) (next_ref s) (nodes s) (edges s) (tokens s).

(** A method that mutates the labyrinth: the state it leaves comes with the
    outcome, also when it throws. *)
Definition M (A : Type) : Type := t -> result A * t.

Definition and_then {A B : Type} (m : M A) (f : A -> M B) : M B :=
  fun s => match m s with
           | (Ok a, s') => f a s'
           | (Throw e, s') => (Throw e, s')
           end.

(** A method that only reads. *)
Definition read {A : Type} (f : t -> result A) : M A := fun s => (f s, s).

(** [arr.forEach(f)] over the array as it is when the loop starts. *)
Fixpoint forEach {A : Type} (f : A -> M unit) (l : list A) : M unit :=
  match l with
  | [] => fun s => (Ok tt, s)
  | a :: l' => and_then (f a) (fun _ => forEach f l')
  end.

Definition getNode (id : string) (s : t) : result nat :=
  match find (fun node => String.eqb (Node.id (deref s node)) id) (nodes s) with
  | Some node => Ok node
  | None => Throw "Node with the given id does not exist"
  end.

(** [edge.node1 === node2 || edge.node2 === node2] *)
Definition touches (node2 : nat) (edge : Edge.t) : bool :=
  Nat.eqb (Edge.node1 edge) node2 || Nat.eqb (Edge.node2 edge) node2.

Definition getEdge (id1 id2 : string) (s : t) : result Edge.t :=
  (let* node1 := getNode id1 s in
   let* node2 := getNode id2 s in
   match find (touches node2) (Node.edges (deref s node1)) with
   | Some edge => Ok edge
   | None => Throw "Edge connecting the given nodes does not exist"
   end)%result.

Definition getToken (color : string) (s : t) : result Token.t :=
  match find (fun token => String.eqb (Token.color token) color) (tokens s) with
  | Some token => Ok token
  | None => Throw "Token with the given color does not exist"
  end.

Definition addNode (id : string) : M unit :=
  fun s =>
    if existsb (fun node => String.eqb (Node.id (deref s node)) id) (nodes s)
    then (Throw "Node with given id already exists", s)
    else (Ok tt, mk (heap s ++ [Node.mk id [] []])%list (next_ref s)
                    (nodes s ++ [length (heap s)])%list (edges s) (tokens s)).

Definition addEdge (id1 id2 : string) : M unit :=
  fun s =>
    match getNode id1 s with
    | Throw e => (Throw e, s)
    | Ok node1 =>
        match getNode id2 s with
        | Throw e => (Throw e, s)
        | Ok node2 =>
            if existsb (touches node2) (Node.edges (deref s node1))
            then (Throw "Edge connecting the two nodes already exists", s)
            else
              let edge := Edge.mk (next_ref s) node1 node2 in
              let s1 := mk (heap s) (S (next_ref s)) (nodes s)
                           (edges s ++ [edge])%list (tokens s) in
              let s2 := update s1 node1 (Node.push_edge edge) in
              (Ok tt, update s2 node2 (Node.push_edge edge))
        end
    end.

Definition addToken (color nodeId : string) : M unit :=
  fun s =>
    match getNode nodeId s with
    | Throw e => (Throw e, s)
    | Ok node =>
        if existsb (fun token => String.eqb (Token.color token) color) (tokens s)
        then (Throw "The given color is not unique", s)
        else
          let token := Token.mk (next_ref s) color node in
          let s1 := mk (heap s) (S (next_ref s)) (nodes s) (edges s)
                       (tokens s ++ [token])%list in
          (Ok tt, update s1 node (Node.push_token token))
    end.

(** Both node arrays are spliced at [index], the index of the edge in the
    array of the labyrinth; [indexNode1] and [indexNode2] are computed by the
    source and not used. *)
Definition removeEdge (id1 id2 : string) : M unit :=
  fun s =>
    match getEdge id1 id2 s with
    | Throw e => (Throw e, s)
    | Ok edge =>
        let index := index_of Edge.same (edges s) edge in
        let s1 := mk (heap s) (next_ref s) (nodes s) (splice (edges s) index)
                     (tokens s) in
        let s2 := update s1 (Edge.node1 edge) (Node.splice_edges index) in
        (Ok tt, update s2 (Edge.node2 edge) (Node.splice_edges index))
    end.

(** The array of the node is spliced at the index of the token in the array
    of the labyrinth; [indexNode] is computed by the source and not used. *)
Definition removeToken (tokenColor : string) : M unit :=
  fun s =>
    match getToken tokenColor s with
    | Throw e => (Throw e, s)
    | Ok token =>
        let index := index_of Token.same (tokens s) token in
        let s1 := mk (heap s) (next_ref s) (nodes s) (edges s)
                     (splice (tokens s) index) in
        (Ok tt, update s1 (Token.node token) (Node.splice_tokens index))
    end.

Definition removeNode (id : string) : M unit :=
  fun s =>
    match getNode id s with
    | Throw e => (Throw e, s)
    | Ok node =>
        and_then
          (forEach (fun edge => fun s' =>
                      removeEdge (Node.id (deref s' (Edge.node1 edge)))
                                 (Node.id (deref s' (Edge.node2 edge))) s')
                   (Node.edges (deref s node)))
          (fun _ => fun s1 =>
             and_then
               (forEach (fun token => removeToken (Token.color token))
                        (Node.tokens (deref s1 node)))
               (fun _ => fun s2 =>
                  let index := index_of Nat.eqb (nodes s2) node in
                  (Ok tt, mk (heap s2) (next_ref s2) (splice (nodes s2) index)
                             (edges s2) (tokens s2))) s1) s
    end.

(** [edge.node1 === node ? edge.node2 : edge.node1] *)
Definition connectedNode (node : nat) (edge : Edge.t) : nat :=
  if Nat.eqb (Edge.node1 edge) node then Edge.node2 edge else Edge.node1 edge.

(** The two nested [forEach] of the search: the nodes next to a visited one
    that are neither visited nor collected yet, in the order they are met. *)
Definition collect (s : t) (visitedNodes : list nat) : list nat :=
  fold_left
    (fun outerNodes node =>
       fold_left
         (fun outerNodes edge =>
            let connected := connectedNode node edge in
            if negb (includes visitedNodes connected)
               && negb (includes outerNodes connected)
            then (outerNodes ++ [connected])%list
            else outerNodes)
         (Node.edges (deref s node)) outerNodes)
    visitedNodes [].

(** The [while] loop of the search, at most [fuel] rounds of it: [None] when
    the rounds do not suffice. *)
Fixpoint search (s : t) (to : nat) (fuel : nat) (visitedNodes outerNodes : list nat)
  : option bool :=
  match fuel with
  | O => None
  | S fuel' =>
      match outerNodes with
      | [] => Some false
      | _ :: _ =>
          if includes outerNodes to then Some true
          else
            let visitedNodes' := (visitedNodes ++ outerNodes)%list in
            search s to fuel' visitedNodes' (collect s visitedNodes')
      end
  end.

Definition isTherePathFromTokenToNode (fuel : nat) (tokenColor nodeId : string) (s : t)
  : option (result bool) :=
  match getToken tokenColor s with
  | Throw e => Some (Throw e)
  | Ok token =>
      match getNode nodeId s with
      | Throw e => Some (Throw e)
      | Ok to =>
          match search s to fuel [] [Token.node token] with
          | Some b => Some (Ok b)
          | None => None
          end
      end
  end.

(** A call of one of the mutating methods. *)
Inductive call : Type :=
| AddNode (id : string)
| AddEdge (id1 id2 : string)
| AddToken (color nodeId : string)
| RemoveNode (id : string)
| RemoveEdge (id1 id2 : string)
| RemoveToken (tokenColor : string).

Definition run (c : call) : M unit :=
  match c with
  | AddNode id => addNode id
  | AddEdge id1 id2 => addEdge id1 id2
  | AddToken color nodeId => addToken color nodeId
  | RemoveNode id => removeNode id
  | RemoveEdge id1 id2 => removeEdge id1 id2
  | RemoveToken tokenColor => removeToken tokenColor
  end.

(** The labyrinth after a sequence of calls on a new one; a call that throws
    leaves what it had done by then, as for a caller that catches. *)
Definition after (calls : list call) : t :=
  fold_left (fun s c => snd (run c s)) calls constructor.

(** The addresses in use are allocated: the nodes of the labyrinth, the ends
    of every edge and the node of every token. *)
Definition allocated (s : t) (r : nat) : Prop := (r < length (heap s))%nat.

Definition edge_valid (s : t) (e : Edge.t) : Prop :=
  allocated s (Edge.node1 e) /\ allocated s (Edge.node2 e).

Definition valid (s : t) : Prop :=
  Forall (allocated s) (nodes s)
  /\ Forall (edge_valid s) (edges s)
  /\ Forall (fun k => allocated s (Token.node k)) (tokens s)
  /\ Forall (fun n => Forall (edge_valid s) (Node.edges n)
                      /\ Forall (fun k => allocated s (Token.node k)) (Node.tokens n))
            (heap s).

(** One step along an edge as the search takes it, and a path of such steps. *)
Definition next_to (s : t) (a b : nat) : Prop :=
  exists e, In e (Node.edges (deref s a)) /\ b = connectedNode a e.

Inductive path (s : t) (a : nat) : nat -> Prop :=
| path_here : path s a a
| path_step b c : path s a b -> next_to s b c -> path s a c.

(** The ids of the nodes and the colors of the tokens of the labyrinth, in
    the order of its arrays. *)
Definition ids (s : t) : list string :=
  map (fun node => Node.id (deref s node)) (nodes s).

Definition colors (s : t) : list string := map Token.color (tokens s).

(** Every edge in the array of a node has that node at one end. *)
Definition edges_touch (s : t) : Prop :=
  forall r n e, heap s !! r = Some n -> In e (Node.edges n) ->
                Edge.node1 e = r \/ Edge.node2 e = r.

Definition invariant (s : t) : Prop :=
  valid s /\ List.NoDup (ids s) /\ List.NoDup (colors s) /\ edges_touch s.

End Labyrinth.

(** * Properties *)

(** ** Coordinates and positions *)

(** Decides the comparisons [===] between closed direction strings. *)
Ltac eval_directions :=
  repeat match goal with
         | |- context [jsstring_eqb ?a ?b] =>
             let v := eval vm_compute in (jsstring_eqb a b) in
             change (jsstring_eqb a b) with v
         end;
  cbn [orb andb negb].

Lemma jsstring_eqb_eq (a b : jsstring) : jsstring_eqb a b = true <-> a = b.
Proof. unfold jsstring_eqb. apply bool_decide_eq_true. Qed.

Lemma Position_isEqualTo_eq (p q : Position.t) : Position.isEqualTo p q = true <-> p = q.
Proof.
  destruct p as [d1 n1], q as [d2 n2]. unfold Position.isEqualTo. simpl.
  rewrite andb_true_iff, jsstring_eqb_eq, Z.eqb_eq.
  split; [intros [-> ->]; reflexivity | intros [= -> ->]; split; reflexivity].
Qed.

(** For each of the four directions [moveOne] tests the coordinate that
    moves, and only that one. *)
Lemma moveOne_valid_direction (c : Coords.t) (d : jsstring) :
  valid_direction d ->
  Coords.moveOne c d
  = if Coords._isValidCoordinate (moved_coordinate c d)
    then Ok (translate c d) else Throw "Cannot move this way".
Proof.
  intros Hd. destruct c as [cx cy].
  unfold Coords.moveOne, Coords.move, Coords._moveAlongAxis, moved_coordinate, translate.
  destruct Hd as [-> | [-> | [-> | ->]]]; eval_directions; cbn [Coords.x Coords.y];
    [ replace (cy + -1 * 1) with (cy - 1) by lia
    | replace (cx + 1 * 1) with (cx + 1) by lia
    | replace (cy + 1 * 1) with (cy + 1) by lia
    | replace (cx + -1 * 1) with (cx - 1) by lia ];
    match goal with
    | |- context [Coords._isValidCoordinate ?v] => destruct (Coords._isValidCoordinate v)
    end; reflexivity.
Qed.

(** C9. On a coordinate of the 10x10 grid and for each of the four
    directions, [moveOne] throws exactly when the one-step translation would
    leave the grid, and otherwise succeeds with the coordinate translated. *)
Theorem moveOne_throws_iff_leaves_grid (c : Coords.t) (d : jsstring)
    (Hc : on_grid c) (Hd : valid_direction d) :
  ((exists e, Coords.moveOne c d = Throw e) <-> ~ on_grid (translate c d))
  /\ (on_grid (translate c d) -> Coords.moveOne c d = Ok (translate c d)).
Proof.
  rewrite (moveOne_valid_direction c d Hd).
  assert (Hiff : Coords._isValidCoordinate (moved_coordinate c d) = true
                 <-> on_grid (translate c d)).
  { destruct c as [cx cy]. unfold on_grid in *. simpl in Hc.
    unfold Coords._isValidCoordinate, moved_coordinate, translate, BOARD_SIZE in *.
    rewrite andb_true_iff, Z.leb_le, Z.ltb_lt.
    destruct Hd as [-> | [-> | [-> | ->]]]; simpl; lia. }
  destruct (Coords._isValidCoordinate (moved_coordinate c d)).
  - split; [| reflexivity].
    split; [intros [e He]; discriminate | intros Hn; exfalso; apply Hn, Hiff; reflexivity].
  - split.
    + split; [intros _ Hg; apply Hiff in Hg; discriminate | intros _; eauto].
    + intros Hg. apply Hiff in Hg. discriminate.
Qed.

Lemma moveOne_throws_iff_leaves_grid_witness :
  on_grid (Coords.mk 0 3) /\ valid_direction DIRECTIONS.WEST
  /\ ((exists e, Coords.moveOne (Coords.mk 0 3) DIRECTIONS.WEST = Throw e)
      <-> ~ on_grid (translate (Coords.mk 0 3) DIRECTIONS.WEST))
  /\ (on_grid (translate (Coords.mk 0 3) DIRECTIONS.WEST) ->
      Coords.moveOne (Coords.mk 0 3) DIRECTIONS.WEST
      = Ok (translate (Coords.mk 0 3) DIRECTIONS.WEST)).
Proof.
  assert (Hc : on_grid (Coords.mk 0 3)) by (unfold on_grid, BOARD_SIZE; simpl; lia).
  assert (Hd : valid_direction DIRECTIONS.WEST) by (unfold valid_direction; auto).
  split; [exact Hc | split; [exact Hd |]].
  exact (moveOne_throws_iff_leaves_grid (Coords.mk 0 3) DIRECTIONS.WEST Hc Hd).
Defined.

(** C10. On a position whose direction is one of the four sides and whose
    port is 0 or 1, reflecting twice gives back a position equal to the
    original one. *)
Theorem reflect_involutive (p : Position.t)
    (Hd : valid_direction (Position.direction p))
    (Hp : Position.port p = PORTS.ZERO \/ Position.port p = PORTS.ONE) :
  Position.isEqualTo (Position.reflect (Position.reflect p)) p = true.
Proof.
  apply Position_isEqualTo_eq.
  destruct p as [d n]. simpl in Hd, Hp.
  destruct Hd as [-> | [-> | [-> | ->]]]; destruct Hp as [-> | ->]; reflexivity.
Qed.

Lemma reflect_involutive_witness :
  Position.isEqualTo
    (Position.reflect (Position.reflect (Position.mk DIRECTIONS.EAST 1)))
    (Position.mk DIRECTIONS.EAST 1) = true.
Proof.
  apply (reflect_involutive (Position.mk DIRECTIONS.EAST 1)).
  - unfold valid_direction. simpl. auto.
  - right. reflexivity.
Defined.

(** ** Tiles *)

Lemma Position_copy_id (p : Position.t) : Position.copy p = p.
Proof. destruct p; reflexivity. Qed.

Lemma Path_copy_id (p : Path.t) : Path.copy p = p.
Proof. destruct p as [s e]. unfold Path.copy. simpl. rewrite !Position_copy_id. reflexivity. Qed.

Lemma map_Path_copy (l : list Path.t) : map (fun path => Path.copy path) l = l.
Proof. induction l as [| p l IH]; simpl; [reflexivity | rewrite Path_copy_id, IH; reflexivity]. Qed.

Lemma Path_isEqualTo_same_segment (q p : Path.t) :
  Path.isEqualTo q p = true <-> same_segment q p.
Proof.
  unfold Path.isEqualTo, same_segment.
  rewrite orb_true_iff, !andb_true_iff, !Position_isEqualTo_eq. reflexivity.
Qed.

Lemma same_segment_refl (p : Path.t) : same_segment p p.
Proof. left. split; reflexivity. Qed.

Lemma same_segment_sym (p q : Path.t) : same_segment p q -> same_segment q p.
Proof. unfold same_segment. intros [[-> ->] | [-> ->]]; auto. Qed.

Lemma same_segment_trans (p q r : Path.t) :
  same_segment p q -> same_segment q r -> same_segment p r.
Proof.
  unfold same_segment.
  intros [[-> ->] | [-> ->]] [[-> ->] | [-> ->]]; auto.
Qed.

(** What the code of [isEqualTo] computes: every segment of the receiver is
    matched by some segment of the argument. *)
Lemma isEqualTo_iff_included (a b : Tile.t) :
  Tile.isEqualTo a b = true
  <-> forall p, In p (Tile.paths a) -> has_segment b p.
Proof.
  unfold Tile.isEqualTo, has_segment. rewrite forallb_forall.
  split; intros H p Hp.
  - apply H in Hp. apply existsb_exists in Hp as [q [Hq Heq]].
    exists q. split; [exact Hq | apply Path_isEqualTo_same_segment, Heq].
  - apply existsb_exists. destruct (H p Hp) as [q [Hq Heq]].
    exists q. split; [exact Hq | apply Path_isEqualTo_same_segment, Heq].
Qed.

Lemma isEqualTo_refl (a : Tile.t) : Tile.isEqualTo a a = true.
Proof.
  apply isEqualTo_iff_included. intros p Hp. exists p. split; [exact Hp | apply same_segment_refl].
Qed.

Lemma NoDup_all_ports : List.NoDup all_ports.
Proof.
  apply (List.NoDup_count_occ' Position.eq_dec). intros q Hq. simpl in Hq.
  repeat (destruct Hq as [<- | Hq]; [vm_compute; reflexivity |]). destruct Hq.
Qed.

Lemma endpoints_length (t : Tile.t) :
  length (endpoints t) = (2 * length (Tile.paths t))%nat.
Proof.
  unfold endpoints. induction (Tile.paths t) as [| p l IH]; simpl; [reflexivity | rewrite IH; lia].
Qed.

(** Under the invariant the endpoints of a tile are the eight ports, each
    once. *)
Lemma tile_invariant_endpoints (t : Tile.t) :
  tile_invariant t = true ->
  incl all_ports (endpoints t) /\ incl (endpoints t) all_ports /\ List.NoDup (endpoints t).
Proof.
  unfold tile_invariant. rewrite andb_true_iff, Nat.eqb_eq, forallb_forall.
  intros [Hlen Hcount].
  assert (Hincl : incl all_ports (endpoints t)).
  { intros q Hq. apply (count_occ_In Position.eq_dec).
    specialize (Hcount q Hq). apply Nat.eqb_eq in Hcount. lia. }
  assert (Hle : (length (endpoints t) <= length all_ports)%nat).
  { rewrite endpoints_length, Hlen. simpl. lia. }
  split; [exact Hincl | split].
  - apply (List.NoDup_length_incl NoDup_all_ports Hle Hincl).
  - apply (List.NoDup_incl_NoDup NoDup_all_ports Hle Hincl).
Qed.

Lemma in_all_ports_valid (q : Position.t) :
  In q all_ports -> valid_direction (Position.direction q).
Proof.
  intros Hq. simpl in Hq. unfold valid_direction.
  repeat (destruct Hq as [<- | Hq]; [simpl; auto |]). destruct Hq.
Qed.

Lemma in_paths_endpoints (t : Tile.t) (p : Path.t) :
  In p (Tile.paths t) -> In (Path.start p) (endpoints t) /\ In (Path.end_ p) (endpoints t).
Proof.
  intros Hp. unfold endpoints. split; apply in_flat_map; exists p; simpl; auto.
Qed.

(** Quarter turns compose to a full turn on the four sides. *)
Lemma Position_rotate_back (p : Position.t) (k r : Z) :
  valid_direction (Position.direction p) ->
  (k = 1 /\ r = 3) \/ (k = 2 /\ r = 2) \/ (k = 3 /\ r = 1) ->
  Position.rotate (Position.rotate p k) r = p.
Proof.
  intros Hd Hkr. destruct p as [d n]. simpl in Hd.
  destruct Hd as [-> | [-> | [-> | ->]]];
    destruct Hkr as [[-> ->] | [[-> ->] | [-> ->]]]; reflexivity.
Qed.

Lemma Path_rotate_back (p : Path.t) (k r : Z) :
  valid_direction (Position.direction (Path.start p)) ->
  valid_direction (Position.direction (Path.end_ p)) ->
  (k = 1 /\ r = 3) \/ (k = 2 /\ r = 2) \/ (k = 3 /\ r = 1) ->
  Path.rotate (Path.rotate p k) r = p.
Proof.
  intros Hs He Hkr. destruct p as [s e]. unfold Path.rotate. simpl in *.
  rewrite !Position_rotate_back by assumption. reflexivity.
Qed.

Lemma Tile_copy_0 (t : Tile.t) : Tile.copy t 0 = t.
Proof. destruct t as [l]. unfold Tile.copy. simpl. rewrite map_Path_copy. reflexivity. Qed.

Lemma Tile_copy_rotations (t : Tile.t) (k : Z) :
  1 <= k <= 3 ->
  Tile.copy t k = Tile.mk (map (fun path => Path.rotate path k) (Tile.paths t)).
Proof.
  intros Hk. unfold Tile.copy, Tile.rotate. cbn [Tile.paths].
  rewrite map_Path_copy.
  assert (Hr : Z.rem k (Z.of_nat (length DIRECTIONS_CLOCKWISE)) = k).
  { simpl. apply Z.rem_small. lia. }
  rewrite Hr.
  destruct (Z.ltb_spec 0 k); [reflexivity | lia].
Qed.

Lemma Tile_copy_back (t : Tile.t) (k r : Z) :
  (forall q, In q (endpoints t) -> valid_direction (Position.direction q)) ->
  (k = 1 /\ r = 3) \/ (k = 2 /\ r = 2) \/ (k = 3 /\ r = 1) ->
  Tile.copy (Tile.copy t k) r = t.
Proof.
  intros Hv Hkr.
  rewrite (Tile_copy_rotations t k) by lia.
  rewrite Tile_copy_rotations by lia. cbn [Tile.paths].
  destruct t as [l]. f_equal. rewrite map_map.
  rewrite <- (map_id l) at 2. apply map_ext_in. intros p Hp.
  destruct (in_paths_endpoints (Tile.mk l) p Hp) as [Hs He].
  apply Path_rotate_back; auto.
Qed.

(** The same tile turned with [rotate] on a fresh copy. *)
Lemma Tile_rotate_copy (t : Tile.t) (k : Z) :
  0 <= k <= 3 -> Tile.rotate (Tile.copy t 0) k = Tile.copy t k.
Proof.
  intros Hk. rewrite Tile_copy_0.
  destruct (Z.eq_dec k 0) as [-> | Hne].
  - rewrite Tile_copy_0. reflexivity.
  - rewrite Tile_copy_rotations by lia. unfold Tile.rotate.
    assert (Hr : Z.rem k (Z.of_nat (length DIRECTIONS_CLOCKWISE)) = k).
    { simpl. apply Z.rem_small. lia. }
    rewrite Hr. destruct (Z.ltb_spec 0 k); [reflexivity | lia].
Qed.

(** C7. A tile that satisfies the tile invariant is rotation-equal to each of
    its copies rotated by 0, 1, 2 or 3 quarter turns, whether the copy is
    made with [copy(k)] or turned with [rotate(k)] after [copy()]. *)
Theorem isEqualToRotated_rotated_copy (t : Tile.t) (k : Z)
    (Hinv : tile_invariant t = true) (Hk : 0 <= k <= 3) :
  Tile.isEqualToRotated t (Tile.copy t k) = true
  /\ Tile.isEqualToRotated t (Tile.rotate (Tile.copy t 0) k) = true.
Proof.
  rewrite Tile_rotate_copy by exact Hk.
  assert (Hgoal : Tile.isEqualToRotated t (Tile.copy t k) = true); [| split; exact Hgoal].
  destruct (tile_invariant_endpoints t Hinv) as [_ [Hincl _]].
  assert (Hv : forall q, In q (endpoints t) -> valid_direction (Position.direction q)).
  { intros q Hq. apply in_all_ports_valid, Hincl, Hq. }
  unfold Tile.isEqualToRotated.
  assert (Hcases : k = 0 \/ k = 1 \/ k = 2 \/ k = 3) by lia.
  destruct Hcases as [-> | [-> | [-> | ->]]].
  - rewrite Tile_copy_0, isEqualTo_refl. reflexivity.
  - rewrite (Tile_copy_back t 1 3) by auto. rewrite isEqualTo_refl, !orb_true_r. reflexivity.
  - rewrite (Tile_copy_back t 2 2) by auto. rewrite isEqualTo_refl, !orb_true_r. reflexivity.
  - rewrite (Tile_copy_back t 3 1) by auto. rewrite isEqualTo_refl, !orb_true_r. reflexivity.
Qed.

Lemma isEqualToRotated_rotated_copy_witness :
  Tile.isEqualToRotated Examples.straight (Tile.copy Examples.straight 3) = true
  /\ Tile.isEqualToRotated Examples.straight
       (Tile.rotate (Tile.copy Examples.straight 0) 3) = true.
Proof.
  apply (isEqualToRotated_rotated_copy Examples.straight 3).
  - vm_compute. reflexivity.
  - lia.
Defined.

(** Two segments of a tile that share a port are the same segment, when no
    port is used twice. *)
Lemma shared_port_same_path (l : list Path.t) (q q' : Path.t) (e : Position.t) :
  List.NoDup (flat_map (fun p => [Path.start p; Path.end_ p]) l) ->
  In q l -> In q' l ->
  (e = Path.start q \/ e = Path.end_ q) ->
  (e = Path.start q' \/ e = Path.end_ q') ->
  q = q'.
Proof.
  induction l as [| a l IH]; intros Hnd Hq Hq' He He'; [destruct Hq |].
  simpl in Hnd.
  apply List.NoDup_cons_iff in Hnd as [Hs Hnd].
  apply List.NoDup_cons_iff in Hnd as [He2 Hnd].
  assert (Hin : forall r, In r l -> (e = Path.start r \/ e = Path.end_ r) ->
                          In e (flat_map (fun p => [Path.start p; Path.end_ p]) l)).
  { intros r Hr Her. apply in_flat_map. exists r. split; [exact Hr |].
    simpl. destruct Her as [-> | ->]; auto. }
  destruct Hq as [<- | Hq], Hq' as [<- | Hq'].
  - reflexivity.
  - exfalso. pose proof (Hin q' Hq' He') as Hine.
    destruct He as [-> | ->]; [apply Hs; right; exact Hine | apply He2; exact Hine].
  - exfalso. pose proof (Hin q Hq He) as Hine.
    destruct He' as [-> | ->]; [apply Hs; right; exact Hine | apply He2; exact Hine].
  - apply IH; assumption.
Qed.

Lemma in_endpoints_path (t : Tile.t) (e : Position.t) :
  In e (endpoints t) ->
  exists q, In q (Tile.paths t) /\ (e = Path.start q \/ e = Path.end_ q).
Proof.
  unfold endpoints. intros He. apply in_flat_map in He as [q [Hq Hin]].
  exists q. split; [exact Hq |]. simpl in Hin.
  destruct Hin as [<- | [<- | []]]; auto.
Qed.

(** C8. For two tiles, which satisfy the tile invariant of the data model,
    [isEqualTo] is true exactly when their segment sets match as unordered
    sets, each segment compared as an unordered pair of its endpoints. *)
Theorem isEqualTo_iff_same_segments (a b : Tile.t)
    (Ha : tile_invariant a = true) (Hb : tile_invariant b = true) :
  Tile.isEqualTo a b = true <-> same_segments a b.
Proof.
  rewrite isEqualTo_iff_included. split.
  - intros Hincl p. split.
    + intros [q [Hq Hqp]]. destruct (Hincl q Hq) as [q1 [Hq1 Hq1q]].
      exists q1. split; [exact Hq1 | eapply same_segment_trans; eassumption].
    + intros [q [Hq Hqp]].
      destruct (tile_invariant_endpoints a Ha) as [Hall_a _].
      destruct (tile_invariant_endpoints b Hb) as [_ [Hb_all Hnd_b]].
      destruct (in_paths_endpoints b q Hq) as [Hsq _].
      apply Hb_all, Hall_a, in_endpoints_path in Hsq as [q' [Hq' Hshare]].
      destruct (Hincl q' Hq') as [q2 [Hq2 Hq2q']].
      assert (Heq : q = q2).
      { apply (shared_port_same_path (Tile.paths b) q q2 (Path.start q) Hnd_b Hq Hq2).
        - left. reflexivity.
        - unfold same_segment in Hq2q'. intuition congruence. }
      subst q2. exists q'. split; [exact Hq' |].
      eapply same_segment_trans; [apply same_segment_sym; exact Hq2q' | exact Hqp].
  - intros Hsame p Hp. apply Hsame. exists p. split; [exact Hp | apply same_segment_refl].
Qed.

Lemma isEqualTo_iff_same_segments_witness :
  Tile.isEqualTo Examples.straight (Tile.copy Examples.straight 2) = true
  <-> same_segments Examples.straight (Tile.copy Examples.straight 2).
Proof.
  apply (isEqualTo_iff_same_segments Examples.straight (Tile.copy Examples.straight 2));
    vm_compute; reflexivity.
Defined.

(** ** The rule checker *)

Section RuleCheckerFacts.
Context {board : BoardAPI}.

Lemma present_true {A : Type} (o : option A) : present o = true <-> exists a, o = Some a.
Proof. destruct o; simpl; split; eauto; try discriminate. intros [a Ha]; discriminate. Qed.

Lemma present_false {A : Type} (o : option A) : present o = false <-> o = None.
Proof. destruct o; simpl; split; congruence. Qed.

Lemma Coords_isEqualTo_eq (c d : Coords.t) : Coords.isEqualTo c d = true <-> c = d.
Proof.
  destruct c as [x1 y1], d as [x2 y2]. unfold Coords.isEqualTo. simpl.
  rewrite andb_true_iff, !Z.eqb_eq.
  split; [intros [-> ->]; reflexivity | intros [= -> ->]; split; reflexivity].
Qed.

Lemma Coords_copy_id (c : Coords.t) : Coords.copy c = c.
Proof. destruct c; reflexivity. Qed.

(** [moveOne] succeeds exactly on the steps that stay on the grid, and then
    translates the coordinate. *)
Lemma moveOne_Ok_iff (c c' : Coords.t) (d : jsstring) :
  Coords.moveOne c d = Ok c' <-> step_on_grid c d /\ c' = translate c d.
Proof.
  unfold step_on_grid. split.
  - intros Hm.
    assert (Hd : valid_direction d).
    { unfold Coords.moveOne, Coords.move in Hm. simpl in Hm.
      unfold valid_direction.
      destruct (jsstring_eqb d DIRECTIONS.NORTH) eqn:En;
        [apply jsstring_eqb_eq in En; auto |].
      destruct (jsstring_eqb d DIRECTIONS.SOUTH) eqn:Es;
        [apply jsstring_eqb_eq in Es; auto |].
      destruct (jsstring_eqb d DIRECTIONS.EAST) eqn:Ee;
        [apply jsstring_eqb_eq in Ee; auto |].
      destruct (jsstring_eqb d DIRECTIONS.WEST) eqn:Ew;
        [apply jsstring_eqb_eq in Ew; auto |].
      simpl in Hm. discriminate. }
    rewrite (moveOne_valid_direction c d Hd) in Hm.
    destruct (Coords._isValidCoordinate (moved_coordinate c d)) eqn:Ev; [| discriminate].
    unfold Coords._isValidCoordinate in Ev.
    apply andb_true_iff in Ev as [H0 H1]. apply Z.leb_le in H0. apply Z.ltb_lt in H1.
    injection Hm as <-. auto.
  - intros [[Hd Hv] ->]. rewrite (moveOne_valid_direction c d Hd).
    unfold Coords._isValidCoordinate.
    destruct Hv as [H0 H1]. apply Z.leb_le in H0. apply Z.ltb_lt in H1.
    rewrite H0, H1. reflexivity.
Qed.

Lemma _checkPlayerAdjacency_true (av : Avatar.t) (tp : TilePlacement.t) :
  RuleChecker._checkPlayerAdjacency (Some av) tp = true
  <-> step_on_grid (Avatar.coords av) (Position.direction (Avatar.position av))
      /\ TilePlacement.coords tp
         = translate (Avatar.coords av) (Position.direction (Avatar.position av)).
Proof.
  unfold RuleChecker._checkPlayerAdjacency. rewrite Coords_copy_id.
  destruct (Coords.moveOne (Avatar.coords av) (Position.direction (Avatar.position av)))
    as [c' | e] eqn:Em; simpl.
  - apply moveOne_Ok_iff in Em as [Hstep ->]. rewrite Coords_isEqualTo_eq.
    split; [intros <-; auto | intros [_ ->]; reflexivity].
  - split; [discriminate |]. intros [Hstep _].
    assert (Hok : Coords.moveOne (Avatar.coords av) (Position.direction (Avatar.position av))
                  = Ok (translate (Avatar.coords av)
                          (Position.direction (Avatar.position av))))
      by (apply moveOne_Ok_iff; auto).
    congruence.
Qed.

(** [checkPlacementLegality] returns true exactly on the four conditions of
    its [&&] chain. *)
Lemma checkPlacementLegality_true (boardState : BoardState)
    (tilePlacement : TilePlacement.t) (player : Player.t) :
  RuleChecker.checkPlacementLegality boardState tilePlacement player = JSBool true
  <-> exists avatar,
        getAvatar boardState (Player.id player) = Some avatar
        /\ getTile boardState (TilePlacement.coords tilePlacement) = None
        /\ step_on_grid (Avatar.coords avatar) (Position.direction (Avatar.position avatar))
        /\ TilePlacement.coords tilePlacement
           = translate (Avatar.coords avatar) (Position.direction (Avatar.position avatar))
        /\ exists tile, In tile (Player.hand player)
                        /\ Tile.isEqualToRotated tile (TilePlacement.tile tilePlacement) = true.
Proof.
  unfold RuleChecker.checkPlacementLegality.
  destruct (getAvatar boardState (Player.id player)) as [av |] eqn:Eav.
  - split.
    + intros [= H]. apply andb_true_iff in H as [H Hhand].
      apply andb_true_iff in H as [Htile Hadj].
      apply negb_true_iff, present_false in Htile.
      apply _checkPlayerAdjacency_true in Hadj as [Hstep Hc].
      apply existsb_exists in Hhand.
      exists av. auto.
    + intros [av' [[= <-] [Htile [Hstep [Hc Hhand]]]]].
      apply existsb_exists in Hhand.
      assert (Hadj : RuleChecker._checkPlayerAdjacency (Some av) tilePlacement = true)
        by (apply _checkPlayerAdjacency_true; auto).
      rewrite Hadj, Hhand, Htile. reflexivity.
  - split; [discriminate | intros [av [Hav _]]; discriminate].
Qed.

(** C4. [checkPlacementLegality] returns true exactly when the player has
    an avatar on the board, the target cell holds no tile, the target is
    the cell one step from the avatar's cell in the direction the avatar
    faces, that step staying on the grid, and some tile of the hand is
    rotation-equal to the proposed tile.  The function returns a value on
    every input; when the avatar's step leaves the grid that value is
    false. *)
Theorem checkPlacementLegality_iff (boardState : BoardState)
    (tilePlacement : TilePlacement.t) (player : Player.t) :
  (RuleChecker.checkPlacementLegality boardState tilePlacement player = JSBool true
   <-> exists avatar,
         getAvatar boardState (Player.id player) = Some avatar
         /\ getTile boardState (TilePlacement.coords tilePlacement) = None
         /\ step_on_grid (Avatar.coords avatar) (Position.direction (Avatar.position avatar))
         /\ TilePlacement.coords tilePlacement
            = translate (Avatar.coords avatar) (Position.direction (Avatar.position avatar))
         /\ exists tile, In tile (Player.hand player)
                         /\ Tile.isEqualToRotated tile (TilePlacement.tile tilePlacement) = true)
  /\ (forall avatar,
         getAvatar boardState (Player.id player) = Some avatar ->
         ~ step_on_grid (Avatar.coords avatar) (Position.direction (Avatar.position avatar)) ->
         RuleChecker.checkPlacementLegality boardState tilePlacement player = JSBool false).
Proof.
  split; [apply checkPlacementLegality_true |].
  unfold RuleChecker.checkPlacementLegality.
  intros av Hav Hstep. rewrite Hav.
  destruct (RuleChecker._checkPlayerAdjacency (Some av) tilePlacement) eqn:Hadj.
  - apply _checkPlayerAdjacency_true in Hadj as [Hs _]. contradiction.
  - rewrite andb_false_r. reflexivity.
Qed.

(** C3. [canTakeAction] returns true exactly when [checkPlacementLegality]
    and [checkHandValidity] both return true; it never returns true when
    the target cell already holds a tile. *)
Theorem canTakeAction_iff (boardState : BoardState)
    (tilePlacement : TilePlacement.t) (player : Player.t) :
  (RuleChecker.canTakeAction boardState tilePlacement player = Ok true
   <-> RuleChecker.checkPlacementLegality boardState tilePlacement player = JSBool true
       /\ RuleChecker.checkHandValidity boardState tilePlacement player = Ok true)
  /\ (forall tile, getTile boardState (TilePlacement.coords tilePlacement) = Some tile ->
                   RuleChecker.canTakeAction boardState tilePlacement player <> Ok true).
Proof.
  assert (Hiff : RuleChecker.canTakeAction boardState tilePlacement player = Ok true
   <-> RuleChecker.checkPlacementLegality boardState tilePlacement player = JSBool true
       /\ RuleChecker.checkHandValidity boardState tilePlacement player = Ok true).
  { unfold RuleChecker.canTakeAction.
    destruct (RuleChecker.checkPlacementLegality boardState tilePlacement player)
      as [| [|]]; simpl.
    - split; [discriminate | intros [H _]; discriminate].
    - split; [auto | intros [_ H]; exact H].
    - split; [discriminate | intros [H _]; discriminate]. }
  split; [exact Hiff |].
  intros tile Htile Hcan. apply Hiff in Hcan as [Hlegal _].
  apply checkPlacementLegality_true in Hlegal as [av [_ [Hnone _]]]. congruence.
Qed.

Lemma checkIsMoveOnBoard_true (coords : Coords.t) (tile : Tile.t) (position : Position.t) :
  RuleChecker.checkIsMoveOnBoard coords tile position = Ok true
  <-> exists ending,
        Tile.getEndingPosition tile position = Ok ending
        /\ step_on_grid coords (Position.direction ending).
Proof.
  unfold RuleChecker.checkIsMoveOnBoard. rewrite Coords_copy_id.
  destruct (Tile.getEndingPosition tile position) as [ending | e]; simpl.
  - destruct (Coords.moveOne coords (Position.direction ending)) as [c' | e] eqn:Em; simpl.
    + apply moveOne_Ok_iff in Em as [Hstep _].
      split; [intros _; eauto | reflexivity].
    + split; [discriminate |]. intros [ending' [[= <-] Hstep]].
      assert (Hok : Coords.moveOne coords (Position.direction ending)
                    = Ok (translate coords (Position.direction ending)))
        by (apply moveOne_Ok_iff; auto).
      congruence.
  - split; [discriminate | intros [ending [H _]]; discriminate].
Qed.

(** C5. [canPlaceAvatar] returns true exactly when the position is an
    outside position of the cell, the player has no avatar, the cell holds
    no tile and has no neighboring tiles, and the tile has an ending
    position for the given one from which a step in its direction stays on
    the grid; this last condition is exactly when [checkIsMoveOnBoard]
    returns true. *)
Theorem canPlaceAvatar_iff (boardState : BoardState) (playerId : string)
    (coords : Coords.t) (tile : Tile.t) (position : Position.t) :
  (RuleChecker.canPlaceAvatar boardState playerId coords tile position = Ok true
   <-> isAvatarOnOutsidePosition coords position = true
       /\ getAvatar boardState playerId = None
       /\ getTile boardState coords = None
       /\ hasNeighboringTiles boardState coords = false
       /\ exists ending,
            Tile.getEndingPosition tile position = Ok ending
            /\ step_on_grid coords (Position.direction ending))
  /\ (RuleChecker.checkIsMoveOnBoard coords tile position = Ok true
      <-> exists ending,
            Tile.getEndingPosition tile position = Ok ending
            /\ step_on_grid coords (Position.direction ending)).
Proof.
  split; [| apply checkIsMoveOnBoard_true].
  rewrite <- checkIsMoveOnBoard_true.
  unfold RuleChecker.canPlaceAvatar.
  destruct (isAvatarOnOutsidePosition coords position); simpl;
    [| split; [discriminate | intros [H _]; discriminate]].
  destruct (getAvatar boardState playerId); simpl;
    [split; [discriminate | intros [_ [H _]]; discriminate] |].
  destruct (getTile boardState coords); simpl;
    [split; [discriminate | intros [_ [_ [H _]]]; discriminate] |].
  destruct (hasNeighboringTiles boardState coords); simpl;
    [split; [discriminate | intros [_ [_ [_ [H _]]]]; discriminate] |].
  split.
  - intros H. repeat (split; [reflexivity |]). exact H.
  - intros [_ [_ [_ [_ H]]]]. exact H.
Qed.

End RuleCheckerFacts.

(** ** Hand validity *)

Section HandValidityFacts.
Context {board : BoardAPI}.

Lemma some_r_Ok_false {A : Type} (f : A -> result bool) (l : list A) :
  some_r f l = Ok false <-> forall a, In a l -> f a = Ok false.
Proof.
  induction l as [| a l IH]; simpl.
  - split; [intros _ a [] | reflexivity].
  - destruct (f a) as [[|] | e] eqn:Efa.
    + split; [discriminate | intros H; specialize (H a (or_introl eq_refl)); congruence].
    + rewrite IH. split.
      * intros H b [<- | Hb]; [exact Efa | apply H, Hb].
      * intros H b Hb. apply H. right. exact Hb.
    + split; [discriminate | intros H; specialize (H a (or_introl eq_refl)); congruence].
Qed.

Lemma some_r_Ok_true {A : Type} (f : A -> result bool) (l : list A) :
  (forall a, In a l -> exists b, f a = Ok b) ->
  some_r f l = Ok true <-> exists a, In a l /\ f a = Ok true.
Proof.
  induction l as [| a l IH]; simpl; intros Hret.
  - split; [discriminate | intros [a [[] _]]].
  - destruct (f a) as [[|] | e] eqn:Efa.
    + split; [intros _; exists a; auto | reflexivity].
    + rewrite IH by (intros b Hb; apply Hret; right; exact Hb).
      split.
      * intros [b [Hb Hfb]]. exists b. auto.
      * intros [b [[<- | Hb] Hfb]]; [congruence | exists b; auto].
    + destruct (Hret a (or_introl eq_refl)) as [b Hb]. congruence.
Qed.

(** One round of the loop over the rotations is [checkPlacementValidity] on
    the rotated copy. *)
Lemma rotationsFrom_step (boardState : BoardState) (coords : Coords.t) (player : Player.t)
    (tile : Tile.t) (j : Z) (n : nat) :
  RuleChecker.rotationsFrom boardState coords (Player.id player) tile j (S n)
  = bind (RuleChecker.checkPlacementValidity boardState (rotated_placement tile j coords) player)
         (fun alive => if alive then Ok true
                       else RuleChecker.rotationsFrom boardState coords (Player.id player)
                              tile (j + 1) n).
Proof.
  unfold RuleChecker.checkPlacementValidity, rotated_placement. simpl.
  destruct (placeTile boardState (Tile.copy tile j) coords) as [boardCopy | e]; simpl;
    [| reflexivity].
  destruct (getAvatar boardCopy (Player.id player)) as [av |]; simpl; [| reflexivity].
  destruct (isAvatarOnOutsidePosition (Avatar.coords av) (Avatar.position av)); reflexivity.
Qed.

Lemma rotationsFrom_Ok_false (boardState : BoardState) (coords : Coords.t) (player : Player.t)
    (tile : Tile.t) (n : nat) (j : Z) :
  RuleChecker.rotationsFrom boardState coords (Player.id player) tile j n = Ok false
  <-> forall i, j <= i < j + Z.of_nat n ->
        RuleChecker.checkPlacementValidity boardState (rotated_placement tile i coords) player
        = Ok false.
Proof.
  revert j. induction n as [| n IH]; intros j.
  - simpl. split; [intros _ i Hi; lia | reflexivity].
  - rewrite rotationsFrom_step.
    destruct (RuleChecker.checkPlacementValidity boardState (rotated_placement tile j coords)
                player) as [[|] | e] eqn:Ej; simpl.
    + split; [discriminate | intros H; specialize (H j ltac:(lia)); congruence].
    + rewrite IH. split.
      * intros H i Hi. destruct (Z.eq_dec i j) as [-> | Hne]; [exact Ej | apply H; lia].
      * intros H i Hi. apply H. lia.
    + split; [discriminate | intros H; specialize (H j ltac:(lia)); congruence].
Qed.

Lemma rotationsFrom_Ok_true (boardState : BoardState) (coords : Coords.t) (player : Player.t)
    (tile : Tile.t) (n : nat) (j : Z) :
  (forall i, j <= i < j + Z.of_nat n ->
     exists b, RuleChecker.checkPlacementValidity boardState (rotated_placement tile i coords)
                 player = Ok b) ->
  RuleChecker.rotationsFrom boardState coords (Player.id player) tile j n = Ok true
  <-> exists i, j <= i < j + Z.of_nat n
        /\ RuleChecker.checkPlacementValidity boardState (rotated_placement tile i coords) player
           = Ok true.
Proof.
  revert j. induction n as [| n IH]; intros j Hret.
  - simpl. split; [discriminate | intros [i [Hi _]]; lia].
  - rewrite rotationsFrom_step.
    destruct (RuleChecker.checkPlacementValidity boardState (rotated_placement tile j coords)
                player) as [[|] | e] eqn:Ej; simpl.
    + split; [intros _; exists j; split; [lia | exact Ej] | reflexivity].
    + rewrite IH by (intros i Hi; apply Hret; lia). split.
      * intros [i [Hi Hv]]. exists i. split; [lia | exact Hv].
      * intros [i [Hi Hv]]. exists i. split; [| exact Hv].
        destruct (Z.eq_dec i j) as [-> | Hne]; [congruence | lia].
    + destruct (Hret j ltac:(lia)) as [b Hb]. congruence.
Qed.

Lemma rotationsFrom_returns (boardState : BoardState) (coords : Coords.t) (player : Player.t)
    (tile : Tile.t) (n : nat) (j : Z) :
  (forall i, j <= i < j + Z.of_nat n ->
     exists b, RuleChecker.checkPlacementValidity boardState (rotated_placement tile i coords)
                 player = Ok b) ->
  exists b, RuleChecker.rotationsFrom boardState coords (Player.id player) tile j n = Ok b.
Proof.
  revert j. induction n as [| n IH]; intros j Hret.
  - simpl. eauto.
  - rewrite rotationsFrom_step. destruct (Hret j ltac:(lia)) as [[|] Hb]; rewrite Hb; simpl.
    + eauto.
    + apply IH. intros i Hi. apply Hret. lia.
Qed.

(** [_doesPlayerHaveValidMove] returns false exactly when every tile of the
    hand dies in every rotation. *)
Lemma _doesPlayerHaveValidMove_Ok_false (boardState : BoardState) (coords : Coords.t)
    (player : Player.t) :
  RuleChecker._doesPlayerHaveValidMove boardState coords player = Ok false
  <-> forall tile j, In tile (Player.hand player) -> 0 <= j <= 3 ->
        RuleChecker.checkPlacementValidity boardState (rotated_placement tile j coords) player
        = Ok false.
Proof.
  unfold RuleChecker._doesPlayerHaveValidMove. rewrite some_r_Ok_false. split.
  - intros H tile j Hin Hj. specialize (H tile Hin).
    rewrite rotationsFrom_Ok_false in H. apply H. lia.
  - intros H tile Hin. apply rotationsFrom_Ok_false. intros i Hi. apply H; [exact Hin | lia].
Qed.

(** When every simulated placement returns, [_doesPlayerHaveValidMove]
    returns true exactly when some tile of the hand survives in some
    rotation. *)
Lemma _doesPlayerHaveValidMove_Ok_true (boardState : BoardState) (coords : Coords.t)
    (player : Player.t) :
  (forall tile j, In tile (Player.hand player) -> 0 <= j <= 3 ->
     exists b, RuleChecker.checkPlacementValidity boardState (rotated_placement tile j coords)
                 player = Ok b) ->
  RuleChecker._doesPlayerHaveValidMove boardState coords player = Ok true
  <-> exists tile j, In tile (Player.hand player) /\ 0 <= j <= 3
        /\ RuleChecker.checkPlacementValidity boardState (rotated_placement tile j coords) player
           = Ok true.
Proof.
  intros Hret. unfold RuleChecker._doesPlayerHaveValidMove.
  rewrite some_r_Ok_true.
  - split.
    + intros [tile [Hin Hrot]].
      apply rotationsFrom_Ok_true in Hrot as [i [Hi Hv]];
        [| intros i Hi; apply Hret; [exact Hin | lia]].
      exists tile, i. split; [exact Hin | split; [lia | exact Hv]].
    + intros [tile [j [Hin [Hj Hv]]]]. exists tile. split; [exact Hin |].
      apply rotationsFrom_Ok_true; [intros i Hi; apply Hret; [exact Hin | lia] |].
      exists j. split; [lia | exact Hv].
  - intros tile Hin. apply rotationsFrom_returns. intros i Hi. apply Hret; [exact Hin | lia].
Qed.

(** What [checkHandValidity] computes, for every board.  It returns true
    when the submitted placement is not suicidal.  When it is suicidal,
    [checkHandValidity] returns true exactly when some tile of the hand, in
    some rotation 0..3, placed at the same coordinate, keeps the player
    alive, and returns false exactly when every tile of the hand in every
    rotation is suicidal too.  (The simulated placements of the hand are
    assumed to return.) *)
Theorem checkHandValidity_iff (boardState : BoardState)
    (tilePlacement : TilePlacement.t) (player : Player.t)
    (Hret : forall tile j, In tile (Player.hand player) -> 0 <= j <= 3 ->
       exists b, RuleChecker.checkPlacementValidity boardState
                   (rotated_placement tile j (TilePlacement.coords tilePlacement)) player
                 = Ok b) :
  (RuleChecker.checkPlacementValidity boardState tilePlacement player = Ok true ->
   RuleChecker.checkHandValidity boardState tilePlacement player = Ok true)
  /\ (RuleChecker.checkPlacementValidity boardState tilePlacement player = Ok false ->
      (RuleChecker.checkHandValidity boardState tilePlacement player = Ok true
       <-> exists tile j, In tile (Player.hand player) /\ 0 <= j <= 3
             /\ RuleChecker.checkPlacementValidity boardState
                  (rotated_placement tile j (TilePlacement.coords tilePlacement)) player
                = Ok true)
      /\ (RuleChecker.checkHandValidity boardState tilePlacement player = Ok false
          <-> forall tile j, In tile (Player.hand player) -> 0 <= j <= 3 ->
                RuleChecker.checkPlacementValidity boardState
                  (rotated_placement tile j (TilePlacement.coords tilePlacement)) player
                = Ok false)).
Proof.
  unfold RuleChecker.checkHandValidity. split.
  - intros ->. reflexivity.
  - intros ->. simpl. split.
    + apply _doesPlayerHaveValidMove_Ok_true, Hret.
    + apply _doesPlayerHaveValidMove_Ok_false.
Qed.

(** When [checkHandValidity] returns false, on whatever board, the
    submitted placement is suicidal and so is every tile of the hand in
    every rotation 0..3 at the same coordinate: [checkPlacementValidity]
    returns false for each of them. *)
Theorem checkHandValidity_false_all_suicidal (boardState : BoardState)
    (tilePlacement : TilePlacement.t) (player : Player.t)
    (Hfalse : RuleChecker.checkHandValidity boardState tilePlacement player = Ok false) :
  RuleChecker.checkPlacementValidity boardState tilePlacement player = Ok false
  /\ forall tile j, In tile (Player.hand player) -> 0 <= j <= 3 ->
       RuleChecker.checkPlacementValidity boardState
         (rotated_placement tile j (TilePlacement.coords tilePlacement)) player
       = Ok false.
Proof.
  unfold RuleChecker.checkHandValidity in Hfalse.
  destruct (RuleChecker.checkPlacementValidity boardState tilePlacement player)
    as [[|] | e]; simpl in Hfalse; try discriminate.
  split; [reflexivity |].
  apply _doesPlayerHaveValidMove_Ok_false, Hfalse.
Qed.

End HandValidityFacts.

(** ** The rule checker on the board of the design document *)

(** Runs the simulated placements of a concrete hand: one goal per tile and
    rotation, each decided by evaluation. *)
Ltac each_rotation Hin Hj :=
  match type of Hj with
  | 0 <= ?j <= 3 =>
      let H := fresh "Hcases" in
      assert (H : j = 0 \/ j = 1 \/ j = 2 \/ j = 3) by lia;
      simpl in Hin;
      repeat (destruct Hin as [<- | Hin]; [destruct H as [-> | [-> | [-> | ->]]] |]);
      [.. | destruct Hin]
  end.

Example canPlaceAvatar_on_empty_board :
  RuleChecker.canPlaceAvatar Examples.empty_board "red" (Coords.mk 0 0) Examples.straight
    (Position.mk DIRECTIONS.WEST 0) = Ok true
  /\ RuleChecker.canPlaceAvatar Examples.empty_board "red" (Coords.mk 0 0) Examples.uturns
       (Position.mk DIRECTIONS.WEST 0) = Ok false
  /\ RuleChecker.canPlaceAvatar Examples.empty_board "red" (Coords.mk 0 0) Examples.straight
       (Position.mk DIRECTIONS.EAST 0) = Ok false.
Proof. repeat split; vm_compute; reflexivity. Qed.

Example placeTile_moves_avatar :
  bind (placeTile Examples.corner_board Examples.uturns (Coords.mk 0 0))
       (fun b => Ok (getAvatar b "red"))
  = Ok (Some (Avatar.mk (Coords.mk 1 0) (Position.mk DIRECTIONS.EAST 0)))
  /\ bind (placeTile Examples.corner_board Examples.straight (Coords.mk 0 0))
          (fun b => Ok (getAvatar b "red"))
     = Ok None
  /\ bind (placeTile Examples.start_board Examples.straight (Coords.mk 1 0))
          (fun b => Ok (getAvatar b "red"))
     = Ok (Some (Avatar.mk (Coords.mk 0 0) (Position.mk DIRECTIONS.WEST 0))).
Proof. repeat split; vm_compute; reflexivity. Qed.

(** On a board that removes the avatar it eliminates, as the design
    document has it, the rule checker reads the fields of an avatar that is
    not there: a placement that sends the avatar off the grid makes
    [checkPlacementValidity], and with it [checkHandValidity] and
    [canTakeAction], throw. *)
Example rule_checker_after_elimination :
  RuleChecker.checkPlacementValidity Examples.corner_board Examples.straight_at_corner
    Examples.red_forced = Throw "TypeError"
  /\ RuleChecker.checkHandValidity Examples.corner_board Examples.straight_at_corner
       Examples.red_forced = Throw "TypeError"
  /\ RuleChecker.canTakeAction Examples.corner_board Examples.straight_at_corner
       Examples.red_forced = Throw "TypeError".
Proof. repeat split; vm_compute; reflexivity. Qed.

(** C1. The code at the failing input: the avatar of "red" stands at its
    starting position on the outer edge, the hand holds the straight tile
    only and the tile is submitted for the cell (1,0).  The submission is
    suicidal and so is the whole hand, in every rotation, at that
    coordinate: this is the forced elimination, in which
    [checkHandValidity] is to return true.  It returns false. *)
Lemma checkHandValidity_forced_elimination_rejected :
  RuleChecker.checkPlacementValidity Examples.start_board Examples.straight_at_next
    Examples.red_forced = Ok false
  /\ (forall tile j, In tile (Player.hand Examples.red_forced) -> 0 <= j <= 3 ->
        RuleChecker.checkPlacementValidity Examples.start_board
          (rotated_placement tile j (Coords.mk 1 0)) Examples.red_forced = Ok false)
  /\ RuleChecker.checkHandValidity Examples.start_board Examples.straight_at_next
       Examples.red_forced = Ok false.
Proof.
  split; [vm_compute; reflexivity | split; [| vm_compute; reflexivity]].
  intros tile j Hin Hj. each_rotation Hin Hj; vm_compute; reflexivity.
Qed.

Lemma checkHandValidity_iff_witness :
  RuleChecker.checkHandValidity Examples.start_board Examples.straight_at_next
    Examples.red_choice = Ok false.
Proof.
  assert (Hret : forall tile j, In tile (Player.hand Examples.red_choice) -> 0 <= j <= 3 ->
            exists b, RuleChecker.checkPlacementValidity Examples.start_board
                        (rotated_placement tile j
                           (TilePlacement.coords Examples.straight_at_next))
                        Examples.red_choice = Ok b).
  { intros tile j Hin Hj. each_rotation Hin Hj; eexists; vm_compute; reflexivity. }
  assert (Hsub : RuleChecker.checkPlacementValidity Examples.start_board
                   Examples.straight_at_next Examples.red_choice = Ok false)
    by (vm_compute; reflexivity).
  destruct (checkHandValidity_iff (board := SpecBoard_api) Examples.start_board
              Examples.straight_at_next Examples.red_choice Hret) as [_ Hsuicidal].
  destruct (Hsuicidal Hsub) as [_ Hfalse].
  apply Hfalse. intros tile j Hin Hj. each_rotation Hin Hj; vm_compute; reflexivity.
Defined.

(** C2. The code at the failing input: on the same board "red" holds the
    straight tile and the tile of U-turns and submits the straight tile for
    the cell (1,0).  [checkHandValidity] returns false, which is to mean
    that some tile of the hand in some rotation passes
    [checkPlacementValidity] at that coordinate; none does. *)
Lemma checkHandValidity_false_without_survivor :
  RuleChecker.checkHandValidity Examples.start_board Examples.straight_at_next
    Examples.red_choice = Ok false
  /\ ~ exists tile j, In tile (Player.hand Examples.red_choice) /\ 0 <= j <= 3
        /\ RuleChecker.checkPlacementValidity Examples.start_board
             (rotated_placement tile j (Coords.mk 1 0)) Examples.red_choice = Ok true.
Proof.
  split; [vm_compute; reflexivity |].
  intros [tile [j [Hin [Hj Hv]]]].
  each_rotation Hin Hj; vm_compute in Hv; discriminate Hv.
Qed.

Lemma checkHandValidity_false_all_suicidal_witness :
  RuleChecker.checkPlacementValidity Examples.start_board Examples.straight_at_next
    Examples.red_forced = Ok false
  /\ forall tile j, In tile (Player.hand Examples.red_forced) -> 0 <= j <= 3 ->
       RuleChecker.checkPlacementValidity Examples.start_board
         (rotated_placement tile j (TilePlacement.coords Examples.straight_at_next))
         Examples.red_forced = Ok false.
Proof.
  apply (checkHandValidity_false_all_suicidal (board := SpecBoard_api) Examples.start_board
           Examples.straight_at_next Examples.red_forced).
  vm_compute. reflexivity.
Defined.

Lemma canTakeAction_iff_witness :
  RuleChecker.canTakeAction Examples.corner_board Examples.straight_at_occupied
    Examples.red_forced <> Ok true.
Proof.
  apply (proj2 (canTakeAction_iff (board := SpecBoard_api) Examples.corner_board
                  Examples.straight_at_occupied Examples.red_forced) Examples.straight).
  vm_compute. reflexivity.
Defined.

Lemma checkPlacementLegality_iff_witness :
  RuleChecker.checkPlacementLegality Examples.corner_board Examples.straight_at_corner
    Examples.red_forced = JSBool true.
Proof.
  apply (proj1 (checkPlacementLegality_iff (board := SpecBoard_api) Examples.corner_board
                  Examples.straight_at_corner Examples.red_forced)).
  exists (Avatar.mk (Coords.mk 1 0) (Position.mk DIRECTIONS.WEST 0)).
  split; [vm_compute; reflexivity |].
  split; [vm_compute; reflexivity |].
  split.
  - split; [unfold valid_direction; simpl; auto |].
    vm_compute. split; [discriminate | reflexivity].
  - split; [vm_compute; reflexivity |].
    exists Examples.straight. split; [simpl; auto | vm_compute; reflexivity].
Defined.

(** ** Effects of the rule checker on the store *)

Section StoreFacts.
Context {board : BoardAPI}.

Lemma fresh_above_refl (h : list Store.obj) : Store.fresh_above h h.
Proof. exists []. split; [symmetry; apply app_nil_r | constructor]. Qed.

Lemma fresh_above_extends (h0 h : list Store.obj) : Store.fresh_above h0 h -> Store.extends h0 h.
Proof. intros [fresh [-> _]]. exists fresh. reflexivity. Qed.

Lemma framed_ret {A : Type} (h0 : list Store.obj) (a : A) (R : A -> Prop) :
  R a -> Store.framed h0 (Store.ret a) R.
Proof. intros Ha h Hh. simpl. split; [exact Hh | intros b [= <-]; exact Ha]. Qed.

Lemma framed_throw {A : Type} (h0 : list Store.obj) (e : string) (R : A -> Prop) :
  Store.framed h0 (Store.throw e) R.
Proof. intros h Hh. simpl. split; [exact Hh | discriminate]. Qed.

Lemma framed_lift {A : Type} (h0 : list Store.obj) (r : result A) (R : A -> Prop) :
  (forall a, r = Ok a -> R a) -> Store.framed h0 (Store.lift r) R.
Proof. intros Hr h Hh. simpl. split; [exact Hh | exact Hr]. Qed.

Lemma framed_bind {A B : Type} (h0 : list Store.obj) (m : Store.M A) (f : A -> Store.M B)
    (R : A -> Prop) (R' : B -> Prop) :
  Store.framed h0 m R ->
  (forall a, R a -> Store.framed h0 (f a) R') ->
  Store.framed h0 (Store.bind m f) R'.
Proof.
  intros Hm Hf h Hh. unfold Store.bind.
  destruct (Hm h Hh) as [Hh' Hr].
  destruct (m h) as [[a | e] h']; simpl in *.
  - apply (Hf a (Hr a eq_refl) h' Hh').
  - split; [exact Hh' | discriminate].
Qed.

Lemma framed_weaken {A : Type} (h0 : list Store.obj) (m : Store.M A) (R R' : A -> Prop) :
  Store.framed h0 m R -> (forall a, R a -> R' a) -> Store.framed h0 m R'.
Proof.
  intros Hm Himp h Hh. destruct (Hm h Hh) as [Hh' Hr].
  split; [exact Hh' | intros a Ha; apply Himp, Hr, Ha].
Qed.

Lemma framed_try_catch {A : Type} (h0 : list Store.obj) (m : Store.M A) (d : A) (R : A -> Prop) :
  Store.framed h0 m R -> R d -> Store.framed h0 (Store.try_catch m d) R.
Proof.
  intros Hm Hd h Hh. unfold Store.try_catch.
  destruct (Hm h Hh) as [Hh' Hr].
  destruct (m h) as [[a | e] h']; simpl in *.
  - split; [exact Hh' | intros b [= <-]; apply Hr; reflexivity].
  - split; [exact Hh' | intros b [= <-]; exact Hd].
Qed.

(** A new object lands above the objects of [h0]. *)
Lemma framed_alloc (h0 : list Store.obj) (o : Store.obj) :
  Store.fresh_obj h0 o ->
  Store.framed h0 (Store.alloc o) (fun l => (length h0 <= l)%nat).
Proof.
  intros Ho h [fresh [-> Hfresh]]. unfold Store.alloc. simpl. split.
  - exists (fresh ++ [o])%list. split; [rewrite app_assoc; reflexivity |].
    apply Forall_app. split; [exact Hfresh | constructor; [exact Ho | constructor]].
  - intros l [= <-]. rewrite length_app. lia.
Qed.

Lemma framed_load (h0 : list Store.obj) (l : nat) :
  Store.framed h0 (Store.load l) (fun o => (length h0 <= l)%nat -> Store.fresh_obj h0 o).
Proof.
  intros h Hh. unfold Store.load.
  destruct (h !! l) as [o |] eqn:El; simpl; (split; [exact Hh |]); [| discriminate].
  intros o' [= <-] Hl. destruct Hh as [fresh [-> Hfresh]].
  rewrite lookup_app_r in El by exact Hl.
  rewrite Forall_lookup in Hfresh. apply (Hfresh _ _ El).
Qed.

(** A write is allowed on the objects allocated since [h0]. *)
Lemma framed_store (h0 : list Store.obj) (l : nat) (o : Store.obj) (R : unit -> Prop) :
  (length h0 <= l)%nat -> Store.fresh_obj h0 o -> R tt ->
  Store.framed h0 (Store.store l o) R.
Proof.
  intros Hl Ho HR h [fresh [-> Hfresh]]. unfold Store.store. simpl. split.
  - exists (<[(l - length h0)%nat := o]> fresh). split.
    + apply insert_app_r_alt. exact Hl.
    + apply Forall_insert; assumption.
  - intros [] _. exact HR.
Qed.

Lemma framed_load_coords (h0 : list Store.obj) (l : nat) (R : Coords.t -> Prop) :
  (forall c, R c) -> Store.framed h0 (Store.load_coords l) R.
Proof.
  intros HR. unfold Store.load_coords.
  eapply framed_bind; [apply framed_load |].
  intros o _. destruct o; try apply framed_throw. apply framed_ret, HR.
Qed.

Lemma framed_load_position (h0 : list Store.obj) (l : nat) (R : Position.t -> Prop) :
  (forall p, R p) -> Store.framed h0 (Store.load_position l) R.
Proof.
  intros HR. unfold Store.load_position.
  eapply framed_bind; [apply framed_load |].
  intros o _. destruct o; try apply framed_throw. apply framed_ret, HR.
Qed.

Lemma framed_load_path (h0 : list Store.obj) (l : nat) (R : Path.t -> Prop) :
  (forall p, R p) -> Store.framed h0 (Store.load_path l) R.
Proof.
  intros HR. unfold Store.load_path.
  eapply framed_bind; [apply framed_load |].
  intros o _. destruct o; try apply framed_throw. apply framed_ret, HR.
Qed.

(** The paths of a tile allocated since [h0] were allocated since [h0]. *)
Lemma framed_load_tile (h0 : list Store.obj) (l : nat) :
  Store.framed h0 (Store.load_tile l)
    (fun paths => (length h0 <= l)%nat -> Forall (fun path => (length h0 <= path)%nat) paths).
Proof.
  unfold Store.load_tile.
  eapply framed_bind; [apply framed_load |].
  intros o Ho. destruct o; try apply framed_throw. apply framed_ret. exact Ho.
Qed.

(** The Coords and Position objects of an avatar allocated since [h0] were
    allocated since [h0]. *)
Lemma framed_load_avatar (h0 : list Store.obj) (l : nat) :
  Store.framed h0 (Store.load_avatar l)
    (fun a => (length h0 <= l)%nat -> (length h0 <= fst a)%nat /\ (length h0 <= snd a)%nat).
Proof.
  unfold Store.load_avatar.
  eapply framed_bind; [apply framed_load |].
  intros o Ho. destruct o; try apply framed_throw. apply framed_ret. exact Ho.
Qed.

(** The avatars of a board state allocated since [h0] were allocated since
    [h0]. *)
Lemma framed_load_board (h0 : list Store.obj) (l : nat) :
  Store.framed h0 (Store.load_board l)
    (fun b => (length h0 <= l)%nat ->
              Forall (fun entry => (length h0 <= snd entry)%nat) (snd b)).
Proof.
  unfold Store.load_board.
  eapply framed_bind; [apply framed_load |].
  intros o Ho. destruct o; try apply framed_throw. apply framed_ret. exact Ho.
Qed.

Lemma framed_mapM {A B : Type} (h0 : list Store.obj) (f : A -> Store.M B) (l : list A)
    (P : A -> Prop) (R : B -> Prop) :
  (forall a, P a -> Store.framed h0 (f a) R) ->
  Forall P l ->
  Store.framed h0 (Store.mapM f l) (Forall R).
Proof.
  intros Hf Hl. induction Hl as [| a l Ha Hl IH]; simpl.
  - apply framed_ret. constructor.
  - eapply framed_bind; [apply Hf, Ha |]. intros b Hb.
    eapply framed_bind; [apply IH |]. intros bs Hbs.
    apply framed_ret. constructor; assumption.
Qed.

Lemma framed_someM {A : Type} (h0 : list Store.obj) (f : A -> Store.M bool) (l : list A) :
  (forall a, Store.framed h0 (f a) (fun _ => True)) ->
  Store.framed h0 (Store.someM f l) (fun _ => True).
Proof.
  intros Hf. induction l as [| a l IH]; simpl.
  - apply framed_ret. exact I.
  - eapply framed_bind; [apply Hf |]. intros [|] _; [apply framed_ret; exact I | exact IH].
Qed.

(** *** The methods of Coords, Path and Tile *)

Lemma framed_Coords_copy (h0 : list Store.obj) (this : nat) :
  Store.framed h0 (Store.Coords_copy this) (fun l => (length h0 <= l)%nat).
Proof.
  unfold Store.Coords_copy.
  eapply framed_bind; [apply framed_load_coords with (R := fun _ => True); auto |].
  intros c _. apply framed_alloc. exact I.
Qed.

(** [moveOne] writes [this]: it is framed on a coordinate allocated since
    [h0]. *)
Lemma framed_Coords_moveOne (h0 : list Store.obj) (this : nat) (d : jsstring) :
  (length h0 <= this)%nat ->
  Store.framed h0 (Store.Coords_moveOne this d) (fun l => (length h0 <= l)%nat).
Proof.
  intros Hthis. unfold Store.Coords_moveOne.
  eapply framed_bind; [apply framed_load_coords with (R := fun _ => True); auto |].
  intros c _.
  eapply framed_bind; [apply framed_lift with (R := fun _ => True); auto |].
  intros moved _.
  eapply framed_bind; [apply framed_store with (R := fun _ => True); simpl; auto |].
  intros _ _. apply framed_ret. exact Hthis.
Qed.

Lemma framed_Coords_isEqualTo (h0 : list Store.obj) (this coords : nat) :
  Store.framed h0 (Store.Coords_isEqualTo this coords) (fun _ => True).
Proof.
  unfold Store.Coords_isEqualTo.
  eapply framed_bind; [apply framed_load_coords with (R := fun _ => True); auto |].
  intros c _.
  eapply framed_bind; [apply framed_load_coords with (R := fun _ => True); auto |].
  intros d _. apply framed_ret. exact I.
Qed.

Lemma framed_Position_copy (h0 : list Store.obj) (this : nat) :
  Store.framed h0 (Store.Position_copy this) (fun l => (length h0 <= l)%nat).
Proof.
  unfold Store.Position_copy.
  eapply framed_bind; [apply framed_load_position with (R := fun _ => True); auto |].
  intros p _. apply framed_alloc. exact I.
Qed.

Lemma framed_Path_copy (h0 : list Store.obj) (this : nat) :
  Store.framed h0 (Store.Path_copy this) (fun l => (length h0 <= l)%nat).
Proof.
  unfold Store.Path_copy.
  eapply framed_bind; [apply framed_load_path with (R := fun _ => True); auto |].
  intros p _. apply framed_alloc. exact I.
Qed.

(** [Path.rotate] writes [this]. *)
Lemma framed_Path_rotate (h0 : list Store.obj) (this : nat) (rotations : Z) :
  (length h0 <= this)%nat ->
  Store.framed h0 (Store.Path_rotate this rotations) (fun _ => True).
Proof.
  intros Hthis. unfold Store.Path_rotate.
  eapply framed_bind; [apply framed_load_path with (R := fun _ => True); auto |].
  intros p _. apply framed_store; simpl; auto.
Qed.

(** [Tile.rotate] writes [this] and the path objects [this] holds. *)
Lemma framed_Tile_rotate (h0 : list Store.obj) (this : nat) (rotations : Z) :
  (length h0 <= this)%nat ->
  Store.framed h0 (Store.Tile_rotate this rotations) (fun _ => True).
Proof.
  intros Hthis. unfold Store.Tile_rotate.
  destruct (0 <? Z.rem rotations (Z.of_nat (length DIRECTIONS_CLOCKWISE)));
    [| apply framed_ret; exact I].
  eapply framed_bind; [apply framed_load_tile |].
  intros paths Hpaths. specialize (Hpaths Hthis).
  eapply framed_bind.
  - apply (framed_mapM h0 _ paths (fun path => (length h0 <= path)%nat)
             (fun path => (length h0 <= path)%nat)); [| exact Hpaths].
    intros path Hpath.
    eapply framed_bind; [apply framed_Path_rotate, Hpath |].
    intros _ _. apply framed_ret. exact Hpath.
  - intros rotated Hrotated. apply framed_store; simpl; auto.
Qed.

(** [Tile.copy] allocates the copy and its paths, and rotates the copy. *)
Lemma framed_Tile_copy (h0 : list Store.obj) (this : nat) (rotations : Z) :
  Store.framed h0 (Store.Tile_copy this rotations) (fun l => (length h0 <= l)%nat).
Proof.
  unfold Store.Tile_copy.
  eapply framed_bind; [apply framed_load_tile |].
  intros paths _.
  eapply framed_bind.
  - apply (framed_mapM h0 _ paths (fun _ => True) (fun path => (length h0 <= path)%nat)).
    + intros path _. apply framed_Path_copy.
    + apply Forall_forall. auto.
  - intros copies Hcopies.
    eapply framed_bind; [apply framed_alloc; exact Hcopies |].
    intros tileCopy HtileCopy.
    destruct (0 <? rotations); [| apply framed_ret; exact HtileCopy].
    eapply framed_bind; [apply framed_Tile_rotate, HtileCopy |].
    intros _ _. apply framed_ret. exact HtileCopy.
Qed.

Lemma framed_Tile_read (h0 : list Store.obj) (this : nat) :
  Store.framed h0 (Store.Tile_read this) (fun _ => True).
Proof.
  unfold Store.Tile_read.
  eapply framed_bind; [apply framed_load_tile |].
  intros paths _.
  eapply framed_bind.
  - apply (framed_mapM h0 _ paths (fun _ => True) (fun _ => True)).
    + intros path _. apply framed_load_path. auto.
    + apply Forall_forall. auto.
  - intros ps _. apply framed_ret. exact I.
Qed.

Lemma framed_Tile_getEndingPosition (h0 : list Store.obj) (this position : nat) :
  Store.framed h0 (Store.Tile_getEndingPosition this position) (fun _ => True).
Proof.
  unfold Store.Tile_getEndingPosition.
  eapply framed_bind; [apply framed_Tile_read |]. intros t _.
  eapply framed_bind; [apply framed_load_position with (R := fun _ => True); auto |].
  intros p _. apply framed_lift. auto.
Qed.

Lemma framed_Tile_isEqualTo (h0 : list Store.obj) (this tile : nat) :
  Store.framed h0 (Store.Tile_isEqualTo this tile) (fun _ => True).
Proof.
  unfold Store.Tile_isEqualTo.
  eapply framed_bind; [apply framed_Tile_read |]. intros a _.
  eapply framed_bind; [apply framed_Tile_read |]. intros b _.
  apply framed_ret. exact I.
Qed.

Lemma framed_Tile_isEqualToRotated (h0 : list Store.obj) (this tile : nat) :
  Store.framed h0 (Store.Tile_isEqualToRotated this tile) (fun _ => True).
Proof.
  unfold Store.Tile_isEqualToRotated.
  eapply framed_bind; [apply framed_Tile_isEqualTo |].
  intros [|] _; [apply framed_ret; exact I |].
  eapply framed_bind; [apply framed_Tile_copy |]. intros c1 _.
  eapply framed_bind; [apply framed_Tile_isEqualTo |].
  intros [|] _; [apply framed_ret; exact I |].
  eapply framed_bind; [apply framed_Tile_copy |]. intros c2 _.
  eapply framed_bind; [apply framed_Tile_isEqualTo |].
  intros [|] _; [apply framed_ret; exact I |].
  eapply framed_bind; [apply framed_Tile_copy |]. intros c3 _.
  apply framed_Tile_isEqualTo.
Qed.

(** *** The board *)

Lemma framed_Avatar_copy (h0 : list Store.obj) (this : nat) :
  Store.framed h0 (Store.Avatar_copy this) (fun l => (length h0 <= l)%nat).
Proof.
  unfold Store.Avatar_copy.
  eapply framed_bind; [apply framed_load_avatar |]. intros a _.
  eapply framed_bind; [apply framed_Coords_copy |]. intros coordsCopy Hc.
  eapply framed_bind; [apply framed_Position_copy |]. intros positionCopy Hp.
  apply framed_alloc. split; assumption.
Qed.

(** [copy] reads the board state and its avatars, and allocates. *)
Lemma framed_BoardState_copy (h0 : list Store.obj) (this : nat) :
  Store.framed h0 (Store.BoardState_copy this) (fun l => (length h0 <= l)%nat).
Proof.
  unfold Store.BoardState_copy.
  eapply framed_bind; [apply framed_load_board |]. intros b _.
  eapply framed_bind.
  - apply (framed_mapM h0 _ (snd b) (fun _ => True)
             (fun entry => (length h0 <= snd entry)%nat)).
    + intros entry _.
      eapply framed_bind; [apply framed_Avatar_copy |]. intros a Ha.
      apply framed_ret. exact Ha.
    + apply Forall_forall. auto.
  - intros copies Hcopies. apply framed_alloc. exact Hcopies.
Qed.

(** The movement writes the Coords and Position objects of the avatar. *)
Lemma framed_Board_moveAvatar (h0 : list Store.obj) (moved : BoardState)
    (entry : string * nat) :
  (length h0 <= snd entry)%nat ->
  Store.framed h0 (Store.Board_moveAvatar moved entry)
    (fun r => forall e, r = Some e -> (length h0 <= snd e)%nat).
Proof.
  intros Hentry. unfold Store.Board_moveAvatar.
  destruct (getAvatar moved (fst entry)) as [av |];
    [| apply framed_ret; intros e; discriminate].
  eapply framed_bind; [apply framed_load_avatar |]. intros a Ha.
  destruct (Ha Hentry) as [Hc Hp].
  eapply framed_bind; [apply framed_load_coords with (R := fun _ => True); auto |].
  intros _ _.
  eapply framed_bind; [apply framed_store with (R := fun _ => True); simpl; auto |].
  intros _ _.
  eapply framed_bind; [apply framed_load_position with (R := fun _ => True); auto |].
  intros _ _.
  eapply framed_bind; [apply framed_store with (R := fun _ => True); simpl; auto |].
  intros _ _. apply framed_ret. intros e [= <-]. exact Hentry.
Qed.

(** [placeTile] writes the board state it is called on and the avatar
    objects of its mapping. *)
Lemma framed_Board_placeTile (h0 : list Store.obj) (this tile coords : nat) :
  (length h0 <= this)%nat ->
  Store.framed h0 (Store.Board_placeTile this tile coords) (fun _ => True).
Proof.
  intros Hthis. unfold Store.Board_placeTile.
  eapply framed_bind; [apply framed_load_board |]. intros b Hb. specialize (Hb Hthis).
  eapply framed_bind; [apply framed_Tile_read |]. intros t _.
  eapply framed_bind; [apply framed_load_coords with (R := fun _ => True); auto |].
  intros c _.
  eapply framed_bind; [apply framed_lift with (R := fun _ => True); auto |].
  intros s' _.
  eapply framed_bind.
  - apply (framed_mapM h0 _ (snd b) (fun entry => (length h0 <= snd entry)%nat)
             (fun r => forall e, r = Some e -> (length h0 <= snd e)%nat)); [| exact Hb].
    intros entry Hentry. apply framed_Board_moveAvatar, Hentry.
  - intros moved Hmoved. apply framed_store; [exact Hthis | | exact I].
    simpl. induction Hmoved as [| r moved Hr _ IH]; simpl; [constructor |].
    destruct r as [e |]; simpl; [constructor; [apply Hr; reflexivity | exact IH] | exact IH].
Qed.

Lemma framed_Board_getAvatar (h0 : list Store.obj) (this : nat) (id : string) :
  Store.framed h0 (Store.Board_getAvatar this id) (fun _ => True).
Proof.
  unfold Store.Board_getAvatar.
  eapply framed_bind; [apply framed_load_board |].
  intros b _. apply framed_ret. exact I.
Qed.

Lemma framed_BoardState_getTile (h0 : list Store.obj) (this coords : nat) :
  Store.framed h0 (Store.BoardState_getTile this coords) (fun _ => True).
Proof.
  unfold Store.BoardState_getTile.
  eapply framed_bind; [apply framed_load_board |]. intros b _.
  eapply framed_bind; [apply framed_load_coords with (R := fun _ => True); auto |].
  intros c _. apply framed_ret. exact I.
Qed.

Lemma framed_BoardState_hasNeighboringTiles (h0 : list Store.obj) (this coords : nat) :
  Store.framed h0 (Store.BoardState_hasNeighboringTiles this coords) (fun _ => True).
Proof.
  unfold Store.BoardState_hasNeighboringTiles.
  eapply framed_bind; [apply framed_load_board |]. intros b _.
  eapply framed_bind; [apply framed_load_coords with (R := fun _ => True); auto |].
  intros c _. apply framed_ret. exact I.
Qed.

Lemma framed_Board_isAvatarOnOutsidePosition (h0 : list Store.obj) (coords position : nat) :
  Store.framed h0 (Store.Board_isAvatarOnOutsidePosition coords position) (fun _ => True).
Proof.
  unfold Store.Board_isAvatarOnOutsidePosition.
  eapply framed_bind; [apply framed_load_coords with (R := fun _ => True); auto |].
  intros c _.
  eapply framed_bind; [apply framed_load_position with (R := fun _ => True); auto |].
  intros p _. apply framed_ret. exact I.
Qed.

(** *** The rule checker *)

(** The step of [_checkPlayerAdjacency] runs on the copy of the avatar's
    coordinates, which was allocated since [h0]. *)
Lemma framed__checkPlayerAdjacency (h0 : list Store.obj) (avatar : option nat)
    (tilePlacement : Store.placement) :
  Store.framed h0 (Store._checkPlayerAdjacency avatar tilePlacement) (fun _ => True).
Proof.
  unfold Store._checkPlayerAdjacency. destruct avatar as [av |]; [| apply framed_ret; exact I].
  eapply framed_bind; [apply framed_load_avatar |]. intros a _.
  apply framed_try_catch; [| exact I].
  eapply framed_bind; [apply framed_Coords_copy |]. intros coordsCopy Hcopy.
  eapply framed_bind; [apply framed_load_position with (R := fun _ => True); auto |].
  intros position _.
  eapply framed_bind; [apply framed_Coords_moveOne, Hcopy |]. intros newCoords _.
  apply framed_Coords_isEqualTo.
Qed.

Lemma framed_checkPlacementLegality (h0 : list Store.obj) (boardState : nat)
    (tilePlacement : Store.placement) (p : Store.player) :
  Store.framed h0 (Store.checkPlacementLegality boardState tilePlacement p) (fun _ => True).
Proof.
  unfold Store.checkPlacementLegality.
  eapply framed_bind; [apply framed_Board_getAvatar |].
  intros [av |] _; [| apply framed_ret; exact I].
  eapply framed_bind; [apply framed_BoardState_getTile |]. intros placed _.
  destruct (present placed); [apply framed_ret; exact I |].
  eapply framed_bind; [apply framed__checkPlayerAdjacency |].
  intros [|] _; simpl; [| apply framed_ret; exact I].
  eapply framed_bind; [apply framed_someM; intros t; apply framed_Tile_isEqualToRotated |].
  intros inHand _. apply framed_ret. exact I.
Qed.

Lemma framed_isAvatarAlive (h0 : list Store.obj) (avatarCopy : option nat) :
  Store.framed h0 (Store.isAvatarAlive avatarCopy) (fun _ => True).
Proof.
  unfold Store.isAvatarAlive. destruct avatarCopy as [av |]; [| apply framed_throw].
  eapply framed_bind; [apply framed_load_avatar |]. intros a _.
  eapply framed_bind; [apply framed_Board_isAvatarOnOutsidePosition |].
  intros outside _. apply framed_ret. exact I.
Qed.

Lemma framed_checkPlacementValidity (h0 : list Store.obj) (boardState : nat)
    (tilePlacement : Store.placement) (p : Store.player) :
  Store.framed h0 (Store.checkPlacementValidity boardState tilePlacement p) (fun _ => True).
Proof.
  unfold Store.checkPlacementValidity.
  eapply framed_bind; [apply framed_BoardState_copy |]. intros boardCopy Hcopy.
  eapply framed_bind; [apply framed_Board_placeTile, Hcopy |]. intros _ _.
  eapply framed_bind; [apply framed_Board_getAvatar |].
  intros avatarCopy _. apply framed_isAvatarAlive.
Qed.

Lemma framed_rotationsFrom (h0 : list Store.obj) (boardState coords : nat) (playerId : string)
    (t : nat) (n : nat) (j : Z) :
  Store.framed h0 (Store.rotationsFrom boardState coords playerId t j n) (fun _ => True).
Proof.
  revert j. induction n as [| n IH]; intros j; simpl; [apply framed_ret; exact I |].
  eapply framed_bind; [apply framed_BoardState_copy |]. intros boardCopy Hcopy.
  eapply framed_bind; [apply framed_Tile_copy |]. intros tileCopy _.
  eapply framed_bind; [apply framed_Board_placeTile, Hcopy |]. intros _ _.
  eapply framed_bind; [apply framed_Board_getAvatar |]. intros avatarCopy _.
  eapply framed_bind; [apply framed_isAvatarAlive |].
  intros [|] _; [apply framed_ret; exact I | apply IH].
Qed.

Lemma framed__doesPlayerHaveValidMove (h0 : list Store.obj) (boardState coords : nat)
    (p : Store.player) :
  Store.framed h0 (Store._doesPlayerHaveValidMove boardState coords p) (fun _ => True).
Proof.
  unfold Store._doesPlayerHaveValidMove.
  apply framed_someM. intros t. apply framed_rotationsFrom.
Qed.

Lemma framed_checkHandValidity (h0 : list Store.obj) (boardState : nat)
    (tilePlacement : Store.placement) (p : Store.player) :
  Store.framed h0 (Store.checkHandValidity boardState tilePlacement p) (fun _ => True).
Proof.
  unfold Store.checkHandValidity.
  eapply framed_bind; [apply framed_checkPlacementValidity |].
  intros [|] _; [apply framed_ret; exact I | apply framed__doesPlayerHaveValidMove].
Qed.

Lemma framed_canTakeAction (h0 : list Store.obj) (boardState : nat)
    (tilePlacement : Store.placement) (p : Store.player) :
  Store.framed h0 (Store.canTakeAction boardState tilePlacement p) (fun _ => True).
Proof.
  unfold Store.canTakeAction.
  eapply framed_bind; [apply framed_checkPlacementLegality |].
  intros legal _. destruct (truthy legal);
    [apply framed_checkHandValidity | apply framed_ret; exact I].
Qed.

Lemma framed_checkIsMoveOnBoard (h0 : list Store.obj) (coords t position : nat) :
  Store.framed h0 (Store.checkIsMoveOnBoard coords t position) (fun _ => True).
Proof.
  unfold Store.checkIsMoveOnBoard.
  eapply framed_bind; [apply framed_Coords_copy |]. intros coordsCopy Hcopy.
  eapply framed_bind; [apply framed_Tile_getEndingPosition |]. intros ending _.
  apply framed_try_catch; [| exact I].
  eapply framed_bind; [apply framed_Coords_moveOne, Hcopy |].
  intros _ _. apply framed_ret. exact I.
Qed.

Lemma framed_canPlaceAvatar (h0 : list Store.obj) (boardState : nat) (playerId : string)
    (coords t position : nat) :
  Store.framed h0 (Store.canPlaceAvatar boardState playerId coords t position)
    (fun _ => True).
Proof.
  unfold Store.canPlaceAvatar.
  eapply framed_bind; [apply framed_Board_isAvatarOnOutsidePosition |].
  intros [|] _; simpl; [| apply framed_ret; exact I].
  eapply framed_bind; [apply framed_Board_getAvatar |]. intros avatar _.
  destruct (present avatar); [apply framed_ret; exact I |].
  eapply framed_bind; [apply framed_BoardState_getTile |]. intros placed _.
  destruct (present placed); [apply framed_ret; exact I |].
  eapply framed_bind; [apply framed_BoardState_hasNeighboringTiles |].
  intros [|] _; [apply framed_ret; exact I | apply framed_checkIsMoveOnBoard].
Qed.

Lemma framed_extends {A : Type} (h : list Store.obj) (m : Store.M A) (R : A -> Prop) :
  Store.framed h m R -> Store.extends h (snd (m h)).
Proof. intros Hm. apply fresh_above_extends, (Hm h), fresh_above_refl. Qed.

(** C6. Each query of the rule checker leaves every object of the store it
    is called in unchanged, whether it returns or throws: the real board
    state with its tile mapping and its avatar mapping, the Avatar objects
    of that mapping and their Coords and Position objects, the tiles of the
    player's hand and their paths, the submitted tile, coordinates and
    position.  All it does to the store is allocate: the hypothetical
    placements run on board states it has copied, avatars included, the
    rotations on tiles it has copied, the steps on coordinates it has
    copied. *)
Theorem rule_checker_only_allocates (h : list Store.obj) (boardState : nat)
    (tilePlacement : Store.placement) (p : Store.player) (playerId : string)
    (coords tile position : nat) :
  Store.extends h (snd (Store.canTakeAction boardState tilePlacement p h))
  /\ Store.extends h (snd (Store.checkPlacementLegality boardState tilePlacement p h))
  /\ Store.extends h (snd (Store.checkPlacementValidity boardState tilePlacement p h))
  /\ Store.extends h (snd (Store.checkHandValidity boardState tilePlacement p h))
  /\ Store.extends h (snd (Store.canPlaceAvatar boardState playerId coords tile position h)).
Proof.
  repeat split.
  - apply (framed_extends h _ _ (framed_canTakeAction h boardState tilePlacement p)).
  - apply (framed_extends h _ _ (framed_checkPlacementLegality h boardState tilePlacement p)).
  - apply (framed_extends h _ _ (framed_checkPlacementValidity h boardState tilePlacement p)).
  - apply (framed_extends h _ _ (framed_checkHandValidity h boardState tilePlacement p)).
  - apply (framed_extends h _ _
             (framed_canPlaceAvatar h boardState playerId coords tile position)).
Qed.

End StoreFacts.

(** On the store of the examples both submissions are legal.  The tile of
    U-turns keeps the avatar on the board and [canTakeAction] returns true;
    the straight tile sends it off the grid, the copy of the board loses
    the avatar and [canTakeAction] throws.  Either way the fifteen objects
    are as they were, and the store has grown by the copies. *)
Example canTakeAction_on_corner_store :
  fst (Store.canTakeAction 14%nat Examples.uturns_in_store Examples.red_in_store
         Examples.corner_store) = Ok true
  /\ fst (Store.canTakeAction 14%nat Examples.corner_in_store Examples.red_in_store
            Examples.corner_store) = Throw "TypeError"
  /\ fst (Store.checkPlacementLegality 14%nat Examples.corner_in_store Examples.red_in_store
            Examples.corner_store) = Ok (JSBool true)
  /\ take 15 (snd (Store.canTakeAction 14%nat Examples.uturns_in_store Examples.red_in_store
                     Examples.corner_store)) = Examples.corner_store
  /\ take 15 (snd (Store.canTakeAction 14%nat Examples.corner_in_store Examples.red_in_store
                     Examples.corner_store)) = Examples.corner_store
  /\ length (snd (Store.canTakeAction 14%nat Examples.uturns_in_store
                     Examples.red_in_store Examples.corner_store)) = 35%nat
  /\ length (snd (Store.canTakeAction 14%nat Examples.corner_in_store
                     Examples.red_in_store Examples.corner_store)) = 20%nat.
Proof. repeat split. Qed.

(** The writes the rule checker avoids are visible in the store: placing
    the tile on the real board state changes the state and moves the real
    avatar, a step taken on the coordinates of the avatar itself rather
    than on their copy moves the real avatar too, and rotating the tile of
    the hand or moving the submitted coordinates changes those objects. *)
Example writes_change_the_store :
  snd (Store.Board_placeTile 14%nat 10%nat 0%nat Examples.corner_store) !! 14%nat
  <> Examples.corner_store !! 14%nat
  /\ snd (Store.Board_placeTile 14%nat 10%nat 0%nat Examples.corner_store) !! 12%nat
     = Some (Store.OPosition (Position.mk DIRECTIONS.EAST 0))
  /\ snd (Store.Coords_moveOne 11%nat DIRECTIONS.WEST Examples.corner_store) !! 11%nat
     = Some (Store.OCoords (Coords.mk 0 0))
  /\ snd (Store.Tile_rotate 5%nat 1 Examples.corner_store) !! 1%nat
     = Some (Store.OPath (Path.mk (Position.mk DIRECTIONS.EAST 0)
                            (Position.mk DIRECTIONS.WEST 1)))
  /\ snd (Store.Coords_moveOne 0%nat DIRECTIONS.SOUTH Examples.corner_store) !! 0%nat
     = Some (Store.OCoords (Coords.mk 0 1)).
Proof.
  split; [| repeat split].
  intros Heq.
  apply (f_equal (fun o : option (@Store.obj SpecBoard_api) =>
                    match o with
                    | Some (Store.OBoardState s _) =>
                        match SpecBoard.tiles s !! (0, 0) with
                        | Some _ => true
                        | None => false
                        end
                    | _ => false
                    end)) in Heq.
  vm_compute in Heq. discriminate Heq.
Qed.

(** ** The store model computes what the value model computes *)

Section StoreRefinement.
Context {board : BoardAPI}.

(** A law of the board: [placeTile] moves or removes the avatars it finds
    and brings no avatar to the board. *)
Hypothesis placeTile_brings_no_avatar :
  forall (s s' : BoardState) (t : Tile.t) (c : Coords.t) (id : string),
    placeTile s t c = Ok s' -> getAvatar s id = None -> getAvatar s' id = None.

Lemma extends_refl (h : list Store.obj) : Store.extends h h.
Proof. exists []. symmetry. apply app_nil_r. Qed.

Lemma extends_trans (h1 h2 h3 : list Store.obj) :
  Store.extends h1 h2 -> Store.extends h2 h3 -> Store.extends h1 h3.
Proof. intros [f1 ->] [f2 ->]. exists (f1 ++ f2)%list. rewrite app_assoc. reflexivity. Qed.

Lemma extends_lookup (h h' : list Store.obj) (l : nat) (o : Store.obj) :
  Store.extends h h' -> h !! l = Some o -> h' !! l = Some o.
Proof. intros [f ->] Hl. apply lookup_app_l_Some, Hl. Qed.

Lemma extends_length (h h' : list Store.obj) :
  Store.extends h h' -> (length h <= length h')%nat.
Proof. intros [f ->]. rewrite length_app. lia. Qed.

Lemma holds_coords_extends (h h' : list Store.obj) (l : nat) (c : Coords.t) :
  Store.extends h h' -> Store.holds_coords h l c -> Store.holds_coords h' l c.
Proof. unfold Store.holds_coords. apply extends_lookup. Qed.

Lemma holds_position_extends (h h' : list Store.obj) (l : nat) (p : Position.t) :
  Store.extends h h' -> Store.holds_position h l p -> Store.holds_position h' l p.
Proof. unfold Store.holds_position. apply extends_lookup. Qed.

Lemma holds_path_extends (h h' : list Store.obj) (l : nat) (p : Path.t) :
  Store.extends h h' -> Store.holds_path h l p -> Store.holds_path h' l p.
Proof. unfold Store.holds_path. apply extends_lookup. Qed.

Lemma holds_avatar_extends (h h' : list Store.obj) (l : nat) (av : Avatar.t) :
  Store.extends h h' -> Store.holds_avatar h l av -> Store.holds_avatar h' l av.
Proof.
  intros Hext (lc & lp & Hl & Hc & Hp). exists lc, lp.
  split; [eapply extends_lookup; eassumption |].
  split; [eapply holds_coords_extends | eapply holds_position_extends]; eassumption.
Qed.

(** *** The avatar mapping *)

Lemma assoc_In (l : list (string * nat)) (k : string) (v : nat) :
  List.NoDup (map fst l) -> In (k, v) l -> Store.assoc k l = Some v.
Proof.
  induction l as [| [k' v'] l IH]; intros Hnd Hin; [destruct Hin |].
  simpl in Hnd. apply List.NoDup_cons_iff in Hnd. destruct Hnd as [Hk Hnd]. simpl.
  destruct Hin as [[= -> ->] | Hin].
  - rewrite String.eqb_refl. reflexivity.
  - destruct (String.eqb k' k) eqn:E; [| apply IH; assumption].
    apply String.eqb_eq in E. subst k'. exfalso. apply Hk.
    apply (in_map fst) in Hin. exact Hin.
Qed.

Lemma assoc_Some_In (l : list (string * nat)) (k : string) (v : nat) :
  Store.assoc k l = Some v -> In (k, v) l.
Proof.
  induction l as [| [k' v'] l IH]; simpl; [discriminate |].
  destruct (String.eqb k' k) eqn:E.
  - apply String.eqb_eq in E. intros [= ->]. left. congruence.
  - intros H. right. apply IH, H.
Qed.

Lemma assoc_Forall2 (Q : nat -> nat -> Prop) (l l' : list (string * nat)) (k : string) :
  Forall2 (fun e e' => fst e = fst e' /\ Q (snd e) (snd e')) l l' ->
  match Store.assoc k l with
  | Some v => exists v', Store.assoc k l' = Some v' /\ Q v v'
  | None => Store.assoc k l' = None
  end.
Proof.
  induction 1 as [| [k1 v1] [k2 v2] l l' [Hk HQ] _ IH]; simpl; [reflexivity |].
  simpl in Hk, HQ. subst k2. destruct (String.eqb k1 k); [eauto | exact IH].
Qed.

Lemma avatars_above_extends (n : nat) (h h' : list Store.obj) (avatars : list (string * nat)) :
  Store.extends h h' -> Store.avatars_above n h avatars -> Store.avatars_above n h' avatars.
Proof.
  intros Hext Hav. eapply Forall_impl; [exact Hav |].
  intros e (lc & lp & c & p & Hl & Hc & Hp & Hn). exists lc, lp, c, p.
  repeat split; try tauto; eapply extends_lookup; eassumption.
Qed.

Lemma avatars_above_weaken (n m : nat) (h : list Store.obj) (avatars : list (string * nat)) :
  (m <= n)%nat -> Store.avatars_above n h avatars -> Store.avatars_above m h avatars.
Proof.
  intros Hmn Hav. eapply Forall_impl; [exact Hav |].
  intros e (lc & lp & c & p & Hl & Hc & Hp & Hn1 & Hn2). exists lc, lp, c, p.
  repeat split; try assumption; lia.
Qed.

(** The fields of the avatars depend on the Avatar objects only. *)
Lemma avatar_fields_ext (h h' : list Store.obj) (avatars : list (string * nat)) :
  (forall e, In e avatars -> h' !! snd e = h !! snd e) ->
  Store.avatar_fields h' avatars = Store.avatar_fields h avatars.
Proof.
  intros Hsame. unfold Store.avatar_fields.
  induction avatars as [| e avatars IH]; simpl; [reflexivity |].
  rewrite (Hsame e) by (left; reflexivity). f_equal.
  apply IH. intros e' He'. apply Hsame. right. exact He'.
Qed.

Lemma avatar_fields_extends (n : nat) (h h' : list Store.obj)
    (avatars : list (string * nat)) :
  Store.extends h h' -> Store.avatars_above n h avatars ->
  Store.avatar_fields h' avatars = Store.avatar_fields h avatars.
Proof.
  intros Hext Hav. apply avatar_fields_ext. intros e He.
  unfold Store.avatars_above in Hav. rewrite List.Forall_forall in Hav.
  destruct (Hav e He) as (lc & lp & c & p & Hl & _). rewrite Hl.
  eapply extends_lookup; eassumption.
Qed.

(** Each field of the avatars is a Coords or a Position object, from [n]
    on. *)
Lemma avatar_fields_typed (n : nat) (h : list Store.obj) (avatars : list (string * nat))
    (l : nat) :
  Store.avatars_above n h avatars -> In l (Store.avatar_fields h avatars) ->
  (n <= l)%nat
  /\ ((exists c, h !! l = Some (Store.OCoords c))
      \/ (exists p, h !! l = Some (Store.OPosition p))).
Proof.
  intros Hav Hin. unfold Store.avatar_fields in Hin. apply in_flat_map in Hin.
  destruct Hin as [e [He Hl]]. unfold Store.avatars_above in Hav. rewrite List.Forall_forall in Hav.
  destruct (Hav e He) as (lc & lp & c & p & Hla & Hc & Hp & Hn1 & Hn2).
  rewrite Hla in Hl. destruct Hl as [<- | [<- | []]]; split; eauto.
Qed.

(** A board state object has well-formed avatars. *)
Lemma holds_avatars_above (h : list Store.obj) (avatars : list (string * nat))
    (s : BoardState) :
  Store.holds_avatars h avatars s -> List.NoDup (map fst avatars) ->
  Store.avatars_above 0 h avatars.
Proof.
  intros Hav Hnd. apply List.Forall_forall. intros [id la] Hin.
  specialize (Hav id). rewrite (assoc_In _ _ _ Hnd Hin) in Hav.
  destruct Hav as (av & _ & lc & lp & Hla & Hc & Hp).
  exists lc, lp, (Avatar.coords av), (Avatar.position av).
  repeat split; try assumption; lia.
Qed.

Lemma holds_avatars_extends (h h' : list Store.obj) (avatars : list (string * nat))
    (s : BoardState) :
  Store.extends h h' -> Store.holds_avatars h avatars s -> Store.holds_avatars h' avatars s.
Proof.
  intros Hext Hav id. specialize (Hav id).
  destruct (Store.assoc id avatars) as [la |]; [| exact Hav].
  destruct Hav as (av & Hget & Hla). exists av.
  split; [exact Hget | eapply holds_avatar_extends; eassumption].
Qed.

Lemma holds_board_extends (h h' : list Store.obj) (l : nat) (s : BoardState) :
  Store.extends h h' -> Store.holds_board h l s -> Store.holds_board h' l s.
Proof.
  intros Hext (avatars & Hl & Hav & Hnd & Hfields). exists avatars.
  split; [eapply extends_lookup; eassumption |].
  split; [eapply holds_avatars_extends; eassumption |].
  split; [exact Hnd |].
  rewrite (avatar_fields_extends 0 h h' avatars Hext); [exact Hfields |].
  eapply holds_avatars_above; eassumption.
Qed.

Lemma holds_tile_extends (h h' : list Store.obj) (l : nat) (t : Tile.t) :
  Store.extends h h' -> Store.holds_tile h l t -> Store.holds_tile h' l t.
Proof.
  intros Hext [paths [Hl Hpaths]]. exists paths. split; [eapply extends_lookup; eassumption |].
  eapply Forall2_impl; [exact Hpaths |]. intros path p. apply holds_path_extends, Hext.
Qed.

Lemma holds_hand_extends (h h' : list Store.obj) (ls : list nat) (ts : list Tile.t) :
  Store.extends h h' -> Forall2 (Store.holds_tile h) ls ts -> Forall2 (Store.holds_tile h') ls ts.
Proof.
  intros Hext Hhand. eapply Forall2_impl; [exact Hhand |].
  intros l t. apply holds_tile_extends, Hext.
Qed.

(** *** Reads *)

Lemma bind_Ok {A B : Type} (m : Store.M A) (f : A -> Store.M B) (h h' : list Store.obj) (a : A) :
  m h = (Ok a, h') -> Store.bind m f h = f a h'.
Proof. intros Hm. unfold Store.bind. rewrite Hm. reflexivity. Qed.

Lemma bind_Throw {A B : Type} (m : Store.M A) (f : A -> Store.M B) (h h' : list Store.obj)
    (e : string) :
  m h = (Throw e, h') -> Store.bind m f h = (Throw e, h').
Proof. intros Hm. unfold Store.bind. rewrite Hm. reflexivity. Qed.

Lemma load_run (h : list Store.obj) (l : nat) (o : Store.obj) :
  h !! l = Some o -> Store.load l h = (Ok o, h).
Proof. intros Hl. unfold Store.load. rewrite Hl. reflexivity. Qed.

Lemma load_coords_run (h : list Store.obj) (l : nat) (c : Coords.t) :
  Store.holds_coords h l c -> Store.load_coords l h = (Ok c, h).
Proof.
  intros Hl. unfold Store.load_coords.
  rewrite (bind_Ok _ _ _ _ _ (load_run h l _ Hl)). reflexivity.
Qed.

Lemma load_path_run (h : list Store.obj) (l : nat) (p : Path.t) :
  Store.holds_path h l p -> Store.load_path l h = (Ok p, h).
Proof.
  intros Hl. unfold Store.load_path.
  rewrite (bind_Ok _ _ _ _ _ (load_run h l _ Hl)). reflexivity.
Qed.

Lemma load_tile_run (h : list Store.obj) (l : nat) (paths : list nat) :
  h !! l = Some (Store.OTile paths) -> Store.load_tile l h = (Ok paths, h).
Proof.
  intros Hl. unfold Store.load_tile.
  rewrite (bind_Ok _ _ _ _ _ (load_run h l _ Hl)). reflexivity.
Qed.

Lemma load_position_run (h : list Store.obj) (l : nat) (p : Position.t) :
  Store.holds_position h l p -> Store.load_position l h = (Ok p, h).
Proof.
  intros Hl. unfold Store.load_position.
  rewrite (bind_Ok _ _ _ _ _ (load_run h l _ Hl)). reflexivity.
Qed.

Lemma load_avatar_run (h : list Store.obj) (l lc lp : nat) :
  h !! l = Some (Store.OAvatar lc lp) -> Store.load_avatar l h = (Ok (lc, lp), h).
Proof.
  intros Hl. unfold Store.load_avatar.
  rewrite (bind_Ok _ _ _ _ _ (load_run h l _ Hl)). reflexivity.
Qed.

Lemma load_board_run (h : list Store.obj) (l : nat) (s : BoardState)
    (avatars : list (string * nat)) :
  h !! l = Some (Store.OBoardState s avatars) -> Store.load_board l h = (Ok (s, avatars), h).
Proof.
  intros Hl. unfold Store.load_board.
  rewrite (bind_Ok _ _ _ _ _ (load_run h l _ Hl)). reflexivity.
Qed.

Lemma mapM_load_path_run (h : list Store.obj) (paths : list nat) (ps : list Path.t) :
  Forall2 (Store.holds_path h) paths ps -> Store.mapM Store.load_path paths h = (Ok ps, h).
Proof.
  induction 1 as [| path p paths ps Hp _ IH]; simpl; [reflexivity |].
  rewrite (bind_Ok _ _ _ _ _ (load_path_run h path p Hp)).
  rewrite (bind_Ok _ _ _ _ _ IH). reflexivity.
Qed.

Lemma Tile_read_run (h : list Store.obj) (l : nat) (t : Tile.t) :
  Store.holds_tile h l t -> Store.Tile_read l h = (Ok t, h).
Proof.
  intros [paths [Hl Hpaths]]. unfold Store.Tile_read.
  rewrite (bind_Ok _ _ _ _ _ (load_tile_run h l paths Hl)).
  rewrite (bind_Ok _ _ _ _ _ (mapM_load_path_run h paths _ Hpaths)).
  destruct t; reflexivity.
Qed.

Lemma Tile_isEqualTo_run (h : list Store.obj) (this tile : nat) (a b : Tile.t) :
  Store.holds_tile h this a -> Store.holds_tile h tile b ->
  Store.Tile_isEqualTo this tile h = (Ok (Tile.isEqualTo a b), h).
Proof.
  intros Ha Hb. unfold Store.Tile_isEqualTo.
  rewrite (bind_Ok _ _ _ _ _ (Tile_read_run h this a Ha)).
  rewrite (bind_Ok _ _ _ _ _ (Tile_read_run h tile b Hb)). reflexivity.
Qed.

Lemma Tile_getEndingPosition_run (h : list Store.obj) (this position : nat) (t : Tile.t)
    (p : Position.t) :
  Store.holds_tile h this t -> Store.holds_position h position p ->
  Store.Tile_getEndingPosition this position h = (Tile.getEndingPosition t p, h).
Proof.
  intros Ht Hp. unfold Store.Tile_getEndingPosition.
  rewrite (bind_Ok _ _ _ _ _ (Tile_read_run h this t Ht)).
  rewrite (bind_Ok _ _ _ _ _ (load_position_run h position p Hp)). reflexivity.
Qed.

Lemma Coords_isEqualTo_run (h : list Store.obj) (this coords : nat) (c d : Coords.t) :
  Store.holds_coords h this c -> Store.holds_coords h coords d ->
  Store.Coords_isEqualTo this coords h = (Ok (Coords.isEqualTo c d), h).
Proof.
  intros Hc Hd. unfold Store.Coords_isEqualTo.
  rewrite (bind_Ok _ _ _ _ _ (load_coords_run h this c Hc)).
  rewrite (bind_Ok _ _ _ _ _ (load_coords_run h coords d Hd)). reflexivity.
Qed.

Lemma Board_getAvatar_run (h : list Store.obj) (this : nat) (s : BoardState)
    (avatars : list (string * nat)) (id : string) :
  h !! this = Some (Store.OBoardState s avatars) ->
  Store.Board_getAvatar this id h = (Ok (Store.assoc id avatars), h).
Proof.
  intros Hs. unfold Store.Board_getAvatar.
  rewrite (bind_Ok _ _ _ _ _ (load_board_run h this s avatars Hs)). reflexivity.
Qed.

Lemma BoardState_getTile_run (h : list Store.obj) (this coords : nat) (s : BoardState)
    (avatars : list (string * nat)) (c : Coords.t) :
  h !! this = Some (Store.OBoardState s avatars) -> Store.holds_coords h coords c ->
  Store.BoardState_getTile this coords h = (Ok (getTile s c), h).
Proof.
  intros Hs Hc. unfold Store.BoardState_getTile.
  rewrite (bind_Ok _ _ _ _ _ (load_board_run h this s avatars Hs)).
  rewrite (bind_Ok _ _ _ _ _ (load_coords_run h coords c Hc)). reflexivity.
Qed.

Lemma BoardState_hasNeighboringTiles_run (h : list Store.obj) (this coords : nat)
    (s : BoardState) (avatars : list (string * nat)) (c : Coords.t) :
  h !! this = Some (Store.OBoardState s avatars) -> Store.holds_coords h coords c ->
  Store.BoardState_hasNeighboringTiles this coords h = (Ok (hasNeighboringTiles s c), h).
Proof.
  intros Hs Hc. unfold Store.BoardState_hasNeighboringTiles.
  rewrite (bind_Ok _ _ _ _ _ (load_board_run h this s avatars Hs)).
  rewrite (bind_Ok _ _ _ _ _ (load_coords_run h coords c Hc)). reflexivity.
Qed.

Lemma Board_isAvatarOnOutsidePosition_run (h : list Store.obj) (coords position : nat)
    (c : Coords.t) (p : Position.t) :
  Store.holds_coords h coords c -> Store.holds_position h position p ->
  Store.Board_isAvatarOnOutsidePosition coords position h
  = (Ok (isAvatarOnOutsidePosition c p), h).
Proof.
  intros Hc Hp. unfold Store.Board_isAvatarOnOutsidePosition.
  rewrite (bind_Ok _ _ _ _ _ (load_coords_run h coords c Hc)).
  rewrite (bind_Ok _ _ _ _ _ (load_position_run h position p Hp)). reflexivity.
Qed.

(** The avatar the rule checker reads after a placement. *)
Lemma isAvatarAlive_run (h : list Store.obj) (l : nat) (av : Avatar.t) :
  Store.holds_avatar h l av ->
  Store.isAvatarAlive (Some l) h
  = (Ok (negb (isAvatarOnOutsidePosition (Avatar.coords av) (Avatar.position av))), h).
Proof.
  intros (lc & lp & Hl & Hc & Hp). unfold Store.isAvatarAlive.
  rewrite (bind_Ok _ _ _ _ _ (load_avatar_run h l lc lp Hl)). simpl.
  rewrite (bind_Ok _ _ _ _ _ (Board_isAvatarOnOutsidePosition_run h lc lp _ _ Hc Hp)).
  reflexivity.
Qed.

(** *** Copies *)

Lemma alloc_run (h : list Store.obj) (o : Store.obj) :
  Store.alloc o h = (Ok (length h), (h ++ [o])%list).
Proof. reflexivity. Qed.

Lemma Coords_copy_run (h : list Store.obj) (this : nat) (c : Coords.t) :
  Store.holds_coords h this c ->
  Store.Coords_copy this h = (Ok (length h), (h ++ [Store.OCoords c])%list).
Proof.
  intros Hc. unfold Store.Coords_copy.
  rewrite (bind_Ok _ _ _ _ _ (load_coords_run h this c Hc)).
  rewrite Coords_copy_id. reflexivity.
Qed.

Lemma Position_copy_run (h : list Store.obj) (this : nat) (p : Position.t) :
  Store.holds_position h this p ->
  Store.Position_copy this h = (Ok (length h), (h ++ [Store.OPosition p])%list).
Proof.
  intros Hp. unfold Store.Position_copy.
  rewrite (bind_Ok _ _ _ _ _ (load_position_run h this p Hp)).
  rewrite Position_copy_id. reflexivity.
Qed.

(** The copy of an avatar: three new objects at the end of the store. *)
Lemma Avatar_copy_run (h : list Store.obj) (this lc lp : nat) (c : Coords.t)
    (p : Position.t) :
  h !! this = Some (Store.OAvatar lc lp) ->
  h !! lc = Some (Store.OCoords c) -> h !! lp = Some (Store.OPosition p) ->
  Store.Avatar_copy this h
  = (Ok (length h + 2)%nat,
     (h ++ [Store.OCoords c; Store.OPosition p;
            Store.OAvatar (length h) (length h + 1)])%list).
Proof.
  intros Hl Hc Hp. unfold Store.Avatar_copy.
  rewrite (bind_Ok _ _ _ _ _ (load_avatar_run h this lc lp Hl)). simpl.
  rewrite (bind_Ok _ _ _ _ _ (Coords_copy_run h lc c Hc)).
  assert (Hp' : Store.holds_position (h ++ [Store.OCoords c]) lp p)
    by (apply lookup_app_l_Some, Hp).
  rewrite (bind_Ok _ _ _ _ _ (Position_copy_run _ lp p Hp')).
  rewrite alloc_run. rewrite !length_app. simpl.
  rewrite <- !app_assoc. simpl.
  replace (length h + 1 + 1)%nat with (length h + 2)%nat by lia. reflexivity.
Qed.

(** The copies of the avatars of a mapping go to the end of the store;
    they hold what the avatars hold and share no object. *)
Lemma copy_avatars_run (avatars : list (string * nat)) (h0 h : list Store.obj) :
  Store.extends h0 h ->
  Store.avatars_above 0 h0 avatars ->
  exists copies h',
    Store.mapM (fun entry => Store.bind (Store.Avatar_copy (snd entry))
                               (fun a => Store.ret (fst entry, a))) avatars h
    = (Ok copies, h')
    /\ Store.extends h h'
    /\ Forall2 (fun e e' => fst e = fst e'
                            /\ forall av, Store.holds_avatar h0 (snd e) av ->
                                          Store.holds_avatar h' (snd e') av)
         avatars copies
    /\ Store.avatars_above (length h) h' copies
    /\ List.NoDup (Store.avatar_fields h' copies)
    /\ Forall (fun e' => (snd e' < length h')%nat) copies.
Proof.
  revert h. induction avatars as [| [id la] avatars IH]; intros h Hext Hav.
  - exists [], h. simpl. repeat split; try constructor. apply extends_refl.
  - inversion Hav as [| ? ? (lc & lp & c & p & Hla & Hc & Hp & _) Hav']; subst.
    simpl in Hla.
    pose proof (Avatar_copy_run h la lc lp c p (extends_lookup _ _ _ _ Hext Hla)
                  (extends_lookup _ _ _ _ Hext Hc) (extends_lookup _ _ _ _ Hext Hp))
      as Hcopy.
    set (h1 := (h ++ [Store.OCoords c; Store.OPosition p;
                      Store.OAvatar (length h) (length h + 1)])%list) in *.
    assert (Hext1 : Store.extends h h1) by (eexists; reflexivity).
    assert (Hlen1 : length h1 = (length h + 3)%nat)
      by (unfold h1; rewrite length_app; reflexivity).
    destruct (IH h1 (extends_trans _ _ _ Hext Hext1) Hav')
      as (copies & h' & Hrun & Hext' & Hrel & Habove & Hnd & Hlt).
    exists ((id, (length h + 2)%nat) :: copies), h'.
    assert (Hc0 : h' !! length h = Some (Store.OCoords c)).
    { eapply extends_lookup; [exact Hext' |]. unfold h1.
      rewrite lookup_app_r by lia. rewrite Nat.sub_diag. reflexivity. }
    assert (Hp0 : h' !! (length h + 1)%nat = Some (Store.OPosition p)).
    { eapply extends_lookup; [exact Hext' |]. unfold h1.
      rewrite lookup_app_r by lia.
      replace (length h + 1 - length h)%nat with 1%nat by lia. reflexivity. }
    assert (Ha0 : h' !! (length h + 2)%nat
                  = Some (Store.OAvatar (length h) (length h + 1))).
    { eapply extends_lookup; [exact Hext' |]. unfold h1.
      rewrite lookup_app_r by lia.
      replace (length h + 2 - length h)%nat with 2%nat by lia. reflexivity. }
    split; [| split; [| split; [| split; [| split]]]].
    + cbn [Store.mapM]. rewrite (bind_Ok _ _ _ _ _ (bind_Ok _ _ _ _ _ Hcopy)).
      unfold Store.ret at 1. simpl. rewrite (bind_Ok _ _ _ _ _ Hrun). reflexivity.
    + eapply extends_trans; eassumption.
    + constructor; [| exact Hrel]. split; [reflexivity |]. simpl.
      intros av (lc' & lp' & Hla' & Hc' & Hp').
      rewrite Hla in Hla'. injection Hla' as <- <-.
      unfold Store.holds_coords in Hc'. unfold Store.holds_position in Hp'.
      rewrite Hc in Hc'. rewrite Hp in Hp'. injection Hc' as Hc'. injection Hp' as Hp'.
      exists (length h), (length h + 1)%nat.
      unfold Store.holds_coords, Store.holds_position. rewrite <- Hc', <- Hp'. auto.
    + constructor.
      * exists (length h), (length h + 1)%nat, c, p. simpl.
        repeat split; try assumption; lia.
      * eapply avatars_above_weaken; [| exact Habove]. lia.
    + unfold Store.avatar_fields. simpl. rewrite Ha0. simpl.
      fold (Store.avatar_fields h' copies).
      assert (Hge : forall l, In l (Store.avatar_fields h' copies) ->
                              (length h + 3 <= l)%nat).
      { intros l Hl. rewrite <- Hlen1. eapply avatar_fields_typed; eassumption. }
      constructor; [| constructor; [| exact Hnd]].
      * intros [H | H]; [lia |]. apply Hge in H. lia.
      * intros H. apply Hge in H. lia.
    + constructor; [| exact Hlt]. simpl. apply lookup_lt_Some in Ha0. exact Ha0.
Qed.

(** [boardState.copy()] returns a reference to a new board state object,
    after the objects the store had; it stands for the same state and its
    avatars are new objects. *)
Lemma BoardState_copy_run (h : list Store.obj) (this : nat) (s : BoardState) :
  Store.holds_board h this s ->
  exists boardCopy copies h',
    Store.BoardState_copy this h = (Ok boardCopy, h')
    /\ Store.extends h h'
    /\ (length h <= boardCopy)%nat
    /\ h' !! boardCopy = Some (Store.OBoardState s copies)
    /\ Store.holds_avatars h' copies s
    /\ List.NoDup (map fst copies)
    /\ Store.avatars_above (length h) h' copies
    /\ List.NoDup (Store.avatar_fields h' copies).
Proof.
  intros (avatars & Hl & Hav & Hnd & _).
  destruct (copy_avatars_run avatars h h (extends_refl h)
              (holds_avatars_above h avatars s Hav Hnd))
    as (copies & h1 & Hrun & Hext1 & Hrel & Habove & Hfields & Hlt).
  exists (length h1), copies, (h1 ++ [Store.OBoardState s copies])%list.
  assert (Hext2 : Store.extends h1 (h1 ++ [Store.OBoardState s copies]))
    by (eexists; reflexivity).
  split; [| split; [| split; [| split; [| split; [| split; [| split]]]]]].
  - unfold Store.BoardState_copy.
    rewrite (bind_Ok _ _ _ _ _ (load_board_run h this s avatars Hl)). simpl.
    rewrite (bind_Ok _ _ _ _ _ Hrun). reflexivity.
  - eapply extends_trans; eassumption.
  - apply extends_length, Hext1.
  - apply list_lookup_middle. reflexivity.
  - intros id. specialize (Hav id).
    pose proof (assoc_Forall2
                  (fun la la' => forall av, Store.holds_avatar h la av ->
                                            Store.holds_avatar h1 la' av)
                  avatars copies id Hrel) as Hassoc.
    destruct (Store.assoc id avatars) as [la |].
    + destruct Hassoc as (la' & -> & Hsame). destruct Hav as (av & Hget & Hla).
      exists av. split; [exact Hget |].
      eapply holds_avatar_extends; [exact Hext2 | apply Hsame, Hla].
    + rewrite Hassoc. exact Hav.
  - assert (Hfst : map fst copies = map fst avatars).
    { clear -Hrel. induction Hrel as [| e e' l l' [He _] _ IH]; simpl; [reflexivity |].
      rewrite IH, He. reflexivity. }
    rewrite Hfst. exact Hnd.
  - eapply avatars_above_extends; eassumption.
  - rewrite (avatar_fields_extends (length h) h1 _ copies Hext2 Habove). exact Hfields.
Qed.

(** The copies of the paths go to the end of the store, in order. *)
Lemma mapM_Path_copy_run (paths : list nat) (ps : list Path.t) (h : list Store.obj) :
  Forall2 (Store.holds_path h) paths ps ->
  Store.mapM Store.Path_copy paths h
  = (Ok (seq (length h) (length ps)),
     (h ++ map (fun p => Store.OPath (Path.copy p)) ps)%list).
Proof.
  revert ps h. induction paths as [| path paths IH]; intros ps h Hps.
  - inversion Hps; subst. simpl. rewrite app_nil_r. reflexivity.
  - inversion Hps as [| ? p ? ps' Hp Hps' ]; subst. simpl.
    assert (Hcopy : Store.Path_copy path h
                    = (Ok (length h), (h ++ [Store.OPath (Path.copy p)])%list)).
    { unfold Store.Path_copy. rewrite (bind_Ok _ _ _ _ _ (load_path_run h path p Hp)).
      reflexivity. }
    rewrite (bind_Ok _ _ _ _ _ Hcopy).
    assert (Hrest : Forall2 (Store.holds_path (h ++ [Store.OPath (Path.copy p)])) paths ps').
    { eapply Forall2_impl; [exact Hps' |]. intros l q.
      apply holds_path_extends. eexists. reflexivity. }
    rewrite (bind_Ok _ _ _ _ _ (IH ps' _ Hrest)).
    unfold Store.ret. rewrite length_app, <- app_assoc. simpl.
    rewrite Nat.add_1_r. reflexivity.
Qed.

(** Rotating the path objects of consecutive references rewrites that
    segment of the store and nothing else. *)
Lemma mapM_Path_rotate_run (qs : list Path.t) (pre post : list Store.obj) (k : Z) :
  Store.mapM (fun path => Store.bind (Store.Path_rotate path k) (fun _ => Store.ret path))
    (seq (length pre) (length qs)) (pre ++ map Store.OPath qs ++ post)%list
  = (Ok (seq (length pre) (length qs)),
     (pre ++ map Store.OPath (map (fun q => Path.rotate q k) qs) ++ post)%list).
Proof.
  revert pre. induction qs as [| q qs IH]; intros pre; [reflexivity |].
  cbn [length seq map app Store.mapM].
  assert (Hrot : Store.Path_rotate (length pre) k
                   (pre ++ Store.OPath q :: (map Store.OPath qs ++ post))%list
                 = (Ok tt, ((pre ++ [Store.OPath (Path.rotate q k)])
                            ++ map Store.OPath qs ++ post)%list)).
  { unfold Store.Path_rotate.
    assert (Hload : Store.holds_path (pre ++ Store.OPath q :: (map Store.OPath qs ++ post))
                      (length pre) q)
      by (apply list_lookup_middle; reflexivity).
    rewrite (bind_Ok _ _ _ _ _ (load_path_run _ _ _ Hload)).
    unfold Store.store. f_equal.
    rewrite <- (Nat.add_0_r (length pre)) at 1. rewrite insert_app_r. simpl.
    rewrite <- app_assoc. reflexivity. }
  rewrite (bind_Ok _ _ _ _ _ (bind_Ok _ _ _ _ _ Hrot)).
  unfold Store.ret at 1.
  assert (Hlen : S (length pre) = length (pre ++ [Store.OPath (Path.rotate q k)]))
    by (rewrite length_app; simpl; lia).
  rewrite Hlen, (bind_Ok _ _ _ _ _ (IH _)). unfold Store.ret.
  rewrite <- Hlen, <- app_assoc. reflexivity.
Qed.

(** A tile and its paths at the end of a store. *)
Lemma holds_tile_at_end (h : list Store.obj) (qs : list Path.t) :
  Store.holds_tile
    (h ++ map Store.OPath qs ++ [Store.OTile (seq (length h) (length qs))])%list
    (length h + length qs) (Tile.mk qs).
Proof.
  exists (seq (length h) (length qs)). split.
  - rewrite app_assoc. apply list_lookup_middle. rewrite length_app, length_map. reflexivity.
  - simpl. apply Forall2_same_length_lookup. split; [apply length_seq |].
    intros i l q Hl Hq. apply lookup_seq in Hl as [-> Hi].
    unfold Store.holds_path. rewrite lookup_app_r by lia.
    replace (length h + i - length h)%nat with i by lia.
    apply lookup_app_l_Some. rewrite list_lookup_fmap, Hq. reflexivity.
Qed.

Lemma lookup_tile_at_end (h : list Store.obj) (qs : list Path.t) (n : nat) :
  n = length qs ->
  (h ++ map Store.OPath qs ++ [Store.OTile (seq (length h) n)])%list
    !! (length h + n)%nat = Some (Store.OTile (seq (length h) n)).
Proof.
  intros ->. rewrite app_assoc. apply list_lookup_middle.
  rewrite length_app, length_map. reflexivity.
Qed.

(** [Tile.rotate] on a tile at the end of a store. *)
Lemma Tile_rotate_at_end (h : list Store.obj) (qs : list Path.t) (k : Z) :
  Store.Tile_rotate (length h + length qs) k
    (h ++ map Store.OPath qs ++ [Store.OTile (seq (length h) (length qs))])%list
  = (Ok tt,
     (h ++ map Store.OPath (Tile.paths (Tile.rotate (Tile.mk qs) k))
        ++ [Store.OTile (seq (length h) (length qs))])%list).
Proof.
  unfold Store.Tile_rotate, Tile.rotate. cbn [Tile.paths].
  destruct (0 <? Z.rem k (Z.of_nat (length DIRECTIONS_CLOCKWISE))); [| reflexivity].
  rewrite (bind_Ok _ _ _ _ _ (load_tile_run _ _ _ (lookup_tile_at_end h qs _ eq_refl))).
  rewrite (bind_Ok _ _ _ _ _ (mapM_Path_rotate_run qs h _ _)).
  unfold Store.store. cbn [Tile.paths]. f_equal.
  apply list_insert_id, lookup_tile_at_end. rewrite length_map. reflexivity.
Qed.

(** [Tile.copy] returns a reference to a new tile object that holds the
    rotated copy, after the objects the store had. *)
Lemma Tile_copy_run (h : list Store.obj) (this : nat) (t : Tile.t) (rotations : Z) :
  Store.holds_tile h this t ->
  exists tileCopy h',
    Store.Tile_copy this rotations h = (Ok tileCopy, h')
    /\ Store.extends h h'
    /\ Store.holds_tile h' tileCopy (Tile.copy t rotations).
Proof.
  intros [paths [Hl Hpaths]].
  set (copies := map (fun path => Path.copy path) (Tile.paths t)).
  assert (Hlen : length (Tile.paths (Tile.copy t rotations)) = length copies).
  { unfold Tile.copy, Tile.rotate. fold copies. cbn [Tile.paths].
    destruct (0 <? rotations); [| reflexivity].
    destruct (0 <? Z.rem rotations (Z.of_nat (length DIRECTIONS_CLOCKWISE)));
      [apply length_map | reflexivity]. }
  exists (length h + length copies)%nat,
    (h ++ map Store.OPath (Tile.paths (Tile.copy t rotations))
       ++ [Store.OTile (seq (length h) (length copies))])%list.
  split; [| split].
  - unfold Store.Tile_copy.
    rewrite (bind_Ok _ _ _ _ _ (load_tile_run h this paths Hl)).
    rewrite (bind_Ok _ _ _ _ _ (mapM_Path_copy_run paths _ h Hpaths)).
    rewrite (bind_Ok _ _ _ _ _ (alloc_run _ _)).
    rewrite <- (map_map (fun path => Path.copy path) Store.OPath). fold copies.
    replace (length (Tile.paths t)) with (length copies) by apply length_map.
    rewrite length_app, length_map, <- app_assoc.
    unfold Tile.copy. fold copies. destruct (0 <? rotations); [| reflexivity].
    rewrite (bind_Ok _ _ _ _ _ (Tile_rotate_at_end h copies rotations)). reflexivity.
  - eexists. reflexivity.
  - rewrite <- Hlen. destruct (Tile.copy t rotations) as [qs]. apply holds_tile_at_end.
Qed.

(** *** Writes on the copies *)

Lemma Coords_moveOne_at_end (h : list Store.obj) (c : Coords.t) (d : jsstring) :
  Store.Coords_moveOne (length h) d (h ++ [Store.OCoords c])%list
  = match Coords.moveOne c d with
    | Ok moved => (Ok (length h), (h ++ [Store.OCoords moved])%list)
    | Throw e => (Throw e, (h ++ [Store.OCoords c])%list)
    end.
Proof.
  unfold Store.Coords_moveOne.
  assert (Hload : Store.holds_coords (h ++ [Store.OCoords c]) (length h) c)
    by (apply list_lookup_middle; reflexivity).
  rewrite (bind_Ok _ _ _ _ _ (load_coords_run _ _ _ Hload)).
  destruct (Coords.moveOne c d) as [moved | e]; [| reflexivity].
  unfold Store.bind, Store.lift, Store.store, Store.ret. f_equal.
  rewrite <- (Nat.add_0_r (length h)) at 1. rewrite insert_app_r. reflexivity.
Qed.

(** *** The movement of the avatars *)

Lemma Board_moveAvatar_run (h : list Store.obj) (moved : BoardState) (id : string)
    (la lc lp : nat) (c : Coords.t) (p : Position.t) (av : Avatar.t) :
  h !! la = Some (Store.OAvatar lc lp) ->
  h !! lc = Some (Store.OCoords c) -> h !! lp = Some (Store.OPosition p) ->
  getAvatar moved id = Some av ->
  Store.Board_moveAvatar moved (id, la) h
  = (Ok (Some (id, la)),
     <[lp := Store.OPosition (Avatar.position av)]>
       (<[lc := Store.OCoords (Avatar.coords av)]> h)).
Proof.
  intros Hla Hc Hp Hget. unfold Store.Board_moveAvatar. simpl. rewrite Hget.
  rewrite (bind_Ok _ _ _ _ _ (load_avatar_run h la lc lp Hla)). simpl.
  rewrite (bind_Ok _ _ _ _ _ (load_coords_run h lc c Hc)).
  unfold Store.bind at 1. unfold Store.store at 1.
  assert (Hp' : Store.holds_position (<[lc := Store.OCoords (Avatar.coords av)]> h) lp p).
  { unfold Store.holds_position. rewrite list_lookup_insert_ne; [exact Hp |].
    intros ->. rewrite Hc in Hp. discriminate. }
  rewrite (bind_Ok _ _ _ _ _ (load_position_run _ lp p Hp')). reflexivity.
Qed.

(** The movement writes the Coords and the Position objects of the avatars
    that stay, and no other object. *)
Lemma moveAvatars_run (moved : BoardState) (n : nat) (avatars : list (string * nat))
    (h : list Store.obj) :
  Store.avatars_above n h avatars -> List.NoDup (Store.avatar_fields h avatars) ->
  exists h',
    Store.mapM (Store.Board_moveAvatar moved) avatars h
    = (Ok (map (fun e => match getAvatar moved (fst e) with
                         | Some _ => Some e
                         | None => None
                         end) avatars), h')
    /\ length h' = length h
    /\ (forall l, ~ In l (Store.avatar_fields h avatars) -> h' !! l = h !! l)
    /\ (forall e av, In e avatars -> getAvatar moved (fst e) = Some av ->
                     Store.holds_avatar h' (snd e) av).
Proof.
  revert h. induction avatars as [| [id la] avatars IH]; intros h Hav Hnd.
  - exists h. simpl. repeat split; try (intros e av []); auto.
  - inversion Hav as [| ? ? (lc & lp & c & p & Hla & Hc & Hp & Hn) Hav']; subst.
    simpl in Hla.
    assert (Hfields : Store.avatar_fields h ((id, la) :: avatars)
                      = lc :: lp :: Store.avatar_fields h avatars).
    { unfold Store.avatar_fields. simpl. rewrite Hla. reflexivity. }
    rewrite Hfields in Hnd.
    apply List.NoDup_cons_iff in Hnd. destruct Hnd as [Hlc Hnd].
    apply List.NoDup_cons_iff in Hnd. destruct Hnd as [Hlp Hnd].
    destruct (getAvatar moved id) as [av |] eqn:Hget.
    + set (h2 := <[lp := Store.OPosition (Avatar.position av)]>
                   (<[lc := Store.OCoords (Avatar.coords av)]> h)).
      assert (Hne : lc <> lp) by (intros ->; apply Hlc; left; reflexivity).
      assert (Hlen2 : length h2 = length h)
        by (unfold h2; rewrite !length_insert; reflexivity).
      assert (Hsame : forall l, l <> lc -> l <> lp -> h2 !! l = h !! l).
      { intros l H1 H2. unfold h2. rewrite !list_lookup_insert_ne by auto. reflexivity. }
      assert (Hc2 : h2 !! lc = Some (Store.OCoords (Avatar.coords av))).
      { unfold h2. rewrite list_lookup_insert_ne by auto.
        apply list_lookup_insert_eq. eapply lookup_lt_Some, Hc. }
      assert (Hp2 : h2 !! lp = Some (Store.OPosition (Avatar.position av))).
      { unfold h2. apply list_lookup_insert_eq. rewrite length_insert.
        eapply lookup_lt_Some, Hp. }
      assert (Hla2 : h2 !! la = Some (Store.OAvatar lc lp)).
      { rewrite Hsame; [exact Hla | |]; intros ->; congruence. }
      assert (Hkeep : forall l, In l (Store.avatar_fields h avatars) -> h2 !! l = h !! l).
      { intros l Hl. apply Hsame; intros ->; [apply Hlc; right; exact Hl | apply Hlp, Hl]. }
      assert (Hentries : forall e, In e avatars -> h2 !! snd e = h !! snd e).
      { intros e He. unfold Store.avatars_above in Hav'.
        rewrite List.Forall_forall in Hav'.
        destruct (Hav' e He) as (lc' & lp' & c' & p' & Hla' & _).
        apply Hsame; intros Heq; rewrite Heq in Hla'; congruence. }
      assert (Hfields2 : Store.avatar_fields h2 avatars = Store.avatar_fields h avatars)
        by (apply avatar_fields_ext, Hentries).
      assert (Hav2 : Store.avatars_above n h2 avatars).
      { unfold Store.avatars_above in *. rewrite List.Forall_forall in *.
        intros e He. destruct (Hav' e He) as (lc' & lp' & c' & p' & Hla' & Hc' & Hp' & Hn').
        assert (Hin : In lc' (Store.avatar_fields h avatars)
                      /\ In lp' (Store.avatar_fields h avatars)).
        { unfold Store.avatar_fields. rewrite !in_flat_map.
          split; exists e; (split; [exact He |]); rewrite Hla'; simpl; auto. }
        exists lc', lp', c', p'. rewrite (Hentries e He), !Hkeep by tauto. tauto. }
      destruct (IH h2 Hav2) as (h' & Hrun & Hlen & Hframe & Hheld).
      { rewrite Hfields2. exact Hnd. }
      rewrite Hfields2 in Hframe.
      exists h'. split; [| split; [| split]].
      * cbn [Store.mapM map fst].
        rewrite (bind_Ok _ _ _ _ _ (Board_moveAvatar_run h moved id la lc lp c p av
                                      Hla Hc Hp Hget)).
        fold h2. rewrite (bind_Ok _ _ _ _ _ Hrun). rewrite Hget. reflexivity.
      * congruence.
      * rewrite Hfields. intros l Hl. rewrite Hframe by (intros H; apply Hl; simpl; auto).
        apply Hsame; intros ->; apply Hl; simpl; auto.
      * intros e av' [<- | He] Hget'.
        -- simpl in Hget'. rewrite Hget in Hget'. injection Hget' as <-. simpl.
           assert (Hout : ~ In la (Store.avatar_fields h avatars)).
           { intros Hin. destruct (avatar_fields_typed n h avatars la Hav' Hin)
               as [_ [[c' Hc'] | [p' Hp']]]; congruence. }
           exists lc, lp. unfold Store.holds_coords, Store.holds_position.
           assert (Hlc' : ~ In lc (Store.avatar_fields h avatars))
             by (intros H; apply Hlc; right; exact H).
           rewrite !Hframe by assumption. auto.
        -- apply Hheld; assumption.
    + destruct (IH h Hav' Hnd) as (h' & Hrun & Hlen & Hframe & Hheld).
      exists h'. split; [| split; [| split]].
      * cbn [Store.mapM map fst]. unfold Store.Board_moveAvatar at 1. simpl.
        rewrite Hget. unfold Store.ret at 1. unfold Store.bind at 1.
        rewrite (bind_Ok _ _ _ _ _ Hrun). reflexivity.
      * exact Hlen.
      * rewrite Hfields. intros l Hl. apply Hframe. intros H. apply Hl. simpl. auto.
      * intros e av' [<- | He] Hget'; [simpl in Hget'; congruence |].
        apply Hheld; assumption.
Qed.

(** The avatars that stay in the mapping after a movement. *)
Lemma assoc_kept (moved : BoardState) (avatars : list (string * nat)) (id : string) :
  Store.assoc id (omap (fun entry => entry)
                    (map (fun e => match getAvatar moved (fst e) with
                                   | Some _ => Some e
                                   | None => None
                                   end) avatars))
  = match getAvatar moved id with
    | Some _ => Store.assoc id avatars
    | None => None
    end.
Proof.
  induction avatars as [| [k v] avatars IH]; simpl.
  - destruct (getAvatar moved id); reflexivity.
  - destruct (String.eqb k id) eqn:E.
    + apply String.eqb_eq in E. subst k.
      destruct (getAvatar moved id) eqn:Hget; simpl.
      * rewrite String.eqb_refl. reflexivity.
      * exact IH.
    + destruct (getAvatar moved k); simpl; [rewrite E |]; exact IH.
Qed.

(** [placeTile] on a copy of the board, whose avatars are from the
    reference [n] on: the objects before [n] stay as they are, and the copy
    stands for the state the placement gives. *)
Lemma Board_placeTile_run (h : list Store.obj) (n this tile coords : nat)
    (s : BoardState) (avatars : list (string * nat)) (t : Tile.t) (c : Coords.t) :
  (n <= this)%nat ->
  h !! this = Some (Store.OBoardState s avatars) ->
  Store.holds_avatars h avatars s ->
  Store.avatars_above n h avatars ->
  List.NoDup (Store.avatar_fields h avatars) ->
  Store.holds_tile h tile t -> Store.holds_coords h coords c ->
  match placeTile s t c with
  | Throw e => Store.Board_placeTile this tile coords h = (Throw e, h)
  | Ok s' =>
      exists kept h',
        Store.Board_placeTile this tile coords h = (Ok tt, h')
        /\ length h' = length h
        /\ take n h' = take n h
        /\ h' !! this = Some (Store.OBoardState s' kept)
        /\ forall id, match getAvatar s' id with
                      | Some av => exists la, Store.assoc id kept = Some la
                                              /\ Store.holds_avatar h' la av
                      | None => Store.assoc id kept = None
                      end
  end.
Proof.
  intros Hn Hthis Havs Habove Hnd Ht Hc. unfold Store.Board_placeTile.
  rewrite (bind_Ok _ _ _ _ _ (load_board_run h this s avatars Hthis)). simpl.
  rewrite (bind_Ok _ _ _ _ _ (Tile_read_run h tile t Ht)).
  rewrite (bind_Ok _ _ _ _ _ (load_coords_run h coords c Hc)).
  destruct (placeTile s t c) as [s' | e] eqn:Hplace; [| reflexivity].
  destruct (moveAvatars_run s' n avatars h Habove Hnd)
    as (hm & Hrun & Hlen & Hframe & Hheld).
  unfold Store.lift at 1. unfold Store.bind at 1.
  rewrite (bind_Ok _ _ _ _ _ Hrun). unfold Store.store.
  eexists _, _. split; [reflexivity |].
  assert (Hout : forall l, In l (Store.avatar_fields h avatars) -> (n <= l)%nat /\ l <> this).
  { intros l Hl. destruct (avatar_fields_typed n h avatars l Habove Hl)
      as [Hge [[c' Hc'] | [p' Hp']]]; (split; [exact Hge | congruence]). }
  split; [rewrite length_insert; exact Hlen |].
  split; [| split].
  - apply list_eq. intros i. rewrite !lookup_take.
    destruct (decide (i < n)%nat) as [Hi | Hi]; [| reflexivity].
    rewrite list_lookup_insert_ne by lia.
    apply Hframe. intros Hin. apply Hout in Hin. lia.
  - apply list_lookup_insert_eq. rewrite Hlen. eapply lookup_lt_Some, Hthis.
  - intros id. rewrite assoc_kept. specialize (Havs id).
    destruct (getAvatar s' id) as [av |] eqn:Hget; [| reflexivity].
    destruct (Store.assoc id avatars) as [la |] eqn:Hassoc.
    + exists la. split; [reflexivity |].
      pose proof (Hheld (id, la) av (assoc_Some_In _ _ _ Hassoc) Hget)
        as (lc & lp & Hla & Hlc & Hlp). simpl in Hla.
      assert (Hother : forall l o, hm !! l = Some o ->
                (forall s0 a0, o <> Store.OBoardState s0 a0) ->
                <[this := Store.OBoardState s'
                            (omap (fun entry => entry)
                               (map (fun e => match getAvatar s' (fst e) with
                                              | Some _ => Some e
                                              | None => None
                                              end) avatars))]> hm !! l = Some o).
      { intros l o Hl Ho. rewrite list_lookup_insert_ne; [exact Hl |].
        intros <-. rewrite Hframe in Hl.
        - rewrite Hthis in Hl. injection Hl as <-. eapply Ho. reflexivity.
        - intros Hin. apply Hout in Hin. tauto. }
      exists lc, lp. split; [| split]; apply Hother; try assumption; discriminate.
    + rewrite (placeTile_brings_no_avatar s s' t c id Hplace Havs) in Hget. discriminate.
Qed.

(** *** Loops *)

Lemma someM_run {V : Type} (f : nat -> Store.M bool) (g : V -> result bool)
    (R : list Store.obj -> nat -> V -> Prop) :
  (forall h h' l v, Store.extends h h' -> R h l v -> R h' l v) ->
  (forall h l v, R h l v -> exists h', f l h = (g v, h') /\ Store.extends h h') ->
  forall ls vs h, Forall2 (R h) ls vs ->
    exists h', Store.someM f ls h = (some_r g vs, h') /\ Store.extends h h'.
Proof.
  intros Hstable Hf ls. induction ls as [| l ls IH]; intros vs h Hall.
  - inversion Hall; subst. simpl. exists h. split; [reflexivity | apply extends_refl].
  - inversion Hall as [| ? v ? vs' Hv Hvs]; subst. simpl.
    destruct (Hf h l v Hv) as [h1 [Hrun Hext]].
    destruct (g v) as [[|] | e].
    + rewrite (bind_Ok _ _ _ _ _ Hrun). exists h1. split; [reflexivity | exact Hext].
    + rewrite (bind_Ok _ _ _ _ _ Hrun).
      destruct (IH vs' h1) as [h2 [Hrest Hext2]].
      { eapply Forall2_impl; [exact Hvs |]. intros l' v'. apply Hstable, Hext. }
      exists h2. split; [exact Hrest | eapply extends_trans; eassumption].
    + rewrite (bind_Throw _ _ _ _ _ Hrun). exists h1. split; [reflexivity | exact Hext].
Qed.

Lemma some_r_Ok {V : Type} (g : V -> bool) (vs : list V) :
  some_r (fun v => Ok (g v)) vs = Ok (existsb g vs).
Proof.
  induction vs as [| v vs IH]; simpl; [reflexivity |].
  destruct (g v); [reflexivity | exact IH].
Qed.

(** *** The methods that copy *)

Lemma Tile_isEqualToRotated_run (h : list Store.obj) (this tile : nat) (a b : Tile.t) :
  Store.holds_tile h this a -> Store.holds_tile h tile b ->
  exists h', Store.Tile_isEqualToRotated this tile h = (Ok (Tile.isEqualToRotated a b), h')
             /\ Store.extends h h'.
Proof.
  intros Ha Hb. unfold Store.Tile_isEqualToRotated, Tile.isEqualToRotated.
  rewrite (bind_Ok _ _ _ _ _ (Tile_isEqualTo_run h this tile a b Ha Hb)).
  destruct (Tile.isEqualTo a b); [exists h; split; [reflexivity | apply extends_refl] |].
  destruct (Tile_copy_run h tile b 1 Hb) as [c1 [h1 [Hrun1 [Hext1 Hc1]]]].
  rewrite (bind_Ok _ _ _ _ _ Hrun1).
  pose proof (holds_tile_extends h h1 this a Hext1 Ha) as Ha1.
  pose proof (holds_tile_extends h h1 tile b Hext1 Hb) as Hb1.
  rewrite (bind_Ok _ _ _ _ _ (Tile_isEqualTo_run h1 this c1 a _ Ha1 Hc1)).
  destruct (Tile.isEqualTo a (Tile.copy b 1)); [exists h1; split; [reflexivity | exact Hext1] |].
  destruct (Tile_copy_run h1 tile b 2 Hb1) as [c2 [h2 [Hrun2 [Hext2 Hc2]]]].
  rewrite (bind_Ok _ _ _ _ _ Hrun2).
  pose proof (holds_tile_extends h1 h2 this a Hext2 Ha1) as Ha2.
  pose proof (holds_tile_extends h1 h2 tile b Hext2 Hb1) as Hb2.
  rewrite (bind_Ok _ _ _ _ _ (Tile_isEqualTo_run h2 this c2 a _ Ha2 Hc2)).
  destruct (Tile.isEqualTo a (Tile.copy b 2)).
  { exists h2. split; [reflexivity | eapply extends_trans; eassumption]. }
  destruct (Tile_copy_run h2 tile b 3 Hb2) as [c3 [h3 [Hrun3 [Hext3 Hc3]]]].
  rewrite (bind_Ok _ _ _ _ _ Hrun3).
  pose proof (holds_tile_extends h2 h3 this a Hext3 Ha2) as Ha3.
  rewrite (Tile_isEqualTo_run h3 this c3 a _ Ha3 Hc3).
  exists h3. split; [reflexivity |].
  eapply extends_trans; [exact Hext1 | eapply extends_trans; eassumption].
Qed.

(** *** The rule checker *)

Lemma holds_copy_extends (n : nat) (h h' : list Store.obj) (l : nat) (s : BoardState) :
  Store.extends h h' -> Store.holds_copy n h l s -> Store.holds_copy n h' l s.
Proof.
  intros Hext (copies & Hn & Hl & Hav & Hids & Habove & Hnd). exists copies.
  split; [exact Hn |].
  split; [eapply extends_lookup; eassumption |].
  split; [eapply holds_avatars_extends; eassumption |].
  split; [exact Hids |].
  split; [eapply avatars_above_extends; eassumption |].
  rewrite (avatar_fields_extends n h h' copies Hext Habove). exact Hnd.
Qed.

Lemma BoardState_copy_holds (h : list Store.obj) (this : nat) (s : BoardState) :
  Store.holds_board h this s ->
  exists boardCopy h',
    Store.BoardState_copy this h = (Ok boardCopy, h')
    /\ Store.extends h h'
    /\ Store.holds_copy (length h) h' boardCopy s.
Proof.
  intros Hs. destruct (BoardState_copy_run h this s Hs)
    as (boardCopy & copies & h' & Hrun & Hext & Hn & Hl & Hav & Hids & Habove & Hnd).
  exists boardCopy, h'. split; [exact Hrun |]. split; [exact Hext |].
  exists copies. auto 10.
Qed.

(** What the rule checker reads on a copy of the board after a placement:
    the objects the store had before the copy stay as they are. *)
Lemma alive_after_placeTile (h0 h : list Store.obj) (boardCopy tile coords : nat)
    (s : BoardState) (t : Tile.t) (c : Coords.t) (id : string) :
  Store.extends h0 h ->
  Store.holds_copy (length h0) h boardCopy s ->
  Store.holds_tile h tile t -> Store.holds_coords h coords c ->
  match placeTile s t c with
  | Throw e => Store.Board_placeTile boardCopy tile coords h = (Throw e, h)
  | Ok s' =>
      exists h' avatarCopy,
        Store.Board_placeTile boardCopy tile coords h = (Ok tt, h')
        /\ Store.extends h0 h'
        /\ Store.Board_getAvatar boardCopy id h' = (Ok avatarCopy, h')
        /\ Store.isAvatarAlive avatarCopy h'
           = (match getAvatar s' id with
              | None => Throw "TypeError"
              | Some av => Ok (negb (isAvatarOnOutsidePosition (Avatar.coords av)
                                       (Avatar.position av)))
              end, h')
  end.
Proof.
  intros Hext (copies & Hn & Hl & Hav & Hids & Habove & Hnd) Ht Hc.
  pose proof (Board_placeTile_run h (length h0) boardCopy tile coords s copies t c
                Hn Hl Hav Habove Hnd Ht Hc) as Hplace.
  destruct (placeTile s t c) as [s' | e]; [| exact Hplace].
  destruct Hplace as (kept & h' & Hrun & Hlen & Htake & Hboard & Hkept).
  exists h', (Store.assoc id kept).
  split; [exact Hrun |]. split; [| split].
  - destruct Hext as [fresh ->]. rewrite take_app_length in Htake.
    exists (drop (length h0) h'). rewrite <- Htake at 1. symmetry. apply take_drop.
  - apply (Board_getAvatar_run h' boardCopy s' kept id Hboard).
  - specialize (Hkept id). destruct (getAvatar s' id) as [av |].
    + destruct Hkept as (la & -> & Hla). apply isAvatarAlive_run, Hla.
    + rewrite Hkept. reflexivity.
Qed.

Lemma _checkPlayerAdjacency_run (h : list Store.obj) (avatar : nat) (av : Avatar.t)
    (tp : Store.placement) (v : TilePlacement.t) :
  Store.holds_avatar h avatar av ->
  Store.holds_coords h (Store.coords tp) (TilePlacement.coords v) ->
  exists h', Store._checkPlayerAdjacency (Some avatar) tp h
             = (Ok (RuleChecker._checkPlayerAdjacency (Some av) v), h')
             /\ Store.extends h h'.
Proof.
  intros (lc & lp & Hla & Hlc & Hlp) Hc.
  unfold Store._checkPlayerAdjacency, RuleChecker._checkPlayerAdjacency.
  rewrite (bind_Ok _ _ _ _ _ (load_avatar_run h avatar lc lp Hla)). simpl fst. simpl snd.
  unfold Store.try_catch.
  rewrite (bind_Ok _ _ _ _ _ (Coords_copy_run h lc _ Hlc)).
  assert (Hext : Store.extends h (h ++ [Store.OCoords (Avatar.coords av)]))
    by (eexists; reflexivity).
  rewrite (bind_Ok _ _ _ _ _ (load_position_run _ lp _
                                (holds_position_extends _ _ _ _ Hext Hlp))).
  pose proof (Coords_moveOne_at_end h (Avatar.coords av)
                (Position.direction (Avatar.position av))) as Hmove.
  rewrite Coords_copy_id.
  destruct (Coords.moveOne (Avatar.coords av)
              (Position.direction (Avatar.position av))) as [moved | e]; simpl.
  - rewrite (bind_Ok _ _ _ _ _ Hmove).
    assert (Hnew : Store.holds_coords (h ++ [Store.OCoords moved]) (length h) moved)
      by (apply list_lookup_middle; reflexivity).
    assert (Hc' : Store.holds_coords (h ++ [Store.OCoords moved]) (Store.coords tp)
                    (TilePlacement.coords v))
      by (eapply holds_coords_extends; [eexists; reflexivity | exact Hc]).
    rewrite (Coords_isEqualTo_run _ _ _ _ _ Hnew Hc').
    eexists. split; [reflexivity | eexists; reflexivity].
  - rewrite (bind_Throw _ _ _ _ _ Hmove).
    eexists. split; [reflexivity | eexists; reflexivity].
Qed.

Lemma checkPlacementLegality_run (h : list Store.obj) (boardState : nat)
    (tp : Store.placement) (p : Store.player) (s : BoardState) (v : TilePlacement.t)
    (pv : Player.t) :
  Store.holds_board h boardState s -> Store.holds_placement h tp v ->
  Store.holds_player h p pv ->
  exists h', Store.checkPlacementLegality boardState tp p h
             = (Ok (RuleChecker.checkPlacementLegality s v pv), h')
             /\ Store.extends h h'.
Proof.
  intros (avatars & Hs & Hav & _) [Htile Hcoords] [Hid Hhand].
  unfold Store.checkPlacementLegality, RuleChecker.checkPlacementLegality.
  rewrite (bind_Ok _ _ _ _ _ (Board_getAvatar_run h boardState s avatars _ Hs)), Hid.
  specialize (Hav (Player.id pv)).
  destruct (Store.assoc (Player.id pv) avatars) as [la |].
  2: { rewrite Hav. exists h. split; [reflexivity | apply extends_refl]. }
  destruct Hav as (av & -> & Hla).
  rewrite (bind_Ok _ _ _ _ _ (BoardState_getTile_run h boardState _ s avatars _ Hs Hcoords)).
  destruct (present (getTile s (TilePlacement.coords v))); cbn [negb andb];
    [exists h; split; [reflexivity | apply extends_refl] |].
  destruct (_checkPlayerAdjacency_run h la av tp v Hla Hcoords) as [h1 [Hadj Hext1]].
  rewrite (bind_Ok _ _ _ _ _ Hadj).
  destruct (RuleChecker._checkPlayerAdjacency (Some av) v); cbn [negb andb];
    [| exists h1; split; [reflexivity | exact Hext1]].
  destruct (someM_run (fun t => Store.Tile_isEqualToRotated t (Store.tile tp))
              (fun t => Ok (Tile.isEqualToRotated t (TilePlacement.tile v)))
              (fun h0 l t => Store.holds_tile h0 l t
                             /\ Store.holds_tile h0 (Store.tile tp) (TilePlacement.tile v)))
    with (ls := Store.hand p) (vs := Player.hand pv) (h := h1) as [h2 [Hsome Hext2]].
  - intros h0 h0' l t Hext [Hl Ht]. split; eapply holds_tile_extends; eassumption.
  - intros h0 l t [Hl Ht]. apply Tile_isEqualToRotated_run; assumption.
  - eapply Forall2_impl; [exact Hhand |]. intros l t Hl.
    split; eapply holds_tile_extends; eassumption.
  - rewrite some_r_Ok in Hsome. rewrite (bind_Ok _ _ _ _ _ Hsome).
    exists h2. split; [reflexivity | eapply extends_trans; eassumption].
Qed.

Lemma checkPlacementValidity_run (h : list Store.obj) (boardState : nat)
    (tp : Store.placement) (p : Store.player) (s : BoardState) (v : TilePlacement.t)
    (pv : Player.t) :
  Store.holds_board h boardState s -> Store.holds_placement h tp v ->
  Store.holds_player h p pv ->
  exists h', Store.checkPlacementValidity boardState tp p h
             = (RuleChecker.checkPlacementValidity s v pv, h')
             /\ Store.extends h h'.
Proof.
  intros Hs [Htile Hcoords] [Hid _].
  unfold Store.checkPlacementValidity, RuleChecker.checkPlacementValidity.
  destruct (BoardState_copy_holds h boardState s Hs) as (boardCopy & h1 & Hcopy & Hext & Hb).
  rewrite (bind_Ok _ _ _ _ _ Hcopy).
  pose proof (alive_after_placeTile h h1 boardCopy (Store.tile tp) (Store.coords tp) s
                _ _ (Player.id pv) Hext Hb
                (holds_tile_extends _ _ _ _ Hext Htile)
                (holds_coords_extends _ _ _ _ Hext Hcoords)) as Hplace.
  destruct (placeTile s (TilePlacement.tile v) (TilePlacement.coords v)) as [s' | e]; simpl.
  - destruct Hplace as (h' & avatarCopy & Hrun & Hext' & Hget & Halive).
    rewrite (bind_Ok _ _ _ _ _ Hrun), Hid, (bind_Ok _ _ _ _ _ Hget), Halive.
    exists h'. split; [reflexivity | exact Hext'].
  - rewrite (bind_Throw _ _ _ _ _ Hplace). exists h1. split; [reflexivity | exact Hext].
Qed.

Lemma rotationsFrom_run (boardState coords : nat) (playerId : string) (t : nat)
    (s : BoardState) (c : Coords.t) (tv : Tile.t) (n : nat) (j : Z) (h : list Store.obj) :
  Store.holds_board h boardState s -> Store.holds_coords h coords c ->
  Store.holds_tile h t tv ->
  exists h', Store.rotationsFrom boardState coords playerId t j n h
             = (RuleChecker.rotationsFrom s c playerId tv j n, h')
             /\ Store.extends h h'.
Proof.
  revert j h. induction n as [| n IH]; intros j h Hs Hc Ht.
  - exists h. split; [reflexivity | apply extends_refl].
  - cbn [Store.rotationsFrom RuleChecker.rotationsFrom].
    destruct (BoardState_copy_holds h boardState s Hs)
      as (boardCopy & h1 & Hcopy & Hext1 & Hb).
    rewrite (bind_Ok _ _ _ _ _ Hcopy).
    destruct (Tile_copy_run _ t tv j (holds_tile_extends _ _ _ _ Hext1 Ht))
      as [tileCopy [h2 [Htcopy [Hext12 HtileCopy]]]].
    rewrite (bind_Ok _ _ _ _ _ Htcopy).
    assert (Hext2 : Store.extends h h2) by (eapply extends_trans; eassumption).
    pose proof (alive_after_placeTile h h2 boardCopy tileCopy coords s _ _ playerId Hext2
                  (holds_copy_extends _ _ _ _ _ Hext12 Hb) HtileCopy
                  (holds_coords_extends _ _ _ _ Hext2 Hc)) as Hplace.
    destruct (placeTile s (Tile.copy tv j) c) as [s' | e]; simpl.
    + destruct Hplace as (h3 & avatarCopy & Hrun & Hext3 & Hget & Halive).
      rewrite (bind_Ok _ _ _ _ _ Hrun), (bind_Ok _ _ _ _ _ Hget).
      destruct (getAvatar s' playerId) as [av |].
      * rewrite (bind_Ok _ _ _ _ _ Halive).
        destruct (negb (isAvatarOnOutsidePosition (Avatar.coords av) (Avatar.position av)));
          [exists h3; split; [reflexivity | exact Hext3] |].
        destruct (IH (j + 1) _ (holds_board_extends _ _ _ _ Hext3 Hs)
                    (holds_coords_extends _ _ _ _ Hext3 Hc)
                    (holds_tile_extends _ _ _ _ Hext3 Ht)) as [h' [Hrest Hext']].
        exists h'. split; [exact Hrest | eapply extends_trans; eassumption].
      * rewrite (bind_Throw _ _ _ _ _ Halive). exists h3. split; [reflexivity | exact Hext3].
    + rewrite (bind_Throw _ _ _ _ _ Hplace). exists h2. split; [reflexivity | exact Hext2].
Qed.

Lemma _doesPlayerHaveValidMove_run (h : list Store.obj) (boardState coords : nat)
    (p : Store.player) (s : BoardState) (c : Coords.t) (pv : Player.t) :
  Store.holds_board h boardState s -> Store.holds_coords h coords c ->
  Store.holds_player h p pv ->
  exists h', Store._doesPlayerHaveValidMove boardState coords p h
             = (RuleChecker._doesPlayerHaveValidMove s c pv, h')
             /\ Store.extends h h'.
Proof.
  intros Hs Hc [Hid Hhand].
  unfold Store._doesPlayerHaveValidMove, RuleChecker._doesPlayerHaveValidMove.
  rewrite Hid.
  apply (someM_run _ _
           (fun h0 l t => Store.holds_tile h0 l t /\ Store.holds_board h0 boardState s
                          /\ Store.holds_coords h0 coords c)).
  - intros h0 h0' l t Hext [Hl [Hs0 Hc0]].
    split; [eapply holds_tile_extends; eassumption |].
    split; [eapply holds_board_extends; eassumption
           | eapply holds_coords_extends; eassumption].
  - intros h0 l t [Hl [Hs0 Hc0]]. apply rotationsFrom_run; assumption.
  - eapply Forall2_impl; [exact Hhand |]. intros l t Hl. auto.
Qed.

Lemma checkHandValidity_run (h : list Store.obj) (boardState : nat)
    (tp : Store.placement) (p : Store.player) (s : BoardState) (v : TilePlacement.t)
    (pv : Player.t) :
  Store.holds_board h boardState s -> Store.holds_placement h tp v ->
  Store.holds_player h p pv ->
  exists h', Store.checkHandValidity boardState tp p h
             = (RuleChecker.checkHandValidity s v pv, h')
             /\ Store.extends h h'.
Proof.
  intros Hs Htp Hp. unfold Store.checkHandValidity, RuleChecker.checkHandValidity.
  destruct (checkPlacementValidity_run h boardState tp p s v pv Hs Htp Hp)
    as [h1 [Hvalid Hext1]].
  destruct (RuleChecker.checkPlacementValidity s v pv) as [[|] | e]; simpl.
  - rewrite (bind_Ok _ _ _ _ _ Hvalid). exists h1. split; [reflexivity | exact Hext1].
  - rewrite (bind_Ok _ _ _ _ _ Hvalid).
    destruct Htp as [_ Hcoords]. destruct Hp as [Hid Hhand].
    destruct (_doesPlayerHaveValidMove_run h1 boardState (Store.coords tp) p s
                (TilePlacement.coords v) pv) as [h2 [Hmove Hext2]].
    + eapply holds_board_extends; eassumption.
    + eapply holds_coords_extends; eassumption.
    + split; [exact Hid | eapply holds_hand_extends; eassumption].
    + exists h2. split; [exact Hmove | eapply extends_trans; eassumption].
  - rewrite (bind_Throw _ _ _ _ _ Hvalid). exists h1. split; [reflexivity | exact Hext1].
Qed.

Lemma canTakeAction_run (h : list Store.obj) (boardState : nat)
    (tp : Store.placement) (p : Store.player) (s : BoardState) (v : TilePlacement.t)
    (pv : Player.t) :
  Store.holds_board h boardState s -> Store.holds_placement h tp v ->
  Store.holds_player h p pv ->
  exists h', Store.canTakeAction boardState tp p h
             = (RuleChecker.canTakeAction s v pv, h')
             /\ Store.extends h h'.
Proof.
  intros Hs Htp Hp. unfold Store.canTakeAction, RuleChecker.canTakeAction.
  destruct (checkPlacementLegality_run h boardState tp p s v pv Hs Htp Hp)
    as [h1 [Hlegal Hext1]].
  rewrite (bind_Ok _ _ _ _ _ Hlegal).
  destruct (truthy (RuleChecker.checkPlacementLegality s v pv));
    [| exists h1; split; [reflexivity | exact Hext1]].
  destruct Htp as [Htile Hcoords]. destruct Hp as [Hid Hhand].
  destruct (checkHandValidity_run h1 boardState tp p s v pv) as [h2 [Hhv Hext2]].
  - eapply holds_board_extends; eassumption.
  - split; [eapply holds_tile_extends | eapply holds_coords_extends]; eassumption.
  - split; [exact Hid | eapply holds_hand_extends; eassumption].
  - exists h2. split; [exact Hhv | eapply extends_trans; eassumption].
Qed.

Lemma checkIsMoveOnBoard_run (h : list Store.obj) (coords t position : nat) (c : Coords.t)
    (tv : Tile.t) (pos : Position.t) :
  Store.holds_coords h coords c -> Store.holds_tile h t tv ->
  Store.holds_position h position pos ->
  exists h', Store.checkIsMoveOnBoard coords t position h
             = (RuleChecker.checkIsMoveOnBoard c tv pos, h')
             /\ Store.extends h h'.
Proof.
  intros Hc Ht Hp. unfold Store.checkIsMoveOnBoard, RuleChecker.checkIsMoveOnBoard.
  rewrite (bind_Ok _ _ _ _ _ (Coords_copy_run h coords c Hc)).
  assert (Hext : Store.extends h (h ++ [Store.OCoords c])) by (eexists; reflexivity).
  pose proof (Tile_getEndingPosition_run _ t position tv pos
                (holds_tile_extends _ _ _ _ Hext Ht)
                (holds_position_extends _ _ _ _ Hext Hp)) as Hend.
  rewrite Coords_copy_id.
  destruct (Tile.getEndingPosition tv pos) as [ending | e]; simpl.
  - rewrite (bind_Ok _ _ _ _ _ Hend). unfold Store.try_catch.
    pose proof (Coords_moveOne_at_end h c (Position.direction ending)) as Hmove.
    destruct (Coords.moveOne c (Position.direction ending)) as [moved | e]; simpl.
    + rewrite (bind_Ok _ _ _ _ _ Hmove).
      eexists. split; [reflexivity | eexists; reflexivity].
    + rewrite (bind_Throw _ _ _ _ _ Hmove). eexists. split; [reflexivity | exact Hext].
  - rewrite (bind_Throw _ _ _ _ _ Hend). eexists. split; [reflexivity | exact Hext].
Qed.

Lemma canPlaceAvatar_run (h : list Store.obj) (boardState : nat) (playerId : string)
    (coords t position : nat) (s : BoardState) (c : Coords.t) (tv : Tile.t)
    (pos : Position.t) :
  Store.holds_board h boardState s -> Store.holds_coords h coords c ->
  Store.holds_tile h t tv -> Store.holds_position h position pos ->
  exists h', Store.canPlaceAvatar boardState playerId coords t position h
             = (RuleChecker.canPlaceAvatar s playerId c tv pos, h')
             /\ Store.extends h h'.
Proof.
  intros (avatars & Hs & Hav & _) Hc Ht Hp.
  unfold Store.canPlaceAvatar, RuleChecker.canPlaceAvatar.
  rewrite (bind_Ok _ _ _ _ _
             (Board_isAvatarOnOutsidePosition_run h coords position c pos Hc Hp)).
  destruct (isAvatarOnOutsidePosition c pos); simpl;
    [| exists h; split; [reflexivity | apply extends_refl]].
  rewrite (bind_Ok _ _ _ _ _ (Board_getAvatar_run h boardState s avatars playerId Hs)).
  specialize (Hav playerId).
  destruct (Store.assoc playerId avatars) as [la |].
  { destruct Hav as (av & -> & _). simpl.
    exists h. split; [reflexivity | apply extends_refl]. }
  rewrite Hav. simpl.
  rewrite (bind_Ok _ _ _ _ _ (BoardState_getTile_run h boardState coords s avatars c Hs Hc)).
  destruct (present (getTile s c)); simpl;
    [exists h; split; [reflexivity | apply extends_refl] |].
  rewrite (bind_Ok _ _ _ _ _
             (BoardState_hasNeighboringTiles_run h boardState coords s avatars c Hs Hc)).
  destruct (hasNeighboringTiles s c); simpl;
    [exists h; split; [reflexivity | apply extends_refl] |].
  apply checkIsMoveOnBoard_run; assumption.
Qed.

(** The five queries of the rule checker, run in a store whose objects hold
    a board state with its avatars, a placement, a player, coordinates, a
    tile and a position, return (or throw) what the value model computes on
    what the objects hold. *)
Theorem store_rule_checker_refines (h : list Store.obj) (boardState : nat)
    (tp : Store.placement) (p : Store.player) (coords t position : nat)
    (s : BoardState) (v : TilePlacement.t) (pv : Player.t) (c : Coords.t) (tv : Tile.t)
    (playerId : string) (pos : Position.t)
    (Hs : Store.holds_board h boardState s) (Htp : Store.holds_placement h tp v)
    (Hp : Store.holds_player h p pv) (Hc : Store.holds_coords h coords c)
    (Ht : Store.holds_tile h t tv) (Hpos : Store.holds_position h position pos) :
  fst (Store.canTakeAction boardState tp p h) = RuleChecker.canTakeAction s v pv
  /\ fst (Store.checkPlacementLegality boardState tp p h)
     = Ok (RuleChecker.checkPlacementLegality s v pv)
  /\ fst (Store.checkPlacementValidity boardState tp p h)
     = RuleChecker.checkPlacementValidity s v pv
  /\ fst (Store.checkHandValidity boardState tp p h) = RuleChecker.checkHandValidity s v pv
  /\ fst (Store.canPlaceAvatar boardState playerId coords t position h)
     = RuleChecker.canPlaceAvatar s playerId c tv pos.
Proof.
  destruct (canTakeAction_run h boardState tp p s v pv Hs Htp Hp) as [h1 [-> _]].
  destruct (checkPlacementLegality_run h boardState tp p s v pv Hs Htp Hp) as [h2 [-> _]].
  destruct (checkPlacementValidity_run h boardState tp p s v pv Hs Htp Hp) as [h3 [-> _]].
  destruct (checkHandValidity_run h boardState tp p s v pv Hs Htp Hp) as [h4 [-> _]].
  destruct (canPlaceAvatar_run h boardState playerId coords t position s c tv pos
              Hs Hc Ht Hpos) as [h5 [-> _]].
  repeat split.
Qed.

(** After [canTakeAction] the board state object stands for the state it
    stood for, with the avatars of its mapping, and the placement and the
    player's hand hold the tiles they held. *)
Corollary canTakeAction_keeps_board_and_hand (h : list Store.obj) (boardState : nat)
    (tp : Store.placement) (p : Store.player) (s : BoardState) (v : TilePlacement.t)
    (pv : Player.t) :
  Store.holds_board h boardState s -> Store.holds_placement h tp v ->
  Store.holds_player h p pv ->
  Store.holds_board (snd (Store.canTakeAction boardState tp p h)) boardState s
  /\ Store.holds_placement (snd (Store.canTakeAction boardState tp p h)) tp v
  /\ Store.holds_player (snd (Store.canTakeAction boardState tp p h)) p pv.
Proof.
  intros Hs Htp Hp.
  destruct (canTakeAction_run h boardState tp p s v pv Hs Htp Hp) as [h' [-> Hext]].
  simpl. destruct Htp as [Htile Hcoords]. destruct Hp as [Hid Hhand].
  split; [eapply holds_board_extends; eassumption |].
  split; split; try assumption.
  - eapply holds_tile_extends; eassumption.
  - eapply holds_coords_extends; eassumption.
  - eapply holds_hand_extends; eassumption.
Qed.

End StoreRefinement.

(** The board of the design document brings no avatar to the board when a
    tile is placed. *)
Lemma moveAvatars_assoc_None (placed : gmap (Z * Z) Tile.t) (c : Coords.t) (fuel : nat)
    (id : string) (l l' : list (string * Avatar.t)) :
  SpecBoard.moveAvatars placed c fuel l = Ok l' ->
  SpecBoard.assoc id l = None -> SpecBoard.assoc id l' = None.
Proof.
  revert l'. induction l as [| [k av] l IH]; intros l' Hrun Hnone; simpl in Hrun.
  - injection Hrun as <-. reflexivity.
  - simpl in Hnone. destruct (String.eqb k id) eqn:E; [discriminate |].
    destruct (if SpecBoard.faces av c then SpecBoard.hops placed fuel av else Ok (Some av))
      as [moved | e]; simpl in Hrun; [| discriminate].
    destruct (SpecBoard.moveAvatars placed c fuel l) as [rest | e]; simpl in Hrun;
      [| discriminate].
    injection Hrun as <-. specialize (IH rest eq_refl Hnone).
    destruct moved; simpl; [rewrite E |]; exact IH.
Qed.

Lemma SpecBoard_placeTile_brings_no_avatar (s s' : SpecBoard.state) (t : Tile.t)
    (c : Coords.t) (id : string) :
  SpecBoard.placeTile s t c = Ok s' -> SpecBoard.getAvatar s id = None ->
  SpecBoard.getAvatar s' id = None.
Proof.
  unfold SpecBoard.placeTile, SpecBoard.getAvatar. intros Hplace Hnone.
  destruct (present (SpecBoard.getTile s c)); [discriminate |].
  destruct (SpecBoard.moveAvatars _ c _ (SpecBoard.avatars s)) as [moved | e] eqn:Hmove;
    simpl in Hplace; [| discriminate].
  injection Hplace as <-. simpl. eapply moveAvatars_assoc_None; eassumption.
Qed.

(** The store of the examples holds the board of the examples, with the
    avatar of "red", and the hand and the submission of "red". *)
Lemma corner_store_holds :
  Store.holds_board Examples.corner_store 14%nat Examples.corner_board
  /\ Store.holds_placement Examples.corner_store Examples.uturns_in_store
       (TilePlacement.mk Examples.uturns (Coords.mk 0 0))
  /\ Store.holds_player Examples.corner_store Examples.red_in_store Examples.red_choice
  /\ Store.holds_coords Examples.corner_store 0%nat (Coords.mk 0 0)
  /\ Store.holds_tile Examples.corner_store 5%nat Examples.straight
  /\ Store.holds_position Examples.corner_store 12%nat (Position.mk DIRECTIONS.WEST 0).
Proof.
  assert (Hstraight : Store.holds_tile Examples.corner_store 5%nat Examples.straight).
  { exists [1; 2; 3; 4]%nat. split; [reflexivity |]. repeat constructor. }
  assert (Huturns : Store.holds_tile Examples.corner_store 10%nat Examples.uturns).
  { exists [6; 7; 8; 9]%nat. split; [reflexivity |]. repeat constructor. }
  split; [| repeat split; try assumption; repeat constructor; assumption].
  exists [("red", 13%nat)]. split; [reflexivity |]. split; [| split].
  - intros id. cbn [Store.assoc].
    change (getAvatar (BoardAPI := SpecBoard_api) Examples.corner_board id)
      with (if String.eqb "red" id
            then Some (Avatar.mk (Coords.mk 1 0) (Position.mk DIRECTIONS.WEST 0))
            else None).
    destruct (String.eqb "red" id); [| reflexivity].
    eexists. split; [reflexivity |]. exists 11%nat, 12%nat. repeat split.
  - repeat constructor. intros [].
  - repeat constructor; simpl; intuition discriminate.
Qed.

(** On the store of the examples the store model returns what the value
    model returns on the board of the examples. *)
Example store_refines_on_corner_store :
  fst (Store.canTakeAction 14%nat Examples.uturns_in_store Examples.red_in_store
         Examples.corner_store)
  = RuleChecker.canTakeAction Examples.corner_board
      (TilePlacement.mk Examples.uturns (Coords.mk 0 0)) Examples.red_choice
  /\ fst (Store.canPlaceAvatar 14%nat "red" 0%nat 5%nat 12%nat Examples.corner_store)
     = RuleChecker.canPlaceAvatar Examples.corner_board "red" (Coords.mk 0 0)
         Examples.straight (Position.mk DIRECTIONS.WEST 0).
Proof.
  destruct corner_store_holds as (Hs & Htp & Hp & Hc & Ht & Hpos).
  destruct (store_rule_checker_refines (board := SpecBoard_api)
              SpecBoard_placeTile_brings_no_avatar Examples.corner_store 14%nat
              Examples.uturns_in_store Examples.red_in_store 0%nat 5%nat 12%nat
              Examples.corner_board _ Examples.red_choice _ _ "red" _
              Hs Htp Hp Hc Ht Hpos) as (H1 & _ & _ & _ & H5).
  split; [exact H1 | exact H5].
Qed.

(** * Further properties of the sources *)

(** ** Coords.move by any number of cells *)

Lemma valid_direction_dec (d : jsstring) : {valid_direction d} + {~ valid_direction d}.
Proof.
  unfold valid_direction.
  destruct (decide (d = DIRECTIONS.NORTH)); [left; auto |].
  destruct (decide (d = DIRECTIONS.EAST)); [left; auto |].
  destruct (decide (d = DIRECTIONS.SOUTH)); [left; auto |].
  destruct (decide (d = DIRECTIONS.WEST)); [left; auto |].
  right. intros [H | [H | [H | H]]]; contradiction.
Qed.

Lemma jsstring_eqb_neq (a b : jsstring) : jsstring_eqb a b = false <-> a <> b.
Proof. unfold jsstring_eqb. apply bool_decide_eq_false. Qed.

(** With a positive value and one of the four directions, [move] tests the
    coordinate that moves and translates by the value. *)
Lemma move_valid_direction (c : Coords.t) (d : jsstring) (v : Z) :
  0 < v -> valid_direction d ->
  Coords.move c d v
  = if Coords._isValidCoordinate
         (if jsstring_eqb d DIRECTIONS.NORTH || jsstring_eqb d DIRECTIONS.SOUTH
          then Coords.y (translate_by c d v) else Coords.x (translate_by c d v))
    then Ok (translate_by c d v) else Throw "Cannot move this way".
Proof.
  intros Hv Hd. destruct c as [cx cy].
  unfold Coords.move, Coords._moveAlongAxis, translate_by.
  destruct (Z.ltb_spec v 0); [lia |]. destruct (Z.ltb_spec 0 v); [| lia].
  destruct Hd as [-> | [-> | [-> | ->]]]; eval_directions; cbn [Coords.x Coords.y];
    [ replace (cy + -1 * v) with (cy - v) by lia
    | replace (cx + 1 * v) with (cx + v) by lia
    | replace (cy + 1 * v) with (cy + v) by lia
    | replace (cx + -1 * v) with (cx - v) by lia ];
    match goal with
    | |- context [Coords._isValidCoordinate ?w] => destruct (Coords._isValidCoordinate w)
    end; reflexivity.
Qed.

Lemma move_invalid_direction (c : Coords.t) (d : jsstring) (v : Z) :
  0 < v -> ~ valid_direction d -> Coords.move c d v = Throw "Invalid direction".
Proof.
  intros Hv Hd. unfold Coords.move.
  destruct (Z.ltb_spec v 0); [lia |]. destruct (Z.ltb_spec 0 v); [| lia].
  assert (Hn : jsstring_eqb d DIRECTIONS.NORTH = false)
    by (apply jsstring_eqb_neq; intros ->; apply Hd; unfold valid_direction; auto).
  assert (He : jsstring_eqb d DIRECTIONS.EAST = false)
    by (apply jsstring_eqb_neq; intros ->; apply Hd; unfold valid_direction; auto).
  assert (Hs : jsstring_eqb d DIRECTIONS.SOUTH = false)
    by (apply jsstring_eqb_neq; intros ->; apply Hd; unfold valid_direction; auto).
  assert (Hw : jsstring_eqb d DIRECTIONS.WEST = false)
    by (apply jsstring_eqb_neq; intros ->; apply Hd; unfold valid_direction; auto).
  rewrite Hn, He, Hs, Hw. reflexivity.
Qed.

(** From a cell of the grid, a positive move succeeds exactly when it is
    along one of the four directions and lands on the grid. *)
Lemma move_Ok_iff (c c' : Coords.t) (d : jsstring) (v : Z) :
  on_grid c -> 0 < v ->
  Coords.move c d v = Ok c'
  <-> valid_direction d /\ on_grid (translate_by c d v) /\ c' = translate_by c d v.
Proof.
  intros Hc Hv. destruct (valid_direction_dec d) as [Hd | Hd].
  - rewrite (move_valid_direction c d v Hv Hd).
    assert (Hiff : Coords._isValidCoordinate
                     (if jsstring_eqb d DIRECTIONS.NORTH || jsstring_eqb d DIRECTIONS.SOUTH
                      then Coords.y (translate_by c d v) else Coords.x (translate_by c d v))
                   = true <-> on_grid (translate_by c d v)).
    { destruct c as [cx cy]. unfold on_grid in *. simpl in Hc.
      unfold Coords._isValidCoordinate, translate_by, BOARD_SIZE in *.
      rewrite andb_true_iff, Z.leb_le, Z.ltb_lt.
      destruct Hd as [-> | [-> | [-> | ->]]]; simpl; lia. }
    destruct (Coords._isValidCoordinate _).
    + split; [intros [= <-]; split; [exact Hd | split; [apply Hiff |]]; reflexivity
             | intros [_ [_ ->]]; reflexivity].
    + split; [discriminate | intros [_ [Hg _]]; apply Hiff in Hg; discriminate].
  - rewrite (move_invalid_direction c d v Hv Hd).
    split; [discriminate | intros [H _]; contradiction].
Qed.

(** X1. The outcomes of [move(direction, value)] from a cell of the grid: a
    negative value throws whatever the direction; the value 0 returns the
    coordinate unchanged whatever the direction, even one that is not a
    direction; a positive value throws [Invalid direction] when the
    direction is none of the four, throws [Cannot move this way] when the
    translation by [value] cells leaves the grid, and otherwise returns the
    coordinate translated by [value] cells. *)
Theorem move_outcomes (c : Coords.t) (d : jsstring) (v : Z) (Hc : on_grid c) :
  (v < 0 -> Coords.move c d v = Throw "Value must be positive")
  /\ (v = 0 -> Coords.move c d v = Ok c)
  /\ (0 < v -> ~ valid_direction d -> Coords.move c d v = Throw "Invalid direction")
  /\ (0 < v -> valid_direction d -> ~ on_grid (translate_by c d v) ->
      Coords.move c d v = Throw "Cannot move this way")
  /\ (0 < v -> valid_direction d -> on_grid (translate_by c d v) ->
      Coords.move c d v = Ok (translate_by c d v)).
Proof.
  repeat split.
  - intros Hv. unfold Coords.move. destruct (Z.ltb_spec v 0); [reflexivity | lia].
  - intros ->. reflexivity.
  - apply move_invalid_direction.
  - intros Hv Hd Hout. rewrite (move_valid_direction c d v Hv Hd).
    destruct (Coords._isValidCoordinate _) eqn:Ev; [| reflexivity].
    exfalso. apply Hout.
    assert (Hok : Coords.move c d v = Ok (translate_by c d v))
      by (rewrite (move_valid_direction c d v Hv Hd), Ev; reflexivity).
    apply (move_Ok_iff c _ d v Hc Hv) in Hok. tauto.
  - intros Hv Hd Hin. apply (move_Ok_iff c _ d v Hc Hv). auto.
Qed.

Lemma move_outcomes_witness :
  Coords.move (Coords.mk 2 3) (Str "up") 0 = Ok (Coords.mk 2 3)
  /\ Coords.move (Coords.mk 2 3) DIRECTIONS.EAST 8 = Throw "Cannot move this way"
  /\ Coords.move (Coords.mk 2 3) DIRECTIONS.EAST 7 = Ok (Coords.mk 9 3).
Proof.
  assert (Hc : on_grid (Coords.mk 2 3)) by (unfold on_grid, BOARD_SIZE; simpl; lia).
  assert (Hd : valid_direction DIRECTIONS.EAST) by (unfold valid_direction; auto).
  destruct (move_outcomes (Coords.mk 2 3) (Str "up") 0 Hc) as [_ [H0 _]].
  destruct (move_outcomes (Coords.mk 2 3) DIRECTIONS.EAST 8 Hc) as [_ [_ [_ [H8 _]]]].
  destruct (move_outcomes (Coords.mk 2 3) DIRECTIONS.EAST 7 Hc) as [_ [_ [_ [_ H7]]]].
  split; [apply H0; reflexivity | split].
  - apply H8; [lia | exact Hd |]. unfold on_grid, BOARD_SIZE. simpl. lia.
  - apply H7; [lia | exact Hd |]. unfold on_grid, BOARD_SIZE. simpl. lia.
Defined.

(** X2. Moving [a] cells and then [b] cells in the same direction is moving
    [a + b] cells: from a cell of the grid, the two moves succeed one after
    the other exactly when the single move does, and they end on the same
    cell. *)
Theorem move_move (c r : Coords.t) (d : jsstring) (a b : Z)
    (Hc : on_grid c) (Ha : 0 < a) (Hb : 0 < b) :
  (exists m, Coords.move c d a = Ok m /\ Coords.move m d b = Ok r)
  <-> Coords.move c d (a + b) = Ok r.
Proof.
  rewrite (move_Ok_iff c r d (a + b) Hc) by lia. split.
  - intros [m [Hm Hr]]. apply (move_Ok_iff c m d a Hc Ha) in Hm as [Hd [Hgm ->]].
    apply (move_Ok_iff _ r d b Hgm Hb) in Hr as [_ [Hgr ->]].
    assert (Heq : translate_by (translate_by c d a) d b = translate_by c d (a + b)).
    { destruct c as [cx cy]. unfold translate_by.
      destruct Hd as [-> | [-> | [-> | ->]]]; eval_directions; simpl; f_equal; lia. }
    rewrite Heq in *. auto.
  - intros [Hd [Hgr ->]].
    assert (Hgm : on_grid (translate_by c d a)).
    { destruct c as [cx cy]. unfold on_grid, translate_by, BOARD_SIZE in *.
      destruct Hd as [-> | [-> | [-> | ->]]]; simpl in *; lia. }
    exists (translate_by c d a). split.
    + apply (move_Ok_iff c _ d a Hc Ha). auto.
    + apply (move_Ok_iff _ _ d b Hgm Hb). split; [exact Hd |].
      assert (Heq : translate_by (translate_by c d a) d b = translate_by c d (a + b)).
      { destruct c as [cx cy]. unfold translate_by.
        destruct Hd as [-> | [-> | [-> | ->]]]; eval_directions; simpl; f_equal; lia. }
      rewrite Heq. auto.
Qed.

Lemma move_move_witness :
  (exists m, Coords.move (Coords.mk 4 9) DIRECTIONS.NORTH 2 = Ok m
             /\ Coords.move m DIRECTIONS.NORTH 3 = Ok (Coords.mk 4 4))
  <-> Coords.move (Coords.mk 4 9) DIRECTIONS.NORTH (2 + 3) = Ok (Coords.mk 4 4).
Proof.
  apply (move_move (Coords.mk 4 9) (Coords.mk 4 4) DIRECTIONS.NORTH 2 3).
  - unfold on_grid, BOARD_SIZE. simpl. lia.
  - lia.
  - lia.
Defined.

(** X3. A successful move from a cell of the grid lands on the grid, and the
    same number of cells towards the opposite side (the direction that
    [Position.reflect] gives) leads back to the starting cell. *)
Theorem move_back (c c' : Coords.t) (d : jsstring) (v : Z)
    (Hc : on_grid c) (Hv : 0 < v) (Hmove : Coords.move c d v = Ok c') :
  on_grid c' /\ Coords.move c' (opposite d) v = Ok c.
Proof.
  apply (move_Ok_iff c c' d v Hc Hv) in Hmove as [Hd [Hg ->]].
  split; [exact Hg |].
  apply (move_Ok_iff _ _ _ v Hg Hv).
  assert (Hback : translate_by (translate_by c d v) (opposite d) v = c).
  { destruct c as [cx cy]. unfold translate_by, opposite, Position.reflect.
    destruct Hd as [-> | [-> | [-> | ->]]]; cbn [Position.direction Position.port];
      eval_directions; simpl; f_equal; lia. }
  rewrite Hback. split; [| split; [exact Hc | reflexivity]].
  unfold valid_direction, opposite, Position.reflect.
  destruct Hd as [-> | [-> | [-> | ->]]]; cbn [Position.direction]; eval_directions; auto.
Qed.

Lemma move_back_witness :
  on_grid (Coords.mk 0 5) /\ Coords.move (Coords.mk 0 5) (opposite DIRECTIONS.WEST) 3
                             = Ok (Coords.mk 3 5).
Proof.
  apply (move_back (Coords.mk 3 5) (Coords.mk 0 5) DIRECTIONS.WEST 3).
  - unfold on_grid, BOARD_SIZE. simpl. lia.
  - lia.
  - reflexivity.
Defined.

(** ** Position.reflect and Position.rotate *)

(** X4. [reflect] applied twice gives back the position exactly when its
    port is 0 or 1, whatever its direction: a direction that is none of the
    four is left alone, and any other port is sent to 0 and from there to
    1. *)
Theorem reflect_reflect_iff (p : Position.t) :
  Position.reflect (Position.reflect p) = p
  <-> Position.port p = PORTS.ZERO \/ Position.port p = PORTS.ONE.
Proof.
  destruct p as [d n]. unfold Position.reflect, PORTS.ZERO, PORTS.ONE.
  cbn [Position.direction Position.port].
  assert (Hdir : (let d1 := if jsstring_eqb d DIRECTIONS.NORTH then DIRECTIONS.SOUTH
                            else if jsstring_eqb d DIRECTIONS.EAST then DIRECTIONS.WEST
                            else if jsstring_eqb d DIRECTIONS.SOUTH then DIRECTIONS.NORTH
                            else if jsstring_eqb d DIRECTIONS.WEST then DIRECTIONS.EAST
                            else d in
                  if jsstring_eqb d1 DIRECTIONS.NORTH then DIRECTIONS.SOUTH
                  else if jsstring_eqb d1 DIRECTIONS.EAST then DIRECTIONS.WEST
                  else if jsstring_eqb d1 DIRECTIONS.SOUTH then DIRECTIONS.NORTH
                  else if jsstring_eqb d1 DIRECTIONS.WEST then DIRECTIONS.EAST
                  else d1) = d).
  { cbv zeta.
    destruct (jsstring_eqb d DIRECTIONS.NORTH) eqn:En;
      [apply jsstring_eqb_eq in En; subst d; reflexivity |].
    destruct (jsstring_eqb d DIRECTIONS.EAST) eqn:Ee;
      [apply jsstring_eqb_eq in Ee; subst d; reflexivity |].
    destruct (jsstring_eqb d DIRECTIONS.SOUTH) eqn:Es;
      [apply jsstring_eqb_eq in Es; subst d; reflexivity |].
    destruct (jsstring_eqb d DIRECTIONS.WEST) eqn:Ew;
      [apply jsstring_eqb_eq in Ew; subst d; reflexivity |].
    rewrite En, Ee, Es, Ew. reflexivity. }
  cbv zeta in Hdir. rewrite Hdir.
  destruct (Z.eqb_spec n 0) as [-> | Hn0].
  - simpl. split; [auto | reflexivity].
  - simpl. split.
    + intros [= Hn]. auto.
    + intros [-> | ->]; [contradiction | reflexivity].
Qed.

Lemma indexOf_directions (d : jsstring) :
  valid_direction d ->
  0 <= indexOf DIRECTIONS_CLOCKWISE d < 4
  /\ array_get DIRECTIONS_CLOCKWISE (indexOf DIRECTIONS_CLOCKWISE d) = d.
Proof. intros [-> | [-> | [-> | ->]]]; vm_compute; intuition discriminate. Qed.

Lemma array_get_directions (i : Z) :
  0 <= i < 4 ->
  valid_direction (array_get DIRECTIONS_CLOCKWISE i)
  /\ indexOf DIRECTIONS_CLOCKWISE (array_get DIRECTIONS_CLOCKWISE i) = i.
Proof.
  intros Hi. assert (Hcases : i = 0 \/ i = 1 \/ i = 2 \/ i = 3) by lia.
  unfold valid_direction.
  destruct Hcases as [-> | [-> | [-> | ->]]]; vm_compute; auto.
Qed.

(** The direction after [k >= 0] quarter turns, through the indices. *)
Lemma rotate_direction (p : Position.t) (k : Z) :
  valid_direction (Position.direction p) -> 0 <= k ->
  Position.rotate p k
  = Position.mk
      (array_get DIRECTIONS_CLOCKWISE
         ((indexOf DIRECTIONS_CLOCKWISE (Position.direction p) + k) mod 4))
      (Position.port p).
Proof.
  intros Hd Hk. unfold Position.rotate, incrementIndex.
  destruct (indexOf_directions _ Hd) as [Hi _].
  change (Z.of_nat (length DIRECTIONS_CLOCKWISE)) with 4.
  rewrite Z.rem_mod_nonneg by lia. reflexivity.
Qed.

Lemma rotate_valid (p : Position.t) (k : Z) :
  valid_direction (Position.direction p) -> 0 <= k ->
  valid_direction (Position.direction (Position.rotate p k)).
Proof.
  intros Hd Hk. rewrite (rotate_direction p k Hd Hk). cbn [Position.direction].
  apply array_get_directions. apply Z.mod_pos_bound. lia.
Qed.

Lemma rotate_add (p : Position.t) (a b : Z) :
  valid_direction (Position.direction p) -> 0 <= a -> 0 <= b ->
  Position.rotate (Position.rotate p a) b = Position.rotate p (a + b).
Proof.
  intros Hd Ha Hb.
  rewrite (rotate_direction (Position.rotate p a) b (rotate_valid p a Hd Ha) Hb).
  rewrite (rotate_direction p a Hd Ha), (rotate_direction p (a + b) Hd) by lia.
  cbn [Position.direction Position.port].
  destruct (array_get_directions
              ((indexOf DIRECTIONS_CLOCKWISE (Position.direction p) + a) mod 4))
    as [_ Hidx]; [apply Z.mod_pos_bound; lia |].
  rewrite Hidx, Z.add_mod_idemp_l, Z.add_assoc by lia. reflexivity.
Qed.

Lemma rotate_full_turns (p : Position.t) (k : Z) :
  valid_direction (Position.direction p) -> 0 <= k -> k mod 4 = 0 ->
  Position.rotate p k = p.
Proof.
  intros Hd Hk Hmod. rewrite (rotate_direction p k Hd Hk).
  destruct (indexOf_directions _ Hd) as [Hi Hget].
  rewrite <- Z.add_mod_idemp_r, Hmod, Z.add_0_r, Z.mod_small by lia.
  rewrite Hget. destruct p; reflexivity.
Qed.

(** X5. Quarter turns add up: on a position whose direction is one of the
    four sides, [rotate(a)] followed by [rotate(b)] is [rotate(a + b)] for
    counts that are not negative; the direction stays one of the four
    sides, the port is kept, and a multiple of four turns gives back the
    position. *)
Theorem rotate_rotate (p : Position.t) (a b : Z)
    (Hd : valid_direction (Position.direction p)) (Ha : 0 <= a) (Hb : 0 <= b) :
  Position.rotate (Position.rotate p a) b = Position.rotate p (a + b)
  /\ valid_direction (Position.direction (Position.rotate p a))
  /\ Position.port (Position.rotate p a) = Position.port p
  /\ (a mod 4 = 0 -> Position.rotate p a = p).
Proof.
  split; [apply rotate_add; assumption |].
  split; [apply rotate_valid; assumption |].
  split; [reflexivity |].
  apply rotate_full_turns; assumption.
Qed.

Lemma rotate_rotate_witness :
  Position.rotate (Position.rotate (Position.mk DIRECTIONS.WEST 1) 3) 6
  = Position.rotate (Position.mk DIRECTIONS.WEST 1) (3 + 6).
Proof.
  apply (rotate_rotate (Position.mk DIRECTIONS.WEST 1) 3 6).
  - unfold valid_direction. simpl. auto.
  - lia.
  - lia.
Defined.

(** X6. Reflection and rotation commute: on a position whose direction is
    one of the four sides, the port across the edge of the rotated position
    is the rotation of the port across the edge; and the side across is the
    side two quarter turns away. *)
Theorem reflect_rotate (p : Position.t) (k : Z)
    (Hd : valid_direction (Position.direction p)) (Hk : 0 <= k) :
  Position.reflect (Position.rotate p k) = Position.rotate (Position.reflect p) k
  /\ Position.direction (Position.reflect p) = Position.direction (Position.rotate p 2).
Proof.
  split.
  - assert (Hr : valid_direction (Position.direction (Position.reflect p))).
    { destruct p as [d n]. simpl in Hd. unfold valid_direction, Position.reflect.
      destruct Hd as [-> | [-> | [-> | ->]]]; cbn [Position.direction]; eval_directions;
        auto. }
    rewrite (rotate_direction p k Hd Hk), (rotate_direction _ k Hr Hk).
    assert (Hm : 0 <= k mod 4 < 4) by (apply Z.mod_pos_bound; lia).
    destruct p as [d n]. cbn [Position.direction Position.port] in *.
    rewrite <- (Z.add_mod_idemp_r (indexOf DIRECTIONS_CLOCKWISE d) k) by lia.
    rewrite <- (Z.add_mod_idemp_r
                  (indexOf DIRECTIONS_CLOCKWISE
                     (Position.direction (Position.reflect (Position.mk d n)))) k) by lia.
    assert (Hcases : k mod 4 = 0 \/ k mod 4 = 1 \/ k mod 4 = 2 \/ k mod 4 = 3) by lia.
    destruct Hd as [-> | [-> | [-> | ->]]];
      destruct Hcases as [-> | [-> | [-> | ->]]]; reflexivity.
  - destruct p as [d n]. simpl in Hd.
    destruct Hd as [-> | [-> | [-> | ->]]]; reflexivity.
Qed.

Lemma reflect_rotate_witness :
  Position.reflect (Position.rotate (Position.mk DIRECTIONS.NORTH 0) 5)
  = Position.rotate (Position.reflect (Position.mk DIRECTIONS.NORTH 0)) 5.
Proof.
  apply (reflect_rotate (Position.mk DIRECTIONS.NORTH 0) 5).
  - unfold valid_direction. simpl. auto.
  - lia.
Defined.

(** ** Tile.rotate and Tile.copy *)

Lemma in_all_ports_iff (q : Position.t) :
  In q all_ports
  <-> valid_direction (Position.direction q)
      /\ (Position.port q = 0 \/ Position.port q = 1).
Proof.
  split.
  - intros Hq. split; [apply in_all_ports_valid, Hq |].
    simpl in Hq. repeat (destruct Hq as [<- | Hq]; [simpl; auto |]). destruct Hq.
  - destruct q as [d n]. simpl. intros [Hd Hn].
    destruct Hd as [-> | [-> | [-> | ->]]], Hn as [-> | ->]; simpl; auto 10.
Qed.

Lemma rotate_in_all_ports (q : Position.t) (k : Z) :
  0 <= k -> In q all_ports -> In (Position.rotate q k) all_ports.
Proof.
  intros Hk Hq. apply in_all_ports_iff in Hq as [Hd Hn].
  apply in_all_ports_iff. split; [apply rotate_valid; assumption | exact Hn].
Qed.

Lemma rotate_mod (p : Position.t) (k : Z) :
  valid_direction (Position.direction p) -> 0 <= k ->
  Position.rotate p (k mod 4) = Position.rotate p k.
Proof.
  intros Hd Hk.
  rewrite (rotate_direction p (k mod 4) Hd), (rotate_direction p k Hd Hk)
    by (apply Z.mod_pos_bound; lia).
  rewrite Z.add_mod_idemp_r by lia. reflexivity.
Qed.

(** The quarter turns that complete [k] turns to a multiple of four. *)
Lemma rotate_undo (p : Position.t) (k : Z) :
  valid_direction (Position.direction p) -> 0 <= k ->
  Position.rotate (Position.rotate p k) (4 - k mod 4) = p.
Proof.
  intros Hd Hk. assert (Hm : 0 <= k mod 4 < 4) by (apply Z.mod_pos_bound; lia).
  rewrite rotate_add by (assumption || lia).
  apply rotate_full_turns; [exact Hd | lia |].
  replace (k + (4 - k mod 4)) with (k - k mod 4 + 1 * 4) by lia.
  rewrite Z.mod_add by lia. rewrite Zminus_mod_idemp_r, Z.sub_diag. reflexivity.
Qed.

Lemma rotate_injective (p q : Position.t) (k : Z) :
  valid_direction (Position.direction p) -> valid_direction (Position.direction q) ->
  0 <= k -> Position.rotate p k = Position.rotate q k -> p = q.
Proof.
  intros Hp Hq Hk Heq.
  rewrite <- (rotate_undo p k Hp Hk), <- (rotate_undo q k Hq Hk), Heq. reflexivity.
Qed.

Lemma endpoints_map_rotate (l : list Path.t) (k : Z) :
  endpoints (Tile.mk (map (fun path => Path.rotate path k) l))
  = map (fun q => Position.rotate q k) (endpoints (Tile.mk l)).
Proof.
  unfold endpoints. cbn [Tile.paths].
  induction l as [| p l IH]; simpl; [reflexivity | rewrite IH; reflexivity].
Qed.

(** On a tile whose endpoints are on the four sides, [rotate(k)] with
    [k >= 0] turns every path by [k]. *)
Lemma Tile_rotate_map (t : Tile.t) (k : Z) :
  (forall q, In q (endpoints t) -> valid_direction (Position.direction q)) ->
  0 <= k ->
  Tile.rotate t k = Tile.mk (map (fun path => Path.rotate path k) (Tile.paths t)).
Proof.
  intros Hv Hk. unfold Tile.rotate.
  change (Z.of_nat (length DIRECTIONS_CLOCKWISE)) with 4.
  rewrite Z.rem_mod_nonneg by lia.
  assert (Hm : 0 <= k mod 4 < 4) by (apply Z.mod_pos_bound; lia).
  destruct (Z.ltb_spec 0 (k mod 4)).
  - f_equal. apply map_ext_in. intros p Hp.
    destruct (in_paths_endpoints t p Hp) as [Hs He]. destruct p as [s e].
    unfold Path.rotate. cbn [Path.start Path.end_] in *.
    rewrite !rotate_mod by auto. reflexivity.
  - destruct t as [l]. cbn [Tile.paths]. f_equal.
    rewrite <- (map_id l) at 1. apply map_ext_in. intros p Hp.
    destruct (in_paths_endpoints (Tile.mk l) p Hp) as [Hs He]. destruct p as [s e].
    unfold Path.rotate. cbn [Path.start Path.end_] in *.
    rewrite !rotate_full_turns by (auto || lia). reflexivity.
Qed.

Lemma Tile_copy_rotate (t : Tile.t) (k : Z) : 0 <= k -> Tile.copy t k = Tile.rotate t k.
Proof.
  intros Hk. unfold Tile.copy. rewrite map_Path_copy.
  destruct t as [l]. cbn [Tile.paths].
  destruct (Z.ltb_spec 0 k); [reflexivity |].
  assert (k = 0) by lia. subst k. reflexivity.
Qed.

Lemma tile_invariant_intro (t : Tile.t) :
  length (Tile.paths t) = 4%nat -> List.NoDup (endpoints t) -> incl all_ports (endpoints t) ->
  tile_invariant t = true.
Proof.
  intros Hlen Hnd Hincl. unfold tile_invariant.
  rewrite andb_true_iff, Nat.eqb_eq, forallb_forall. split; [exact Hlen |].
  intros q Hq. apply Nat.eqb_eq.
  apply (proj1 (List.NoDup_count_occ' Position.eq_dec (endpoints t)) Hnd), Hincl, Hq.
Qed.

Lemma tile_invariant_length (t : Tile.t) :
  tile_invariant t = true -> length (Tile.paths t) = 4%nat.
Proof.
  unfold tile_invariant. rewrite andb_true_iff, Nat.eqb_eq. intros [H _]. exact H.
Qed.

Lemma tile_invariant_valid (t : Tile.t) :
  tile_invariant t = true ->
  forall q, In q (endpoints t) -> valid_direction (Position.direction q).
Proof.
  intros Hinv q Hq. destruct (tile_invariant_endpoints t Hinv) as [_ [Hincl _]].
  apply in_all_ports_valid, Hincl, Hq.
Qed.

(** Turning every path of a tile keeps the tile invariant. *)
Lemma tile_invariant_map_rotate (t : Tile.t) (k : Z) :
  tile_invariant t = true -> 0 <= k ->
  tile_invariant (Tile.mk (map (fun path => Path.rotate path k) (Tile.paths t))) = true.
Proof.
  intros Hinv Hk.
  destruct (tile_invariant_endpoints t Hinv) as [Hall [Hincl Hnd]].
  pose proof (endpoints_map_rotate (Tile.paths t) k) as Hends.
  assert (Ht : Tile.mk (Tile.paths t) = t) by (destruct t; reflexivity).
  rewrite Ht in Hends.
  apply tile_invariant_intro.
  - cbn [Tile.paths]. rewrite length_map. apply tile_invariant_length, Hinv.
  - rewrite Hends. apply List.NoDup_map_NoDup_ForallPairs; [| exact Hnd].
    intros p q Hp Hq Heq.
    apply (rotate_injective p q k); auto using in_all_ports_valid.
  - rewrite Hends. intros q Hq.
    assert (Hd : valid_direction (Position.direction q)) by (apply in_all_ports_valid, Hq).
    rewrite <- (rotate_undo q k Hd Hk).
    assert (Hm : 0 <= k mod 4 < 4) by (apply Z.mod_pos_bound; lia).
    assert (Hswap : Position.rotate (Position.rotate q k) (4 - k mod 4)
                    = Position.rotate (Position.rotate q (4 - k mod 4)) k).
    { rewrite !rotate_add by (assumption || lia). f_equal. lia. }
    rewrite Hswap.
    apply (in_map (fun q0 => Position.rotate q0 k) (endpoints t)
             (Position.rotate q (4 - k mod 4))).
    apply Hall, rotate_in_all_ports; [lia | exact Hq].
Qed.

(** X7. Rotation keeps the tile invariant: a tile with four segments that
    cover the eight ports once each is still such a tile after [rotate(k)],
    and so is its copy [copy(k)], for every count [k]; and a count that is
    negative, zero or a multiple of four does not turn the tile: [rotate(k)]
    leaves it as it is and [copy(k)] is equal to it. *)
Theorem rotate_keeps_tile_invariant (t : Tile.t) (k : Z)
    (Hinv : tile_invariant t = true) :
  tile_invariant (Tile.rotate t k) = true
  /\ tile_invariant (Tile.copy t k) = true
  /\ (k <= 0 \/ k mod 4 = 0 -> Tile.rotate t k = t /\ Tile.copy t k = t).
Proof.
  assert (Hrot : forall j, tile_invariant (Tile.rotate t j) = true).
  { intros j. unfold Tile.rotate.
    destruct (Z.ltb_spec 0 (Z.rem j (Z.of_nat (length DIRECTIONS_CLOCKWISE))));
      [| exact Hinv].
    apply tile_invariant_map_rotate; [exact Hinv | lia]. }
  assert (Ht : Tile.mk (Tile.paths t) = t) by (destruct t; reflexivity).
  split; [apply Hrot | split].
  - unfold Tile.copy. rewrite map_Path_copy, Ht.
    destruct (0 <? k); [apply Hrot | exact Hinv].
  - intros Hk.
    assert (Hrem : Z.rem k (Z.of_nat (length DIRECTIONS_CLOCKWISE)) <= 0).
    { change (Z.of_nat (length DIRECTIONS_CLOCKWISE)) with 4.
      destruct Hk as [Hk | Hk]; [apply Z.rem_nonpos; lia |].
      apply Z.mod_divide in Hk; [| lia]. destruct Hk as [q ->].
      rewrite Z.rem_mul by lia. lia. }
    assert (Hsame : forall u, Tile.rotate u k = u).
    { intros u. unfold Tile.rotate.
      destruct (Z.ltb_spec 0 (Z.rem k (Z.of_nat (length DIRECTIONS_CLOCKWISE))));
        [lia | reflexivity]. }
    split; [apply Hsame |].
    unfold Tile.copy. rewrite map_Path_copy, Ht.
    destruct (0 <? k); [apply Hsame | reflexivity].
Qed.

Lemma rotate_keeps_tile_invariant_witness :
  tile_invariant (Tile.rotate Examples.uturns 7) = true
  /\ tile_invariant (Tile.copy Examples.uturns 7) = true
  /\ Tile.rotate Examples.uturns 8 = Examples.uturns
  /\ Tile.copy Examples.uturns (-1) = Examples.uturns.
Proof.
  assert (Hinv : tile_invariant Examples.uturns = true) by (vm_compute; reflexivity).
  destruct (rotate_keeps_tile_invariant Examples.uturns 7 Hinv) as [H1 [H2 _]].
  destruct (rotate_keeps_tile_invariant Examples.uturns 8 Hinv) as [_ [_ H8]].
  destruct (rotate_keeps_tile_invariant Examples.uturns (-1) Hinv) as [_ [_ Hneg]].
  split; [exact H1 | split; [exact H2 | split]].
  - apply H8. right. reflexivity.
  - apply Hneg. left. lia.
Defined.

(** X8. Rotations of a tile add up: on a tile that satisfies the tile
    invariant, [rotate(a)] followed by [rotate(b)] is [rotate(a + b)] for
    counts that are not negative, and [copy(a)] is the tile [rotate(a)]
    produces. *)
Theorem Tile_rotate_rotate (t : Tile.t) (a b : Z)
    (Hinv : tile_invariant t = true) (Ha : 0 <= a) (Hb : 0 <= b) :
  Tile.rotate (Tile.rotate t a) b = Tile.rotate t (a + b)
  /\ Tile.copy t a = Tile.rotate t a.
Proof.
  split; [| apply Tile_copy_rotate, Ha].
  pose proof (tile_invariant_valid t Hinv) as Hv.
  rewrite (Tile_rotate_map t a Hv Ha), (Tile_rotate_map t (a + b) Hv) by lia.
  rewrite Tile_rotate_map; [| | exact Hb].
  - cbn [Tile.paths]. rewrite map_map. f_equal. apply map_ext_in. intros p Hp.
    destruct (in_paths_endpoints t p Hp) as [Hs He]. destruct p as [s e].
    unfold Path.rotate. cbn [Path.start Path.end_] in *.
    rewrite !rotate_add by auto. reflexivity.
  - apply tile_invariant_valid, tile_invariant_map_rotate; assumption.
Qed.

Lemma Tile_rotate_rotate_witness :
  Tile.rotate (Tile.rotate Examples.uturns 1) 2 = Tile.rotate Examples.uturns (1 + 2)
  /\ Tile.copy Examples.uturns 1 = Tile.rotate Examples.uturns 1.
Proof.
  apply (Tile_rotate_rotate Examples.uturns 1 2); [vm_compute; reflexivity | lia | lia].
Defined.

(** ** Tile.getEndingPosition *)

(** [first] returns what the callback gives on the first element where it
    gives something, and throws [NotFound] when there is none. *)
Lemma first_Ok {A B : Type} (fn : A -> option B) (l : list A) (b : B) :
  first fn l = Ok b
  <-> exists l1 a l2, l = (l1 ++ a :: l2)%list /\ fn a = Some b
                      /\ Forall (fun a' => fn a' = None) l1.
Proof.
  induction l as [| a0 l IH]; simpl.
  - split; [discriminate |]. intros [l1 [a [l2 [Hl _]]]]. destruct l1; discriminate.
  - destruct (fn a0) as [b0 |] eqn:E0.
    + split.
      * intros [= <-]. exists [], a0, l. split; [reflexivity | split; [exact E0 | constructor]].
      * intros [l1 [a [l2 [Hl [Ha Hnone]]]]]. destruct l1 as [| a1 l1].
        -- injection Hl as <- _. congruence.
        -- injection Hl as <- _. inversion Hnone; subst. congruence.
    + rewrite IH. split.
      * intros [l1 [a [l2 [-> [Ha Hnone]]]]]. exists (a0 :: l1), a, l2.
        split; [reflexivity | split; [exact Ha | constructor; assumption]].
      * intros [l1 [a [l2 [Hl [Ha Hnone]]]]]. destruct l1 as [| a1 l1].
        -- injection Hl as <- _. congruence.
        -- injection Hl as <- ->. inversion Hnone; subst. exists l1, a, l2. auto.
Qed.

Lemma first_Throw {A B : Type} (fn : A -> option B) (l : list A) (e : string) :
  first fn l = Throw e <-> e = "NotFound" /\ Forall (fun a => fn a = None) l.
Proof.
  induction l as [| a0 l IH]; simpl.
  - split; [intros [= <-]; split; [reflexivity | constructor] | intros [-> _]; reflexivity].
  - destruct (fn a0) as [b0 |] eqn:E0.
    + split; [discriminate | intros [_ H]; inversion H; subst; congruence].
    + rewrite IH. split.
      * intros [-> H]. split; [reflexivity | constructor; assumption].
      * intros [-> H]. inversion H; subst. auto.
Qed.

Lemma Path_getEndingPosition_Some (path : Path.t) (p q : Position.t) :
  Path.getEndingPosition path p = Some q
  <-> (Path.start path = p /\ Path.end_ path = q)
      \/ (Path.start path <> p /\ Path.end_ path = p /\ Path.start path = q).
Proof.
  unfold Path.getEndingPosition.
  destruct (Position.isEqualTo (Path.start path) p) eqn:Es.
  - apply Position_isEqualTo_eq in Es. split.
    + intros [= <-]. auto.
    + intros [[_ ->] | [Hne _]]; [reflexivity | contradiction].
  - assert (Hne : Path.start path <> p).
    { intros Heq. apply Position_isEqualTo_eq in Heq. congruence. }
    destruct (Position.isEqualTo (Path.end_ path) p) eqn:Ee.
    + apply Position_isEqualTo_eq in Ee. split.
      * intros [= <-]. auto.
      * intros [[Heq _] | [_ [_ ->]]]; [contradiction | reflexivity].
    + assert (Hne' : Path.end_ path <> p).
      { intros Heq. apply Position_isEqualTo_eq in Heq. congruence. }
      split; [discriminate | intros [[Heq _] | [_ [Heq _]]]; contradiction].
Qed.

Lemma Path_getEndingPosition_None (path : Path.t) (p : Position.t) :
  Path.getEndingPosition path p = None <-> Path.start path <> p /\ Path.end_ path <> p.
Proof.
  destruct (Path.getEndingPosition path p) as [q |] eqn:E.
  - apply Path_getEndingPosition_Some in E. split; [discriminate |].
    intros [Hs He]. destruct E as [[H _] | [_ [H _]]]; contradiction.
  - split; [intros _ | reflexivity].
    unfold Path.getEndingPosition in E.
    destruct (Position.isEqualTo (Path.start path) p) eqn:Es; [discriminate |].
    destruct (Position.isEqualTo (Path.end_ path) p) eqn:Ee; [discriminate |].
    split; intros Heq; apply Position_isEqualTo_eq in Heq; congruence.
Qed.

(** X9. [getEndingPosition] on any tile: it returns exactly when the
    position is an endpoint of some segment of the tile, and then gives the
    other end of the first such segment; when the position is an endpoint
    of no segment the lookup fails with [NotFound], and it fails in no
    other way. *)
Theorem getEndingPosition_outcomes (t : Tile.t) (p : Position.t) :
  ((exists q, Tile.getEndingPosition t p = Ok q) <-> In p (endpoints t))
  /\ (forall e, Tile.getEndingPosition t p = Throw e
                <-> e = "NotFound" /\ ~ In p (endpoints t))
  /\ (forall q, Tile.getEndingPosition t p = Ok q ->
        exists before path after,
          Tile.paths t = (before ++ path :: after)%list
          /\ ((Path.start path = p /\ Path.end_ path = q)
              \/ (Path.end_ path = p /\ Path.start path = q))
          /\ forall earlier, In earlier before ->
               Path.start earlier <> p /\ Path.end_ earlier <> p).
Proof.
  unfold Tile.getEndingPosition.
  assert (Hnone : Forall (fun a => Path.getEndingPosition a p = None) (Tile.paths t)
                  <-> ~ In p (endpoints t)).
  { rewrite Forall_forall. unfold endpoints. split.
    - intros Hall Hin. apply in_flat_map in Hin as [path [Hpath Hends]].
      apply list_elem_of_In, Hall, Path_getEndingPosition_None in Hpath.
      simpl in Hends. destruct Hends as [<- | [<- | []]]; tauto.
    - intros Hnot path Hpath. apply Path_getEndingPosition_None.
      apply list_elem_of_In in Hpath.
      split; intros Heq; apply Hnot, in_flat_map; exists path; simpl; auto. }
  assert (Hthrow : forall e, first (fun path => Path.getEndingPosition path p) (Tile.paths t)
                             = Throw e <-> e = "NotFound" /\ ~ In p (endpoints t)).
  { intros e. rewrite first_Throw, Hnone. reflexivity. }
  split; [| split; [exact Hthrow |]].
  - destruct (first (fun path => Path.getEndingPosition path p) (Tile.paths t))
      as [q | e] eqn:E.
    + split; [intros _ | eauto].
      destruct (in_dec Position.eq_dec p (endpoints t)) as [Hin | Hnot]; [exact Hin |].
      assert (Hn : Forall (fun a => Path.getEndingPosition a p = None) (Tile.paths t))
        by (apply Hnone, Hnot).
      pose proof (proj2 (first_Throw _ _ "NotFound") (conj eq_refl Hn)) as Hthrown.
      congruence.
    + split; [intros [q Hq]; discriminate |].
      intros Hin. destruct (proj1 (Hthrow e) eq_refl) as [_ Hnot]. contradiction.
  - intros q Hq. apply first_Ok in Hq as [before [path [after [Hl [Hpath Hbefore]]]]].
    exists before, path, after. split; [exact Hl |]. split.
    + apply Path_getEndingPosition_Some in Hpath. tauto.
    + intros earlier Hin. rewrite Forall_forall in Hbefore.
      apply Path_getEndingPosition_None, Hbefore, list_elem_of_In, Hin.
Qed.

(** The two ends of a segment differ when no port is used twice. *)
Lemma segment_ends_differ (l : list Path.t) (path : Path.t) :
  List.NoDup (flat_map (fun p => [Path.start p; Path.end_ p]) l) -> In path l ->
  Path.start path <> Path.end_ path.
Proof.
  induction l as [| a l IH]; intros Hnd Hin; [destruct Hin |].
  simpl in Hnd. apply List.NoDup_cons_iff in Hnd as [Hs Hnd].
  apply List.NoDup_cons_iff in Hnd as [_ Hnd].
  destruct Hin as [<- | Hin]; [| apply IH; assumption].
  intros Heq. apply Hs. left. symmetry. exact Heq.
Qed.

(** On a tile where no port is used twice, the lookup from one end of a
    segment gives its other end. *)
Lemma getEndingPosition_of_segment (t : Tile.t) (path : Path.t) :
  List.NoDup (endpoints t) -> In path (Tile.paths t) ->
  Tile.getEndingPosition t (Path.start path) = Ok (Path.end_ path)
  /\ Tile.getEndingPosition t (Path.end_ path) = Ok (Path.start path).
Proof.
  intros Hnd Hin.
  pose proof (segment_ends_differ (Tile.paths t) path Hnd Hin) as Hdiff.
  assert (Hgen : forall p q,
            (Path.start path = p /\ Path.end_ path = q)
            \/ (Path.start path <> p /\ Path.end_ path = p /\ Path.start path = q) ->
            Tile.getEndingPosition t p = Ok q).
  { intros p q Hpq. unfold Tile.getEndingPosition.
    destruct (first (fun a => Path.getEndingPosition a p) (Tile.paths t)) as [b | e] eqn:E.
    - apply first_Ok in E as [l1 [a [l2 [Hl [Ha _]]]]].
      assert (Hina : In a (Tile.paths t)) by (rewrite Hl; apply in_elt).
      assert (Heq : path = a).
      { apply (shared_port_same_path (Tile.paths t) path a p Hnd Hin Hina).
        - destruct Hpq as [[<- _] | [_ [<- _]]]; auto.
        - apply Path_getEndingPosition_Some in Ha.
          destruct Ha as [[<- _] | [_ [<- _]]]; auto. }
      subst a. apply Path_getEndingPosition_Some in Hpq. congruence.
    - apply first_Throw in E as [_ Hall]. rewrite Forall_forall in Hall.
      apply list_elem_of_In, Hall in Hin.
      apply Path_getEndingPosition_Some in Hpq. congruence. }
  split; apply Hgen; [left; auto | right; auto].
Qed.

(** X10. On a tile that satisfies the tile invariant, [getEndingPosition]
    returns for each of the eight ports, the port it returns is another
    one of the eight, and the lookup from that port leads back: the
    traversal of a tile is an involution without fixed point. *)
Theorem getEndingPosition_involutive (t : Tile.t) (p : Position.t)
    (Hinv : tile_invariant t = true) (Hp : In p all_ports) :
  exists q, Tile.getEndingPosition t p = Ok q
            /\ In q all_ports /\ q <> p
            /\ Tile.getEndingPosition t q = Ok p.
Proof.
  destruct (tile_invariant_endpoints t Hinv) as [Hall [Hincl Hnd]].
  destruct (in_endpoints_path t p (Hall p Hp)) as [path [Hpath Hends]].
  destruct (getEndingPosition_of_segment t path Hnd Hpath) as [Hfwd Hbwd].
  pose proof (segment_ends_differ (Tile.paths t) path Hnd Hpath) as Hdiff.
  destruct (in_paths_endpoints t path Hpath) as [Hs He].
  destruct Hends as [-> | ->].
  - exists (Path.end_ path). repeat split; auto.
  - exists (Path.start path). repeat split; auto.
Qed.

Lemma getEndingPosition_involutive_witness :
  exists q, Tile.getEndingPosition Examples.straight (Position.mk DIRECTIONS.SOUTH 1) = Ok q
            /\ In q all_ports /\ q <> Position.mk DIRECTIONS.SOUTH 1
            /\ Tile.getEndingPosition Examples.straight q
               = Ok (Position.mk DIRECTIONS.SOUTH 1).
Proof.
  apply (getEndingPosition_involutive Examples.straight (Position.mk DIRECTIONS.SOUTH 1)).
  - vm_compute. reflexivity.
  - simpl. auto 10.
Defined.

(** X11. Traversal commutes with rotation: on a tile that satisfies the
    tile invariant, if a port leads to another one, then on the tile
    rotated by [k >= 0] quarter turns the rotated port leads to the
    rotation of the other one. *)
Theorem getEndingPosition_rotate (t : Tile.t) (p q : Position.t) (k : Z)
    (Hinv : tile_invariant t = true) (Hk : 0 <= k)
    (Hpq : Tile.getEndingPosition t p = Ok q) :
  Tile.getEndingPosition (Tile.rotate t k) (Position.rotate p k) = Ok (Position.rotate q k).
Proof.
  rewrite (Tile_rotate_map t k (tile_invariant_valid t Hinv) Hk).
  pose proof (tile_invariant_map_rotate t k Hinv Hk) as Hinv'.
  destruct (tile_invariant_endpoints _ Hinv') as [_ [_ Hnd']].
  unfold Tile.getEndingPosition in Hpq.
  apply first_Ok in Hpq as [l1 [path [l2 [Hl [Hpath _]]]]].
  assert (Hin : In (Path.rotate path k)
                  (Tile.paths (Tile.mk (map (fun a => Path.rotate a k) (Tile.paths t))))).
  { cbn [Tile.paths]. apply (in_map (fun a => Path.rotate a k)). rewrite Hl. apply in_elt. }
  destruct (getEndingPosition_of_segment _ _ Hnd' Hin) as [Hfwd Hbwd].
  apply Path_getEndingPosition_Some in Hpath.
  destruct Hpath as [[<- <-] | [_ [<- <-]]]; assumption.
Qed.

Lemma getEndingPosition_rotate_witness :
  Tile.getEndingPosition (Tile.rotate Examples.uturns 1)
    (Position.rotate (Position.mk DIRECTIONS.NORTH 0) 1)
  = Ok (Position.rotate (Position.mk DIRECTIONS.NORTH 1) 1).
Proof.
  apply (getEndingPosition_rotate Examples.uturns (Position.mk DIRECTIONS.NORTH 0)
           (Position.mk DIRECTIONS.NORTH 1) 1).
  - vm_compute. reflexivity.
  - lia.
  - reflexivity.
Defined.

(** ** Tile.isEqualTo and Tile.isEqualToRotated as relations *)

Lemma isEqualTo_trans (a b c : Tile.t) :
  Tile.isEqualTo a b = true -> Tile.isEqualTo b c = true -> Tile.isEqualTo a c = true.
Proof.
  rewrite !isEqualTo_iff_included. intros Hab Hbc p Hp.
  destruct (Hab p Hp) as [q [Hq Hqp]]. destruct (Hbc q Hq) as [r [Hr Hrq]].
  exists r. split; [exact Hr | eapply same_segment_trans; eassumption].
Qed.

(** Between two tiles that satisfy the invariant, the inclusion of the
    segments goes both ways. *)
Lemma isEqualTo_sym (a b : Tile.t) :
  tile_invariant a = true -> tile_invariant b = true ->
  Tile.isEqualTo a b = true -> Tile.isEqualTo b a = true.
Proof.
  intros Ha Hb. rewrite !isEqualTo_iff_included. intros Hincl q Hq.
  destruct (tile_invariant_endpoints a Ha) as [Hall_a _].
  destruct (tile_invariant_endpoints b Hb) as [_ [Hb_all Hnd_b]].
  destruct (in_paths_endpoints b q Hq) as [Hsq _].
  apply Hb_all, Hall_a, in_endpoints_path in Hsq as [q' [Hq' Hshare]].
  destruct (Hincl q' Hq') as [q2 [Hq2 Hq2q']].
  assert (Heq : q = q2).
  { apply (shared_port_same_path (Tile.paths b) q q2 (Path.start q) Hnd_b Hq Hq2).
    - left. reflexivity.
    - unfold same_segment in Hq2q'. intuition congruence. }
  subst q2. exists q'. split; [exact Hq' | apply same_segment_sym, Hq2q'].
Qed.

(** X12. [isEqualTo] is reflexive and transitive on all tile objects,
    whether they satisfy the tile invariant or not, and between two tiles
    that satisfy the tile invariant it is symmetric, the order of its two
    arguments does not matter: on those tiles it is an equivalence
    relation. *)
Theorem isEqualTo_equivalence (a b c : Tile.t) :
  Tile.isEqualTo a a = true
  /\ (Tile.isEqualTo a b = true -> Tile.isEqualTo b c = true -> Tile.isEqualTo a c = true)
  /\ (tile_invariant a = true -> tile_invariant b = true ->
      Tile.isEqualTo a b = Tile.isEqualTo b a).
Proof.
  split; [apply isEqualTo_refl |]. split; [apply isEqualTo_trans |].
  intros Ha Hb.
  destruct (Tile.isEqualTo a b) eqn:Eab, (Tile.isEqualTo b a) eqn:Eba; try reflexivity.
  - rewrite (isEqualTo_sym a b Ha Hb Eab) in Eba. discriminate.
  - rewrite (isEqualTo_sym b a Hb Ha Eba) in Eab. discriminate.
Qed.

Lemma isEqualTo_equivalence_witness :
  Tile.isEqualTo Examples.straight (Tile.copy Examples.straight 1)
  = Tile.isEqualTo (Tile.copy Examples.straight 1) Examples.straight.
Proof.
  apply (proj2 (proj2 (isEqualTo_equivalence Examples.straight
                         (Tile.copy Examples.straight 1) Examples.uturns)));
    vm_compute; reflexivity.
Defined.

(** [isEqualToRotated] looks for one of the four rotations of its
    argument. *)
Lemma isEqualToRotated_iff (a b : Tile.t) :
  Tile.isEqualToRotated a b = true
  <-> exists k, 0 <= k <= 3 /\ Tile.isEqualTo a (Tile.rotate b k) = true.
Proof.
  unfold Tile.isEqualToRotated.
  rewrite !orb_true_iff, !Tile_copy_rotate by lia.
  assert (H0 : Tile.rotate b 0 = b) by reflexivity.
  split.
  - intros [[[H | H] | H] | H].
    + exists 0. rewrite H0. split; [lia | exact H].
    + exists 1. split; [lia | exact H].
    + exists 2. split; [lia | exact H].
    + exists 3. split; [lia | exact H].
  - intros [k [Hk H]]. assert (Hc : k = 0 \/ k = 1 \/ k = 2 \/ k = 3) by lia.
    destruct Hc as [-> | [-> | [-> | ->]]]; [rewrite H0 in H |..]; auto.
Qed.

Lemma same_segment_rotate (p q : Path.t) (k : Z) :
  same_segment p q -> same_segment (Path.rotate p k) (Path.rotate q k).
Proof.
  unfold same_segment, Path.rotate. cbn [Path.start Path.end_].
  intros [[-> ->] | [-> ->]]; auto.
Qed.

Lemma isEqualTo_map_rotate (a b : Tile.t) (k : Z) :
  Tile.isEqualTo a b = true ->
  Tile.isEqualTo (Tile.mk (map (fun path => Path.rotate path k) (Tile.paths a)))
    (Tile.mk (map (fun path => Path.rotate path k) (Tile.paths b))) = true.
Proof.
  rewrite !isEqualTo_iff_included. cbn [Tile.paths]. intros Hincl p Hp.
  apply in_map_iff in Hp as [p0 [<- Hp0]].
  destruct (Hincl p0 Hp0) as [q [Hq Hqp]].
  exists (Path.rotate q k). split.
  - cbn [Tile.paths]. apply (in_map (fun path => Path.rotate path k)), Hq.
  - apply same_segment_rotate, Hqp.
Qed.

Lemma isEqualTo_rotate (a b : Tile.t) (k : Z) :
  tile_invariant a = true -> tile_invariant b = true -> 0 <= k ->
  Tile.isEqualTo a b = true -> Tile.isEqualTo (Tile.rotate a k) (Tile.rotate b k) = true.
Proof.
  intros Ha Hb Hk Hab.
  rewrite (Tile_rotate_map a k (tile_invariant_valid a Ha) Hk).
  rewrite (Tile_rotate_map b k (tile_invariant_valid b Hb) Hk).
  apply isEqualTo_map_rotate, Hab.
Qed.

Lemma Tile_rotate_add (t : Tile.t) (a b : Z) :
  tile_invariant t = true -> 0 <= a -> 0 <= b ->
  Tile.rotate (Tile.rotate t a) b = Tile.rotate t (a + b).
Proof.
  intros Hinv Ha Hb.
  pose proof (tile_invariant_valid t Hinv) as Hv.
  rewrite (Tile_rotate_map t a Hv Ha), (Tile_rotate_map t (a + b) Hv) by lia.
  rewrite Tile_rotate_map; [| | exact Hb].
  - cbn [Tile.paths]. rewrite map_map. f_equal. apply map_ext_in. intros p Hp.
    destruct (in_paths_endpoints t p Hp) as [Hs He]. destruct p as [s e].
    unfold Path.rotate. cbn [Path.start Path.end_] in *.
    rewrite !rotate_add by auto. reflexivity.
  - apply tile_invariant_valid, tile_invariant_map_rotate; assumption.
Qed.

(** [Tile.rotate] only looks at the count modulo four. *)
Lemma Tile_rotate_mod (t : Tile.t) (k : Z) : 0 <= k -> Tile.rotate t (k mod 4) = Tile.rotate t k.
Proof.
  intros Hk. unfold Tile.rotate. change (Z.of_nat (length DIRECTIONS_CLOCKWISE)) with 4.
  assert (Hm : 0 <= k mod 4 < 4) by (apply Z.mod_pos_bound; lia).
  rewrite !Z.rem_mod_nonneg by lia. rewrite Z.mod_mod by lia. reflexivity.
Qed.

Lemma Tile_rotate_invariant (t : Tile.t) (k : Z) :
  tile_invariant t = true -> tile_invariant (Tile.rotate t k) = true.
Proof.
  intros Hinv. unfold Tile.rotate.
  destruct (Z.ltb_spec 0 (Z.rem k (Z.of_nat (length DIRECTIONS_CLOCKWISE))));
    [| exact Hinv].
  apply tile_invariant_map_rotate; [exact Hinv | lia].
Qed.

Lemma isEqualToRotated_sym (a b : Tile.t) :
  tile_invariant a = true -> tile_invariant b = true ->
  Tile.isEqualToRotated a b = true -> Tile.isEqualToRotated b a = true.
Proof.
  intros Ha Hb. rewrite !isEqualToRotated_iff. intros [k [Hk Hab]].
  assert (Hm : 0 <= (4 - k) mod 4 < 4) by (apply Z.mod_pos_bound; lia).
  exists ((4 - k) mod 4). split; [lia |].
  rewrite Tile_rotate_mod by lia.
  apply (isEqualTo_sym a _ Ha (Tile_rotate_invariant b k Hb)) in Hab.
  apply (isEqualTo_rotate _ _ (4 - k) (Tile_rotate_invariant b k Hb) Ha) in Hab; [| lia].
  rewrite Tile_rotate_add in Hab by (assumption || lia).
  replace (k + (4 - k)) with 4 in Hab by lia. exact Hab.
Qed.

Lemma isEqualToRotated_trans (a b c : Tile.t) :
  tile_invariant b = true -> tile_invariant c = true ->
  Tile.isEqualToRotated a b = true -> Tile.isEqualToRotated b c = true ->
  Tile.isEqualToRotated a c = true.
Proof.
  intros Hb Hc. rewrite !isEqualToRotated_iff. intros [k [Hk Hab]] [j [Hj Hbc]].
  assert (Hm : 0 <= (j + k) mod 4 < 4) by (apply Z.mod_pos_bound; lia).
  exists ((j + k) mod 4). split; [lia |].
  rewrite Tile_rotate_mod by lia.
  apply (isEqualTo_rotate _ _ k Hb (Tile_rotate_invariant c j Hc)) in Hbc; [| lia].
  rewrite Tile_rotate_add in Hbc by (assumption || lia).
  eapply isEqualTo_trans; eassumption.
Qed.

(** X13. On tiles that satisfy the tile invariant, [isEqualToRotated] is an
    equivalence relation: every tile matches itself, the order of the two
    tiles does not matter, and two tiles that match a third one match each
    other. *)
Theorem isEqualToRotated_equivalence (a b c : Tile.t)
    (Ha : tile_invariant a = true) (Hb : tile_invariant b = true)
    (Hc : tile_invariant c = true) :
  Tile.isEqualToRotated a a = true
  /\ Tile.isEqualToRotated a b = Tile.isEqualToRotated b a
  /\ (Tile.isEqualToRotated a b = true -> Tile.isEqualToRotated b c = true ->
      Tile.isEqualToRotated a c = true).
Proof.
  split; [| split].
  - apply isEqualToRotated_iff. exists 0. split; [lia | apply isEqualTo_refl].
  - destruct (Tile.isEqualToRotated a b) eqn:Eab, (Tile.isEqualToRotated b a) eqn:Eba;
      try reflexivity.
    + rewrite (isEqualToRotated_sym a b Ha Hb Eab) in Eba. discriminate.
    + rewrite (isEqualToRotated_sym b a Hb Ha Eba) in Eab. discriminate.
  - apply isEqualToRotated_trans; assumption.
Qed.

Lemma isEqualToRotated_equivalence_witness :
  Tile.isEqualToRotated Examples.uturns (Tile.copy Examples.uturns 1)
  = Tile.isEqualToRotated (Tile.copy Examples.uturns 1) Examples.uturns.
Proof.
  apply (isEqualToRotated_equivalence Examples.uturns (Tile.copy Examples.uturns 1)
           Examples.straight); vm_compute; reflexivity.
Defined.

(** ** The rule checker and the orientation of tiles *)

Lemma Tile_copy_copy (t : Tile.t) (k j : Z) :
  tile_invariant t = true -> 0 <= k -> 0 <= j ->
  Tile.copy (Tile.copy t k) j = Tile.copy t ((k + j) mod 4).
Proof.
  intros Hinv Hk Hj.
  assert (Hm : 0 <= (k + j) mod 4 < 4) by (apply Z.mod_pos_bound; lia).
  rewrite !Tile_copy_rotate by lia.
  rewrite Tile_rotate_add, Tile_rotate_mod by (assumption || lia). reflexivity.
Qed.

(** The four rotations of a rotated copy are the four rotations of the
    tile. *)
Lemma isEqualToRotated_copy_r (h t : Tile.t) (k : Z) :
  tile_invariant t = true -> 0 <= k <= 3 ->
  Tile.isEqualToRotated h (Tile.copy t k) = Tile.isEqualToRotated h t.
Proof.
  intros Hinv Hk.
  assert (Hiff : Tile.isEqualToRotated h (Tile.copy t k) = true
                 <-> Tile.isEqualToRotated h t = true).
  { rewrite !isEqualToRotated_iff. split.
    - intros [r [Hr H]].
      assert (Hm : 0 <= (k + r) mod 4 < 4) by (apply Z.mod_pos_bound; lia).
      exists ((k + r) mod 4). split; [lia |].
      rewrite <- Tile_copy_rotate in H |- * by lia.
      rewrite Tile_copy_copy in H by (assumption || lia). exact H.
    - intros [m [Hm H]].
      assert (Hr : 0 <= (m - k) mod 4 < 4) by (apply Z.mod_pos_bound; lia).
      exists ((m - k) mod 4). split; [lia |].
      rewrite <- Tile_copy_rotate in H |- * by lia.
      rewrite Tile_copy_copy by (assumption || lia).
      rewrite Z.add_mod_idemp_r by lia.
      replace (k + (m - k)) with m by lia. rewrite Z.mod_small by lia. exact H. }
  destruct (Tile.isEqualToRotated h (Tile.copy t k)), (Tile.isEqualToRotated h t);
    try reflexivity.
  - symmetry. apply Hiff. reflexivity.
  - apply Hiff. reflexivity.
Qed.

Lemma Forall2_In_l {A B : Type} (R : A -> B -> Prop) (l : list A) (l' : list B) (x : A) :
  Forall2 R l l' -> In x l -> exists y, In y l' /\ R x y.
Proof.
  induction 1 as [| a b l l' Hab _ IH]; intros Hin; [destruct Hin |].
  destruct Hin as [<- | Hin]; [exists b; simpl; auto |].
  destruct (IH Hin) as [y [Hy Hxy]]. exists y. simpl. auto.
Qed.

Lemma Forall2_In_r {A B : Type} (R : A -> B -> Prop) (l : list A) (l' : list B) (y : B) :
  Forall2 R l l' -> In y l' -> exists x, In x l /\ R x y.
Proof.
  induction 1 as [| a b l l' Hab _ IH]; intros Hin; [destruct Hin |].
  destruct Hin as [<- | Hin]; [exists a; simpl; auto |].
  destruct (IH Hin) as [x [Hx Hxy]]. exists x. simpl. auto.
Qed.

Section RuleCheckerOrientation.
Context {board : BoardAPI}.

(** X14. Legality does not depend on the orientation of the submitted tile:
    for a tile that satisfies the tile invariant, [checkPlacementLegality]
    gives the same answer for the tile and for each of its rotated copies
    [copy(k)], k in 0..3, at the same coordinate. *)
Theorem checkPlacementLegality_any_rotation (boardState : BoardState) (t : Tile.t)
    (coords : Coords.t) (player : Player.t) (k : Z)
    (Hinv : tile_invariant t = true) (Hk : 0 <= k <= 3) :
  RuleChecker.checkPlacementLegality boardState (TilePlacement.mk (Tile.copy t k) coords) player
  = RuleChecker.checkPlacementLegality boardState (TilePlacement.mk t coords) player.
Proof.
  unfold RuleChecker.checkPlacementLegality. cbn [TilePlacement.tile TilePlacement.coords].
  destruct (getAvatar boardState (Player.id player)) as [av |]; [| reflexivity].
  do 2 f_equal.
  induction (Player.hand player) as [| h hand IH]; simpl; [reflexivity |].
  rewrite IH, (isEqualToRotated_copy_r h t k Hinv Hk). reflexivity.
Qed.

(** X15. Whether the whole hand is suicidal does not depend on how the
    tiles are held: if every tile of one hand satisfies the tile invariant
    and the other hand holds, tile for tile, a rotated copy of it, then
    [_doesPlayerHaveValidMove] returns false for one hand exactly when it
    returns false for the other. *)
Theorem _doesPlayerHaveValidMove_false_any_orientation (boardState : BoardState)
    (coords : Coords.t) (id : string) (hand hand' : list Tile.t)
    (Hhands : Forall2 (fun t t' => tile_invariant t = true
                                   /\ exists k, 0 <= k <= 3 /\ t' = Tile.copy t k)
                hand hand') :
  RuleChecker._doesPlayerHaveValidMove boardState coords (Player.mk id hand') = Ok false
  <-> RuleChecker._doesPlayerHaveValidMove boardState coords (Player.mk id hand) = Ok false.
Proof.
  rewrite !_doesPlayerHaveValidMove_Ok_false. cbn [Player.hand Player.id].
  unfold RuleChecker.checkPlacementValidity, rotated_placement.
  cbn [TilePlacement.tile TilePlacement.coords Player.id].
  split.
  - intros H t j Hin Hj.
    destruct (Forall2_In_l _ _ _ t Hhands Hin) as [t' [Hin' [Hinv [k [Hk ->]]]]].
    assert (Hr : 0 <= (j - k) mod 4 < 4) by (apply Z.mod_pos_bound; lia).
    specialize (H _ ((j - k) mod 4) Hin' ltac:(lia)).
    rewrite Tile_copy_copy in H by (assumption || lia).
    rewrite Z.add_mod_idemp_r in H by lia.
    replace (k + (j - k)) with j in H by lia. rewrite Z.mod_small in H by lia. exact H.
  - intros H t' j Hin' Hj.
    destruct (Forall2_In_r _ _ _ t' Hhands Hin') as [t [Hin [Hinv [k [Hk ->]]]]].
    assert (Hm : 0 <= (k + j) mod 4 < 4) by (apply Z.mod_pos_bound; lia).
    rewrite Tile_copy_copy by (assumption || lia).
    apply (H t ((k + j) mod 4) Hin). lia.
Qed.

(** X16. With an empty hand: [checkPlacementLegality] is never true, so
    [canTakeAction] returns false on every board and for every placement;
    and [checkHandValidity] returns (or throws) just what
    [checkPlacementValidity] does. *)
Theorem empty_hand (boardState : BoardState) (tilePlacement : TilePlacement.t)
    (player : Player.t) (Hhand : Player.hand player = []) :
  RuleChecker.checkPlacementLegality boardState tilePlacement player <> JSBool true
  /\ RuleChecker.canTakeAction boardState tilePlacement player = Ok false
  /\ RuleChecker.checkHandValidity boardState tilePlacement player
     = RuleChecker.checkPlacementValidity boardState tilePlacement player.
Proof.
  assert (Hlegal : truthy (RuleChecker.checkPlacementLegality boardState tilePlacement player)
                   = false).
  { unfold RuleChecker.checkPlacementLegality. rewrite Hhand.
    destruct (getAvatar boardState (Player.id player)); [| reflexivity].
    simpl. rewrite andb_false_r. reflexivity. }
  split; [| split].
  - intros Heq. rewrite Heq in Hlegal. discriminate.
  - unfold RuleChecker.canTakeAction. rewrite Hlegal. reflexivity.
  - unfold RuleChecker.checkHandValidity, RuleChecker._doesPlayerHaveValidMove.
    rewrite Hhand.
    destruct (RuleChecker.checkPlacementValidity boardState tilePlacement player)
      as [[|] | e]; reflexivity.
Qed.

(** X17. A legal placement is next to the avatar and on the board: when the
    avatar of the player stands on a cell of the grid and
    [checkPlacementLegality] returns true, the target cell is on the grid,
    at distance one from the avatar's cell, and it is not the avatar's
    cell. *)
Theorem legal_placement_is_adjacent (boardState : BoardState)
    (tilePlacement : TilePlacement.t) (player : Player.t) (avatar : Avatar.t)
    (Hav : getAvatar boardState (Player.id player) = Some avatar)
    (Hgrid : on_grid (Avatar.coords avatar))
    (Hlegal : RuleChecker.checkPlacementLegality boardState tilePlacement player
              = JSBool true) :
  on_grid (TilePlacement.coords tilePlacement)
  /\ Z.abs (Coords.x (TilePlacement.coords tilePlacement) - Coords.x (Avatar.coords avatar))
     + Z.abs (Coords.y (TilePlacement.coords tilePlacement) - Coords.y (Avatar.coords avatar))
     = 1
  /\ Coords.isEqualTo (TilePlacement.coords tilePlacement) (Avatar.coords avatar) = false.
Proof.
  apply checkPlacementLegality_true in Hlegal as [av [Hav' [_ [[Hd Hmoved] [Hc _]]]]].
  rewrite Hav in Hav'. injection Hav' as <-.
  rewrite Hc. destruct (Avatar.coords avatar) as [cx cy].
  unfold on_grid, moved_coordinate, translate, BOARD_SIZE, Coords.isEqualTo in *.
  simpl in Hgrid.
  destruct Hd as [Hd | [Hd | [Hd | Hd]]]; rewrite Hd in *; simpl in *;
    (split; [lia | split; [lia |]]);
    apply andb_false_iff; rewrite !Z.eqb_neq; lia.
Qed.

Lemma getEndingPosition_returns (t : Tile.t) (p : Position.t) :
  In p (endpoints t) -> exists q, Tile.getEndingPosition t p = Ok q.
Proof.
  intros Hin. unfold Tile.getEndingPosition.
  destruct (first (fun path => Path.getEndingPosition path p) (Tile.paths t))
    as [q | e] eqn:E; [eauto |].
  exfalso. apply first_Throw in E as [_ Hall]. rewrite Forall_forall in Hall.
  apply in_endpoints_path in Hin as [path [Hpath Hends]].
  apply list_elem_of_In, Hall, Path_getEndingPosition_None in Hpath.
  destruct Hends as [-> | ->]; tauto.
Qed.

(** X18. [canPlaceAvatar] returns a boolean, without throwing, whenever the
    tile satisfies the tile invariant and the position is one of the eight
    ports; when the position is an endpoint of no segment of the tile and
    the four conditions on the board hold, it throws [NotFound] instead of
    answering. *)
Theorem canPlaceAvatar_returns (boardState : BoardState) (playerId : string)
    (coords : Coords.t) (tile : Tile.t) (position : Position.t) :
  (tile_invariant tile = true -> In position all_ports ->
   exists b, RuleChecker.canPlaceAvatar boardState playerId coords tile position = Ok b)
  /\ (~ In position (endpoints tile) ->
      isAvatarOnOutsidePosition coords position = true ->
      getAvatar boardState playerId = None ->
      getTile boardState coords = None ->
      hasNeighboringTiles boardState coords = false ->
      RuleChecker.canPlaceAvatar boardState playerId coords tile position
      = Throw "NotFound").
Proof.
  unfold RuleChecker.canPlaceAvatar, RuleChecker.checkIsMoveOnBoard. split.
  - intros Hinv Hp.
    destruct (isAvatarOnOutsidePosition coords position
              && negb (present (getAvatar boardState playerId))
              && negb (present (getTile boardState coords))
              && negb (hasNeighboringTiles boardState coords)); [| eauto].
    destruct (tile_invariant_endpoints tile Hinv) as [Hall _].
    destruct (getEndingPosition_returns tile position (Hall position Hp)) as [q ->].
    simpl. eauto.
  - intros Hnot -> -> -> ->. simpl.
    destruct (Tile.getEndingPosition tile position) as [q | e] eqn:E; simpl.
    + exfalso. apply Hnot. unfold Tile.getEndingPosition in E.
      apply first_Ok in E as [l1 [path [l2 [Hl [Hpath _]]]]].
      apply Path_getEndingPosition_Some in Hpath.
      assert (Hin : In path (Tile.paths tile)) by (rewrite Hl; apply in_elt).
      destruct (in_paths_endpoints tile path Hin) as [Hs He].
      destruct Hpath as [[<- _] | [_ [<- _]]]; assumption.
    + unfold Tile.getEndingPosition in E. apply first_Throw in E as [-> _]. reflexivity.
Qed.

End RuleCheckerOrientation.

Lemma checkPlacementLegality_any_rotation_witness :
  RuleChecker.checkPlacementLegality Examples.corner_board
    (TilePlacement.mk (Tile.copy Examples.uturns 3) (Coords.mk 0 0)) Examples.red_choice
  = RuleChecker.checkPlacementLegality Examples.corner_board
      (TilePlacement.mk Examples.uturns (Coords.mk 0 0)) Examples.red_choice.
Proof.
  apply (checkPlacementLegality_any_rotation (board := SpecBoard_api) Examples.corner_board
           Examples.uturns (Coords.mk 0 0) Examples.red_choice 3).
  - vm_compute. reflexivity.
  - lia.
Defined.

Lemma _doesPlayerHaveValidMove_false_any_orientation_witness :
  RuleChecker._doesPlayerHaveValidMove Examples.start_board (Coords.mk 1 0)
    (Player.mk "red" [Tile.copy Examples.straight 1]) = Ok false
  <-> RuleChecker._doesPlayerHaveValidMove Examples.start_board (Coords.mk 1 0)
        (Player.mk "red" [Examples.straight]) = Ok false.
Proof.
  apply (_doesPlayerHaveValidMove_false_any_orientation (board := SpecBoard_api)
           Examples.start_board (Coords.mk 1 0) "red" [Examples.straight]
           [Tile.copy Examples.straight 1]).
  constructor; [| constructor].
  split; [vm_compute; reflexivity |]. exists 1. split; [lia | reflexivity].
Defined.

Lemma empty_hand_witness :
  RuleChecker.canTakeAction Examples.corner_board Examples.straight_at_corner
    (Player.mk "red" []) = Ok false.
Proof.
  apply (empty_hand (board := SpecBoard_api) Examples.corner_board
           Examples.straight_at_corner (Player.mk "red" [])).
  reflexivity.
Defined.

Lemma legal_placement_is_adjacent_witness :
  on_grid (TilePlacement.coords Examples.straight_at_corner)
  /\ Z.abs (Coords.x (TilePlacement.coords Examples.straight_at_corner) - 1)
     + Z.abs (Coords.y (TilePlacement.coords Examples.straight_at_corner) - 0) = 1
  /\ Coords.isEqualTo (TilePlacement.coords Examples.straight_at_corner) (Coords.mk 1 0)
     = false.
Proof.
  apply (legal_placement_is_adjacent (board := SpecBoard_api) Examples.corner_board
           Examples.straight_at_corner Examples.red_forced
           (Avatar.mk (Coords.mk 1 0) (Position.mk DIRECTIONS.WEST 0))).
  - reflexivity.
  - unfold on_grid, BOARD_SIZE. simpl. lia.
  - vm_compute. reflexivity.
Defined.

Lemma canPlaceAvatar_returns_witness :
  exists b, RuleChecker.canPlaceAvatar Examples.empty_board "red" (Coords.mk 0 0)
              Examples.uturns (Position.mk DIRECTIONS.WEST 0) = Ok b.
Proof.
  apply (proj1 (canPlaceAvatar_returns (board := SpecBoard_api) Examples.empty_board "red"
                  (Coords.mk 0 0) Examples.uturns (Position.mk DIRECTIONS.WEST 0))).
  - vm_compute. reflexivity.
  - simpl. auto 10.
Defined.

(** ** Tile.copy shares nothing with the tile it copies *)

Section StoreCopies.
Context {board : BoardAPI}.

Lemma Tile_copy_length (t : Tile.t) (j : Z) :
  length (Tile.paths (Tile.copy t j)) = length (Tile.paths t).
Proof.
  unfold Tile.copy, Tile.rotate. cbn [Tile.paths].
  destruct (0 <? j); [| apply length_map].
  destruct (0 <? Z.rem j (Z.of_nat (length DIRECTIONS_CLOCKWISE)));
    cbn [Tile.paths]; rewrite ?length_map; reflexivity.
Qed.

Lemma Tile_rotate_length (t : Tile.t) (k : Z) :
  length (Tile.paths (Tile.rotate t k)) = length (Tile.paths t).
Proof.
  unfold Tile.rotate.
  destruct (0 <? Z.rem k (Z.of_nat (length DIRECTIONS_CLOCKWISE)));
    cbn [Tile.paths]; rewrite ?length_map; reflexivity.
Qed.

(** The store after [copy(j)]: the copies of the paths, rotated, and then
    the new tile, after the objects the store had. *)
Lemma Tile_copy_exact (h : list Store.obj) (this : nat) (t : Tile.t) (j : Z) :
  Store.holds_tile h this t ->
  Store.Tile_copy this j h
  = (Ok (length h + length (Tile.paths t))%nat,
     (h ++ map Store.OPath (Tile.paths (Tile.copy t j))
        ++ [Store.OTile (seq (length h) (length (Tile.paths t)))])%list).
Proof.
  intros [paths [Hl Hpaths]].
  set (copies := map (fun path => Path.copy path) (Tile.paths t)).
  assert (Hn : length copies = length (Tile.paths t)) by apply length_map.
  unfold Store.Tile_copy.
  rewrite (bind_Ok _ _ _ _ _ (load_tile_run h this paths Hl)).
  rewrite (bind_Ok _ _ _ _ _ (mapM_Path_copy_run paths _ h Hpaths)).
  rewrite (bind_Ok _ _ _ _ _ (alloc_run _ _)).
  rewrite <- (map_map (fun path => Path.copy path) Store.OPath). fold copies.
  rewrite <- Hn. rewrite length_app, length_map, <- app_assoc.
  unfold Tile.copy. fold copies. destruct (0 <? j); [| reflexivity].
  rewrite (bind_Ok _ _ _ _ _ (Tile_rotate_at_end h copies j)). reflexivity.
Qed.

(** X19. In the store of objects, [copy(j)] returns a new tile object whose
    path objects are new too: whatever rotation [rotate(k)] is then run on
    the copy, the tile that was copied still holds the value it had, and
    the copy holds the value of [copy(j)] rotated by [k]. *)
Theorem Tile_copy_is_independent (h : list Store.obj) (this : nat) (t : Tile.t) (j : Z)
    (Ht : Store.holds_tile h this t) :
  exists tileCopy h1,
    Store.Tile_copy this j h = (Ok tileCopy, h1)
    /\ tileCopy <> this
    /\ Store.holds_tile h1 tileCopy (Tile.copy t j)
    /\ forall k,
         fst (Store.Tile_rotate tileCopy k h1) = Ok tt
         /\ Store.holds_tile (snd (Store.Tile_rotate tileCopy k h1)) this t
         /\ Store.holds_tile (snd (Store.Tile_rotate tileCopy k h1)) tileCopy
              (Tile.rotate (Tile.copy t j) k).
Proof.
  pose proof (Tile_copy_exact h this t j Ht) as Hcopy.
  pose proof (Tile_copy_length t j) as Hlen.
  eexists _, _. split; [exact Hcopy |].
  split.
  { destruct Ht as [paths [Hl _]]. apply lookup_lt_Some in Hl. lia. }
  split.
  { rewrite <- Hlen. destruct (Tile.copy t j) as [qs]. apply holds_tile_at_end. }
  intros k.
  pose proof (Tile_rotate_at_end h (Tile.paths (Tile.copy t j)) k) as Hrot.
  rewrite Hlen in Hrot. rewrite Hrot. cbn [fst snd].
  assert (Hmk : Tile.mk (Tile.paths (Tile.copy t j)) = Tile.copy t j)
    by (destruct (Tile.copy t j); reflexivity).
  rewrite Hmk.
  split; [reflexivity | split].
  - eapply holds_tile_extends; [eexists; reflexivity | exact Ht].
  - rewrite <- Hlen, <- (Tile_rotate_length (Tile.copy t j) k).
    destruct (Tile.rotate (Tile.copy t j) k) as [qs]. apply holds_tile_at_end.
Qed.

End StoreCopies.

Lemma Tile_copy_is_independent_witness :
  exists tileCopy h1,
    Store.Tile_copy 5%nat 1 Examples.corner_store = (Ok tileCopy, h1)
    /\ tileCopy <> 5%nat
    /\ Store.holds_tile h1 tileCopy (Tile.copy Examples.straight 1)
    /\ forall k,
         fst (Store.Tile_rotate tileCopy k h1) = Ok tt
         /\ Store.holds_tile (snd (Store.Tile_rotate tileCopy k h1)) 5%nat Examples.straight
         /\ Store.holds_tile (snd (Store.Tile_rotate tileCopy k h1)) tileCopy
              (Tile.rotate (Tile.copy Examples.straight 1) k).
Proof.
  apply (Tile_copy_is_independent (board := SpecBoard_api) Examples.corner_store 5%nat
           Examples.straight 1).
  exists [1; 2; 3; 4]%nat. split; [reflexivity |].
  repeat constructor.
Defined.

(** ** The cached hash and the JSON form of Coords and Position *)

(** X20. [move] on a Coords object with its hash: it returns exactly when
    [move] of the value model returns, the object then stands for the
    coordinate that model gives and its cached hash is the hash of its new
    fields; when [move] throws, it throws the same exception and the
    object, fields and hash, is as it was before the call. *)
Theorem CoordsObject_move_hash (this : CoordsObject.t) (d : jsstring) (v : Z) :
  match Coords.move (CoordsObject.value this) d v with
  | Ok c =>
      fst (CoordsObject.move this d v) = Ok tt
      /\ CoordsObject.value (snd (CoordsObject.move this d v)) = c
      /\ CoordsObject.fresh (snd (CoordsObject.move this d v))
  | Throw e => CoordsObject.move this d v = (Throw e, this)
  end.
Proof.
  destruct this as [cx cy hash].
  unfold Coords.move, CoordsObject.move, Coords._moveAlongAxis, CoordsObject._moveAlongAxis,
    CoordsObject.value, CoordsObject.fresh, CoordsObject._updateHash.
  cbn [CoordsObject.x CoordsObject.y CoordsObject._hash Coords.x Coords.y].
  destruct (v <? 0); [reflexivity |].
  destruct (0 <? v); [| repeat split].
  destruct (jsstring_eqb d DIRECTIONS.NORTH || jsstring_eqb d DIRECTIONS.SOUTH).
  - destruct (Coords._isValidCoordinate
                (cy + (if jsstring_eqb d DIRECTIONS.SOUTH then 1 else -1) * v));
      simpl; [repeat split | reflexivity].
  - destruct (jsstring_eqb d DIRECTIONS.EAST || jsstring_eqb d DIRECTIONS.WEST);
      [| reflexivity].
    destruct (Coords._isValidCoordinate
                (cx + (if jsstring_eqb d DIRECTIONS.EAST then 1 else -1) * v));
      simpl; [repeat split | reflexivity].
Qed.

Lemma digit_to_string_injective (v w : Z) :
  0 <= v < 10 -> 0 <= w < 10 -> number_to_string v = number_to_string w -> v = w.
Proof.
  intros Hv Hw.
  assert (Cv : v = 0 \/ v = 1 \/ v = 2 \/ v = 3 \/ v = 4 \/ v = 5 \/ v = 6 \/ v = 7
               \/ v = 8 \/ v = 9) by lia.
  assert (Cw : w = 0 \/ w = 1 \/ w = 2 \/ w = 3 \/ w = 4 \/ w = 5 \/ w = 6 \/ w = 7
               \/ w = 8 \/ w = 9) by lia.
  repeat (destruct Cv as [-> | Cv]); subst;
    repeat (destruct Cw as [-> | Cw]); subst;
    intros H; vm_compute in H; try discriminate H; reflexivity.
Qed.

Lemma digit_to_string_length (v : Z) :
  0 <= v < 10 -> exists c, number_to_string v = String c EmptyString.
Proof.
  intros Hv.
  assert (Cv : v = 0 \/ v = 1 \/ v = 2 \/ v = 3 \/ v = 4 \/ v = 5 \/ v = 6 \/ v = 7
               \/ v = 8 \/ v = 9) by lia.
  repeat (destruct Cv as [-> | Cv]); subst; eexists; vm_compute; reflexivity.
Qed.

(** X21. On the grid the hash identifies the cell: two Coords objects with
    up-to-date hashes that stand for cells of the 10x10 grid have the same
    hash exactly when [isEqualTo] holds of them. *)
Theorem getHash_injective_on_grid (a b : CoordsObject.t)
    (Ha : on_grid (CoordsObject.value a)) (Hb : on_grid (CoordsObject.value b))
    (Fa : CoordsObject.fresh a) (Fb : CoordsObject.fresh b) :
  CoordsObject.getHash a = CoordsObject.getHash b <-> CoordsObject.isEqualTo a b = true.
Proof.
  destruct a as [ax ay ah], b as [bx by_ bh].
  unfold on_grid, CoordsObject.value, CoordsObject.fresh, CoordsObject._updateHash,
    CoordsObject.getHash, CoordsObject.isEqualTo, BOARD_SIZE in *.
  cbn [CoordsObject.x CoordsObject.y CoordsObject._hash Coords.x Coords.y] in *.
  injection Fa as Fa. injection Fb as Fb. rewrite <- Fa, <- Fb.
  rewrite andb_true_iff, !Z.eqb_eq. split.
  - intros Hhash.
    destruct (digit_to_string_length ax) as [c1 E1]; [lia |].
    destruct (digit_to_string_length ay) as [c2 E2]; [lia |].
    destruct (digit_to_string_length bx) as [c3 E3]; [lia |].
    destruct (digit_to_string_length by_) as [c4 E4]; [lia |].
    rewrite E1, E2, E3, E4 in Hhash. simpl in Hhash. injection Hhash as Hc1 Hc2.
    split; apply digit_to_string_injective; try lia; congruence.
  - intros [-> ->]. reflexivity.
Qed.

Lemma getHash_injective_on_grid_witness :
  CoordsObject.getHash (CoordsObject.constructor 3 7)
  = CoordsObject.getHash (CoordsObject.fromJson (CoordsObject.mkJson 3 7))
  <-> CoordsObject.isEqualTo (CoordsObject.constructor 3 7)
        (CoordsObject.fromJson (CoordsObject.mkJson 3 7)) = true.
Proof.
  apply (getHash_injective_on_grid (CoordsObject.constructor 3 7)
           (CoordsObject.fromJson (CoordsObject.mkJson 3 7)));
    try reflexivity; unfold on_grid, BOARD_SIZE; simpl; lia.
Defined.

(** Off the grid the hash does not identify the cell: the digits of the two
    fields run together. *)
Example getHash_collision_off_grid :
  CoordsObject.getHash (CoordsObject.constructor 1 11)
  = CoordsObject.getHash (CoordsObject.constructor 11 1)
  /\ CoordsObject.isEqualTo (CoordsObject.constructor 1 11) (CoordsObject.constructor 11 1)
     = false.
Proof. split; vm_compute; reflexivity. Qed.

(** X22. The JSON round trip of Coords and of Position: [fromJson(toJson(o))]
    is equal to [o] by [isEqualTo] and carries an up-to-date hash; it is the
    very object [o], hash included, exactly when the hash of [o] was up to
    date. *)
Theorem json_round_trip (c : CoordsObject.t) (p : PositionObject.t) :
  (CoordsObject.isEqualTo (CoordsObject.fromJson (CoordsObject.toJson c)) c = true
   /\ CoordsObject.fresh (CoordsObject.fromJson (CoordsObject.toJson c))
   /\ (CoordsObject.fromJson (CoordsObject.toJson c) = c <-> CoordsObject.fresh c))
  /\ (PositionObject.isEqualTo (PositionObject.fromJson (PositionObject.toJson p)) p = true
      /\ PositionObject.fresh (PositionObject.fromJson (PositionObject.toJson p))
      /\ (PositionObject.fromJson (PositionObject.toJson p) = p <-> PositionObject.fresh p)).
Proof.
  split.
  - destruct c as [cx cy h].
    unfold CoordsObject.fromJson, CoordsObject.toJson, CoordsObject.constructor,
      CoordsObject.fresh, CoordsObject._updateHash, CoordsObject.isEqualTo.
    cbn [CoordsObject.x CoordsObject.y CoordsObject._hash CoordsObject.json_x
         CoordsObject.json_y].
    rewrite !Z.eqb_refl. repeat split; intros H; congruence.
  - destruct p as [d n h].
    unfold PositionObject.fromJson, PositionObject.toJson, PositionObject.constructor,
      PositionObject.fresh, PositionObject._updateHash, PositionObject.isEqualTo.
    cbn [PositionObject.direction PositionObject.port PositionObject._hash
         PositionObject.json_direction PositionObject.json_port].
    rewrite Z.eqb_refl.
    assert (Hd : jsstring_eqb d d = true) by (apply jsstring_eqb_eq; reflexivity).
    rewrite Hd. repeat split; intros H; congruence.
Qed.

(** X23. Position objects with their hash: [reflect] and [rotate] give the
    positions the value model gives and leave an up-to-date hash; and on
    the eight ports the hash identifies the port: two objects with
    up-to-date hashes that stand for ports have the same hash exactly when
    [isEqualTo] holds of them. *)
Theorem PositionObject_hash (a b : PositionObject.t) (k : Z)
    (Ha : In (PositionObject.value a) all_ports) (Hb : In (PositionObject.value b) all_ports)
    (Fa : PositionObject.fresh a) (Fb : PositionObject.fresh b) :
  (PositionObject.getHash a = PositionObject.getHash b
   <-> PositionObject.isEqualTo a b = true)
  /\ PositionObject.value (PositionObject.reflect a)
     = Position.reflect (PositionObject.value a)
  /\ PositionObject.fresh (PositionObject.reflect a)
  /\ PositionObject.value (PositionObject.rotate a k)
     = Position.rotate (PositionObject.value a) k
  /\ PositionObject.fresh (PositionObject.rotate a k).
Proof.
  split; [| repeat split].
  destruct a as [ad an ah], b as [bd bn bh].
  unfold PositionObject.value, PositionObject.fresh, PositionObject._updateHash,
    PositionObject.getHash, PositionObject.isEqualTo in *.
  cbn [PositionObject.direction PositionObject.port PositionObject._hash] in *.
  injection Fa as Fa. injection Fb as Fb. rewrite <- Fa, <- Fb.
  simpl in Ha, Hb.
  repeat (destruct Ha as [[= <- <-] | Ha]); try (destruct Ha);
    repeat (destruct Hb as [[= <- <-] | Hb]); try (destruct Hb);
    vm_compute; split; intros H; try discriminate H; reflexivity.
Qed.

Lemma PositionObject_hash_witness :
  PositionObject.getHash (PositionObject.constructor DIRECTIONS.NORTH 1)
  = PositionObject.getHash (PositionObject.constructor DIRECTIONS.EAST 1)
  <-> PositionObject.isEqualTo (PositionObject.constructor DIRECTIONS.NORTH 1)
        (PositionObject.constructor DIRECTIONS.EAST 1) = true.
Proof.
  apply (PositionObject_hash (PositionObject.constructor DIRECTIONS.NORTH 1)
           (PositionObject.constructor DIRECTIONS.EAST 1) 0);
    try reflexivity; simpl; auto 10.
Defined.

(** ** constants.js *)

Lemma assign_index_lookup (acc : gmap string Z) (letter : string) (i : Z) (c : string) :
  assign_index acc letter i !! c
  = if decide (letter = c /\ c <> "__proto__") then Some i else acc !! c.
Proof.
  unfold assign_index. destruct (String.eqb letter "__proto__") eqn:E.
  - apply String.eqb_eq in E. subst letter.
    rewrite decide_False by (intros [-> H]; congruence). reflexivity.
  - apply String.eqb_neq in E. destruct (decide (letter = c)) as [-> | Hne].
    + rewrite lookup_insert_eq. rewrite decide_True by auto. reflexivity.
    + rewrite lookup_insert_ne by exact Hne.
      rewrite decide_False by (intros [H _]; congruence). reflexivity.
Qed.

Lemma reduce_letters_lookup (letters : list string) (i0 : Z) (acc : gmap string Z)
    (c : string) (i : Z) :
  reduce_letters letters i0 acc !! c = Some i
  <-> (c <> "__proto__"
       /\ exists n : nat, i = i0 + Z.of_nat n /\ letters !! n = Some c
                          /\ forall j : nat, (n < j)%nat -> letters !! j <> Some c)
      \/ ((c = "__proto__" \/ forall j : nat, letters !! j <> Some c)
          /\ acc !! c = Some i).
Proof.
  revert i0 acc. induction letters as [| letter rest IH]; intros i0 acc.
  - simpl. split.
    + intros H. right. split; [right; intros j; rewrite lookup_nil; discriminate | exact H].
    + intros [[_ [n [_ [Hn _]]]] | [_ H]]; [rewrite lookup_nil in Hn; discriminate | exact H].
  - simpl. rewrite IH, assign_index_lookup. split.
    + intros [[Hc [n [-> [Hn Hlast]]]] | [Hnone Hacc]].
      * left. split; [exact Hc |]. exists (S n). split; [lia | split; [exact Hn |]].
        intros [| j] Hj; [lia |]. simpl. apply Hlast. lia.
      * destruct (decide (letter = c /\ c <> "__proto__")) as [[-> Hc] | Hnot].
        -- injection Hacc as <-. destruct Hnone as [Hp | Hnone]; [congruence |].
           left. split; [exact Hc |]. exists 0%nat.
           split; [lia | split; [reflexivity |]].
           intros [| j] Hj; [lia |]. simpl. apply Hnone.
        -- right. split; [| exact Hacc].
           destruct Hnone as [Hp | Hnone]; [left; exact Hp |].
           destruct (decide (c = "__proto__")) as [Hp | Hc]; [left; exact Hp |].
           right. intros [| j]; simpl; [| apply Hnone].
           intros [= ->]. apply Hnot. auto.
    + intros [[Hc [n [-> [Hn Hlast]]]] | [Hnone Hacc]].
      * destruct n as [| n].
        -- simpl in Hn. injection Hn as ->. right. split.
           ++ right. intros j. apply (Hlast (S j)). lia.
           ++ rewrite decide_True by auto. f_equal. lia.
        -- left. split; [exact Hc |]. exists n. split; [lia | split; [exact Hn |]].
           intros j Hj. apply (Hlast (S j)). lia.
      * right.
        assert (Hnot : ~ (letter = c /\ c <> "__proto__")).
        { intros [-> Hc]. destruct Hnone as [Hp | Hnone]; [congruence |].
          apply (Hnone 0%nat). reflexivity. }
        rewrite decide_False by exact Hnot. split; [| exact Hacc].
        destruct Hnone as [Hp | Hnone]; [left; exact Hp |].
        right. intros j. apply (Hnone (S j)).
Qed.

(** X24. The table [LETTERS_MAP] is the inverse of indexing into [LETTERS]:
    a string has the index [i] in the table exactly when it is the letter
    at index [i] of [LETTERS].  For any array of strings the same [reduce]
    gives each string of the array other than [__proto__] the last index at
    which it occurs, and no property to any other string. *)
Theorem LETTERS_MAP_lookup (c : string) (i : Z) :
  (LETTERS_MAP !! c = Some i <-> 0 <= i /\ LETTERS !! Z.to_nat i = Some c)
  /\ forall letters : list string,
       reduce_letters letters 0 ∅ !! c = Some i
       <-> c <> "__proto__" /\ 0 <= i /\ letters !! Z.to_nat i = Some c
           /\ forall j : nat, (Z.to_nat i < j)%nat -> letters !! j <> Some c.
Proof.
  assert (Hgen : forall letters : list string,
             reduce_letters letters 0 ∅ !! c = Some i
             <-> c <> "__proto__" /\ 0 <= i /\ letters !! Z.to_nat i = Some c
                 /\ forall j : nat, (Z.to_nat i < j)%nat -> letters !! j <> Some c).
  { intros letters. rewrite reduce_letters_lookup. split.
    - intros [[Hc [n [-> [Hn Hlast]]]] | [_ Hacc]];
        [| rewrite lookup_empty in Hacc; discriminate].
      rewrite Z.add_0_l, Nat2Z.id. split; [exact Hc | split; [lia | auto]].
    - intros [Hc [Hi [Hn Hlast]]]. left. split; [exact Hc |].
      exists (Z.to_nat i). split; [lia | auto]. }
  split; [| exact Hgen].
  unfold LETTERS_MAP. rewrite Hgen. split; [tauto |].
  intros [Hi Hn].
  assert (Hin : In c LETTERS).
  { apply list_elem_of_In. eapply list_elem_of_lookup_2. exact Hn. }
  split.
  { simpl in Hin. intros ->. repeat (destruct Hin as [Hin | Hin]; [discriminate Hin |]).
    destruct Hin. }
  split; [exact Hi | split; [exact Hn |]].
  intros j Hj Hc.
  assert (Hnd : NoDup LETTERS) by (apply (bool_decide_unpack _); vm_compute; exact I).
  pose proof (NoDup_lookup LETTERS (Z.to_nat i) j c Hnd Hn Hc). lia.
Qed.

(** An array that holds [__proto__]: the string gets no property, the
    letter around it gets its last index. *)
Example reduce_letters_proto :
  reduce_letters ["A"; "__proto__"; "A"] 0 ∅ = <["A" := 2]> ∅.
Proof. vm_compute. reflexivity. Qed.

(** ** The labyrinth server *)

Lemma includes_In (l : list nat) (v : nat) : includes l v = true <-> In v l.
Proof.
  unfold includes. rewrite existsb_exists. split.
  - intros [x [Hx Hv]]. apply Nat.eqb_eq in Hv. subst. exact Hx.
  - intros H. exists v. split; [exact H | apply Nat.eqb_refl].
Qed.

Lemma includes_false (l : list nat) (v : nat) : includes l v = false <-> ~ In v l.
Proof.
  rewrite <- includes_In. destruct (includes l v); split; congruence.
Qed.

Lemma collect_edges (node : nat) (visited : list nat) (es : list Edge.t)
    (outer : list nat) :
  let r := fold_left
             (fun outerNodes edge =>
                let connected := Labyrinth.connectedNode node edge in
                if negb (includes visited connected) && negb (includes outerNodes connected)
                then (outerNodes ++ [connected])%list
                else outerNodes) es outer in
  (forall m, In m r <-> In m outer
                        \/ (~ In m visited
                            /\ exists e, In e es /\ m = Labyrinth.connectedNode node e))
  /\ (List.NoDup outer -> List.NoDup r).
Proof.
  revert outer. induction es as [| e es IH]; intros outer; simpl.
  - split; [| auto]. intros m. split; [auto |].
    intros [H | [_ [e [[] _]]]]. exact H.
  - destruct (includes visited (Labyrinth.connectedNode node e)) eqn:Ev; simpl.
    + apply includes_In in Ev. destruct (IH outer) as [IH1 IH2]. split; [| exact IH2].
      intros m. rewrite IH1. split.
      * intros [H | [Hm [e' [He' ->]]]]; [auto |]. right. split; [exact Hm | eauto].
      * intros [H | [Hm [e' [[<- | He'] ->]]]]; [auto | contradiction |].
        right. split; [exact Hm | eauto].
    + apply includes_false in Ev.
      destruct (includes outer (Labyrinth.connectedNode node e)) eqn:Eo; simpl.
      * apply includes_In in Eo. destruct (IH outer) as [IH1 IH2]. split; [| exact IH2].
        intros m. rewrite IH1. split.
        -- intros [H | [Hm [e' [He' ->]]]]; [auto |]. right. split; [exact Hm | eauto].
        -- intros [H | [Hm [e' [[<- | He'] ->]]]]; [auto | auto |].
           right. split; [exact Hm | eauto].
      * apply includes_false in Eo.
        destruct (IH (outer ++ [Labyrinth.connectedNode node e])%list) as [IH1 IH2].
        split.
        -- intros m. rewrite IH1, in_app_iff. simpl. split.
           ++ intros [[H | [<- | []]] | [Hm [e' [He' ->]]]]; [auto | |].
              ** right. split; [exact Ev | eauto].
              ** right. split; [exact Hm | eauto].
           ++ intros [H | [Hm [e' [[<- | He'] ->]]]]; [auto | auto |].
              right. split; [exact Hm | eauto].
        -- intros Hnd. apply IH2.
           apply List.NoDup_app; [exact Hnd | repeat constructor; simpl; tauto |].
           intros x Hx [<- | []]. contradiction.
Qed.

Lemma collect_nodes (s : Labyrinth.t) (visited ns outer : list nat) :
  let r := fold_left
    (fun outerNodes node =>
       fold_left
         (fun outerNodes edge =>
            let connected := Labyrinth.connectedNode node edge in
            if negb (includes visited connected)
               && negb (includes outerNodes connected)
            then (outerNodes ++ [connected])%list
            else outerNodes)
         (Node.edges (Labyrinth.deref s node)) outerNodes)
    ns outer in
  (forall m, In m r <-> In m outer
                        \/ (~ In m visited
                            /\ exists n, In n ns /\ Labyrinth.next_to s n m))
  /\ (List.NoDup outer -> List.NoDup r).
Proof.
  revert outer. induction ns as [| n ns IH]; intros outer; simpl.
  - split; [| auto]. intros m. split; [auto |].
    intros [H | [_ [n [[] _]]]]. exact H.
  - pose proof (collect_edges n visited (Node.edges (Labyrinth.deref s n)) outer) as Hin.
    simpl in Hin. destruct Hin as [Hin1 Hin2].
    match goal with |- context [fold_left ?f ns ?acc] =>
      destruct (IH acc) as [IH1 IH2] end.
    split; [| intros Hnd; apply IH2, Hin2, Hnd].
    intros m. rewrite IH1, Hin1. unfold Labyrinth.next_to. split.
    + intros [[H | [Hm [e [He ->]]]] | [Hm [n' [Hn' Hnext]]]]; [auto | |].
      * right. split; [exact Hm |]. exists n. split; [auto |]. eauto.
      * right. split; [exact Hm |]. exists n'. split; [auto | exact Hnext].
    + intros [H | [Hm [n' [[<- | Hn'] Hnext]]]]; [auto | |].
      * left. right. split; [exact Hm | exact Hnext].
      * right. split; [exact Hm |]. exists n'. split; [exact Hn' | exact Hnext].
Qed.

Lemma collect_spec (s : Labyrinth.t) (visited : list nat) :
  (forall m, In m (Labyrinth.collect s visited)
             <-> ~ In m visited /\ exists n, In n visited /\ Labyrinth.next_to s n m)
  /\ List.NoDup (Labyrinth.collect s visited).
Proof.
  destruct (collect_nodes s visited visited []) as [H1 H2]. split.
  - intros m. unfold Labyrinth.collect. rewrite H1. simpl. tauto.
  - apply H2. constructor.
Qed.

Lemma NoDup_bounded_length (l : list nat) (n : nat) :
  List.NoDup l -> (forall x, In x l -> (x < n)%nat) -> (length l <= n)%nat.
Proof.
  intros Hnd Hb.
  assert (Hincl : incl l (seq 0 n)).
  { intros x Hx. apply in_seq. specialize (Hb x Hx). lia. }
  pose proof (List.NoDup_incl_length Hnd Hincl) as Hlen.
  rewrite List.length_seq in Hlen. exact Hlen.
Qed.

Lemma next_to_allocated (s : Labyrinth.t) (a b : nat) :
  Labyrinth.valid s -> Labyrinth.next_to s a b -> Labyrinth.allocated s b.
Proof.
  intros (_ & _ & _ & Hheap) [e [He ->]]. unfold Labyrinth.deref in He.
  destruct (Labyrinth.heap s !! a) as [n |] eqn:En; simpl in He; [| destruct He].
  rewrite List.Forall_forall in Hheap.
  assert (Hn : In n (Labyrinth.heap s)).
  { apply list_elem_of_In. eapply list_elem_of_lookup_2. exact En. }
  destruct (Hheap n Hn) as [Hedges _]. rewrite List.Forall_forall in Hedges.
  destruct (Hedges e He) as [H1 H2]. unfold Labyrinth.connectedNode.
  destruct (Nat.eqb (Edge.node1 e) a); assumption.
Qed.

Lemma path_stays_in (s : Labyrinth.t) (visited : list nat) (from to : nat) :
  (forall n m, In n visited -> Labyrinth.next_to s n m -> In m visited) ->
  In from visited -> Labyrinth.path s from to -> In to visited.
Proof.
  intros Hclosed Hfrom Hpath. induction Hpath as [| b c _ IHp Hstep]; [exact Hfrom |].
  eapply Hclosed; [exact IHp | exact Hstep].
Qed.

Lemma search_spec (s : Labyrinth.t) (from to : nat) :
  Labyrinth.valid s ->
  forall (fuel : nat) (visited outer : list nat),
    (forall n, In n (visited ++ outer) -> Labyrinth.path s from n) ->
    ~ In to visited ->
    (forall n m, In n visited -> Labyrinth.next_to s n m -> In m (visited ++ outer)) ->
    In from (visited ++ outer) ->
    List.NoDup (visited ++ outer) ->
    (forall n, In n (visited ++ outer) -> Labyrinth.allocated s n) ->
    (length (Labyrinth.heap s) < fuel + length visited)%nat ->
    exists b, Labyrinth.search s to fuel visited outer = Some b
              /\ (b = true <-> Labyrinth.path s from to).
Proof.
  intros Hvalid. induction fuel as [| fuel IH];
    intros visited outer Hreach Hto Hclosed Hfrom Hnd Halloc Hfuel.
  - exfalso. pose proof (NoDup_bounded_length _ _ Hnd Halloc) as Hlen.
    rewrite length_app in Hlen. simpl in Hfuel. lia.
  - simpl. destruct outer as [| o outer].
    + exists false. split; [reflexivity |]. split; [discriminate |].
      intros Hpath. exfalso. apply Hto. rewrite app_nil_r in *.
      eapply path_stays_in; eauto.
    + destruct (includes (o :: outer) to) eqn:Einc.
      * exists true. split; [reflexivity |]. split; [| reflexivity]. intros _.
        apply Hreach. apply in_app_iff. right. apply includes_In. exact Einc.
      * apply includes_false in Einc.
        destruct (collect_spec s (visited ++ o :: outer)) as [Hcol Hcolnd].
        apply IH.
        -- intros n Hn. apply in_app_iff in Hn. destruct Hn as [Hn | Hn]; [auto |].
           apply Hcol in Hn. destruct Hn as [_ [n' [Hn' Hstep]]].
           eapply Labyrinth.path_step; [apply Hreach, Hn' | exact Hstep].
        -- intros H. apply in_app_iff in H. tauto.
        -- intros n m Hn Hstep.
           destruct (in_dec Nat.eq_dec m (visited ++ o :: outer)) as [Hm | Hm].
           ++ apply in_app_iff. left. exact Hm.
           ++ apply in_app_iff. right. apply Hcol. split; [exact Hm | eauto].
        -- apply in_app_iff. left. exact Hfrom.
        -- apply List.NoDup_app; [exact Hnd | exact Hcolnd |].
           intros x Hx Hx'. apply Hcol in Hx'. tauto.
        -- intros n Hn. apply in_app_iff in Hn. destruct Hn as [Hn | Hn]; [auto |].
           apply Hcol in Hn. destruct Hn as [_ [n' [_ Hstep]]].
           eapply next_to_allocated; eauto.
        -- rewrite length_app. simpl. simpl in Hfuel. lia.
Qed.

(** *** Invariants of the labyrinth *)

Lemma splice_delete {A : Type} (l : list A) (index : Z) :
  exists k : nat, splice l index = delete k l.
Proof. unfold splice. eexists. symmetry. apply delete_take_drop. Qed.

Lemma In_splice {A : Type} (l : list A) (index : Z) (x : A) :
  In x (splice l index) -> In x l.
Proof.
  destruct (splice_delete l index) as [k ->]. intros H.
  apply list_elem_of_In. apply list_elem_of_In in H.
  eapply elem_of_sublist; [exact H | apply sublist_delete].
Qed.

Lemma Forall_splice {A : Type} (P : A -> Prop) (l : list A) (index : Z) :
  Forall P l -> Forall P (splice l index).
Proof.
  rewrite !List.Forall_forall. intros H x Hx. apply H. eapply In_splice; eauto.
Qed.

Lemma NoDup_map_splice {A B : Type} (g : A -> B) (l : list A) (index : Z) :
  List.NoDup (map g l) -> List.NoDup (map g (splice l index)).
Proof.
  destruct (splice_delete l index) as [k ->]. revert k.
  induction l as [| a l IH]; intros k Hnd; [destruct k; exact Hnd |].
  simpl in Hnd. apply List.NoDup_cons_iff in Hnd. destruct Hnd as [Ha Hnd].
  destruct k as [| k]; simpl; [exact Hnd |].
  apply List.NoDup_cons; [| apply IH, Hnd].
  intros Hin. apply Ha. apply in_map_iff in Hin. destruct Hin as [x [<- Hx]].
  apply in_map. apply list_elem_of_In. apply list_elem_of_In in Hx.
  eapply elem_of_sublist; [exact Hx | apply sublist_delete].
Qed.

Lemma find_ext_all {A : Type} (f g : A -> bool) (l : list A) :
  (forall x, f x = g x) -> find f l = find g l.
Proof.
  intros H. induction l as [| a l IH]; simpl; [reflexivity |].
  rewrite H, IH. reflexivity.
Qed.

Lemma existsb_find {A : Type} (f : A -> bool) (l : list A) :
  existsb f l = match find f l with Some _ => true | None => false end.
Proof.
  induction l as [| a l IH]; simpl; [reflexivity |].
  destruct (f a); simpl; [reflexivity | exact IH].
Qed.

Lemma deref_update (s : Labyrinth.t) (r : nat) (f : Node.t -> Node.t) (p : nat) :
  Labyrinth.deref (Labyrinth.update s r f) p
  = if decide (p = r /\ (r < length (Labyrinth.heap s))%nat)
    then f (Labyrinth.deref s p) else Labyrinth.deref s p.
Proof.
  unfold Labyrinth.deref, Labyrinth.update. simpl.
  rewrite list_lookup_alter. destruct (decide (r = p)) as [-> | Hne].
  - destruct (Labyrinth.heap s !! p) as [n |] eqn:E; simpl.
    + apply lookup_lt_Some in E. rewrite decide_True by auto. reflexivity.
    + apply lookup_ge_None in E. rewrite decide_False by lia. reflexivity.
  - rewrite decide_False by (intros [-> _]; congruence). reflexivity.
Qed.

Lemma id_deref_update (s : Labyrinth.t) (r : nat) (f : Node.t -> Node.t) (p : nat) :
  (forall n, Node.id (f n) = Node.id n) ->
  Node.id (Labyrinth.deref (Labyrinth.update s r f) p) = Node.id (Labyrinth.deref s p).
Proof.
  intros Hf. rewrite deref_update. destruct (decide _); [apply Hf | reflexivity].
Qed.

Lemma getNode_ext (s s' : Labyrinth.t) (id : string) :
  Labyrinth.nodes s' = Labyrinth.nodes s ->
  (forall p, Node.id (Labyrinth.deref s' p) = Node.id (Labyrinth.deref s p)) ->
  Labyrinth.getNode id s' = Labyrinth.getNode id s.
Proof.
  intros Hn Hid. unfold Labyrinth.getNode. rewrite Hn.
  rewrite (find_ext_all _ (fun node => String.eqb (Node.id (Labyrinth.deref s node)) id));
    [reflexivity |].
  intros x. rewrite Hid. reflexivity.
Qed.

Lemma ids_ext (s s' : Labyrinth.t) :
  Labyrinth.nodes s' = Labyrinth.nodes s ->
  (forall p, Node.id (Labyrinth.deref s' p) = Node.id (Labyrinth.deref s p)) ->
  Labyrinth.ids s' = Labyrinth.ids s.
Proof.
  intros Hn Hid. unfold Labyrinth.ids. rewrite Hn. apply map_ext. exact Hid.
Qed.

Lemma getNode_Ok (s : Labyrinth.t) (id : string) (node : nat) :
  Labyrinth.getNode id s = Ok node ->
  In node (Labyrinth.nodes s) /\ Node.id (Labyrinth.deref s node) = id.
Proof.
  unfold Labyrinth.getNode. intros H.
  destruct (find _ (Labyrinth.nodes s)) as [n |] eqn:E; [| discriminate].
  injection H as ->. apply find_some in E. destruct E as [Hin Heq].
  apply String.eqb_eq in Heq. auto.
Qed.

Lemma getNode_Throw (s : Labyrinth.t) (id e : string) :
  Labyrinth.getNode id s = Throw e ->
  e = "Node with the given id does not exist" /\ ~ In id (Labyrinth.ids s).
Proof.
  unfold Labyrinth.getNode. intros H.
  destruct (find _ (Labyrinth.nodes s)) as [n |] eqn:E; [discriminate |].
  injection H as <-. split; [reflexivity |].
  intros Hin. unfold Labyrinth.ids in Hin. apply in_map_iff in Hin.
  destruct Hin as [n [Hid Hn]]. pose proof (find_none _ _ E n Hn) as Hf.
  simpl in Hf. rewrite Hid, String.eqb_refl in Hf. discriminate.
Qed.

Lemma valid_update (s : Labyrinth.t) (r : nat) (f : Node.t -> Node.t) :
  Labyrinth.valid s ->
  (forall n, Forall (Labyrinth.edge_valid s) (Node.edges n) ->
             Forall (Labyrinth.edge_valid s) (Node.edges (f n))) ->
  (forall n, Forall (fun k => Labyrinth.allocated s (Token.node k)) (Node.tokens n) ->
             Forall (fun k => Labyrinth.allocated s (Token.node k)) (Node.tokens (f n))) ->
  Labyrinth.valid (Labyrinth.update s r f).
Proof.
  intros (Hn & He & Ht & Hh) Hfe Hft.
  unfold Labyrinth.valid, Labyrinth.edge_valid, Labyrinth.allocated, Labyrinth.update in *.
  simpl. rewrite length_alter. repeat split; try assumption.
  apply Forall_alter; [exact Hh |]. intros x _ [Hx1 Hx2]. split; auto.
Qed.

Lemma edges_touch_update (s : Labyrinth.t) (r : nat) (f : Node.t -> Node.t) :
  Labyrinth.edges_touch s ->
  (forall n e, In e (Node.edges (f n)) ->
               In e (Node.edges n) \/ Edge.node1 e = r \/ Edge.node2 e = r) ->
  Labyrinth.edges_touch (Labyrinth.update s r f).
Proof.
  intros Ht Hf p n e Hp He. unfold Labyrinth.update in Hp. simpl in Hp.
  rewrite list_lookup_alter in Hp. destruct (decide (r = p)) as [-> | Hne].
  - destruct (Labyrinth.heap s !! p) as [n0 |] eqn:E; simpl in Hp; [| discriminate].
    injection Hp as <-. destruct (Hf n0 e He) as [Hin | Hr]; [| exact Hr].
    eapply Ht; eauto.
  - eapply Ht; eauto.
Qed.

Lemma invariant_update (s : Labyrinth.t) (r : nat) (f : Node.t -> Node.t) :
  Labyrinth.invariant s ->
  (forall n, Node.id (f n) = Node.id n) ->
  (forall n, Forall (Labyrinth.edge_valid s) (Node.edges n) ->
             Forall (Labyrinth.edge_valid s) (Node.edges (f n))) ->
  (forall n, Forall (fun k => Labyrinth.allocated s (Token.node k)) (Node.tokens n) ->
             Forall (fun k => Labyrinth.allocated s (Token.node k)) (Node.tokens (f n))) ->
  (forall n e, In e (Node.edges (f n)) ->
               In e (Node.edges n) \/ Edge.node1 e = r \/ Edge.node2 e = r) ->
  Labyrinth.invariant (Labyrinth.update s r f).
Proof.
  intros (Hv & Hi & Hc & Ht) Hid Hfe Hft Hto. split; [| split; [| split]].
  - apply valid_update; assumption.
  - rewrite (ids_ext s); [exact Hi | reflexivity |].
    intros p. apply id_deref_update, Hid.
  - exact Hc.
  - apply edges_touch_update; assumption.
Qed.

Lemma invariant_splice_edges (s : Labyrinth.t) (r : nat) (index : Z) :
  Labyrinth.invariant s ->
  Labyrinth.invariant (Labyrinth.update s r (Node.splice_edges index)).
Proof.
  intros H. apply invariant_update; try assumption; simpl; auto.
  - intros n. apply Forall_splice.
  - intros n e He. left. eapply In_splice; eauto.
Qed.

Lemma invariant_splice_tokens (s : Labyrinth.t) (r : nat) (index : Z) :
  Labyrinth.invariant s ->
  Labyrinth.invariant (Labyrinth.update s r (Node.splice_tokens index)).
Proof.
  intros H. apply invariant_update; try assumption; simpl; auto.
  intros n. apply Forall_splice.
Qed.

Lemma invariant_push_edge (s : Labyrinth.t) (r : nat) (e : Edge.t) :
  Labyrinth.invariant s -> Labyrinth.edge_valid s e ->
  Edge.node1 e = r \/ Edge.node2 e = r ->
  Labyrinth.invariant (Labyrinth.update s r (Node.push_edge e)).
Proof.
  intros H He Hr. apply invariant_update; try assumption; simpl; auto.
  - intros n Hn. apply Forall_app. split; [exact Hn | repeat constructor; apply He].
  - intros n e' Hin. apply in_app_iff in Hin. destruct Hin as [Hin | [<- | []]]; auto.
Qed.

Lemma invariant_push_token (s : Labyrinth.t) (r : nat) (k : Token.t) :
  Labyrinth.invariant s -> Labyrinth.allocated s (Token.node k) ->
  Labyrinth.invariant (Labyrinth.update s r (Node.push_token k)).
Proof.
  intros H Hk. apply invariant_update; try assumption; simpl; auto.
  intros n Hn. apply Forall_app. split; [exact Hn | repeat constructor; exact Hk].
Qed.

Lemma getNode_allocated (s : Labyrinth.t) (id : string) (node : nat) :
  Labyrinth.valid s -> Labyrinth.getNode id s = Ok node -> Labyrinth.allocated s node.
Proof.
  intros (Hn & _) H. apply getNode_Ok in H. destruct H as [Hin _].
  rewrite List.Forall_forall in Hn. apply Hn, Hin.
Qed.

Lemma addNode_invariant (id : string) (s : Labyrinth.t) :
  Labyrinth.invariant s -> Labyrinth.invariant (snd (Labyrinth.addNode id s)).
Proof.
  intros Hinv. unfold Labyrinth.addNode.
  destruct (existsb _ (Labyrinth.nodes s)) eqn:Ex; [exact Hinv |]. simpl.
  destruct Hinv as ((Hn & He & Hk & Hh) & Hi & Hc & Ht).
  assert (Hold : forall p, In p (Labyrinth.nodes s) ->
            Labyrinth.deref
              (Labyrinth.mk (Labyrinth.heap s ++ [Node.mk id [] []])
                 (Labyrinth.next_ref s)
                 (Labyrinth.nodes s ++ [length (Labyrinth.heap s)])
                 (Labyrinth.edges s) (Labyrinth.tokens s)) p
            = Labyrinth.deref s p).
  { intros p Hp. unfold Labyrinth.deref. simpl.
    rewrite List.Forall_forall in Hn. specialize (Hn p Hp).
    unfold Labyrinth.allocated in Hn. rewrite lookup_app_l by exact Hn. reflexivity. }
  repeat split.
  - unfold Labyrinth.allocated. simpl. rewrite length_app. simpl.
    apply Forall_app. split.
    + eapply Forall_impl; [exact Hn |]. unfold Labyrinth.allocated. simpl. intros; lia.
    + repeat constructor. lia.
  - simpl. eapply Forall_impl; [exact He |].
    unfold Labyrinth.edge_valid, Labyrinth.allocated. simpl. rewrite length_app.
    simpl. intros; lia.
  - simpl. eapply Forall_impl; [exact Hk |].
    unfold Labyrinth.allocated. simpl. rewrite length_app. simpl. intros; lia.
  - simpl. apply Forall_app. split.
    + eapply Forall_impl; [exact Hh |]. simpl. intros n [H1 H2]. split.
      * eapply Forall_impl; [exact H1 |].
        unfold Labyrinth.edge_valid, Labyrinth.allocated. simpl. rewrite length_app.
        simpl. intros; lia.
      * eapply Forall_impl; [exact H2 |].
        unfold Labyrinth.allocated. simpl. rewrite length_app. simpl. intros; lia.
    + repeat constructor.
  - unfold Labyrinth.ids. simpl. rewrite map_app. simpl.
    rewrite (map_ext_in _ (fun node => Node.id (Labyrinth.deref s node))).
    2:{ intros p Hp. rewrite Hold by exact Hp. reflexivity. }
    assert (Hnew : Node.id
              (Labyrinth.deref
                 (Labyrinth.mk (Labyrinth.heap s ++ [Node.mk id [] []])
                    (Labyrinth.next_ref s)
                    (Labyrinth.nodes s ++ [length (Labyrinth.heap s)])
                    (Labyrinth.edges s) (Labyrinth.tokens s))
                 (length (Labyrinth.heap s))) = id).
    { unfold Labyrinth.deref. simpl. rewrite lookup_app_r by lia.
      rewrite Nat.sub_diag. reflexivity. }
    rewrite Hnew. apply List.NoDup_app; [exact Hi | repeat constructor; simpl; tauto |].
    intros x Hx [<- | []].
    apply in_map_iff in Hx. destruct Hx as [p [Hid Hp]].
    assert (Hex : existsb
              (fun node => String.eqb (Node.id (Labyrinth.deref s node)) id)
              (Labyrinth.nodes s) = true).
    { apply existsb_exists. exists p. split; [exact Hp |].
      rewrite Hid. apply String.eqb_refl. }
    congruence.
  - exact Hc.
  - intros r n e Hr Hin. simpl in Hr. apply lookup_snoc_Some in Hr.
    destruct Hr as [[_ Hr] | [_ <-]]; [eapply Ht; eauto | destruct Hin].
Qed.

Lemma invariant_arrays (s : Labyrinth.t) (next : nat) (edges : list Edge.t)
    (tokens : list Token.t) :
  Labyrinth.invariant s ->
  Forall (Labyrinth.edge_valid s) edges ->
  Forall (fun k => Labyrinth.allocated s (Token.node k)) tokens ->
  List.NoDup (map Token.color tokens) ->
  Labyrinth.invariant
    (Labyrinth.mk (Labyrinth.heap s) next (Labyrinth.nodes s) edges tokens).
Proof.
  intros ((Hn & He & Hk & Hh) & Hi & Hc & Ht) He' Hk' Hc'.
  split; [| split; [| split]].
  - split; [exact Hn | split; [exact He' | split; [exact Hk' | exact Hh]]].
  - exact Hi.
  - exact Hc'.
  - exact Ht.
Qed.

Lemma invariant_splice_nodes (s : Labyrinth.t) (index : Z) :
  Labyrinth.invariant s ->
  Labyrinth.invariant
    (Labyrinth.mk (Labyrinth.heap s) (Labyrinth.next_ref s)
       (splice (Labyrinth.nodes s) index) (Labyrinth.edges s) (Labyrinth.tokens s)).
Proof.
  intros ((Hn & He & Hk & Hh) & Hi & Hc & Ht).
  split; [| split; [| split]].
  - split; [| split; [exact He | split; [exact Hk | exact Hh]]].
    apply Forall_splice. exact Hn.
  - apply (NoDup_map_splice (fun node => Node.id (Labyrinth.deref s node))). exact Hi.
  - exact Hc.
  - exact Ht.
Qed.

Lemma addEdge_invariant (id1 id2 : string) (s : Labyrinth.t) :
  Labyrinth.invariant s -> Labyrinth.invariant (snd (Labyrinth.addEdge id1 id2 s)).
Proof.
  intros Hinv. unfold Labyrinth.addEdge.
  destruct (Labyrinth.getNode id1 s) as [node1 |] eqn:E1; [| exact Hinv].
  destruct (Labyrinth.getNode id2 s) as [node2 |] eqn:E2; [| exact Hinv].
  destruct (existsb _ _); [exact Hinv |]. simpl.
  pose proof (getNode_allocated s id1 node1 (proj1 Hinv) E1) as H1.
  pose proof (getNode_allocated s id2 node2 (proj1 Hinv) E2) as H2.
  apply invariant_push_edge; [apply invariant_push_edge | |]; simpl; auto.
  all: try (split; assumption).
  - apply invariant_arrays; try apply Hinv.
    apply Forall_app. split; [apply Hinv | repeat constructor; assumption].
  - unfold Labyrinth.edge_valid, Labyrinth.allocated, Labyrinth.update. simpl.
    rewrite length_alter. split; assumption.
Qed.

Lemma addToken_invariant (color nodeId : string) (s : Labyrinth.t) :
  Labyrinth.invariant s -> Labyrinth.invariant (snd (Labyrinth.addToken color nodeId s)).
Proof.
  intros Hinv. unfold Labyrinth.addToken.
  destruct (Labyrinth.getNode nodeId s) as [node |] eqn:E1; [| exact Hinv].
  destruct (existsb _ _) eqn:Ex; [exact Hinv |]. simpl.
  pose proof (getNode_allocated s nodeId node (proj1 Hinv) E1) as H1.
  apply invariant_push_token; [| exact H1].
  apply invariant_arrays; try apply Hinv.
  - apply Forall_app. split; [apply Hinv | repeat constructor; assumption].
  - rewrite map_app. simpl.
    apply List.NoDup_app; [apply Hinv | repeat constructor; simpl; tauto |].
    intros x Hx [<- | []]. apply in_map_iff in Hx. destruct Hx as [k [Hk Hin]].
    assert (Hex : existsb (fun token => String.eqb (Token.color token) color)
                    (Labyrinth.tokens s) = true).
    { apply existsb_exists. exists k. split; [exact Hin |].
      rewrite Hk. apply String.eqb_refl. }
    congruence.
Qed.

Lemma removeEdge_invariant (id1 id2 : string) (s : Labyrinth.t) :
  Labyrinth.invariant s -> Labyrinth.invariant (snd (Labyrinth.removeEdge id1 id2 s)).
Proof.
  intros Hinv. unfold Labyrinth.removeEdge.
  destruct (Labyrinth.getEdge id1 id2 s) as [edge |]; [| exact Hinv]. simpl.
  apply invariant_splice_edges, invariant_splice_edges.
  apply invariant_arrays; try apply Hinv. apply Forall_splice, Hinv.
Qed.

Lemma removeToken_invariant (tokenColor : string) (s : Labyrinth.t) :
  Labyrinth.invariant s -> Labyrinth.invariant (snd (Labyrinth.removeToken tokenColor s)).
Proof.
  intros Hinv. unfold Labyrinth.removeToken.
  destruct (Labyrinth.getToken tokenColor s) as [token |]; [| exact Hinv]. simpl.
  apply invariant_splice_tokens.
  apply invariant_arrays; try apply Hinv.
  - apply Forall_splice, Hinv.
  - apply NoDup_map_splice, Hinv.
Qed.

Lemma and_then_keeps {A B : Type} (P : Labyrinth.t -> Prop) (m : Labyrinth.M A)
    (f : A -> Labyrinth.M B) (s : Labyrinth.t) :
  P (snd (m s)) -> (forall a s', P s' -> P (snd (f a s'))) ->
  P (snd (Labyrinth.and_then m f s)).
Proof.
  intros Hm Hf. unfold Labyrinth.and_then.
  destruct (m s) as [[a | e] s']; simpl in *; [apply Hf, Hm | exact Hm].
Qed.

Lemma forEach_keeps {A : Type} (P : Labyrinth.t -> Prop) (f : A -> Labyrinth.M unit)
    (l : list A) :
  (forall a s, P s -> P (snd (f a s))) ->
  forall s, P s -> P (snd (Labyrinth.forEach f l s)).
Proof.
  intros Hf. induction l as [| a l IH]; intros s Hs; simpl; [exact Hs |].
  apply and_then_keeps; [apply Hf, Hs | intros _ s'; apply IH].
Qed.

Lemma removeNode_invariant (id : string) (s : Labyrinth.t) :
  Labyrinth.invariant s -> Labyrinth.invariant (snd (Labyrinth.removeNode id s)).
Proof.
  intros Hinv. unfold Labyrinth.removeNode.
  destruct (Labyrinth.getNode id s) as [node |]; [| exact Hinv].
  apply and_then_keeps.
  - apply forEach_keeps; [| exact Hinv]. intros e s' Hs'. apply removeEdge_invariant, Hs'.
  - intros _ s1 Hs1. apply and_then_keeps.
    + apply forEach_keeps; [| exact Hs1]. intros k s' Hs'.
      apply removeToken_invariant, Hs'.
    + intros _ s2 Hs2. simpl. apply invariant_splice_nodes, Hs2.
Qed.

Lemma run_invariant (c : Labyrinth.call) (s : Labyrinth.t) :
  Labyrinth.invariant s -> Labyrinth.invariant (snd (Labyrinth.run c s)).
Proof.
  destruct c; simpl.
  - apply addNode_invariant.
  - apply addEdge_invariant.
  - apply addToken_invariant.
  - apply removeNode_invariant.
  - apply removeEdge_invariant.
  - apply removeToken_invariant.
Qed.

Lemma constructor_invariant : Labyrinth.invariant Labyrinth.constructor.
Proof.
  split; [| split; [| split]].
  - repeat split; constructor.
  - constructor.
  - constructor.
  - intros r n e Hr. simpl in Hr. rewrite lookup_nil in Hr. discriminate.
Qed.

Lemma fold_run_invariant (calls : list Labyrinth.call) (s : Labyrinth.t) :
  Labyrinth.invariant s ->
  Labyrinth.invariant (fold_left (fun s c => snd (Labyrinth.run c s)) calls s).
Proof.
  revert s. induction calls as [| c calls IH]; intros s Hs; simpl; [exact Hs |].
  apply IH, run_invariant, Hs.
Qed.

(** X26. Whatever sequence of [addNode], [addEdge], [addToken], [removeNode],
    [removeEdge] and [removeToken] calls is made on a new labyrinth, returning
    or throwing, the ids of its nodes stay pairwise different, the colors of
    its tokens stay pairwise different, and every edge in the array of a node
    has that node at one of its ends. *)
Theorem labyrinth_invariant (calls : list Labyrinth.call) :
  let s := Labyrinth.after calls in
  List.NoDup (Labyrinth.ids s)
  /\ List.NoDup (Labyrinth.colors s)
  /\ (forall node e, In node (Labyrinth.nodes s) ->
                     In e (Node.edges (Labyrinth.deref s node)) ->
                     Edge.node1 e = node \/ Edge.node2 e = node)
  /\ Labyrinth.valid s.
Proof.
  pose proof (fold_run_invariant calls _ constructor_invariant) as (Hv & Hi & Hc & Ht).
  fold (Labyrinth.after calls) in Hv, Hi, Hc, Ht. simpl.
  split; [exact Hi | split; [exact Hc | split; [| exact Hv]]].
  intros node e _ He. unfold Labyrinth.deref in He.
  destruct (Labyrinth.heap (Labyrinth.after calls) !! node) as [n |] eqn:E;
    simpl in He; [| destruct He].
  eapply Ht; eauto.
Qed.

Lemma getToken_Ok (s : Labyrinth.t) (color : string) (token : Token.t) :
  Labyrinth.getToken color s = Ok token ->
  In token (Labyrinth.tokens s) /\ Token.color token = color.
Proof.
  unfold Labyrinth.getToken. intros H.
  destruct (find _ (Labyrinth.tokens s)) as [k |] eqn:E; [| discriminate].
  injection H as ->. apply find_some in E. destruct E as [Hin Heq].
  apply String.eqb_eq in Heq. auto.
Qed.

Lemma getToken_Throw (s : Labyrinth.t) (color e : string) :
  Labyrinth.getToken color s = Throw e ->
  e = "Token with the given color does not exist" /\ ~ In color (Labyrinth.colors s).
Proof.
  unfold Labyrinth.getToken. intros H.
  destruct (find _ (Labyrinth.tokens s)) as [k |] eqn:E; [discriminate |].
  injection H as <-. split; [reflexivity |].
  intros Hin. unfold Labyrinth.colors in Hin. apply in_map_iff in Hin.
  destruct Hin as [k [Hc Hk]]. pose proof (find_none _ _ E k Hk) as Hf.
  simpl in Hf. rewrite Hc, String.eqb_refl in Hf. discriminate.
Qed.

Lemma getNode_returns_iff (s : Labyrinth.t) (id : string) :
  In id (Labyrinth.ids s) <-> exists node, Labyrinth.getNode id s = Ok node.
Proof.
  split.
  - intros Hin. destruct (Labyrinth.getNode id s) as [node | e] eqn:E; [eauto |].
    apply getNode_Throw in E. tauto.
  - intros [node H]. apply getNode_Ok in H. destruct H as [Hin <-].
    unfold Labyrinth.ids. apply in_map_iff. eauto.
Qed.

Lemma getToken_returns_iff (s : Labyrinth.t) (color : string) :
  In color (Labyrinth.colors s) <-> exists token, Labyrinth.getToken color s = Ok token.
Proof.
  split.
  - intros Hin. destruct (Labyrinth.getToken color s) as [token | e] eqn:E; [eauto |].
    apply getToken_Throw in E. tauto.
  - intros [token H]. apply getToken_Ok in H. destruct H as [Hin <-].
    unfold Labyrinth.colors. apply in_map. exact Hin.
Qed.

(** X25. [isTherePathFromTokenToNode] on a labyrinth whose references are in
    use: it throws when no token has the color, and otherwise when no node
    has the id; in every other case the loop ends, within one round more than
    there are node objects, and returns [true] exactly when the node is
    reached from the node of the token by steps along the edges in the arrays
    of the nodes. *)
Theorem isTherePathFromTokenToNode_correct (s : Labyrinth.t) (fuel : nat)
    (tokenColor nodeId : string) :
  Labyrinth.valid s ->
  (length (Labyrinth.heap s) < fuel)%nat ->
  let r := Labyrinth.isTherePathFromTokenToNode fuel tokenColor nodeId s in
  (~ In tokenColor (Labyrinth.colors s) ->
   r = Some (Throw "Token with the given color does not exist"))
  /\ (In tokenColor (Labyrinth.colors s) -> ~ In nodeId (Labyrinth.ids s) ->
      r = Some (Throw "Node with the given id does not exist"))
  /\ (In tokenColor (Labyrinth.colors s) -> In nodeId (Labyrinth.ids s) ->
      exists token to b,
        Labyrinth.getToken tokenColor s = Ok token
        /\ Labyrinth.getNode nodeId s = Ok to
        /\ r = Some (Ok b)
        /\ (b = true <-> Labyrinth.path s (Token.node token) to)).
Proof.
  intros Hvalid Hfuel r. subst r. unfold Labyrinth.isTherePathFromTokenToNode.
  split; [| split].
  - intros Hc. destruct (Labyrinth.getToken tokenColor s) as [token | e] eqn:E.
    + exfalso. apply Hc. apply getToken_returns_iff. eauto.
    + apply getToken_Throw in E. destruct E as [-> _]. reflexivity.
  - intros Hc Hn. apply getToken_returns_iff in Hc. destruct Hc as [token ->].
    destruct (Labyrinth.getNode nodeId s) as [to | e] eqn:E.
    + exfalso. apply Hn. apply getNode_returns_iff. eauto.
    + apply getNode_Throw in E. destruct E as [-> _]. reflexivity.
  - intros Hc Hn. apply getToken_returns_iff in Hc. destruct Hc as [token Ht].
    apply getNode_returns_iff in Hn. destruct Hn as [to Hto]. rewrite Ht, Hto.
    assert (Halloc : Labyrinth.allocated s (Token.node token)).
    { destruct Hvalid as (_ & _ & Hk & _). rewrite List.Forall_forall in Hk.
      apply Hk. apply getToken_Ok in Ht. tauto. }
    destruct (search_spec s (Token.node token) to Hvalid fuel [] [Token.node token])
      as [b [Hb Hiff]].
    + intros n [<- | []]. constructor.
    + intros [].
    + intros n m [].
    + left. reflexivity.
    + repeat constructor. simpl. tauto.
    + intros n [<- | []]. exact Halloc.
    + simpl. lia.
    + exists token, to, b. rewrite Hb. auto.
Qed.

Lemma isTherePathFromTokenToNode_correct_witness :
  let s := Labyrinth.after
             [Labyrinth.AddNode "a"; Labyrinth.AddNode "b"; Labyrinth.AddNode "c";
              Labyrinth.AddEdge "a" "b"; Labyrinth.AddToken "red" "a"] in
  Labyrinth.valid s
  /\ (length (Labyrinth.heap s) < 4)%nat
  /\ exists token to b,
       Labyrinth.getToken "red" s = Ok token
       /\ Labyrinth.getNode "c" s = Ok to
       /\ Labyrinth.isTherePathFromTokenToNode 4 "red" "c" s = Some (Ok b)
       /\ (b = true <-> Labyrinth.path s (Token.node token) to).
Proof.
  intros s.
  assert (Hvalid : Labyrinth.valid s).
  { unfold Labyrinth.valid, Labyrinth.edge_valid, Labyrinth.allocated. simpl.
    repeat split; repeat constructor. }
  assert (Hfuel : (length (Labyrinth.heap s) < 4)%nat) by (simpl; lia).
  split; [exact Hvalid | split; [exact Hfuel |]].
  apply (proj2 (proj2 (isTherePathFromTokenToNode_correct s 4 "red" "c" Hvalid Hfuel)));
    simpl; auto.
Defined.

Lemma find_app {A : Type} (f : A -> bool) (l1 l2 : list A) :
  find f (l1 ++ l2) = match find f l1 with Some x => Some x | None => find f l2 end.
Proof.
  induction l1 as [| a l1 IH]; simpl; [reflexivity |].
  destruct (f a); [reflexivity | exact IH].
Qed.

Lemma find_ext_in {A : Type} (f g : A -> bool) (l : list A) :
  (forall x, In x l -> f x = g x) -> find f l = find g l.
Proof.
  intros H. induction l as [| a l IH]; simpl; [reflexivity |].
  rewrite (H a) by (left; reflexivity). rewrite IH; [reflexivity |].
  intros x Hx. apply H. right. exact Hx.
Qed.

(** X27. [addNode] and [getNode]: adding a node throws, and changes nothing,
    exactly when a node of the labyrinth has the id already; otherwise
    [getNode] of the id returns the new node afterwards, which has no tokens
    and no edges, [getNode] of every other id answers as before, and the
    edges and tokens of the labyrinth are the same. *)
Theorem addNode_getNode (id : string) (s : Labyrinth.t) :
  Labyrinth.valid s ->
  (In id (Labyrinth.ids s) ->
   Labyrinth.addNode id s = (Throw "Node with given id already exists", s))
  /\ (~ In id (Labyrinth.ids s) ->
      exists s' node,
        Labyrinth.addNode id s = (Ok tt, s')
        /\ Labyrinth.getNode id s' = Ok node
        /\ Labyrinth.deref s' node = Node.mk id [] []
        /\ ~ In node (Labyrinth.nodes s)
        /\ (forall id', id' <> id -> Labyrinth.getNode id' s' = Labyrinth.getNode id' s)
        /\ Labyrinth.edges s' = Labyrinth.edges s
        /\ Labyrinth.tokens s' = Labyrinth.tokens s).
Proof.
  intros (Hn & _). rewrite List.Forall_forall in Hn. unfold Labyrinth.addNode.
  assert (Hex : existsb (fun node => String.eqb (Node.id (Labyrinth.deref s node)) id)
                  (Labyrinth.nodes s) = true <-> In id (Labyrinth.ids s)).
  { rewrite existsb_exists. unfold Labyrinth.ids. rewrite in_map_iff. split.
    - intros [p [Hp Heq]]. apply String.eqb_eq in Heq. eauto.
    - intros [p [Heq Hp]]. exists p. split; [exact Hp |]. rewrite Heq.
      apply String.eqb_refl. }
  split.
  - intros Hin. apply Hex in Hin. rewrite Hin. reflexivity.
  - intros Hnot. destruct (existsb _ (Labyrinth.nodes s)) eqn:E; [exfalso; tauto |].
    eexists. exists (length (Labyrinth.heap s)). split; [reflexivity |].
    set (s' := Labyrinth.mk _ _ _ _ _).
    assert (Hold : forall p, In p (Labyrinth.nodes s) ->
                             Labyrinth.deref s' p = Labyrinth.deref s p).
    { intros p Hp. unfold Labyrinth.deref. simpl. specialize (Hn p Hp).
      unfold Labyrinth.allocated in Hn. rewrite lookup_app_l by exact Hn. reflexivity. }
    assert (Hnew : Labyrinth.deref s' (length (Labyrinth.heap s)) = Node.mk id [] []).
    { unfold Labyrinth.deref. simpl. rewrite lookup_app_r by lia.
      rewrite Nat.sub_diag. reflexivity. }
    assert (Hfind : forall id',
               find (fun node => String.eqb (Node.id (Labyrinth.deref s' node)) id')
                 (Labyrinth.nodes s)
               = find (fun node => String.eqb (Node.id (Labyrinth.deref s node)) id')
                   (Labyrinth.nodes s)).
    { intros id'. apply find_ext_in. intros p Hp. rewrite Hold by exact Hp. reflexivity. }
    split; [| split; [exact Hnew | split; [| split; [| split; reflexivity]]]].
    + unfold Labyrinth.getNode. simpl. rewrite find_app, Hfind.
      rewrite existsb_find in E.
      destruct (find _ (Labyrinth.nodes s)); [discriminate |]. simpl.
      rewrite Hnew. simpl. rewrite String.eqb_refl. reflexivity.
    + intros Hin. specialize (Hn _ Hin). unfold Labyrinth.allocated in Hn. lia.
    + intros id' Hne. unfold Labyrinth.getNode. simpl. rewrite find_app, Hfind.
      destruct (find _ (Labyrinth.nodes s)); [reflexivity |]. simpl.
      rewrite Hnew. simpl. apply String.eqb_neq in Hne.
      rewrite String.eqb_sym, Hne. reflexivity.
Qed.

Lemma addNode_getNode_witness :
  let s := Labyrinth.after [Labyrinth.AddNode "a"; Labyrinth.AddNode "b"] in
  Labyrinth.valid s
  /\ Labyrinth.addNode "a" s = (Throw "Node with given id already exists", s).
Proof.
  intros s.
  assert (Hvalid : Labyrinth.valid s).
  { unfold Labyrinth.valid, Labyrinth.edge_valid, Labyrinth.allocated. simpl.
    repeat split; repeat constructor. }
  split; [exact Hvalid |].
  apply (proj1 (addNode_getNode "a" s Hvalid)). simpl. auto.
Defined.

Lemma getEdge_unfold (id1 id2 : string) (s : Labyrinth.t) :
  Labyrinth.getEdge id1 id2 s
  = match Labyrinth.getNode id1 s with
    | Throw e => Throw e
    | Ok node1 =>
        match Labyrinth.getNode id2 s with
        | Throw e => Throw e
        | Ok node2 =>
            match find (Labyrinth.touches node2) (Node.edges (Labyrinth.deref s node1)) with
            | Some edge => Ok edge
            | None => Throw "Edge connecting the given nodes does not exist"
            end
        end
    end.
Proof.
  unfold Labyrinth.getEdge, bind.
  destruct (Labyrinth.getNode id1 s); [| reflexivity].
  destruct (Labyrinth.getNode id2 s); reflexivity.
Qed.

Lemma In_edges_push (s : Labyrinth.t) (r : nat) (e e' : Edge.t) (p : nat) :
  In e' (Node.edges (Labyrinth.deref s p)) ->
  In e' (Node.edges (Labyrinth.deref (Labyrinth.update s r (Node.push_edge e)) p)).
Proof.
  intros H. rewrite deref_update. destruct (decide _); [| exact H].
  simpl. apply in_app_iff. left. exact H.
Qed.

Lemma next_to_push (s : Labyrinth.t) (r : nat) (e : Edge.t) (a b : nat) :
  Labyrinth.next_to s a b ->
  Labyrinth.next_to (Labyrinth.update s r (Node.push_edge e)) a b.
Proof.
  intros [e' [He' ->]]. exists e'. split; [apply In_edges_push, He' | reflexivity].
Qed.

(** X28. [addEdge] against [getEdge]: adding an edge throws, and changes
    nothing, when [getEdge] of the two ids returns an edge or throws for a
    missing node; when [getEdge] throws for a missing edge the edge is added,
    [getEdge] of the two ids returns it afterwards, and the search steps
    between the two nodes in both directions and along every step it had.
    A loop at a node is refused as soon as the node has any edge, since
    [getEdge] of the id with itself then returns that edge. *)
Theorem addEdge_getEdge (id1 id2 : string) (s : Labyrinth.t) :
  Labyrinth.invariant s ->
  (forall e, Labyrinth.getEdge id1 id2 s = Ok e ->
             Labyrinth.addEdge id1 id2 s
             = (Throw "Edge connecting the two nodes already exists", s))
  /\ (Labyrinth.getEdge id1 id2 s = Throw "Node with the given id does not exist" ->
      Labyrinth.addEdge id1 id2 s = (Throw "Node with the given id does not exist", s))
  /\ (Labyrinth.getEdge id1 id2 s = Throw "Edge connecting the given nodes does not exist" ->
      exists s' node1 node2,
        Labyrinth.getNode id1 s = Ok node1
        /\ Labyrinth.getNode id2 s = Ok node2
        /\ Labyrinth.addEdge id1 id2 s = (Ok tt, s')
        /\ Labyrinth.getEdge id1 id2 s' = Ok (Edge.mk (Labyrinth.next_ref s) node1 node2)
        /\ Labyrinth.edges s'
           = (Labyrinth.edges s ++ [Edge.mk (Labyrinth.next_ref s) node1 node2])%list
        /\ Labyrinth.next_to s' node1 node2
        /\ Labyrinth.next_to s' node2 node1
        /\ (forall a b, Labyrinth.next_to s a b -> Labyrinth.next_to s' a b))
  /\ (forall node, id1 = id2 -> Labyrinth.getNode id1 s = Ok node ->
                   Node.edges (Labyrinth.deref s node) <> [] ->
                   exists e, Labyrinth.getEdge id1 id2 s = Ok e).
Proof.
  intros (Hvalid & _ & _ & Htouch). rewrite getEdge_unfold. unfold Labyrinth.addEdge.
  split; [| split; [| split]].
  - intros e H.
    destruct (Labyrinth.getNode id1 s) as [node1 |]; [| discriminate].
    destruct (Labyrinth.getNode id2 s) as [node2 |]; [| discriminate].
    rewrite existsb_find. destruct (find _ _); [reflexivity | discriminate].
  - intros H.
    destruct (Labyrinth.getNode id1 s) as [node1 | e1]; [| congruence].
    destruct (Labyrinth.getNode id2 s) as [node2 | e2]; [| congruence].
    destruct (find _ _); discriminate.
  - intros H.
    destruct (Labyrinth.getNode id1 s) as [node1 | e1] eqn:E1.
    2:{ apply getNode_Throw in E1. destruct E1 as [-> _]. discriminate. }
    destruct (Labyrinth.getNode id2 s) as [node2 | e2] eqn:E2.
    2:{ apply getNode_Throw in E2. destruct E2 as [-> _]. discriminate. }
    rewrite existsb_find.
    destruct (find _ (Node.edges (Labyrinth.deref s node1))) eqn:Ef; [discriminate |].
    pose proof (getNode_allocated s id1 node1 Hvalid E1) as H1.
    pose proof (getNode_allocated s id2 node2 Hvalid E2) as H2.
    unfold Labyrinth.allocated in H1, H2.
    set (edge := Edge.mk (Labyrinth.next_ref s) node1 node2).
    set (s1 := Labyrinth.mk (Labyrinth.heap s) (S (Labyrinth.next_ref s))
                 (Labyrinth.nodes s) (Labyrinth.edges s ++ [edge]) (Labyrinth.tokens s)).
    set (s2 := Labyrinth.update s1 node1 (Node.push_edge edge)).
    set (s3 := Labyrinth.update s2 node2 (Node.push_edge edge)).
    assert (Hget : forall id, Labyrinth.getNode id s3 = Labyrinth.getNode id s).
    { intros id. unfold s3, s2.
      rewrite (getNode_ext (Labyrinth.update s1 node1 (Node.push_edge edge)));
        [| reflexivity | intros p; apply id_deref_update; reflexivity].
      rewrite (getNode_ext s1); [| reflexivity | intros p; apply id_deref_update; reflexivity].
      reflexivity. }
    assert (He1 : Node.edges (Labyrinth.deref s2 node1)
                  = (Node.edges (Labyrinth.deref s node1) ++ [edge])%list).
    { unfold s2. rewrite deref_update. rewrite decide_True by (split; [reflexivity | exact H1]).
      reflexivity. }
    assert (Hlen2 : length (Labyrinth.heap s2) = length (Labyrinth.heap s)).
    { unfold s2, Labyrinth.update. simpl. apply length_alter. }
    exists s3, node1, node2.
    split; [reflexivity | split; [reflexivity | split; [reflexivity |]]].
    split; [| split; [reflexivity | split; [| split]]].
    + rewrite getEdge_unfold, !Hget, E1, E2.
      assert (Hfind : find (Labyrinth.touches node2) (Node.edges (Labyrinth.deref s3 node1))
                      = Some edge).
      { assert (Ht : Labyrinth.touches node2 edge = true).
        { unfold Labyrinth.touches, edge. simpl. rewrite (Nat.eqb_refl node2).
          apply orb_true_r. }
        unfold s3. rewrite deref_update. destruct (decide _).
        - simpl. rewrite He1, !find_app, Ef. simpl. rewrite Ht. reflexivity.
        - rewrite He1, find_app, Ef. simpl. rewrite Ht. reflexivity. }
      rewrite Hfind. reflexivity.
    + exists edge. split.
      * unfold s3. apply In_edges_push. rewrite He1. apply in_app_iff. right. left.
        reflexivity.
      * unfold Labyrinth.connectedNode, edge. simpl. rewrite Nat.eqb_refl. reflexivity.
    + exists edge. split.
      * unfold s3. rewrite deref_update.
        rewrite decide_True by (split; [reflexivity | rewrite Hlen2; exact H2]).
        simpl. apply in_app_iff. right. left. reflexivity.
      * unfold Labyrinth.connectedNode, edge. simpl.
        destruct (Nat.eqb node1 node2) eqn:En; [| reflexivity].
        apply Nat.eqb_eq in En. exact En.
    + intros a b Hab. unfold s3, s2. apply next_to_push, next_to_push. exact Hab.
  - intros node -> E Hne. rewrite E.
    destruct (Node.edges (Labyrinth.deref s node)) as [| e0 es] eqn:Ees; [congruence |].
    assert (Ht : Labyrinth.touches node e0 = true).
    { unfold Labyrinth.deref in Ees.
      destruct (Labyrinth.heap s !! node) as [n |] eqn:En; simpl in Ees; [| discriminate].
      assert (Hin : In e0 (Node.edges n)) by (rewrite Ees; left; reflexivity).
      destruct (Htouch node n e0 En Hin) as [H | H]; unfold Labyrinth.touches;
        rewrite H, Nat.eqb_refl; [reflexivity | apply orb_true_r]. }
    simpl. rewrite Ht. eauto.
Qed.

Lemma addEdge_getEdge_witness :
  let s := Labyrinth.after
             [Labyrinth.AddNode "a"; Labyrinth.AddNode "b"; Labyrinth.AddEdge "a" "b"] in
  Labyrinth.invariant s
  /\ Labyrinth.addEdge "b" "b" s
     = (Throw "Edge connecting the two nodes already exists", s).
Proof.
  intros s.
  assert (Hinv : Labyrinth.invariant s).
  { apply (fold_run_invariant _ _ constructor_invariant). }
  split; [exact Hinv |].
  apply (proj1 (addEdge_getEdge "b" "b" s Hinv) (Edge.mk 0 0 1)). reflexivity.
Defined.

(** *** Removing edges and tokens *)

Lemma splice_nonneg {A : Type} (l : list A) (index : Z) :
  0 <= index -> splice l index = delete (Z.to_nat index) l.
Proof.
  intros Hi. unfold splice. rewrite (proj2 (Z.ltb_ge index 0) Hi).
  rewrite delete_take_drop.
  destruct (Z.le_gt_cases index (Z.of_nat (length l))) as [Hle | Hgt].
  - rewrite Z.min_l by exact Hle. reflexivity.
  - rewrite Z.min_r by lia. rewrite Nat2Z.id.
    rewrite !take_ge by lia. rewrite !drop_ge by lia. reflexivity.
Qed.

Lemma splice_nil {A : Type} (index : Z) : splice (@nil A) index = [].
Proof. unfold splice. rewrite take_nil, drop_nil. reflexivity. Qed.

Lemma index_of_found {A B : Type} (same : A -> A -> bool) (key : A -> B)
    (l : list A) (v : A) :
  (forall a b, same a b = true <-> key a = key b) ->
  In v l -> List.NoDup (map key l) ->
  exists j : nat, index_of same l v = Z.of_nat j /\ l !! j = Some v.
Proof.
  intros Hsame. induction l as [| a l IH]; intros Hin Hnd; [destruct Hin |].
  simpl in Hnd. apply List.NoDup_cons_iff in Hnd. destruct Hnd as [Ha Hnd]. simpl.
  destruct (same a v) eqn:Es.
  - exists 0%nat. split; [reflexivity |]. simpl. f_equal.
    destruct Hin as [-> | Hin]; [reflexivity |].
    exfalso. apply Ha. apply Hsame in Es. rewrite Es. apply in_map, Hin.
  - destruct Hin as [-> | Hin].
    + assert (same v v = true) by (apply Hsame; reflexivity). congruence.
    + destruct (IH Hin Hnd) as [j [Hj Hl]]. exists (S j). rewrite Hj.
      destruct (Z.of_nat j <? 0) eqn:E; [apply Z.ltb_lt in E; lia |].
      split; [lia | exact Hl].
Qed.

Lemma NoDup_delete_notin {A B : Type} (g : A -> B) (l : list A) (j : nat) (v : A) :
  List.NoDup (map g l) -> l !! j = Some v -> ~ In (g v) (map g (delete j l)).
Proof.
  revert j. induction l as [| a l IH]; intros j Hnd Hj; [destruct j; discriminate |].
  simpl in Hnd. apply List.NoDup_cons_iff in Hnd. destruct Hnd as [Ha Hnd].
  destruct j as [| j]; simpl in *.
  - injection Hj as ->. exact Ha.
  - intros [Heq | Hin].
    + apply Ha. rewrite Heq. apply in_map. apply list_elem_of_In.
      eapply list_elem_of_lookup_2. exact Hj.
    + exact (IH j Hnd Hj Hin).
Qed.

Lemma In_delete_other {A : Type} (l : list A) (j k : nat) (v : A) :
  l !! j = Some v -> k <> j -> In v (delete k l).
Proof.
  intros Hj Hne. apply list_elem_of_In.
  destruct (lt_dec j k) as [Hlt | Hge].
  - apply (list_elem_of_lookup_2 _ j). rewrite list_lookup_delete_lt by exact Hlt. exact Hj.
  - apply (list_elem_of_lookup_2 _ (j - 1)). rewrite list_lookup_delete_ge by lia.
    replace (S (j - 1)) with j by lia. exact Hj.
Qed.

Lemma In_delete_iff {A B : Type} (g : A -> B) (l : list A) (j k : nat) (v : A) :
  List.NoDup (map g l) -> l !! j = Some v -> In v (delete k l) <-> k <> j.
Proof.
  intros Hnd Hj. split.
  - intros Hin ->. apply (NoDup_delete_notin g l j v Hnd Hj). apply in_map. exact Hin.
  - apply In_delete_other. exact Hj.
Qed.

Lemma Edge_same_iff (a b : Edge.t) : Edge.same a b = true <-> Edge.ref a = Edge.ref b.
Proof. unfold Edge.same. apply Nat.eqb_eq. Qed.

Lemma Token_same_iff (a b : Token.t) : Token.same a b = true <-> Token.ref a = Token.ref b.
Proof. unfold Token.same. apply Nat.eqb_eq. Qed.

Lemma edges_deref_splice (s : Labyrinth.t) (r : nat) (index : Z) (p : nat) :
  Node.edges (Labyrinth.deref (Labyrinth.update s r (Node.splice_edges index)) p)
  = if decide (p = r) then splice (Node.edges (Labyrinth.deref s p)) index
    else Node.edges (Labyrinth.deref s p).
Proof.
  rewrite deref_update. destruct (decide (p = r)) as [-> | Hne].
  - destruct (decide _) as [_ | Hn]; [reflexivity |].
    unfold Labyrinth.deref. rewrite lookup_ge_None_2 by lia. simpl.
    symmetry. apply splice_nil.
  - rewrite decide_False by tauto. reflexivity.
Qed.

Lemma tokens_deref_splice (s : Labyrinth.t) (r : nat) (index : Z) (p : nat) :
  Node.tokens (Labyrinth.deref (Labyrinth.update s r (Node.splice_tokens index)) p)
  = if decide (p = r) then splice (Node.tokens (Labyrinth.deref s p)) index
    else Node.tokens (Labyrinth.deref s p).
Proof.
  rewrite deref_update. destruct (decide (p = r)) as [-> | Hne].
  - destruct (decide _) as [_ | Hn]; [reflexivity |].
    unfold Labyrinth.deref. rewrite lookup_ge_None_2 by lia. simpl.
    symmetry. apply splice_nil.
  - rewrite decide_False by tauto. reflexivity.
Qed.

(** X29. [removeEdge] splices the arrays of the two end nodes at the index
    the edge has in the array of the labyrinth.  For an edge between two
    different nodes that is in the array of the labyrinth: the call returns
    and the edge is gone from the array of the labyrinth, but it is gone from
    the array of an end node only if it has the same index there; otherwise
    it stays there, where [getEdge] and the search still find it. *)
Theorem removeEdge_uses_labyrinth_index (id1 id2 : string) (s : Labyrinth.t)
    (e : Edge.t) (p : nat) :
  Labyrinth.getEdge id1 id2 s = Ok e ->
  In e (Labyrinth.edges s) ->
  List.NoDup (map Edge.ref (Labyrinth.edges s)) ->
  Edge.node1 e <> Edge.node2 e ->
  p = Edge.node1 e \/ p = Edge.node2 e ->
  In e (Node.edges (Labyrinth.deref s p)) ->
  List.NoDup (map Edge.ref (Node.edges (Labyrinth.deref s p))) ->
  exists s',
    Labyrinth.removeEdge id1 id2 s = (Ok tt, s')
    /\ ~ In e (Labyrinth.edges s')
    /\ (In e (Node.edges (Labyrinth.deref s' p))
        <-> index_of Edge.same (Node.edges (Labyrinth.deref s p)) e
            <> index_of Edge.same (Labyrinth.edges s) e).
Proof.
  intros Hget Hin Hnd Hends Hp Hinp Hndp. unfold Labyrinth.removeEdge. rewrite Hget.
  eexists. split; [reflexivity |].
  destruct (index_of_found Edge.same Edge.ref _ e Edge_same_iff Hin Hnd) as [j [Hj Hlj]].
  destruct (index_of_found Edge.same Edge.ref _ e Edge_same_iff Hinp Hndp) as [jp [Hjp Hljp]].
  rewrite Hj, Hjp. split.
  - simpl. rewrite splice_nonneg by lia. rewrite Nat2Z.id. intros Hin'.
    apply (NoDup_delete_notin Edge.ref _ j e Hnd Hlj). apply in_map. exact Hin'.
  - assert (Hedges : Node.edges
               (Labyrinth.deref
                  (Labyrinth.update
                     (Labyrinth.update
                        (Labyrinth.mk (Labyrinth.heap s) (Labyrinth.next_ref s)
                           (Labyrinth.nodes s)
                           (splice (Labyrinth.edges s) (Z.of_nat j))
                           (Labyrinth.tokens s))
                        (Edge.node1 e) (Node.splice_edges (Z.of_nat j)))
                     (Edge.node2 e) (Node.splice_edges (Z.of_nat j))) p)
             = delete j (Node.edges (Labyrinth.deref s p))).
    { rewrite !edges_deref_splice.
      destruct Hp as [-> | ->].
      - rewrite decide_False by exact Hends. rewrite decide_True by reflexivity.
        rewrite splice_nonneg by lia. rewrite Nat2Z.id. reflexivity.
      - rewrite decide_True by reflexivity. rewrite decide_False by congruence.
        rewrite splice_nonneg by lia. rewrite Nat2Z.id. reflexivity. }
    rewrite Hedges. rewrite (In_delete_iff Edge.ref _ jp j e Hndp Hljp). lia.
Qed.

Lemma removeEdge_uses_labyrinth_index_witness :
  let s := Labyrinth.after
             [Labyrinth.AddNode "a"; Labyrinth.AddNode "b"; Labyrinth.AddNode "c";
              Labyrinth.AddEdge "a" "b"; Labyrinth.AddEdge "b" "c"] in
  let e := Edge.mk 1 1 2 in
  exists s',
    Labyrinth.removeEdge "b" "c" s = (Ok tt, s')
    /\ ~ In e (Labyrinth.edges s')
    /\ (In e (Node.edges (Labyrinth.deref s' 2%nat))
        <-> index_of Edge.same (Node.edges (Labyrinth.deref s 2%nat)) e
            <> index_of Edge.same (Labyrinth.edges s) e).
Proof.
  intros s e.
  apply (removeEdge_uses_labyrinth_index "b" "c" s e 2%nat).
  - reflexivity.
  - simpl. auto.
  - simpl. repeat constructor; simpl; intuition discriminate.
  - simpl. lia.
  - right. reflexivity.
  - simpl. auto.
  - simpl. repeat constructor; simpl; intuition discriminate.
Defined.

(** After [removeEdge("b", "c")] on the labyrinth of the witness the edge is
    still in the array of [c]: [getEdge("c", "b")] returns it, and the search
    still goes from a token on [c] to [a]. *)
Example removeEdge_leaves_edge :
  let s := Labyrinth.after
             [Labyrinth.AddNode "a"; Labyrinth.AddNode "b"; Labyrinth.AddNode "c";
              Labyrinth.AddEdge "a" "b"; Labyrinth.AddEdge "b" "c";
              Labyrinth.AddToken "red" "c"; Labyrinth.RemoveEdge "b" "c"] in
  Labyrinth.getEdge "b" "c" s = Throw "Edge connecting the given nodes does not exist"
  /\ Labyrinth.getEdge "c" "b" s = Ok (Edge.mk 1 1 2)
  /\ Labyrinth.isTherePathFromTokenToNode 4 "red" "a" s = Some (Ok true).
Proof. repeat split. Qed.

Lemma tokens_deref_update (s : Labyrinth.t) (r : nat) (f : Node.t -> Node.t) (p : nat) :
  (forall n, Node.tokens (f n) = Node.tokens n) ->
  Node.tokens (Labyrinth.deref (Labyrinth.update s r f) p)
  = Node.tokens (Labyrinth.deref s p).
Proof.
  intros Hf. rewrite deref_update. destruct (decide _); [apply Hf | reflexivity].
Qed.

Lemma removeEdge_keeps_tokens (id1 id2 : string) (s : Labyrinth.t) :
  Labyrinth.tokens (snd (Labyrinth.removeEdge id1 id2 s)) = Labyrinth.tokens s
  /\ Labyrinth.nodes (snd (Labyrinth.removeEdge id1 id2 s)) = Labyrinth.nodes s
  /\ forall p, Labyrinth.deref (snd (Labyrinth.removeEdge id1 id2 s)) p
               = Labyrinth.deref s p
               \/ (Node.tokens (Labyrinth.deref (snd (Labyrinth.removeEdge id1 id2 s)) p)
                   = Node.tokens (Labyrinth.deref s p)).
Proof.
  unfold Labyrinth.removeEdge.
  destruct (Labyrinth.getEdge id1 id2 s) as [e |]; simpl; [| auto].
  split; [reflexivity | split; [reflexivity |]]. intros p. right.
  rewrite !tokens_deref_update by reflexivity. reflexivity.
Qed.

Lemma removeToken_colors (tokenColor : string) (s : Labyrinth.t) (x : string) :
  In x (Labyrinth.colors (snd (Labyrinth.removeToken tokenColor s))) ->
  In x (Labyrinth.colors s).
Proof.
  unfold Labyrinth.removeToken.
  destruct (Labyrinth.getToken tokenColor s) as [k |]; simpl; [| auto].
  unfold Labyrinth.colors. simpl. rewrite !in_map_iff.
  intros [t [Ht Hin]]. exists t. split; [exact Ht | eapply In_splice; eauto].
Qed.

Lemma removeToken_loop_throws (k : Token.t) (l : list Token.t) (s : Labyrinth.t) :
  In k l -> ~ In (Token.color k) (Labyrinth.colors s) ->
  exists e s',
    Labyrinth.forEach (fun token => Labyrinth.removeToken (Token.color token)) l s
    = (Throw e, s').
Proof.
  revert s. induction l as [| a l IH]; intros s Hin Hc; [destruct Hin |].
  simpl. unfold Labyrinth.and_then.
  destruct (Labyrinth.removeToken (Token.color a) s) as [[[] | e] s1] eqn:E; [| eauto].
  assert (Hc1 : ~ In (Token.color k) (Labyrinth.colors s1)).
  { intros H. apply Hc. apply (removeToken_colors (Token.color a) s).
    rewrite E. exact H. }
  destruct Hin as [-> | Hin]; [| apply IH; assumption].
  exfalso. unfold Labyrinth.removeToken in E.
  destruct (Labyrinth.getToken (Token.color k) s) as [t |] eqn:Eg; [| discriminate].
  apply Hc. apply getToken_returns_iff. eauto.
Qed.

(** X30. [removeToken] splices the array of the token's node at the index the
    token has in the array of the labyrinth.  The call returns and no token of
    the labyrinth has the color afterwards, but the token is gone from the
    array of its node only if it has the same index there; otherwise it stays
    there, and [removeNode] of that node, called in the state [removeToken]
    has left, throws: it calls [removeToken] for the color again, and the
    labyrinth has no token of that color. *)
Theorem removeToken_uses_labyrinth_index (tokenColor : string) (s : Labyrinth.t)
    (k : Token.t) :
  Labyrinth.getToken tokenColor s = Ok k ->
  List.NoDup (Labyrinth.colors s) ->
  List.NoDup (map Token.ref (Labyrinth.tokens s)) ->
  In k (Node.tokens (Labyrinth.deref s (Token.node k))) ->
  List.NoDup (map Token.ref (Node.tokens (Labyrinth.deref s (Token.node k)))) ->
  exists s',
    Labyrinth.removeToken tokenColor s = (Ok tt, s')
    /\ ~ In tokenColor (Labyrinth.colors s')
    /\ (In k (Node.tokens (Labyrinth.deref s' (Token.node k)))
        <-> index_of Token.same (Node.tokens (Labyrinth.deref s (Token.node k))) k
            <> index_of Token.same (Labyrinth.tokens s) k)
    /\ (In k (Node.tokens (Labyrinth.deref s' (Token.node k))) ->
        forall id, Labyrinth.getNode id s' = Ok (Token.node k) ->
                   exists e s'', Labyrinth.removeNode id s' = (Throw e, s'')).
Proof.
  intros Hget Hcol Hnd Hinp Hndp.
  destruct (getToken_Ok s tokenColor k Hget) as [Hin Hcolor].
  unfold Labyrinth.removeToken. rewrite Hget.
  eexists. split; [reflexivity |].
  destruct (index_of_found Token.same Token.ref _ k Token_same_iff Hin Hnd) as [j [Hj Hlj]].
  destruct (index_of_found Token.same Token.ref _ k Token_same_iff Hinp Hndp)
    as [jp [Hjp Hljp]].
  rewrite Hj, Hjp.
  set (s' := Labyrinth.update _ _ _).
  assert (Hnot : ~ In tokenColor (Labyrinth.colors s')).
  { unfold s', Labyrinth.colors. simpl. rewrite splice_nonneg by lia. rewrite Nat2Z.id.
    rewrite <- Hcolor. apply (NoDup_delete_notin Token.color _ j k Hcol Hlj). }
  split; [exact Hnot | split].
  - unfold s'. rewrite tokens_deref_splice. rewrite decide_True by reflexivity.
    rewrite splice_nonneg by lia. rewrite Nat2Z.id.
    change (Labyrinth.deref (Labyrinth.mk (Labyrinth.heap s) (Labyrinth.next_ref s)
              (Labyrinth.nodes s) (Labyrinth.edges s)
              (splice (Labyrinth.tokens s) (Z.of_nat j))) (Token.node k))
      with (Labyrinth.deref s (Token.node k)).
    rewrite (In_delete_iff Token.ref _ jp j k Hndp Hljp). lia.
  - intros Hstays id Hid. unfold Labyrinth.removeNode. rewrite Hid.
    unfold Labyrinth.and_then at 1.
    match goal with |- context [Labyrinth.forEach ?f ?l s'] =>
      pose proof (forEach_keeps
                    (fun s1 => Labyrinth.tokens s1 = Labyrinth.tokens s'
                               /\ Node.tokens (Labyrinth.deref s1 (Token.node k))
                                  = Node.tokens (Labyrinth.deref s' (Token.node k)))
                    f l) as Hloop;
      destruct (Labyrinth.forEach f l s') as [[[] | e1] s1] eqn:Eloop
    end; [| eauto].
    assert (Hs1 : Labyrinth.tokens s1 = Labyrinth.tokens s'
                  /\ Node.tokens (Labyrinth.deref s1 (Token.node k))
                     = Node.tokens (Labyrinth.deref s' (Token.node k))).
    { specialize (Hloop ltac:(
        intros a s0 [H1 H2];
        destruct (removeEdge_keeps_tokens
                    (Node.id (Labyrinth.deref s0 (Edge.node1 a)))
                    (Node.id (Labyrinth.deref s0 (Edge.node2 a))) s0) as (Ht & _ & Hp);
        split; [congruence |];
        destruct (Hp (Token.node k)) as [Hd | Hd]; rewrite Hd; exact H2)
        s' (conj eq_refl eq_refl)).
      rewrite Eloop in Hloop. exact Hloop. }
    destruct Hs1 as [Ht1 Hn1].
    unfold Labyrinth.and_then.
    destruct (removeToken_loop_throws k (Node.tokens (Labyrinth.deref s1 (Token.node k))) s1)
      as [e [s2 Hthrow]].
    + rewrite Hn1. exact Hstays.
    + unfold Labyrinth.colors. rewrite Ht1, Hcolor. exact Hnot.
    + rewrite Hthrow. eauto.
Qed.

Lemma removeToken_uses_labyrinth_index_witness :
  let s := Labyrinth.after
             [Labyrinth.AddNode "a"; Labyrinth.AddNode "b";
              Labyrinth.AddToken "red" "a"; Labyrinth.AddToken "blue" "b"] in
  let k := Token.mk 1 "blue" 1 in
  exists s',
    Labyrinth.removeToken "blue" s = (Ok tt, s')
    /\ ~ In "blue" (Labyrinth.colors s')
    /\ (In k (Node.tokens (Labyrinth.deref s' (Token.node k)))
        <-> index_of Token.same (Node.tokens (Labyrinth.deref s (Token.node k))) k
            <> index_of Token.same (Labyrinth.tokens s) k)
    /\ (In k (Node.tokens (Labyrinth.deref s' (Token.node k))) ->
        forall id, Labyrinth.getNode id s' = Ok (Token.node k) ->
                   exists e s'', Labyrinth.removeNode id s' = (Throw e, s'')).
Proof.
  intros s k.
  apply (removeToken_uses_labyrinth_index "blue" s k).
  - reflexivity.
  - simpl. repeat constructor; simpl; intuition discriminate.
  - simpl. repeat constructor; simpl; intuition discriminate.
  - simpl. auto.
  - simpl. repeat constructor; simpl; intuition discriminate.
Defined.

(** Right after [removeToken("blue")] on the labyrinth of the witness,
    [removeNode("b")] throws and leaves the node in the labyrinth. *)
Example removeToken_blocks_removeNode :
  let s := Labyrinth.after
             [Labyrinth.AddNode "a"; Labyrinth.AddNode "b";
              Labyrinth.AddToken "red" "a"; Labyrinth.AddToken "blue" "b";
              Labyrinth.RemoveToken "blue"] in
  fst (Labyrinth.removeNode "b" s) = Throw "Token with the given color does not exist"
  /\ Labyrinth.ids (snd (Labyrinth.removeNode "b" s)) = ["a"; "b"].
Proof. split; reflexivity. Qed.
